(** * pyminidb: paged storage and B+Tree index

    A shallow embedding of the storage core of pyminidb
    ([src/storage/page.py], [src/storage/storage_manager.py],
    [src/index/simple_bplus_tree.py], [src/index/bplus_tree.py]) and the
    properties of its specification that can be settled on it.

    Python integers are [Z]; [bytes] and [bytearray] values are lists of
    [Byte.byte]; a raised exception is the [Raise] outcome of [result]. *)

From Stdlib Require Import ZArith NArith Lia Bool.
From Stdlib.Strings Require Import Byte String.
From stdpp Require Import base option list gmap strings sorting.

Local Open Scope Z_scope.

(** ** Outcomes: a returned value or a raised exception *)

Inductive pyerr :=
  | StructError | UnicodeEncodeError | TypeError | ValueError | IndexError
  | RuntimeError | RecursionError | OSError | FileExistsError | FileNotFoundError
  | AttributeError | NonTermination.

Inductive result (A : Type) :=
  | Ok (a : A)
  | Raise (e : pyerr).
Arguments Ok {A} a.
Arguments Raise {A} e.

#[global] Instance result_ret : MRet result := fun A a => Ok a.
#[global] Instance result_bind : MBind result := fun A B f m =>
  match m with Ok a => f a | Raise e => Raise e end.
#[global] Instance result_fmap : FMap result := fun A B f m =>
  match m with Ok a => Ok (f a) | Raise e => Raise e end.

Definition is_Ok {A} (r : result A) : Prop := exists a, r = Ok a.

(** [l[i]] for a list and a non-negative index that is known to be one:
    an [IndexError] outside the list. *)
Definition index {A} (l : list A) (i : nat) : result A :=
  match l !! i with Some x => Ok x | None => Raise IndexError end.

(** Sequencing a fallible step over a list (a [for] loop that builds a list). *)
Fixpoint mapR {A B} (f : A -> result B) (l : list A) : result (list B) :=
  match l with
  | [] => Ok []
  | x :: l' => y ← f x; ys ← mapR f l'; Ok (y :: ys)
  end.

(** ** Bytes *)

Notation bytes := (list byte).

#[global] Instance byte_eq_dec : EqDecision byte := Byte.byte_eq_dec.
Lemma byte_of_to_N (b : byte) : default x00 (Byte.of_N (Byte.to_N b)) = b.
Proof. by rewrite Byte.of_to_N. Qed.
#[global] Instance byte_countable : Countable byte :=
  inj_countable' Byte.to_N (fun n => default x00 (Byte.of_N n)) byte_of_to_N.

Definition byte_of_Z (z : Z) : byte :=
  default x00 (Byte.of_N (Z.to_N (z mod 256))).
Definition Z_of_byte (b : byte) : Z := Z.of_N (Byte.to_N b).

(** Python's comparison of [bytes]: lexicographic on the unsigned byte
    values, a proper prefix being smaller. *)
Fixpoint bytes_ltb (a b : bytes) : bool :=
  match a, b with
  | [], [] => false
  | [], _ :: _ => true
  | _ :: _, [] => false
  | x :: a', y :: b' =>
      if Z_of_byte x <? Z_of_byte y then true
      else if Z_of_byte y <? Z_of_byte x then false
      else bytes_ltb a' b'
  end.
Definition bytes_leb (a b : bytes) : bool := negb (bytes_ltb b a).
Definition bytes_eqb (a b : bytes) : bool := bool_decide (a = b).

(** ** [struct.pack] / [struct.unpack] for unsigned fields *)

(** The [n] low bytes of [v], least significant first. *)
Fixpoint le_bytes (n : nat) (v : Z) : bytes :=
  match n with
  | O => []
  | S n' => byte_of_Z v :: le_bytes n' (v / 256)
  end.
Definition be_bytes (n : nat) (v : Z) : bytes := reverse (le_bytes n v).

Fixpoint le_value (l : bytes) : Z :=
  match l with
  | [] => 0
  | b :: l' => Z_of_byte b + 256 * le_value l'
  end.

(** [struct.pack] of one unsigned field of [n] bytes: a [struct.error]
    when the value does not fit. *)
Definition pack_le (n : nat) (v : Z) : result bytes :=
  if (0 <=? v) && (v <? 2 ^ (8 * Z.of_nat n)) then Ok (le_bytes n v)
  else Raise StructError.
Definition pack_be (n : nat) (v : Z) : result bytes :=
  if (0 <=? v) && (v <? 2 ^ (8 * Z.of_nat n)) then Ok (be_bytes n v)
  else Raise StructError.

(** [b.ljust(n, b'\x00')] *)
Definition ljust (n : nat) (b : bytes) : bytes :=
  b ++ replicate (n - length b) x00.

(** ** Python keys *)

(** A [str] is its sequence of code points. *)
Notation pystr := (list Z).

(** [s.encode('utf-8')]; a lone surrogate raises [UnicodeEncodeError]. *)
Definition utf8_char (c : Z) : result bytes :=
  if c <? 0x80 then Ok [byte_of_Z c]
  else if c <? 0x800 then
    Ok [byte_of_Z (Z.lor 0xC0 (Z.shiftr c 6));
        byte_of_Z (Z.lor 0x80 (Z.land c 0x3F))]
  else if c <? 0x10000 then
    if (0xD800 <=? c) && (c <=? 0xDFFF) then Raise UnicodeEncodeError
    else
      Ok [byte_of_Z (Z.lor 0xE0 (Z.shiftr c 12));
          byte_of_Z (Z.lor 0x80 (Z.land (Z.shiftr c 6) 0x3F));
          byte_of_Z (Z.lor 0x80 (Z.land c 0x3F))]
  else
    Ok [byte_of_Z (Z.lor 0xF0 (Z.shiftr c 18));
        byte_of_Z (Z.lor 0x80 (Z.land (Z.shiftr c 12) 0x3F));
        byte_of_Z (Z.lor 0x80 (Z.land (Z.shiftr c 6) 0x3F));
        byte_of_Z (Z.lor 0x80 (Z.land c 0x3F))].

Definition encode_utf8 (s : pystr) : result bytes :=
  chunks ← mapR utf8_char s; Ok (concat chunks).

(** [str(b)] of a [bytes] object [b], which is its [repr]: the letter b
    and the content between quotes, with escapes; the quote is the double
    quote (34) when the content has a single quote (39) and no double one. *)
Definition hex_digit (d : Z) : Z := if d <? 10 then 48 + d else 87 + d.

Definition repr_byte (quote : Z) (b : byte) : pystr :=
  let c := Z_of_byte b in
  if (c =? quote) || (c =? 92) then [92; c]
  else if c =? 9 then [92; 116]
  else if c =? 10 then [92; 110]
  else if c =? 13 then [92; 114]
  else if (c <? 32) || (127 <=? c) then [92; 120; hex_digit (c / 16); hex_digit (c mod 16)]
  else [c].

Definition bytes_repr (b : bytes) : pystr :=
  let has q := existsb (fun x => Z_of_byte x =? q) b in
  let quote := if has 39 && negb (has 34) then 34 else 39 in
  [98; quote] ++ concat (map (repr_byte quote) b) ++ [quote].

(** The keys a caller can pass: an [int], a [str], a [bytes], or an object
    of any other type, of which the code only ever uses [str(key)]. *)
Inductive pykey :=
  | KInt (k : Z)
  | KStr (s : pystr)
  | KBytes (b : bytes)
  | KOther (str_of : pystr).

(** [l[:k]] for a possibly negative bound [k]. *)
Definition slice_to {A} (l : list A) (k : Z) : list A :=
  if 0 <=? k then take (Z.to_nat k) l
  else take (Z.to_nat (Z.of_nat (length l) + k)) l.

(** ** Key serialization of the two trees *)

Module BPlusTreeKeys.

(** [BPlusTreeConfig] of [bplus_tree.py] *)
Record BPlusTreeConfig := {
  order : Z;
  key_size : Z;
  value_size : Z
}.

Definition default_config : BPlusTreeConfig :=
  {| order := 4; key_size := 8; value_size := 8 |}.

(** [BPlusTree._serialize_key] *)
Definition _serialize_key (config : BPlusTreeConfig) (key : pykey) : result bytes :=
  match key with
  | KInt k => pack_le 8 k
  | KStr s =>
      encoded ← encode_utf8 s;
      if key_size config <? Z.of_nat (length encoded)
      then Ok (slice_to encoded (key_size config))
      else Ok (ljust (Z.to_nat (key_size config)) encoded)
  | KBytes b => Ok b
  | KOther _ => Raise TypeError
  end.

End BPlusTreeKeys.

(** [SimpleBPlusTree._serialize_key] *)
Definition _serialize_key (key : pykey) : result bytes :=
  match key with
  | KInt k => pack_be 8 k
  | KStr s => encode_utf8 s
  | KBytes b => encode_utf8 (bytes_repr b)
  | KOther s => encode_utf8 s
  end.

(** What [SimpleBPlusTree._deserialize_key] returns: an [int] or a [str]. *)
Inductive pyvalue :=
  | VInt (n : Z)
  | VStr (s : pystr).

(** [SimpleBPlusTree._deserialize_key]: [struct.unpack] with the format
    [>Q] returns for eight bytes and raises otherwise, and the bare
    [except] then decodes the bytes; [decode_ignore] stands for
    [bytes.decode('utf-8', errors='ignore')], which is not modelled. *)
Definition _deserialize_key (decode_ignore : bytes -> pystr) (key_bytes : bytes)
  : pyvalue :=
  if (length key_bytes =? 8)%nat then VInt (le_value (reverse key_bytes))
  else VStr (decode_ignore key_bytes).

(** ** Pages ([src/storage/page.py]) *)

Module Page.

Inductive PageType := FREE | DATA | INDEX | CATALOG | FREE_SPACE_MAP.

Definition PageType_value (t : PageType) : Z :=
  match t with
  | FREE => 0 | DATA => 1 | INDEX => 2 | CATALOG => 3 | FREE_SPACE_MAP => 4
  end.

(** [PageType(v)]: a [ValueError] when [v] is no member's value. *)
Definition PageType_of (v : Z) : result PageType :=
  if v =? 0 then Ok FREE
  else if v =? 1 then Ok DATA
  else if v =? 2 then Ok INDEX
  else if v =? 3 then Ok CATALOG
  else if v =? 4 then Ok FREE_SPACE_MAP
  else Raise ValueError.

Definition PAGE_SIZE : Z := 4096.
Definition HEADER_SIZE : Z := 8 + 1 + 4 + 2 + 2 + 8 + 4.
Definition DATA_SIZE : Z := PAGE_SIZE - HEADER_SIZE.

Record Page := {
  page_id : Z;
  page_type : PageType;
  table_id : Z;
  free_space_start : Z;
  free_space_end : Z;
  lsn : Z;
  checksum : Z;
  data : bytes;
  dirty : bool
}.

(** [Page.__init__] *)
Definition new (page_id : Z) (page_type : PageType) (table_id : Z) : Page :=
  {| page_id := page_id; page_type := page_type; table_id := table_id;
     free_space_start := HEADER_SIZE; free_space_end := PAGE_SIZE;
     lsn := 0; checksum := 0;
     data := replicate (Z.to_nat DATA_SIZE) x00; dirty := false |}.

(** [struct.pack(HEADER_FORMAT, ...)] with the format [<Q B I H H Q I]:
    little-endian, no padding. *)
Definition pack_header (page_id page_type table_id fs_start fs_end lsn checksum : Z)
  : result bytes :=
  b1 ← pack_le 8 page_id;
  b2 ← pack_le 1 page_type;
  b3 ← pack_le 4 table_id;
  b4 ← pack_le 2 fs_start;
  b5 ← pack_le 2 fs_end;
  b6 ← pack_le 8 lsn;
  b7 ← pack_le 4 checksum;
  Ok (b1 ++ b2 ++ b3 ++ b4 ++ b5 ++ b6 ++ b7).

(** The loop of [_calculate_checksum] over [n] chunks of four bytes; the
    last chunk is padded with zeros. *)
Fixpoint xor_chunks (n : nat) (data : bytes) (acc : Z) : Z :=
  match n with
  | O => acc
  | S n' => xor_chunks n' (drop 4 data) (Z.lxor acc (le_value (ljust 4 (take 4 data))))
  end.

(** [Page._calculate_checksum] *)
Definition _calculate_checksum (data : bytes) : Z :=
  if (length data <? 4)%nat then 0
  else Z.land (xor_chunks ((length data + 3) / 4)%nat data 0) 0xFFFFFFFF.

(** [Page.serialize]: returns the bytes and leaves the page with its
    [checksum] attribute updated. *)
Definition serialize (p : Page) : result (bytes * Page) :=
  header ← pack_header (page_id p) (PageType_value (page_type p)) (table_id p)
             (free_space_start p) (free_space_end p) (lsn p) (checksum p);
  let c := _calculate_checksum (header ++ data p) in
  let p' := {| page_id := page_id p; page_type := page_type p; table_id := table_id p;
               free_space_start := free_space_start p;
               free_space_end := free_space_end p;
               lsn := lsn p; checksum := c; data := data p; dirty := dirty p |} in
  header ← pack_header (page_id p') (PageType_value (page_type p')) (table_id p')
             (free_space_start p') (free_space_end p') (lsn p') (checksum p');
  Ok (header ++ data p', p').

(** The field of [n] bytes at offset [off] of a header. *)
Definition field (header : bytes) (off n : nat) : Z :=
  le_value (take n (drop off header)).

(** [Page.deserialize] *)
Definition deserialize (page_id : Z) (raw_data : bytes) : result Page :=
  if negb (Z.of_nat (length raw_data) =? PAGE_SIZE) then Raise ValueError
  else
    let header := take (Z.to_nat HEADER_SIZE) raw_data in
    let page_id_val := field header 0 8 in
    let page_type_val := field header 8 1 in
    let table_id_val := field header 9 4 in
    let free_space_start := field header 13 2 in
    let free_space_end := field header 15 2 in
    let lsn := field header 17 8 in
    let checksum := field header 25 4 in
    ty ← PageType_of page_type_val;
    Ok {| page_id := page_id_val; page_type := ty; table_id := table_id_val;
          free_space_start := free_space_start; free_space_end := free_space_end;
          lsn := lsn; checksum := checksum;
          data := drop (Z.to_nat HEADER_SIZE) (take (Z.to_nat PAGE_SIZE) raw_data);
          dirty := false |}.

(** [Page.allocate_space]: the returned offset ([None] when the page has
    no room) and the page afterwards. *)
Definition allocate_space (p : Page) (size : Z) : option Z * Page :=
  if free_space_start p + size <=? free_space_end p then
    (Some (free_space_start p),
     {| page_id := page_id p; page_type := page_type p; table_id := table_id p;
        free_space_start := free_space_start p + size;
        free_space_end := free_space_end p;
        lsn := lsn p; checksum := checksum p; data := data p; dirty := true |})
  else (None, p).

(** [l[start:stop]] for any two integers: a negative index counts from
    the end, and both are clipped to the list. *)
Definition slice_index (n : Z) (i : Z) : Z :=
  if i <? 0 then Z.max 0 (n + i) else Z.min i n.
Definition slice {A} (l : list A) (start stop : Z) : list A :=
  let a := slice_index (Z.of_nat (length l)) start in
  let b := slice_index (Z.of_nat (length l)) stop in
  take (Z.to_nat (b - a)) (drop (Z.to_nat a) l).

(** [l[start:stop] = b] on a [bytearray]: the slice, empty when
    [stop] is before [start], is replaced by [b]. *)
Definition slice_assign {A} (l : list A) (start stop : Z) (b : list A) : list A :=
  let a := slice_index (Z.of_nat (length l)) start in
  let e := Z.max a (slice_index (Z.of_nat (length l)) stop) in
  take (Z.to_nat a) l ++ b ++ drop (Z.to_nat e) l.

Definition set_data (p : Page) (d : bytes) : Page :=
  {| page_id := page_id p; page_type := page_type p; table_id := table_id p;
     free_space_start := free_space_start p; free_space_end := free_space_end p;
     lsn := lsn p; checksum := checksum p; data := d; dirty := true |}.

(** [Page.write_data] *)
Definition write_data (p : Page) (offset : Z) (d : bytes) : result Page :=
  if (offset <? HEADER_SIZE) || (PAGE_SIZE <? offset + Z.of_nat (length d))
  then Raise ValueError
  else
    let data_offset := offset - HEADER_SIZE in
    Ok (set_data p
          (slice_assign (data p) data_offset (data_offset + Z.of_nat (length d)) d)).

(** [Page.read_data] *)
Definition read_data (p : Page) (offset size : Z) : result bytes :=
  if (offset <? HEADER_SIZE) || (PAGE_SIZE <? offset + size)
  then Raise ValueError
  else
    let data_offset := offset - HEADER_SIZE in
    Ok (slice (data p) data_offset (data_offset + size)).

(** A page whose attributes fit the fields of the header and whose data
    region has its size. *)
Definition valid (p : Page) : Prop :=
  0 <= page_id p < 2 ^ 64 /\
  0 <= table_id p < 2 ^ 32 /\
  0 <= free_space_start p < 2 ^ 16 /\
  0 <= free_space_end p < 2 ^ 16 /\
  0 <= lsn p < 2 ^ 64 /\
  0 <= checksum p < 2 ^ 32 /\
  Z.of_nat (length (data p)) = DATA_SIZE.

End Page.

(** ** The storage manager ([src/storage/storage_manager.py]) *)

Module Storage.

(** [range(lo, hi)] *)
Definition zrange (lo hi : Z) : list Z :=
  map (fun i => lo + Z.of_nat i) (seq 0 (Z.to_nat (hi - lo))).

(** A file is its content. Reading [n] bytes at offset [off] returns what
    is there, possibly less; writing past the end fills the gap with zero
    bytes. *)
Definition file_read (content : bytes) (off n : nat) : bytes :=
  take n (drop off content).
Definition file_write (content : bytes) (off : nat) (b : bytes) : bytes :=
  take off content ++ replicate (off - length content) x00 ++ b
  ++ drop (off + length b) content.

Definition HEADER_SIZE : Z := 4096.
Definition MAGIC_NUMBER : Z := 0x504D4442.

Record DatabaseHeader := {
  magic : Z;
  page_size : Z;
  db_size : Z;
  catalog_root : Z;
  free_list_head : Z;
  last_transaction_id : Z;
  checksum : Z
}.

(** [DatabaseHeader.__init__] *)
Definition new_header : DatabaseHeader :=
  {| magic := MAGIC_NUMBER; page_size := Page.PAGE_SIZE; db_size := 0;
     catalog_root := 0; free_list_head := 0; last_transaction_id := 0;
     checksum := 0 |}.

Definition set_db_size (h : DatabaseHeader) (n : Z) : DatabaseHeader :=
  {| magic := magic h; page_size := page_size h; db_size := n;
     catalog_root := catalog_root h; free_list_head := free_list_head h;
     last_transaction_id := last_transaction_id h; checksum := checksum h |}.

(** [DatabaseHeader.serialize]: format [<I I Q Q Q Q I], padded to a page. *)
Definition header_serialize (h : DatabaseHeader) : result bytes :=
  b1 ← pack_le 4 (magic h);
  b2 ← pack_le 4 (page_size h);
  b3 ← pack_le 8 (db_size h);
  b4 ← pack_le 8 (catalog_root h);
  b5 ← pack_le 8 (free_list_head h);
  b6 ← pack_le 8 (last_transaction_id h);
  b7 ← pack_le 4 (checksum h);
  Ok (ljust (Z.to_nat HEADER_SIZE) (b1 ++ b2 ++ b3 ++ b4 ++ b5 ++ b6 ++ b7)).

(** [DatabaseHeader.deserialize] *)
Definition header_deserialize (data : bytes) : result DatabaseHeader :=
  if (length data <? 44)%nat then Raise ValueError
  else
    let d := take 44 data in
    let magic := Page.field d 0 4 in
    if negb (magic =? MAGIC_NUMBER) then Raise ValueError
    else
      Ok {| magic := magic; page_size := Page.field d 4 4;
            db_size := Page.field d 8 8; catalog_root := Page.field d 16 8;
            free_list_head := Page.field d 24 8;
            last_transaction_id := Page.field d 32 8;
            checksum := Page.field d 40 4 |}.

(** The manager and the file at its path: [disk] is the content of the
    file, [None] when there is no file; [is_open] tells whether the
    manager holds a handle on it. *)
Record StorageManager := {
  disk : option bytes;
  header : DatabaseHeader;
  is_open : bool
}.

(** [StorageManager.__init__], given what is at the path. *)
Definition new (disk : option bytes) : StorageManager :=
  {| disk := disk; header := new_header; is_open := false |}.

(** The bytes of a fresh free page, as written by [create_database] and
    [_extend_file]. *)
Definition free_page_bytes (page_id : Z) : result bytes :=
  r ← Page.serialize (Page.new page_id Page.FREE 0); Ok r.1.

(** [StorageManager.create_database] *)
Definition create_database (sm : StorageManager) (overwrite : bool)
  : result StorageManager :=
  if bool_decide (is_Some (disk sm)) && negb overwrite then Raise FileExistsError
  else
    let initial_pages := 10 in
    let header' := set_db_size (header sm) initial_pages in
    hb ← header_serialize header';
    pages ← mapR free_page_bytes (zrange 1 initial_pages);
    Ok {| disk := Some (hb ++ concat pages); header := header';
          is_open := is_open sm |}.

(** [StorageManager.open] *)
Definition open (sm : StorageManager) : result StorageManager :=
  match disk sm with
  | None => Raise FileNotFoundError
  | Some content =>
      let header_data := file_read content 0 (Z.to_nat HEADER_SIZE) in
      h ← header_deserialize header_data;
      if negb (page_size h =? Page.PAGE_SIZE) then Raise ValueError
      else Ok {| disk := disk sm; header := h; is_open := true |}
  end.

(** [StorageManager.close] *)
Definition close (sm : StorageManager) : StorageManager :=
  {| disk := disk sm; header := header sm; is_open := false |}.

(** [StorageManager.read_page] *)
Definition read_page (sm : StorageManager) (page_id : Z) : result Page.Page :=
  if negb (is_open sm) then Raise RuntimeError
  else if db_size (header sm) <=? page_id then Raise ValueError
  else
    let offset := page_id * Page.PAGE_SIZE in
    if offset <? 0 then Raise OSError
    else
      match disk sm with
      | None => Raise OSError
      | Some content =>
          let page_data := file_read content (Z.to_nat offset) (Z.to_nat Page.PAGE_SIZE) in
          if negb (Z.of_nat (length page_data) =? Page.PAGE_SIZE) then Raise ValueError
          else Page.deserialize page_id page_data
      end.

(** [StorageManager._extend_file] *)
Definition _extend_file (sm : StorageManager) (new_size : Z)
  : result StorageManager :=
  if new_size <=? db_size (header sm) then Ok sm
  else
    let old_size := db_size (header sm) in
    if negb (is_open sm) then Raise AttributeError
    else if old_size * Page.PAGE_SIZE <? 0 then Raise OSError
    else
      match disk sm with
      | None => Raise OSError
      | Some content =>
          pages ← mapR free_page_bytes (zrange old_size new_size);
          let content1 :=
            file_write content (Z.to_nat (old_size * Page.PAGE_SIZE)) (concat pages) in
          let header' := set_db_size (header sm) new_size in
          hb ← header_serialize header';
          Ok {| disk := Some (file_write content1 0 hb); header := header';
                is_open := is_open sm |}
      end.

(** [StorageManager.write_page]: the manager afterwards and the page, whose
    [checksum] and [dirty] attributes the call updates. *)
Definition write_page (sm : StorageManager) (page : Page.Page)
  : result (StorageManager * Page.Page) :=
  if negb (is_open sm) then Raise RuntimeError
  else
    sm1 ← (if db_size (header sm) <=? Page.page_id page
           then _extend_file sm (Page.page_id page + 1) else Ok sm);
    let offset := Page.page_id page * Page.PAGE_SIZE in
    if offset <? 0 then Raise OSError
    else
      match disk sm1 with
      | None => Raise OSError
      | Some content =>
          r ← Page.serialize page;
          let page' := r.2 in
          Ok ({| disk := Some (file_write content (Z.to_nat offset) r.1);
                 header := header sm1; is_open := is_open sm1 |},
              {| Page.page_id := Page.page_id page';
                 Page.page_type := Page.page_type page';
                 Page.table_id := Page.table_id page';
                 Page.free_space_start := Page.free_space_start page';
                 Page.free_space_end := Page.free_space_end page';
                 Page.lsn := Page.lsn page'; Page.checksum := Page.checksum page';
                 Page.data := Page.data page'; Page.dirty := false |})
      end.

(** [StorageManager.allocate_page] *)
Definition allocate_page (sm : StorageManager) (page_type : Page.PageType)
  (table_id : Z) : result (StorageManager * Page.Page) :=
  let new_page_id := db_size (header sm) in
  sm1 ← _extend_file sm (new_page_id + 1);
  write_page sm1 (Page.new new_page_id page_type table_id).

End Storage.

(** ** The B+Tree of the index manager ([src/index/simple_bplus_tree.py]) *)

(** [while idx < len(l) and p(l[idx]): idx += 1] *)
Fixpoint count_while {A} (p : A -> bool) (l : list A) : nat :=
  match l with
  | x :: l' => if p x then S (count_while p l') else O
  | [] => O
  end.

(** [l.insert(i, x)] for [0 <= i] *)
Definition insert_at {A} (i : nat) (x : A) (l : list A) : list A :=
  take i l ++ x :: drop i l.

(** The index of the first element that satisfies [p] *)
Fixpoint find_index {A} (p : A -> bool) (l : list A) : option nat :=
  match l with
  | [] => None
  | x :: l' => if p x then Some O else S <$> find_index p l'
  end.

Module Simple.

Section tree.

(** The values of the index are opaque to the tree; [==] on them is
    decidable equality. *)
Context {V : Type} `{!EqDecision V}.

(** [TreeNode]. Nodes are objects: a node is named by its address in the
    store [heap], and [children] and [next_leaf] hold addresses. *)
Record TreeNode := {
  keys : list bytes;
  values : list V;
  children : option (list nat);
  next_leaf : option nat;
  is_leaf : bool
}.

(** The constructor with [__post_init__] *)
Definition TreeNode_new (keys : list bytes) (values : list V)
  (children : option (list nat)) (next_leaf : option nat) (is_leaf : bool)
  : TreeNode :=
  {| keys := keys; values := values;
     children := match children with
                 | None => if negb is_leaf then Some [] else None
                 | Some c => Some c
                 end;
     next_leaf := next_leaf; is_leaf := is_leaf |}.

Definition set_keys (n : TreeNode) (ks : list bytes) : TreeNode :=
  {| keys := ks; values := values n; children := children n;
     next_leaf := next_leaf n; is_leaf := is_leaf n |}.
Definition set_values (n : TreeNode) (vs : list V) : TreeNode :=
  {| keys := keys n; values := vs; children := children n;
     next_leaf := next_leaf n; is_leaf := is_leaf n |}.
Definition set_children (n : TreeNode) (cs : option (list nat)) : TreeNode :=
  {| keys := keys n; values := values n; children := cs;
     next_leaf := next_leaf n; is_leaf := is_leaf n |}.
Definition set_next_leaf (n : TreeNode) (nx : option nat) : TreeNode :=
  {| keys := keys n; values := values n; children := children n;
     next_leaf := nx; is_leaf := is_leaf n |}.

(** [SimpleBPlusTree]: the attributes of the tree object and the store of
    its nodes. *)
Record SimpleBPlusTree := {
  order : Z;
  root : nat;
  heap : list TreeNode;
  key_to_value : gmap bytes V
}.

(** [SimpleBPlusTree.__init__] *)
Definition new (order : Z) : SimpleBPlusTree :=
  {| order := order; root := O;
     heap := [TreeNode_new [] [] None None true];
     key_to_value := ∅ |}.

(** Reading the node at an address; every address the tree holds is
    allocated, so the error is never met. *)
Definition deref (h : list TreeNode) (a : nat) : result TreeNode :=
  match h !! a with Some n => Ok n | None => Raise RuntimeError end.

(** The recursion depth granted to a traversal of the store [h]: more
    than the number of its nodes, so that only a traversal of a cyclic
    structure exhausts it. *)
Definition depth (h : list TreeNode) : nat := S (length h).

(** Element-wise comparison of two lists of the same length, up to the
    first difference. *)
Fixpoint all2 (f : nat -> nat -> result bool) (l1 l2 : list nat) : result bool :=
  match l1, l2 with
  | x :: l1', y :: l2' => r ← f x y; if r : bool then all2 f l1' l2' else Ok false
  | _, _ => Ok true
  end.

(** [a == b] on nodes: the [__eq__] that [@dataclass] generates compares
    the tuples of the fields, in order, up to the first difference;
    inside the tuples and lists an object equals itself. *)
Fixpoint TreeNode_eq (fuel : nat) (h : list TreeNode) (a b : nat) : result bool :=
  match fuel with
  | O => Raise RecursionError
  | S f =>
      let same x y := if bool_decide (x = y) then Ok true else TreeNode_eq f h x y in
      na ← deref h a;
      nb ← deref h b;
      if negb (bool_decide (keys na = keys nb)) then Ok false
      else if negb (bool_decide (values na = values nb)) then Ok false
      else
        c ← match children na, children nb with
            | None, None => Ok true
            | Some ca, Some cb =>
                if negb (length ca =? length cb)%nat then Ok false else all2 same ca cb
            | _, _ => Ok false
            end;
        if negb c then Ok false
        else
          n ← match next_leaf na, next_leaf nb with
              | None, None => Ok true
              | Some x, Some y => same x y
              | _, _ => Ok false
              end;
          if negb n then Ok false
          else Ok (bool_decide (is_leaf na = is_leaf nb))
  end.

(** [target in l] on a list of nodes: identity first, then [==]. *)
Fixpoint contains (h : list TreeNode) (l : list nat) (target : nat) : result bool :=
  match l with
  | [] => Ok false
  | x :: l' =>
      r ← (if bool_decide (x = target) then Ok true
           else TreeNode_eq (depth h) h x target);
      if r : bool then Ok true else contains h l' target
  end.

(** [SimpleBPlusTree._find_leaf] *)
Fixpoint _find_leaf (fuel : nat) (h : list TreeNode) (node : nat)
  (key_bytes : bytes) : result nat :=
  match fuel with
  | O => Raise RecursionError
  | S f =>
      n ← deref h node;
      if is_leaf n then Ok node
      else
        let idx := count_while (fun k => negb (bytes_ltb key_bytes k)) (keys n) in
        match children n with
        | None => Raise TypeError
        | Some cs => c ← index cs idx; _find_leaf f h c key_bytes
        end
  end.

(** [SimpleBPlusTree._insert_into_leaf] *)
Definition _insert_into_leaf (h : list TreeNode) (leaf : nat) (key : bytes)
  (value : V) : result (list TreeNode) :=
  n ← deref h leaf;
  let idx := count_while (fun k => bytes_ltb k key) (keys n) in
  Ok (<[leaf := set_values (set_keys n (insert_at idx key (keys n)))
                  (insert_at idx value (values n))]> h).

(** [SimpleBPlusTree._find_parent]: [Ok None] is the returned [None]. *)
Fixpoint _find_parent (fuel : nat) (h : list TreeNode) (root target : nat)
  : result (option nat) :=
  match fuel with
  | O => Raise RecursionError
  | S f =>
      r ← deref h root;
      if is_leaf r then Ok None
      else
        match children r with
        | None => Raise TypeError
        | Some cs =>
            b ← contains h cs target;
            if b : bool then Ok (Some root)
            else
              (fix loop (l : list nat) : result (option nat) :=
                 match l with
                 | [] => Ok None
                 | child :: l' =>
                     p ← _find_parent f h child target;
                     match p with
                     | Some x => Ok (Some x)
                     | None => loop l'
                     end
                 end) cs
        end
  end.

Definition set_heap (st : SimpleBPlusTree) (h : list TreeNode) : SimpleBPlusTree :=
  {| order := order st; root := root st; heap := h;
     key_to_value := key_to_value st |}.
Definition set_root (st : SimpleBPlusTree) (r : nat) : SimpleBPlusTree :=
  {| order := order st; root := r; heap := heap st;
     key_to_value := key_to_value st |}.
Definition set_map (st : SimpleBPlusTree) (m : gmap bytes V) : SimpleBPlusTree :=
  {| order := order st; root := root st; heap := heap st; key_to_value := m |}.

(** The branch of the two split functions that makes a new root. *)
Definition make_root (st : SimpleBPlusTree) (promote_key : bytes)
  (left right : nat) : SimpleBPlusTree :=
  let new_root :=
    set_children (TreeNode_new [promote_key] [] None None false)
      (Some [left; right]) in
  set_root (set_heap st (heap st ++ [new_root])) (length (heap st)).

(** [SimpleBPlusTree._split_internal], given [_insert_into_internal]. *)
Definition _split_internal_with
  (insert_into_internal :
     SimpleBPlusTree -> nat -> bytes -> nat -> nat -> result SimpleBPlusTree)
  (st : SimpleBPlusTree) (node : nat) : result SimpleBPlusTree :=
  n ← deref (heap st) node;
  let mid := (length (keys n) / 2)%nat in
  promote_key ← index (keys n) mid;
  match children n with
  | None => Raise TypeError
  | Some cs =>
      let new_node :=
        TreeNode_new (drop (S mid) (keys n)) [] (Some (drop (S mid) cs)) None false in
      let new_id := length (heap st) in
      let h1 := heap st ++ [new_node] in
      let h2 := <[node := set_children (set_keys n (take mid (keys n)))
                            (Some (take (S mid) cs))]> h1 in
      let st2 := set_heap st h2 in
      parent ← _find_parent (depth h2) h2 (root st2) node;
      match parent with
      | None => Ok (make_root st2 promote_key node new_id)
      | Some p => insert_into_internal st2 p promote_key node new_id
      end
  end.

(** [SimpleBPlusTree._insert_into_internal] *)
Fixpoint _insert_into_internal (fuel : nat) (st : SimpleBPlusTree)
  (parent : nat) (key : bytes) (left right : nat) : result SimpleBPlusTree :=
  match fuel with
  | O => Raise RecursionError
  | S f =>
      n ← deref (heap st) parent;
      let idx := count_while (fun k => bytes_ltb k key) (keys n) in
      let ks := insert_at idx key (keys n) in
      match children n with
      | None => Raise AttributeError
      | Some cs =>
          let st1 :=
            set_heap st
              (<[parent := set_children (set_keys n ks)
                             (Some (insert_at (S idx) right cs))]> (heap st)) in
          if order st <=? Z.of_nat (length ks)
          then _split_internal_with (_insert_into_internal f) st1 parent
          else Ok st1
      end
  end.

(** [SimpleBPlusTree._split_internal] *)
Definition _split_internal (fuel : nat) (st : SimpleBPlusTree) (node : nat)
  : result SimpleBPlusTree :=
  _split_internal_with (_insert_into_internal fuel) st node.

(** [SimpleBPlusTree._split_leaf] *)
Definition _split_leaf (st : SimpleBPlusTree) (leaf : nat)
  : result SimpleBPlusTree :=
  n ← deref (heap st) leaf;
  let mid := (length (keys n) / 2)%nat in
  promote_key ← index (keys n) mid;
  let new_leaf :=
    TreeNode_new (drop mid (keys n)) (drop mid (values n)) None (next_leaf n) true in
  let new_id := length (heap st) in
  let h1 := heap st ++ [new_leaf] in
  let h2 := <[leaf := set_next_leaf
                        (set_values (set_keys n (take mid (keys n)))
                           (take mid (values n)))
                        (Some new_id)]> h1 in
  let st2 := set_heap st h2 in
  parent ← _find_parent (depth h2) h2 (root st2) leaf;
  match parent with
  | None => Ok (make_root st2 promote_key leaf new_id)
  | Some p => _insert_into_internal (depth h2) st2 p promote_key leaf new_id
  end.

(** [SimpleBPlusTree.insert], after the key is serialized *)
Definition insert_bytes (st : SimpleBPlusTree) (key_bytes : bytes) (value : V)
  : result SimpleBPlusTree :=
  let st0 := set_map st (<[key_bytes := value]> (key_to_value st)) in
  leaf ← _find_leaf (depth (heap st0)) (heap st0) (root st0) key_bytes;
  h1 ← _insert_into_leaf (heap st0) leaf key_bytes value;
  let st1 := set_heap st0 h1 in
  n ← deref h1 leaf;
  if order st1 <=? Z.of_nat (length (keys n)) then _split_leaf st1 leaf
  else Ok st1.

(** [SimpleBPlusTree.insert] *)
Definition insert (st : SimpleBPlusTree) (key : pykey) (value : V)
  : result SimpleBPlusTree :=
  key_bytes ← _serialize_key key; insert_bytes st key_bytes value.

(** [SimpleBPlusTree.search], after the key is serialized *)
Definition search_bytes (st : SimpleBPlusTree) (key_bytes : bytes)
  : result (option V) :=
  leaf ← _find_leaf (depth (heap st)) (heap st) (root st) key_bytes;
  n ← deref (heap st) leaf;
  match find_index (fun k => bool_decide (k = key_bytes)) (keys n) with
  | Some i => v ← index (values n) i; Ok (Some v)
  | None => Ok None
  end.

(** [SimpleBPlusTree.search] *)
Definition search (st : SimpleBPlusTree) (key : pykey) : result (option V) :=
  key_bytes ← _serialize_key key; search_bytes st key_bytes.

(** The [for] loop of [range_search] over one leaf, from entry [i] on: the
    result so far and whether the loop left the function ([return res]). *)
Fixpoint scan_leaf (ks : list bytes) (vs : list V) (i : nat)
  (start_bytes end_bytes : bytes) (res : list V) : result (list V * bool) :=
  match ks with
  | [] => Ok (res, false)
  | k :: ks' =>
      if bytes_leb start_bytes k && bytes_ltb k end_bytes
      then v ← index vs i; scan_leaf ks' vs (S i) start_bytes end_bytes (res ++ [v])
      else if negb (bytes_ltb k end_bytes) then Ok (res, true)
      else scan_leaf ks' vs (S i) start_bytes end_bytes res
  end.

(** The [while leaf:] loop of [range_search]; a loop that has not ended
    after [fuel] leaves is one that does not end. *)
Fixpoint scan_chain (fuel : nat) (h : list TreeNode) (leaf : option nat)
  (start_bytes end_bytes : bytes) (res : list V) : result (list V) :=
  match leaf with
  | None => Ok res
  | Some l =>
      match fuel with
      | O => Raise NonTermination
      | S f =>
          n ← deref h l;
          r ← scan_leaf (keys n) (values n) O start_bytes end_bytes res;
          if r.2 : bool then Ok r.1
          else scan_chain f h (next_leaf n) start_bytes end_bytes r.1
      end
  end.

(** [SimpleBPlusTree.range_search], after the keys are serialized *)
Definition range_search_bytes (st : SimpleBPlusTree)
  (start_bytes end_bytes : bytes) : result (list V) :=
  leaf ← _find_leaf (depth (heap st)) (heap st) (root st) start_bytes;
  scan_chain (depth (heap st)) (heap st) (Some leaf) start_bytes end_bytes [].

(** [SimpleBPlusTree.range_search] *)
Definition range_search (st : SimpleBPlusTree) (start_key end_key : pykey)
  : result (list V) :=
  start_bytes ← _serialize_key start_key;
  end_bytes ← _serialize_key end_key;
  range_search_bytes st start_bytes end_bytes.

(** [SimpleBPlusTree.delete], after the key is serialized: the tree
    afterwards and the returned boolean. *)
Definition delete_bytes (st : SimpleBPlusTree) (key_bytes : bytes)
  : result (SimpleBPlusTree * bool) :=
  let found_in_map := bool_decide (is_Some (key_to_value st !! key_bytes)) in
  if found_in_map then
    let st0 := set_map st (base.delete key_bytes (key_to_value st)) in
    leaf ← _find_leaf (depth (heap st0)) (heap st0) (root st0) key_bytes;
    n ← deref (heap st0) leaf;
    match find_index (fun k => bool_decide (k = key_bytes)) (keys n) with
    | Some i =>
        if (length (values n) <=? i)%nat then Raise IndexError
        else
          Ok (set_heap st0
                (<[leaf := set_values (set_keys n (base.delete i (keys n)))
                             (base.delete i (values n))]> (heap st0)),
              true)
    | None => Ok (st0, false)
    end
  else Ok (st, false).

(** [SimpleBPlusTree.delete] *)
Definition delete (st : SimpleBPlusTree) (key : pykey)
  : result (SimpleBPlusTree * bool) :=
  key_bytes ← _serialize_key key; delete_bytes st key_bytes.

End tree.

Arguments TreeNode V : clear implicits.
Arguments SimpleBPlusTree V : clear implicits.

End Simple.

(** ** The index manager ([src/index/index_manager.py]) *)

Module IndexManager.

(** A [dict] with [str] keys, in insertion order. *)
Fixpoint dict_get {A} (d : list (pystr * A)) (k : pystr) : option A :=
  match d with
  | [] => None
  | (k', v) :: d' => if bool_decide (k' = k) then Some v else dict_get d' k
  end.

(** [d[k] = v]: a new key goes to the end, a key of [d] keeps its place. *)
Definition dict_set {A} (d : list (pystr * A)) (k : pystr) (v : A)
  : list (pystr * A) :=
  match dict_get d k with
  | None => d ++ [(k, v)]
  | Some _ => (fun p => if bool_decide (p.1 = k) then (k, v) else p) <$> d
  end.

(** [del d[k]] *)
Definition dict_del {A} (d : list (pystr * A)) (k : pystr) : list (pystr * A) :=
  List.filter (fun p => negb (bool_decide (p.1 = k))) d.

Section manager.
Context {V : Type} `{!EqDecision V}.

(** [IndexManager]: the trees are objects that only the dictionary
    holds, so a call on a tree is an update of its entry. *)
Record IndexManager := {
  indexes : list (pystr * Simple.SimpleBPlusTree V);
  index_counter : Z
}.

(** [IndexManager.__init__] *)
Definition new : IndexManager := {| indexes := []; index_counter := 0 |}.

Definition set_indexes (im : IndexManager)
  (d : list (pystr * Simple.SimpleBPlusTree V)) : IndexManager :=
  {| indexes := d; index_counter := index_counter im |}.

(** [IndexManager.create_index] *)
Definition create_index (im : IndexManager) (index_name : pystr) (is_unique : bool)
  : result (IndexManager * pystr) :=
  match dict_get (indexes im) index_name with
  | Some _ => Raise ValueError
  | None =>
      let tree := Simple.new 4 in
      Ok (set_indexes im (dict_set (indexes im) index_name tree), index_name)
  end.

(** [IndexManager.drop_index] *)
Definition drop_index (im : IndexManager) (index_name : pystr)
  : result IndexManager :=
  match dict_get (indexes im) index_name with
  | None => Raise ValueError
  | Some _ => Ok (set_indexes im (dict_del (indexes im) index_name))
  end.

(** [IndexManager.insert] *)
Definition insert (im : IndexManager) (index_name : pystr) (key : pykey) (value : V)
  : result IndexManager :=
  match dict_get (indexes im) index_name with
  | None => Raise ValueError
  | Some tree =>
      tree' ← Simple.insert tree key value;
      Ok (set_indexes im (dict_set (indexes im) index_name tree'))
  end.

(** [IndexManager.search] *)
Definition search (im : IndexManager) (index_name : pystr) (key : pykey)
  : result (option V) :=
  match dict_get (indexes im) index_name with
  | None => Raise ValueError
  | Some tree => Simple.search tree key
  end.

(** [IndexManager.delete] *)
Definition delete (im : IndexManager) (index_name : pystr) (key : pykey)
  : result (IndexManager * bool) :=
  match dict_get (indexes im) index_name with
  | None => Raise ValueError
  | Some tree =>
      r ← Simple.delete tree key;
      Ok (set_indexes im (dict_set (indexes im) index_name r.1), r.2)
  end.

(** [IndexManager.range_search] *)
Definition range_search (im : IndexManager) (index_name : pystr)
  (start_key end_key : pykey) : result (list V) :=
  match dict_get (indexes im) index_name with
  | None => Raise ValueError
  | Some tree => Simple.range_search tree start_key end_key
  end.

(** [IndexManager.get_all_indexes] *)
Definition get_all_indexes (im : IndexManager) : list pystr := (indexes im).*1.

End manager.

Arguments IndexManager V : clear implicits.

End IndexManager.

(** ** The tree of [src/index/bplus_tree.py] *)

Module BPlusTree.
Import BPlusTreeKeys.

Inductive NodeType := INTERNAL | LEAF.

(** [BPNode]. The configuration of a node is the one of its tree. A node
    is an object: it is named by its address in the store [heap] of the
    tree, and [node_cache] maps node ids to addresses. *)
Record BPNode := {
  node_id : Z;
  node_type : NodeType;
  keys : list bytes;
  children : list Z;
  next_leaf : option Z;
  parent : option Z;
  dirty : bool
}.

(** [BPNode.__init__] *)
Definition BPNode_new (node_id : Z) (node_type : NodeType) : BPNode :=
  {| node_id := node_id; node_type := node_type; keys := []; children := [];
     next_leaf := None; parent := None; dirty := false |}.

(** [BPlusTreeConfig.max_keys] and [min_keys]; [math.ceil(order / 2)] is
    [(order + 1) // 2] for an order that a float holds exactly. *)
Definition max_keys (c : BPlusTreeConfig) : Z := order c - 1.
Definition min_keys (c : BPlusTreeConfig) : Z := (order c + 1) / 2 - 1.

(** [BPNode.is_full] *)
Definition is_full (c : BPlusTreeConfig) (n : BPNode) : bool :=
  max_keys c <=? Z.of_nat (length (keys n)).

(** [BPNode.is_underflow] *)
Definition is_underflow (c : BPlusTreeConfig) (n : BPNode) : bool :=
  match parent n with
  | None => Z.of_nat (length (keys n)) <? 1
  | Some _ => Z.of_nat (length (keys n)) <? min_keys c
  end.

(** [BPNode.insert_key_value]: the node afterwards and the position. *)
Definition insert_key_value (n : BPNode) (key : bytes) (value : Z)
  : result (BPNode * nat) :=
  match node_type n with
  | INTERNAL => Raise ValueError
  | LEAF =>
      let pos := count_while (fun k => bytes_ltb k key) (keys n) in
      Ok ({| node_id := node_id n; node_type := node_type n;
             keys := insert_at pos key (keys n);
             children := insert_at pos value (children n);
             next_leaf := next_leaf n; parent := parent n; dirty := true |}, pos)
  end.

(** [BPNode.insert_key_child] *)
Definition insert_key_child (n : BPNode) (key : bytes) (child_id : Z)
  : result (BPNode * nat) :=
  match node_type n with
  | LEAF => Raise ValueError
  | INTERNAL =>
      let pos := count_while (fun k => bytes_ltb k key) (keys n) in
      Ok ({| node_id := node_id n; node_type := node_type n;
             keys := insert_at pos key (keys n);
             children := insert_at (S pos) child_id (children n);
             next_leaf := next_leaf n; parent := parent n; dirty := true |}, pos)
  end.

(** [BPNode.split]: the node afterwards, the new node, whose id is -1
    until the tree assigns one, and the middle key. *)
Definition split (n : BPNode) : result (BPNode * BPNode * bytes) :=
  let mid := (length (keys n) / 2)%nat in
  match node_type n with
  | LEAF =>
      let right_keys := drop mid (keys n) in
      let right_children := drop mid (children n) in
      middle_key ← index right_keys O;
      let new_node :=
        {| node_id := -1; node_type := LEAF; keys := right_keys;
           children := right_children; next_leaf := next_leaf n; parent := None;
           dirty := true |} in
      Ok ({| node_id := node_id n; node_type := node_type n;
             keys := take mid (keys n); children := take mid (children n);
             next_leaf := Some (node_id new_node); parent := parent n;
             dirty := true |},
          new_node, middle_key)
  | INTERNAL =>
      middle_key ← index (keys n) mid;
      let new_node :=
        {| node_id := -1; node_type := INTERNAL; keys := drop (S mid) (keys n);
           children := drop (S mid) (children n); next_leaf := None;
           parent := None; dirty := true |} in
      Ok ({| node_id := node_id n; node_type := node_type n;
             keys := take mid (keys n); children := take (S mid) (children n);
             next_leaf := next_leaf n; parent := parent n; dirty := true |},
          new_node, middle_key)
  end.

(** [BPNode.find_key_position], from position [i] on *)
Fixpoint find_key_position_from (ks : list bytes) (key : bytes) (i : nat)
  : nat * bool :=
  match ks with
  | [] => (i, false)
  | k :: ks' =>
      if bool_decide (k = key) then (i, true)
      else if bytes_ltb key k then (i, false)
      else find_key_position_from ks' key (S i)
  end.
Definition find_key_position (n : BPNode) (key : bytes) : nat * bool :=
  find_key_position_from (keys n) key O.

(** [BPNode.get_child_for_key] *)
Definition get_child_for_key (n : BPNode) (key : bytes) : result Z :=
  match node_type n with
  | LEAF => Raise ValueError
  | INTERNAL => index (children n) (find_key_position n key).1
  end.

(** A [dict] with [int] keys. *)
Fixpoint cache_get (d : list (Z * nat)) (k : Z) : option nat :=
  match d with
  | [] => None
  | (k', a) :: d' => if k' =? k then Some a else cache_get d' k
  end.
Fixpoint cache_set (d : list (Z * nat)) (k : Z) (a : nat) : list (Z * nat) :=
  match d with
  | [] => [(k, a)]
  | (k', a') :: d' => if k' =? k then (k, a) :: d' else (k', a') :: cache_set d' k a
  end.

(** [BPlusTree] *)
Record BPlusTree := {
  tree_id : Z;
  config : BPlusTreeConfig;
  root_node_id : Z;
  next_node_id : Z;
  heap : list BPNode;
  node_cache : list (Z * nat)
}.

(** [BPlusTree.__init__] with [_create_root_node] *)
Definition new (tree_id : Z) (config : option BPlusTreeConfig) : BPlusTree :=
  {| tree_id := tree_id; config := default default_config config;
     root_node_id := 0; next_node_id := 1;
     heap := [BPNode_new 0 LEAF]; node_cache := [(0, O)] |}.

Definition deref (t : BPlusTree) (a : nat) : result BPNode :=
  match heap t !! a with Some n => Ok n | None => Raise RuntimeError end.

Definition set_heap (t : BPlusTree) (h : list BPNode) : BPlusTree :=
  {| tree_id := tree_id t; config := config t; root_node_id := root_node_id t;
     next_node_id := next_node_id t; heap := h; node_cache := node_cache t |}.
Definition set_cache (t : BPlusTree) (d : list (Z * nat)) : BPlusTree :=
  {| tree_id := tree_id t; config := config t; root_node_id := root_node_id t;
     next_node_id := next_node_id t; heap := heap t; node_cache := d |}.
Definition set_root (t : BPlusTree) (r : Z) : BPlusTree :=
  {| tree_id := tree_id t; config := config t; root_node_id := r;
     next_node_id := next_node_id t; heap := heap t; node_cache := node_cache t |}.
Definition set_next (t : BPlusTree) (i : Z) : BPlusTree :=
  {| tree_id := tree_id t; config := config t; root_node_id := root_node_id t;
     next_node_id := i; heap := heap t; node_cache := node_cache t |}.

(** An assignment to attributes of the node at address [a]. *)
Definition set_node (t : BPlusTree) (a : nat) (n : BPNode) : BPlusTree :=
  set_heap t (<[a := n]> (heap t)).
Definition with_id (n : BPNode) (i : Z) : BPNode :=
  {| node_id := i; node_type := node_type n; keys := keys n;
     children := children n; next_leaf := next_leaf n; parent := parent n;
     dirty := dirty n |}.
Definition with_parent (n : BPNode) (p : option Z) : BPNode :=
  {| node_id := node_id n; node_type := node_type n; keys := keys n;
     children := children n; next_leaf := next_leaf n; parent := p;
     dirty := dirty n |}.

(** [BPlusTree._get_node]: the address of the node with this id *)
Definition _get_node (t : BPlusTree) (id : Z) : result nat :=
  match cache_get (node_cache t) id with
  | Some a => Ok a
  | None => Raise ValueError
  end.

(** [BPlusTree._save_node] *)
Definition _save_node (t : BPlusTree) (a : nat) : result BPlusTree :=
  n ← deref t a; Ok (set_cache t (cache_set (node_cache t) (node_id n) a)).

(** The [while] loop of [_find_leaf_for_insert]; a loop that has not
    ended after [fuel] nodes is one that does not end. *)
Fixpoint descend (fuel : nat) (t : BPlusTree) (node : nat) (key : bytes)
  : result nat :=
  n ← deref t node;
  match node_type n with
  | LEAF => Ok node
  | INTERNAL =>
      match fuel with
      | O => Raise NonTermination
      | S f =>
          child_id ← get_child_for_key n key;
          c ← _get_node t child_id;
          descend f t c key
      end
  end.

(** [BPlusTree._find_leaf_for_insert] and [_find_leaf_for_search] *)
Definition _find_leaf_for_insert (t : BPlusTree) (key : bytes) : result nat :=
  node ← _get_node t (root_node_id t);
  descend (S (length (heap t))) t node key.
Definition _find_leaf_for_search (t : BPlusTree) (key : bytes) : result nat :=
  _find_leaf_for_insert t key.

(** [BPlusTree._create_new_root] *)
Definition _create_new_root (t : BPlusTree) (left : nat) (key : bytes)
  (right_node_id : Z) : result BPlusTree :=
  let root := length (heap t) in
  let t1 := set_next (set_heap t (heap t ++ [BPNode_new (next_node_id t) INTERNAL]))
              (next_node_id t + 1) in
  l ← deref t1 left;
  r ← deref t1 root;
  let t2 :=
    set_node t1 root
      {| node_id := node_id r; node_type := node_type r; keys := [key];
         children := [node_id l; right_node_id]; next_leaf := next_leaf r;
         parent := parent r; dirty := dirty r |} in
  r ← deref t2 root;
  l ← deref t2 left;
  let t3 := set_node t2 left (with_parent l (Some (node_id r))) in
  right ← _get_node t3 right_node_id;
  rn ← deref t3 right;
  r ← deref t3 root;
  let t4 := set_node t3 right (with_parent rn (Some (node_id r))) in
  r ← deref t4 root;
  let t5 := set_root t4 (node_id r) in
  t6 ← _save_node t5 left;
  t7 ← _save_node t6 right;
  _save_node t7 root.

(** The loop of [_split_internal_node] over the children of the new node *)
Fixpoint adopt (t : BPlusTree) (new_node : nat) (child_ids : list Z)
  : result BPlusTree :=
  match child_ids with
  | [] => Ok t
  | child_id :: rest =>
      child ← _get_node t child_id;
      cn ← deref t child;
      nn ← deref t new_node;
      let t1 := set_node t child (with_parent cn (Some (node_id nn))) in
      t2 ← _save_node t1 child;
      adopt t2 new_node rest
  end.

(** [BPlusTree._split_internal_node], given [_insert_into_parent] *)
Definition _split_internal_node_with
  (insert_into_parent : BPlusTree -> nat -> bytes -> Z -> result BPlusTree)
  (t : BPlusTree) (node : nat) : result BPlusTree :=
  n ← deref t node;
  r ← split n;
  let new_node := length (heap t) in
  let t1 := set_node (set_heap t (heap t ++ [r.1.2])) node r.1.1 in
  nn ← deref t1 new_node;
  let t2 := set_next (set_node t1 new_node (with_id nn (next_node_id t1)))
              (next_node_id t1 + 1) in
  nn ← deref t2 new_node;
  t3 ← adopt t2 new_node (children nn);
  t4 ← _save_node t3 node;
  t5 ← _save_node t4 new_node;
  nn ← deref t5 new_node;
  insert_into_parent t5 node r.2 (node_id nn).

(** [BPlusTree._insert_into_parent] *)
Fixpoint _insert_into_parent (fuel : nat) (t : BPlusTree) (left_node : nat)
  (key : bytes) (right_node_id : Z) : result BPlusTree :=
  match fuel with
  | O => Raise RecursionError
  | S f =>
      l ← deref t left_node;
      match parent l with
      | None => _create_new_root t left_node key right_node_id
      | Some pid =>
          p ← _get_node t pid;
          pn ← deref t p;
          r ← insert_key_child pn key right_node_id;
          let t1 := set_node t p r.1 in
          right ← _get_node t1 right_node_id;
          rn ← deref t1 right;
          l ← deref t1 left_node;
          let t2 := set_node t1 right (with_parent rn (parent l)) in
          t3 ← _save_node t2 p;
          t4 ← _save_node t3 right;
          pn ← deref t4 p;
          if is_full (config t4) pn
          then _split_internal_node_with (_insert_into_parent f) t4 p
          else Ok t4
      end
  end.

(** [BPlusTree._split_leaf] *)
Definition _split_leaf (t : BPlusTree) (leaf : nat) : result BPlusTree :=
  n ← deref t leaf;
  r ← split n;
  let new_leaf := length (heap t) in
  let t1 := set_node (set_heap t (heap t ++ [r.1.2])) leaf r.1.1 in
  nn ← deref t1 new_leaf;
  let t2 := set_next (set_node t1 new_leaf (with_id nn (next_node_id t1)))
              (next_node_id t1 + 1) in
  t3 ← _save_node t2 leaf;
  t4 ← _save_node t3 new_leaf;
  nn ← deref t4 new_leaf;
  _insert_into_parent (S (length (heap t4))) t4 leaf r.2 (node_id nn).

(** [BPlusTree.insert] *)
Definition insert (t : BPlusTree) (key : pykey) (value : Z) : result BPlusTree :=
  key_bytes ← _serialize_key (config t) key;
  leaf ← _find_leaf_for_insert t key_bytes;
  n ← deref t leaf;
  r ← insert_key_value n key_bytes value;
  let t1 := set_node t leaf r.1 in
  n ← deref t1 leaf;
  if is_full (config t1) n then _split_leaf t1 leaf else Ok t1.

(** [BPlusTree.search] *)
Definition search (t : BPlusTree) (key : pykey) : result (option Z) :=
  key_bytes ← _serialize_key (config t) key;
  leaf ← _find_leaf_for_search t key_bytes;
  n ← deref t leaf;
  let r := find_key_position n key_bytes in
  if r.2 then v ← index (children n) r.1; Ok (Some v) else Ok None.

(** How the loop over the keys of one leaf ends in [range_search]. *)
Inductive scan_end := Exhausted | Returned | Failed (e : pyerr).

(** The [for] loop of [range_search] over one leaf, from entry [i] on:
    the values yielded so far and how the loop ends. *)
Fixpoint scan_leaf (ks : list bytes) (cs : list Z) (i : nat)
  (start_bytes end_bytes : bytes) (out : list Z) : list Z * scan_end :=
  match ks with
  | [] => (out, Exhausted)
  | k :: ks' =>
      if bytes_leb start_bytes k && bytes_ltb k end_bytes then
        match cs !! i with
        | Some v => scan_leaf ks' cs (S i) start_bytes end_bytes (out ++ [v])
        | None => (out, Failed IndexError)
        end
      else if negb (bytes_ltb k end_bytes) then (out, Returned)
      else scan_leaf ks' cs (S i) start_bytes end_bytes out
  end.

(** The [while] loop of [range_search]: the values yielded, and the
    exception that ends the iteration, if one does. *)
Fixpoint scan_chain (fuel : nat) (t : BPlusTree) (leaf : nat)
  (start_bytes end_bytes : bytes) (out : list Z) : list Z * option pyerr :=
  match fuel with
  | O => (out, Some NonTermination)
  | S f =>
      match deref t leaf with
      | Raise e => (out, Some e)
      | Ok n =>
          let r := scan_leaf (keys n) (children n) O start_bytes end_bytes out in
          match r.2 with
          | Returned => (r.1, None)
          | Failed e => (r.1, Some e)
          | Exhausted =>
              match next_leaf n with
              | None => (r.1, None)
              | Some next_id =>
                  match _get_node t next_id with
                  | Raise e => (r.1, Some e)
                  | Ok a => scan_chain f t a start_bytes end_bytes r.1
                  end
              end
          end
      end
  end.

(** [BPlusTree.range_search], a generator: the values it yields and the
    exception that the iteration raises, if it raises one. *)
Definition range_search (t : BPlusTree) (start_key end_key : pykey)
  : list Z * option pyerr :=
  match _serialize_key (config t) start_key with
  | Raise e => ([], Some e)
  | Ok start_bytes =>
      match _serialize_key (config t) end_key with
      | Raise e => ([], Some e)
      | Ok end_bytes =>
          match _find_leaf_for_search t start_bytes with
          | Raise e => ([], Some e)
          | Ok leaf =>
              scan_chain (S (length (heap t))) t leaf start_bytes end_bytes []
          end
      end
  end.

(** [BPlusTree.delete]; [_handle_underflow] does nothing. *)
Definition delete (t : BPlusTree) (key : pykey) : result (BPlusTree * bool) :=
  key_bytes ← _serialize_key (config t) key;
  leaf ← _find_leaf_for_search t key_bytes;
  n ← deref t leaf;
  let r := find_key_position n key_bytes in
  if negb r.2 then Ok (t, false)
  else if (length (children n) <=? r.1)%nat then Raise IndexError
  else
    let n' :=
      {| node_id := node_id n; node_type := node_type n;
         keys := base.delete r.1 (keys n); children := base.delete r.1 (children n);
         next_leaf := next_leaf n; parent := parent n; dirty := true |} in
    let t1 := set_node t leaf n' in
    if is_underflow (config t1) n' then Ok (t1, true) else Ok (t1, true).

End BPlusTree.


(** * Bytes and packed integers *)

Lemma Z_of_byte_range (b : byte) : 0 <= Z_of_byte b < 256.
Proof.
  unfold Z_of_byte. pose proof (Byte.to_N_bounded b). lia.
Qed.

Lemma Z_of_byte_of_Z (z : Z) : Z_of_byte (byte_of_Z z) = z mod 256.
Proof.
  unfold Z_of_byte, byte_of_Z.
  assert (Hr : 0 <= z mod 256 < 256) by (apply Z.mod_pos_bound; lia).
  destruct (Byte.of_N (Z.to_N (z mod 256))) as [b|] eqn:E.
  - apply Byte.to_of_N in E. simpl. rewrite E. lia.
  - apply Byte.of_N_None_iff in E. lia.
Qed.

Lemma Z_of_byte_inj (a b : byte) : Z_of_byte a = Z_of_byte b -> a = b.
Proof.
  unfold Z_of_byte. intros H. apply N2Z.inj in H.
  apply (f_equal Byte.of_N) in H. rewrite !Byte.of_to_N in H. congruence.
Qed.

Lemma length_le_bytes n v : length (le_bytes n v) = n.
Proof. revert v. induction n as [|n IH]; intros v; simpl; [done|]. by rewrite IH. Qed.

Lemma length_be_bytes n v : length (be_bytes n v) = n.
Proof. unfold be_bytes. by rewrite length_reverse, length_le_bytes. Qed.

Lemma le_value_range l : 0 <= le_value l < 2 ^ (8 * Z.of_nat (length l)).
Proof.
  induction l as [|b l IH]; simpl length; [simpl; lia|].
  change (le_value (b :: l)) with (Z_of_byte b + 256 * le_value l).
  pose proof (Z_of_byte_range b).
  replace (8 * Z.of_nat (S (length l))) with (8 + 8 * Z.of_nat (length l)) by lia.
  rewrite Z.pow_add_r by lia. change (2 ^ 8) with 256. nia.
Qed.

Lemma le_value_le_bytes n v :
  0 <= v < 2 ^ (8 * Z.of_nat n) -> le_value (le_bytes n v) = v.
Proof.
  revert v. induction n as [|n IH]; intros v Hv.
  - simpl in *. lia.
  - change (le_value (le_bytes (S n) v))
      with (Z_of_byte (byte_of_Z v) + 256 * le_value (le_bytes n (v / 256))).
    rewrite Z_of_byte_of_Z.
    replace (8 * Z.of_nat (S n)) with (8 + 8 * Z.of_nat n) in Hv by lia.
    rewrite Z.pow_add_r in Hv by lia. change (2 ^ 8) with 256 in Hv.
    rewrite IH.
    + pose proof (Z.div_mod v 256 ltac:(lia)). lia.
    + split; [apply Z.div_pos; lia|]. apply Z.div_lt_upper_bound; lia.
Qed.

Lemma pack_le_Ok n v b : pack_le n v = Ok b -> b = le_bytes n v /\ 0 <= v < 2 ^ (8 * Z.of_nat n).
Proof.
  unfold pack_le.
  destruct (Z.leb_spec 0 v), (Z.ltb_spec v (2 ^ (8 * Z.of_nat n))); cbn [andb]; try done.
  intros [= <-]. split; [done|lia].
Qed.

Lemma pack_le_fits n v : 0 <= v < 2 ^ (8 * Z.of_nat n) -> pack_le n v = Ok (le_bytes n v).
Proof.
  intros Hv. unfold pack_le.
  destruct (Z.leb_spec 0 v), (Z.ltb_spec v (2 ^ (8 * Z.of_nat n))); cbn [andb]; try done; lia.
Qed.

Lemma pack_be_fits n v : 0 <= v < 2 ^ (8 * Z.of_nat n) -> pack_be n v = Ok (be_bytes n v).
Proof.
  intros Hv. unfold pack_be.
  destruct (Z.leb_spec 0 v), (Z.ltb_spec v (2 ^ (8 * Z.of_nat n))); cbn [andb]; try done; lia.
Qed.

(** The value of a byte string read most significant byte first. *)
Fixpoint be_value (l : bytes) : Z :=
  match l with
  | [] => 0
  | b :: l' => Z_of_byte b * 256 ^ Z.of_nat (length l') + be_value l'
  end.

Lemma be_value_range l : 0 <= be_value l < 256 ^ Z.of_nat (length l).
Proof.
  induction l as [|b l IH]; [simpl; lia|].
  change (be_value (b :: l)) with (Z_of_byte b * 256 ^ Z.of_nat (length l) + be_value l).
  pose proof (Z_of_byte_range b). simpl length.
  rewrite Nat2Z.inj_succ, Z.pow_succ_r by lia. nia.
Qed.

Lemma be_value_snoc l b : be_value (l ++ [b]) = 256 * be_value l + Z_of_byte b.
Proof.
  induction l as [|a l IH]; [simpl; lia|].
  change ((a :: l) ++ [b]) with (a :: (l ++ [b])).
  change (be_value (a :: (l ++ [b])))
    with (Z_of_byte a * 256 ^ Z.of_nat (length (l ++ [b])) + be_value (l ++ [b])).
  change (be_value (a :: l)) with (Z_of_byte a * 256 ^ Z.of_nat (length l) + be_value l).
  rewrite IH, length_app. simpl length.
  replace (Z.of_nat (length l + 1)) with (Z.succ (Z.of_nat (length l))) by lia.
  rewrite Z.pow_succ_r by lia. lia.
Qed.

Lemma be_value_reverse l : be_value (reverse l) = le_value l.
Proof.
  induction l as [|b l IH]; [done|].
  rewrite reverse_cons, be_value_snoc, IH. simpl. lia.
Qed.

Lemma be_value_be_bytes n v :
  0 <= v < 2 ^ (8 * Z.of_nat n) -> be_value (be_bytes n v) = v.
Proof. intros Hv. unfold be_bytes. by rewrite be_value_reverse, le_value_le_bytes. Qed.

(** Between byte strings of one length, the order of [bytes] is the
    order of the big-endian values. *)
Lemma bytes_ltb_be_value (a b : bytes) :
  length a = length b -> bytes_ltb a b = true <-> be_value a < be_value b.
Proof.
  revert b. induction a as [|x a IH]; intros [|y b] Hlen.
  - simpl. split; [done|lia].
  - simpl in Hlen. lia.
  - simpl in Hlen. lia.
  - injection Hlen as Hlen.
    change (bytes_ltb (x :: a) (y :: b))
      with (if Z_of_byte x <? Z_of_byte y then true
            else if Z_of_byte y <? Z_of_byte x then false else bytes_ltb a b).
    change (be_value (x :: a)) with (Z_of_byte x * 256 ^ Z.of_nat (length a) + be_value a).
    change (be_value (y :: b)) with (Z_of_byte y * 256 ^ Z.of_nat (length b) + be_value b).
    pose proof (be_value_range a) as Ha. pose proof (be_value_range b) as Hb.
    rewrite <- Hlen in *.
    set (P := 256 ^ Z.of_nat (length a)) in *.
    destruct (Z.ltb_spec (Z_of_byte x) (Z_of_byte y)) as [Hxy|Hxy].
    + split; [intros _; nia|done].
    + destruct (Z.ltb_spec (Z_of_byte y) (Z_of_byte x)) as [Hyx|Hyx].
      * split; [done|intros; nia].
      * assert (Z_of_byte x = Z_of_byte y) as -> by lia.
        rewrite (IH b Hlen). lia.
Qed.


(** * Key serialization *)

(** C1, as amended. For integer keys from 0 up to 2^64 - 1, the tree of
    the index manager serializes a key to its eight bytes in big-endian
    order, and a smaller key has the smaller byte string; 1 and 256 have
    the encodings 00..01 and 00..01 00. Every integer key outside that
    range, negative or from 2^64 on, raises [struct.error]. *)
Theorem serialize_int_key_big_endian (a b : Z) :
  0 <= a -> a < b -> b < 2 ^ 64 ->
  _serialize_key (KInt a) = Ok (be_bytes 8 a) /\
  _serialize_key (KInt b) = Ok (be_bytes 8 b) /\
  length (be_bytes 8 a) = 8%nat /\
  be_value (be_bytes 8 a) = a /\
  bytes_ltb (be_bytes 8 a) (be_bytes 8 b) = true /\
  _serialize_key (KInt 1) = Ok [x00; x00; x00; x00; x00; x00; x00; x01] /\
  _serialize_key (KInt 256) = Ok [x00; x00; x00; x00; x00; x00; x01; x00] /\
  bytes_ltb [x00; x00; x00; x00; x00; x00; x00; x01]
            [x00; x00; x00; x00; x00; x00; x01; x00] = true /\
  (forall k, k < 0 \/ 2 ^ 64 <= k -> _serialize_key (KInt k) = Raise StructError).
Proof.
  intros Ha Hab Hb.
  assert (Hra : 0 <= a < 2 ^ (8 * Z.of_nat 8)) by (change (8 * Z.of_nat 8) with 64; lia).
  assert (Hrb : 0 <= b < 2 ^ (8 * Z.of_nat 8)) by (change (8 * Z.of_nat 8) with 64; lia).
  split; [exact (pack_be_fits 8 a Hra)|].
  split; [exact (pack_be_fits 8 b Hrb)|].
  split; [apply length_be_bytes|].
  split; [by apply be_value_be_bytes|].
  split.
  - apply bytes_ltb_be_value.
    + by rewrite !length_be_bytes.
    + rewrite !be_value_be_bytes by done. lia.
  - split; [reflexivity|]. split; [reflexivity|]. split; [reflexivity|].
    intros k Hk. cbn [_serialize_key]. unfold pack_be.
    change (2 ^ (8 * Z.of_nat 8)) with (2 ^ 64).
    destruct (Z.leb_spec 0 k), (Z.ltb_spec k (2 ^ 64)); cbn [andb]; try done; lia.
Qed.

Lemma serialize_int_key_big_endian_witness :
  _serialize_key (KInt 10) = Ok (be_bytes 8 10) /\
  _serialize_key (KInt 20) = Ok (be_bytes 8 20) /\
  length (be_bytes 8 10) = 8%nat /\
  be_value (be_bytes 8 10) = 10 /\
  bytes_ltb (be_bytes 8 10) (be_bytes 8 20) = true /\
  _serialize_key (KInt 1) = Ok [x00; x00; x00; x00; x00; x00; x00; x01] /\
  _serialize_key (KInt 256) = Ok [x00; x00; x00; x00; x00; x00; x01; x00] /\
  bytes_ltb [x00; x00; x00; x00; x00; x00; x00; x01]
            [x00; x00; x00; x00; x00; x00; x01; x00] = true /\
  (forall k, k < 0 \/ 2 ^ 64 <= k -> _serialize_key (KInt k) = Raise StructError).
Proof. apply (serialize_int_key_big_endian 10 20); lia. Defined.

(** C1 fails as stated: a negative integer key has no encoding, the
    serializer raises [struct.error]. *)
Lemma serialize_negative_int_key_raises :
  _serialize_key (KInt (-1)) = Raise StructError.
Proof. reflexivity. Qed.

(** The other tree, [BPlusTree] of [bplus_tree.py], packs integer keys
    little-endian: there 256 is serialized below 1. *)
Lemma BPlusTree_int_keys_little_endian :
  BPlusTreeKeys._serialize_key BPlusTreeKeys.default_config (KInt 1)
    = Ok [x01; x00; x00; x00; x00; x00; x00; x00] /\
  BPlusTreeKeys._serialize_key BPlusTreeKeys.default_config (KInt 256)
    = Ok [x00; x01; x00; x00; x00; x00; x00; x00] /\
  bytes_ltb [x00; x01; x00; x00; x00; x00; x00; x00]
            [x01; x00; x00; x00; x00; x00; x00; x00] = true.
Proof. repeat split; reflexivity. Qed.

(** C6, as amended. [BPlusTree._serialize_key] passes a [bytes] key
    through unchanged and raises [TypeError] for a key that is neither
    [int], [str] nor [bytes]; [SimpleBPlusTree._serialize_key] raises no
    such error: it encodes the text [str(key)] of such a key. *)
Theorem serialize_key_type_boundary (config : BPlusTreeKeys.BPlusTreeConfig)
  (b : bytes) (text : pystr) :
  BPlusTreeKeys._serialize_key config (KBytes b) = Ok b /\
  BPlusTreeKeys._serialize_key config (KOther text) = Raise TypeError /\
  _serialize_key (KOther text) = encode_utf8 text.
Proof. repeat split; reflexivity. Qed.

(** C6 fails as stated on the tree of the index manager: the float key
    29.99 of the demo is serialized to the bytes of its text. *)
Lemma serialize_float_key_is_encoded :
  _serialize_key (KOther [50; 57; 46; 57; 57]) = Ok [x32; x39; x2e; x39; x39].
Proof. reflexivity. Qed.

(** On that tree a [bytes] key is not passed through either: it is
    replaced by the bytes of its [repr]. *)
Lemma serialize_bytes_key_is_repr :
  _serialize_key (KBytes [x61]) = Ok [x62; x27; x61; x27].
Proof. reflexivity. Qed.


(** * Pages *)

Module PageFacts.
Import Page.

(** The header that [struct.pack] builds when every attribute fits. *)
Definition header_bytes (p : Page) (c : Z) : bytes :=
  le_bytes 8 (page_id p) ++ le_bytes 1 (PageType_value (page_type p))
  ++ le_bytes 4 (table_id p) ++ le_bytes 2 (free_space_start p)
  ++ le_bytes 2 (free_space_end p) ++ le_bytes 8 (lsn p) ++ le_bytes 4 c.

Definition set_checksum (p : Page) (c : Z) : Page :=
  {| page_id := page_id p; page_type := page_type p; table_id := table_id p;
     free_space_start := free_space_start p; free_space_end := free_space_end p;
     lsn := lsn p; checksum := c; data := data p; dirty := dirty p |}.

(** What the specification asks the stored checksum to be: the checksum of
    the header packed with a zero checksum field, followed by the data. *)
Definition checksum_over_zeroed_header (p : Page) : Z :=
  _calculate_checksum (header_bytes p 0 ++ data p).

(** Two calls of [serialize] on one page object: the two byte strings. *)
Definition serialize_twice (p : Page) : result (bytes * bytes) :=
  r1 ← serialize p; r2 ← serialize r1.2; Ok (r1.1, r2.1).

Lemma length_header_bytes p c : length (header_bytes p c) = 29%nat.
Proof. unfold header_bytes. rewrite !length_app, !length_le_bytes. done. Qed.

Lemma PageType_value_range t : 0 <= PageType_value t < 2 ^ (8 * Z.of_nat 1).
Proof. destruct t; simpl; lia. Qed.

Lemma PageType_of_value t : PageType_of (PageType_value t) = Ok t.
Proof. by destruct t. Qed.

Lemma pack_header_fits p c :
  valid p -> 0 <= c < 2 ^ 32 ->
  pack_header (page_id p) (PageType_value (page_type p)) (table_id p)
    (free_space_start p) (free_space_end p) (lsn p) c = Ok (header_bytes p c).
Proof.
  intros (H1 & H2 & H3 & H4 & H5 & H6 & H7) Hc. unfold pack_header.
  rewrite (pack_le_fits 8 (page_id p)) by done.
  rewrite (pack_le_fits 1 _ (PageType_value_range _)).
  rewrite (pack_le_fits 4 (table_id p)) by done.
  rewrite (pack_le_fits 2 (free_space_start p)) by done.
  rewrite (pack_le_fits 2 (free_space_end p)) by done.
  rewrite (pack_le_fits 8 (lsn p)) by done.
  rewrite (pack_le_fits 4 c) by done.
  reflexivity.
Qed.

Lemma _calculate_checksum_range d : 0 <= _calculate_checksum d < 2 ^ 32.
Proof.
  unfold _calculate_checksum. destruct (_ <? _)%nat; [lia|].
  change 0xFFFFFFFF with (Z.ones 32). rewrite Z.land_ones by lia.
  apply Z.mod_pos_bound. lia.
Qed.

(** [serialize] on a valid page: the bytes and the page afterwards. *)
Lemma serialize_valid p :
  valid p ->
  let c := _calculate_checksum (header_bytes p (checksum p) ++ data p) in
  serialize p = Ok (header_bytes p c ++ data p, set_checksum p c).
Proof.
  intros Hp c. unfold serialize.
  rewrite (pack_header_fits p (checksum p) Hp) by (destruct Hp; tauto).
  change (Ok (header_bytes p (checksum p)) ≫= ?f) with (f (header_bytes p (checksum p))).
  cbv beta. fold c. cbn [page_id page_type table_id free_space_start free_space_end lsn checksum data].
  assert (Hc := _calculate_checksum_range (header_bytes p (checksum p) ++ data p)).
  fold c in Hc.
  rewrite (pack_header_fits p c Hp Hc). reflexivity.
Qed.

Lemma serialize_length p b p' :
  valid p -> serialize p = Ok (b, p') -> length b = 4096%nat.
Proof.
  intros Hp E. rewrite (serialize_valid p Hp) in E. cbv zeta in E.
  assert (Hb : b = header_bytes p (_calculate_checksum
                 (header_bytes p (checksum p) ++ data p)) ++ data p) by congruence.
  rewrite Hb, length_app, length_header_bytes.
  destruct Hp as (_ & _ & _ & _ & _ & _ & Hd).
  unfold DATA_SIZE, PAGE_SIZE, HEADER_SIZE in Hd. lia.
Qed.

Lemma field_app (pre x post : bytes) (off n : nat) :
  length pre = off -> length x = n -> field (pre ++ x ++ post) off n = le_value x.
Proof.
  intros <- <-. unfold field.
  rewrite drop_app_length, take_app_length. done.
Qed.

Lemma field_app0 (x post : bytes) (n : nat) :
  length x = n -> field (x ++ post) 0 n = le_value x.
Proof. intros <-. unfold field. by rewrite drop_0, take_app_length. Qed.

(** Reading back a serialized valid page. *)
Lemma deserialize_serialize p c (arg : Z) :
  valid p -> 0 <= c < 2 ^ 32 ->
  deserialize arg (header_bytes p c ++ data p)
  = Ok {| page_id := page_id p; page_type := page_type p; table_id := table_id p;
          free_space_start := free_space_start p;
          free_space_end := free_space_end p; lsn := lsn p; checksum := c;
          data := data p; dirty := false |}.
Proof.
  intros Hp Hc. pose proof Hp as (H1 & H2 & H3 & H4 & H5 & H6 & H7).
  unfold DATA_SIZE, PAGE_SIZE, HEADER_SIZE in H7.
  unfold deserialize.
  assert (Hlen : length (header_bytes p c ++ data p) = 4096%nat).
  { rewrite length_app, length_header_bytes. lia. }
  rewrite Hlen. change (Z.of_nat 4096 =? PAGE_SIZE) with true. cbn [negb].
  change (Z.to_nat HEADER_SIZE) with 29%nat.
  change (Z.to_nat PAGE_SIZE) with 4096%nat.
  rewrite (take_app_length' (header_bytes p c) (data p) 29 (length_header_bytes p c)).
  rewrite (take_ge (header_bytes p c ++ data p) 4096) by lia.
  rewrite (drop_app_length' (header_bytes p c) (data p) 29 (length_header_bytes p c)).
  unfold header_bytes.
  rewrite (field_app0 (le_bytes 8 _) _ 8) by (by rewrite ?length_le_bytes).
  rewrite (field_app (le_bytes 8 _) (le_bytes 1 _) _ 8 1) by (by rewrite ?length_le_bytes).
  rewrite !(app_assoc (le_bytes 8 _)).
  rewrite (field_app (_ ++ _) (le_bytes 4 _) _ 9 4)
    by (by rewrite ?length_app, ?length_le_bytes).
  rewrite !(app_assoc (_ ++ le_bytes 1 _)).
  rewrite (field_app (_ ++ _) (le_bytes 2 _) _ 13 2)
    by (by rewrite ?length_app, ?length_le_bytes).
  rewrite !(app_assoc (_ ++ le_bytes 4 _)).
  rewrite (field_app (_ ++ _) (le_bytes 2 _) _ 15 2)
    by (by rewrite ?length_app, ?length_le_bytes).
  rewrite !(app_assoc (_ ++ le_bytes 2 (free_space_start p))).
  rewrite (field_app (_ ++ _) (le_bytes 8 _) _ 17 8)
    by (by rewrite ?length_app, ?length_le_bytes).
  rewrite !(app_assoc (_ ++ le_bytes 2 (free_space_end p))).
  rewrite <- (app_nil_r (le_bytes 4 c)).
  rewrite (field_app (_ ++ _) (le_bytes 4 _) [] 25 4)
    by (by rewrite ?length_app, ?length_le_bytes).
  rewrite !le_value_le_bytes by (first [done | apply PageType_value_range]).
  rewrite PageType_of_value. reflexivity.
Qed.

End PageFacts.


Module PageClaims.
Import Page PageFacts.

(** A valid page is serialized to exactly [PAGE_SIZE] bytes, and when its
    [checksum] attribute is 0, as on a page that was never serialized,
    the stored checksum is the one over the zeroed header and the data. *)
Lemma serialize_fresh_checksum p :
  valid p -> checksum p = 0 ->
  exists b p', serialize p = Ok (b, p') /\ length b = 4096%nat /\
    checksum p' = checksum_over_zeroed_header p /\
    field b 25 4 = checksum_over_zeroed_header p.
Proof.
  intros Hp Hc. pose proof (serialize_valid p Hp) as E. cbv zeta in E.
  eexists _, _. split; [exact E|]. split; [by eapply serialize_length|].
  rewrite Hc. split; [reflexivity|].
  fold (checksum_over_zeroed_header p).
  pose proof (_calculate_checksum_range (header_bytes p 0 ++ data p)) as Hr.
  fold (checksum_over_zeroed_header p) in Hr.
  unfold header_bytes at 1.
  rewrite !app_assoc.
  rewrite <- (app_assoc _ (le_bytes 4 (checksum_over_zeroed_header p)) (data p)).
  rewrite field_app; [by apply le_value_le_bytes| |apply length_le_bytes].
  by rewrite !length_app, !length_le_bytes.
Qed.

(** C7. The page [Page(1, PageType.DATA, 100)] serialized twice: the
    first call stores the checksum 0x7910 of the zeroed header and the
    data, the second call packs that checksum into the header before it
    computes the new one and stores 0x796910; the two byte strings differ,
    and the second stored checksum is not the checksum over the zeroed
    header. *)
Theorem serialize_twice_differs :
  (r ← serialize_twice (new 1 DATA 100);
   Ok (bool_decide (r.1 = r.2), field r.1 25 4, field r.2 25 4))
  = Ok (false, 0x7910, 0x796910) /\
  (r ← serialize (new 1 DATA 100); Ok (checksum_over_zeroed_header r.2))
  = Ok 0x7910.
Proof. split; vm_compute; reflexivity. Qed.

(** The fields of a page after [allocate_space] took [size] bytes. *)
Definition advance (p : Page) (size : Z) : Page :=
  {| page_id := page_id p; page_type := page_type p; table_id := table_id p;
     free_space_start := free_space_start p + size;
     free_space_end := free_space_end p; lsn := lsn p; checksum := checksum p;
     data := data p; dirty := true |}.

(** C8. [allocate_space] is a total function: it returns [None] and leaves
    the page as it is exactly when [free_space_start + size] exceeds
    [free_space_end], and otherwise returns the old [free_space_start]
    and advances it by [size]. On a fresh data page, 4067 bytes are
    granted once; after that neither 4067 bytes nor 1 byte is granted. *)
Theorem allocate_space_spec (p : Page) (size : Z) :
  allocate_space p size
  = (if decide (free_space_start p + size > free_space_end p)
     then (None, p)
     else (Some (free_space_start p), advance p size)) /\
  (let r1 := allocate_space (new 1 DATA 0) 4067 in
   r1.1 = Some 29 /\
   (allocate_space r1.2 4067).1 = None /\
   (allocate_space r1.2 1).1 = None).
Proof.
  split.
  - unfold allocate_space. case_decide as H.
    + destruct (Z.leb_spec (free_space_start p + size) (free_space_end p)); [lia|done].
    + destruct (Z.leb_spec (free_space_start p + size) (free_space_end p)); [done|lia].
  - repeat split; reflexivity.
Qed.

Lemma PageType_of_Ok v ty : PageType_of v = Ok ty -> PageType_value ty = v.
Proof.
  unfold PageType_of.
  destruct (Z.eqb_spec v 0) as [->|?]; [by intros [= <-]|].
  destruct (Z.eqb_spec v 1) as [->|?]; [by intros [= <-]|].
  destruct (Z.eqb_spec v 2) as [->|?]; [by intros [= <-]|].
  destruct (Z.eqb_spec v 3) as [->|?]; [by intros [= <-]|].
  destruct (Z.eqb_spec v 4) as [->|?]; [by intros [= <-]|].
  done.
Qed.

(** C10. [deserialize] does not look at its [page_id] argument: on a
    buffer of [PAGE_SIZE] bytes it returns a page exactly when byte 8
    holds the value of a page type, and the attributes of that page are
    the fields decoded from the first 29 bytes of the buffer. *)
Theorem deserialize_ignores_page_id (arg : Z) (raw : bytes) :
  length raw = 4096%nat ->
  (is_Ok (deserialize arg raw) <-> field raw 8 1 <= 4) /\
  (forall arg', deserialize arg' raw = deserialize arg raw) /\
  (forall p, deserialize arg raw = Ok p ->
     page_id p = field raw 0 8 /\
     PageType_value (page_type p) = field raw 8 1 /\
     table_id p = field raw 9 4 /\
     free_space_start p = field raw 13 2 /\
     free_space_end p = field raw 15 2 /\
     lsn p = field raw 17 8 /\
     checksum p = field raw 25 4 /\
     data p = drop 29 raw).
Proof.
  intros Hlen.
  assert (Hf : forall off n, (off + n <= 29)%nat ->
             field (take 29 raw) off n = field raw off n).
  { intros off n Hn. unfold field. rewrite skipn_firstn_comm, take_take.
    f_equal. f_equal. lia. }
  assert (Hr : 0 <= field raw 8 1 < 256).
  { unfold field. pose proof (le_value_range (take 1 (drop 8 raw))) as H.
    rewrite length_take, length_drop, Hlen in H.
    change (2 ^ (8 * Z.of_nat (1 `min` (4096 - 8)))) with 256 in H. done. }
  assert (E : forall a, deserialize a raw =
     ty ← PageType_of (field raw 8 1);
     Ok {| page_id := field raw 0 8; page_type := ty; table_id := field raw 9 4;
           free_space_start := field raw 13 2; free_space_end := field raw 15 2;
           lsn := field raw 17 8; checksum := field raw 25 4;
           data := drop 29 raw; dirty := false |}).
  { intros a. unfold deserialize. rewrite Hlen.
    change (Z.of_nat 4096 =? PAGE_SIZE) with true. cbn [negb].
    change (Z.to_nat HEADER_SIZE) with 29%nat.
    change (Z.to_nat PAGE_SIZE) with 4096%nat.
    rewrite !Hf by lia. rewrite (take_ge raw 4096) by lia. reflexivity. }
  split; [|split].
  - rewrite E. unfold PageType_of, is_Ok.
    destruct (Z.eqb_spec (field raw 8 1) 0); [split; [lia|eauto]|].
    destruct (Z.eqb_spec (field raw 8 1) 1); [split; [lia|eauto]|].
    destruct (Z.eqb_spec (field raw 8 1) 2); [split; [lia|eauto]|].
    destruct (Z.eqb_spec (field raw 8 1) 3); [split; [lia|eauto]|].
    destruct (Z.eqb_spec (field raw 8 1) 4); [split; [lia|eauto]|].
    split; [intros [? ?]; done|lia].
  - intros arg'. by rewrite !E.
  - intros p. rewrite E.
    destruct (PageType_of (field raw 8 1)) as [ty|] eqn:Ety; [|done].
    apply PageType_of_Ok in Ety.
    intros [= <-]. cbn [page_id page_type table_id free_space_start
                        free_space_end lsn checksum data].
    by repeat split.
Qed.

(** The buffer of the witness: the serialized page [Page(7, INDEX, 3)]. *)
Definition sample_buffer : bytes :=
  header_bytes (new 7 INDEX 3) 0 ++ data (new 7 INDEX 3).

Lemma deserialize_ignores_page_id_witness :
  (is_Ok (deserialize 1 sample_buffer) <-> field sample_buffer 8 1 <= 4) /\
  (forall arg', deserialize arg' sample_buffer = deserialize 1 sample_buffer) /\
  (forall p, deserialize 1 sample_buffer = Ok p ->
     page_id p = field sample_buffer 0 8 /\
     PageType_value (page_type p) = field sample_buffer 8 1 /\
     table_id p = field sample_buffer 9 4 /\
     free_space_start p = field sample_buffer 13 2 /\
     free_space_end p = field sample_buffer 15 2 /\
     lsn p = field sample_buffer 17 8 /\
     checksum p = field sample_buffer 25 4 /\
     data p = drop 29 sample_buffer).
Proof. apply (deserialize_ignores_page_id 1 sample_buffer). vm_compute. reflexivity. Defined.

End PageClaims.


(** * The storage manager *)

Module StorageFacts.
Import Storage PageFacts.

(** A header whose attributes fit the fields of its format. *)
Definition header_fits (h : DatabaseHeader) : Prop :=
  0 <= magic h < 2 ^ 32 /\
  0 <= page_size h < 2 ^ 32 /\
  0 <= db_size h < 2 ^ 64 /\
  0 <= catalog_root h < 2 ^ 64 /\
  0 <= free_list_head h < 2 ^ 64 /\
  0 <= last_transaction_id h < 2 ^ 64 /\
  0 <= checksum h < 2 ^ 32.

(** A manager that holds its file open. *)
Definition opened (sm : StorageManager) : Prop :=
  is_open sm = true /\ is_Some (disk sm) /\ header_fits (header sm).

(** The manager after [create_database] and [open] on a path with no file. *)
Definition created : result StorageManager :=
  sm ← create_database (Storage.new None) false; open sm.

Lemma file_read_write (content b : bytes) (off : nat) :
  file_read (file_write content off b) off (length b) = b.
Proof.
  unfold file_read, file_write.
  rewrite !app_assoc, <- (app_assoc _ b).
  rewrite drop_app_length'.
  - by rewrite take_app_length.
  - rewrite length_app, length_take, length_replicate. lia.
Qed.

Lemma mapR_Ok {A B} (f : A -> result B) (l : list A) :
  (forall x, x ∈ l -> is_Ok (f x)) -> is_Ok (mapR f l).
Proof.
  induction l as [|x l IH]; intros H; [by eexists|].
  destruct (H x) as [y Hy]; [left|].
  destruct IH as [ys Hys]; [intros z Hz; apply H; by right|].
  exists (y :: ys). cbn [mapR]. by rewrite Hy, Hys.
Qed.

Lemma elem_of_zrange lo hi x : x ∈ zrange lo hi -> lo <= x < hi.
Proof.
  unfold zrange. intros (i & -> & Hi)%list_elem_of_fmap.
  apply elem_of_seq in Hi. lia.
Qed.

Lemma new_valid pid ty tid :
  0 <= pid < 2 ^ 64 -> 0 <= tid < 2 ^ 32 -> Page.valid (Page.new pid ty tid).
Proof. intros. unfold Page.valid. cbn. repeat split; try lia; done. Qed.

Lemma free_page_bytes_Ok pid : 0 <= pid < 2 ^ 64 -> is_Ok (free_page_bytes pid).
Proof.
  intros H. unfold free_page_bytes.
  rewrite (serialize_valid _ (new_valid pid Page.FREE 0 H ltac:(lia))).
  by eexists.
Qed.

Lemma header_serialize_fits h : header_fits h -> is_Ok (header_serialize h).
Proof.
  intros (H1 & H2 & H3 & H4 & H5 & H6 & H7). unfold header_serialize.
  rewrite (pack_le_fits 4 (magic h)), (pack_le_fits 4 (page_size h)),
    (pack_le_fits 8 (db_size h)), (pack_le_fits 8 (catalog_root h)),
    (pack_le_fits 8 (free_list_head h)), (pack_le_fits 8 (last_transaction_id h)),
    (pack_le_fits 4 (checksum h)) by done.
  by eexists.
Qed.

Lemma header_fits_set_db_size h n :
  header_fits h -> 0 <= n < 2 ^ 64 -> header_fits (set_db_size h n).
Proof.
  unfold header_fits. destruct h.
  cbn [magic page_size db_size catalog_root free_list_head last_transaction_id
       checksum set_db_size].
  lia.
Qed.

(** [_extend_file] on an open manager, to a size the header can hold. *)
Lemma _extend_file_grows sm n :
  opened sm -> db_size (header sm) < n < 2 ^ 64 ->
  exists sm', _extend_file sm n = Ok sm' /\ opened sm' /\ db_size (header sm') = n.
Proof.
  intros (Ho & [content Hd] & Hh) Hn.
  pose proof Hh as (_ & _ & Hdb & _).
  unfold _extend_file. destruct (Z.leb_spec n (db_size (header sm))); [lia|].
  rewrite Ho. cbn [negb].
  destruct (Z.ltb_spec (db_size (header sm) * Page.PAGE_SIZE) 0) as [Hneg|_].
  { unfold Page.PAGE_SIZE in Hneg. lia. }
  rewrite Hd.
  destruct (mapR_Ok free_page_bytes (zrange (db_size (header sm)) n)) as [pages ->].
  { intros x Hx%elem_of_zrange. apply free_page_bytes_Ok. lia. }
  destruct (header_serialize_fits (set_db_size (header sm) n)) as [hb Hhb].
  { apply header_fits_set_db_size; [done|lia]. }
  cbn [mbind result_bind]. rewrite Hhb.
  eexists. split; [reflexivity|]. split; [|done].
  split; [done|]. split; [by eexists|].
  apply header_fits_set_db_size; [done|lia].
Qed.

(** [open] leaves the manager open with a header that fits. *)
Lemma open_opened sm0 sm : open sm0 = Ok sm -> opened sm.
Proof.
  unfold open. destruct (disk sm0) as [content|] eqn:Hd; [|done].
  unfold header_deserialize.
  destruct (_ <? 44)%nat; [done|].
  destruct (negb (_ =? MAGIC_NUMBER)); [done|].
  cbn [mbind result_bind page_size].
  destruct (negb (_ =? Page.PAGE_SIZE)); [done|].
  intros [= <-]. split; [done|]. split; [by eexists|].
  assert (Hf : forall d off n, (n <= 8)%nat ->
            0 <= Page.field d off n < 2 ^ (8 * Z.of_nat n)).
  { intros d off n Hn. unfold Page.field.
    pose proof (le_value_range (take n (drop off d))) as Hr.
    split; [lia|]. eapply Z.lt_le_trans; [apply Hr|].
    apply Z.pow_le_mono_r; [lia|]. rewrite length_take. lia. }
  unfold header_fits. cbn.
  repeat split; first [apply (Hf _ _ 4%nat); lia | apply (Hf _ _ 8%nat); lia].
Qed.

End StorageFacts.


Module StorageClaims.
Import Storage PageFacts StorageFacts.

(** The manager that [created] returns. *)
Definition created_sm : StorageManager :=
  match created with Ok sm => sm | Raise _ => Storage.new None end.

(** C9, as amended. After [create_database] and [open], [db_size] is 10
    and [read_page(1)] returns a free page. On an open manager,
    [write_page] of a valid page whose [page_id] is at least [db_size] and
    below 2^64 - 1 sets [db_size] to [page_id + 1], and [read_page] of that
    [page_id] then returns a page with the written [page_id], [page_type],
    [table_id] and data. *)
Theorem write_page_round_trip (sm : StorageManager) (p : Page.Page) :
  opened sm -> Page.valid p ->
  db_size (header sm) <= Page.page_id p -> Page.page_id p + 1 < 2 ^ 64 ->
  (sm1 ← created; q ← read_page sm1 1;
   Ok (db_size (header sm1), Page.page_type q)) = Ok (10, Page.FREE) /\
  exists sm' p' q,
    write_page sm p = Ok (sm', p') /\
    db_size (header sm') = Page.page_id p + 1 /\
    read_page sm' (Page.page_id p) = Ok q /\
    Page.page_id q = Page.page_id p /\
    Page.page_type q = Page.page_type p /\
    Page.table_id q = Page.table_id p /\
    Page.data q = Page.data p.
Proof.
  intros Hop Hp Hge Hlt. split; [vm_compute; reflexivity|].
  pose proof Hop as (_ & _ & (_ & _ & Hdb & _)).
  destruct (_extend_file_grows sm (Page.page_id p + 1) Hop ltac:(lia))
    as (sm1 & Hext & (Ho1 & [content Hd1] & Hh1) & Hdb1).
  pose proof (serialize_valid p Hp) as Hser. cbv zeta in Hser.
  set (c := Page._calculate_checksum
              (header_bytes p (Page.checksum p) ++ Page.data p)) in *.
  pose proof (Page_checksum_range := _calculate_checksum_range
                (header_bytes p (Page.checksum p) ++ Page.data p)).
  fold c in Page_checksum_range.
  set (b := header_bytes p c ++ Page.data p) in *.
  assert (Hlenb : length b = 4096%nat) by (by eapply serialize_length).
  assert (Hw : write_page sm p
    = Ok ({| disk := Some (file_write content
                             (Z.to_nat (Page.page_id p * Page.PAGE_SIZE)) b);
             header := header sm1; is_open := is_open sm1 |},
          {| Page.page_id := Page.page_id p; Page.page_type := Page.page_type p;
             Page.table_id := Page.table_id p;
             Page.free_space_start := Page.free_space_start p;
             Page.free_space_end := Page.free_space_end p;
             Page.lsn := Page.lsn p; Page.checksum := c;
             Page.data := Page.data p; Page.dirty := false |})).
  { unfold write_page. destruct Hop as (-> & _ & _). cbn [negb].
    destruct (Z.leb_spec (db_size (header sm)) (Page.page_id p)); [|lia].
    rewrite Hext. cbn [mbind result_bind].
    destruct (Z.ltb_spec (Page.page_id p * Page.PAGE_SIZE) 0) as [Hneg|_].
    { unfold Page.PAGE_SIZE in Hneg. lia. }
    rewrite Hd1, Hser. reflexivity. }
  eexists _, _, _. split; [exact Hw|]. split; [exact Hdb1|].
  assert (Hread : read_page
      {| disk := Some (file_write content
                         (Z.to_nat (Page.page_id p * Page.PAGE_SIZE)) b);
         header := header sm1; is_open := is_open sm1 |} (Page.page_id p)
    = Page.deserialize (Page.page_id p) b).
  { unfold read_page. cbn [is_open header disk]. rewrite Ho1, Hdb1. cbn [negb].
    destruct (Z.leb_spec (Page.page_id p + 1) (Page.page_id p)); [lia|].
    destruct (Z.ltb_spec (Page.page_id p * Page.PAGE_SIZE) 0) as [Hneg|_].
    { unfold Page.PAGE_SIZE in Hneg. lia. }
    change (Z.to_nat Page.PAGE_SIZE) with 4096%nat. rewrite <- Hlenb.
    rewrite file_read_write. rewrite Hlenb.
    change (Z.of_nat 4096 =? Page.PAGE_SIZE) with true. reflexivity. }
  rewrite Hread. unfold b.
  rewrite (deserialize_serialize p c _ Hp Page_checksum_range).
  split; [reflexivity|]. by repeat split.
Qed.

Lemma write_page_round_trip_witness :
  (sm1 ← created; q ← read_page sm1 1;
   Ok (db_size (header sm1), Page.page_type q)) = Ok (10, Page.FREE) /\
  exists sm' p' q,
    write_page created_sm (Page.new 12 Page.DATA 7) = Ok (sm', p') /\
    db_size (header sm') = Page.page_id (Page.new 12 Page.DATA 7) + 1 /\
    read_page sm' (Page.page_id (Page.new 12 Page.DATA 7)) = Ok q /\
    Page.page_id q = Page.page_id (Page.new 12 Page.DATA 7) /\
    Page.page_type q = Page.page_type (Page.new 12 Page.DATA 7) /\
    Page.table_id q = Page.table_id (Page.new 12 Page.DATA 7) /\
    Page.data q = Page.data (Page.new 12 Page.DATA 7).
Proof.
  apply (write_page_round_trip created_sm (Page.new 12 Page.DATA 7)).
  - split; [vm_compute; reflexivity|].
    split; [apply is_Some_alt; vm_compute; exact I|].
    vm_compute. repeat split; discriminate.
  - vm_compute. repeat split; discriminate.
  - vm_compute. discriminate.
  - vm_compute. reflexivity.
Defined.

(** [write_page] of the page with the last 64-bit [page_id]: the new page
    count does not fit the header field, and the call raises. *)
Lemma write_page_overflow sm p :
  opened sm -> Page.page_id p = 2 ^ 64 - 1 -> exists e, write_page sm p = Raise e.
Proof.
  intros (Ho & [content Hd] & Hh) Hid.
  pose proof Hh as (H1 & H2 & Hdb & _).
  unfold write_page. rewrite Ho. cbn [negb].
  destruct (Z.leb_spec (db_size (header sm)) (Page.page_id p)); [|lia].
  assert (Hext : exists e, _extend_file sm (Page.page_id p + 1) = Raise e).
  { unfold _extend_file.
    destruct (Z.leb_spec (Page.page_id p + 1) (db_size (header sm))); [lia|].
    rewrite Ho. cbn [negb].
    destruct (_ <? 0); [by eexists|]. rewrite Hd.
    destruct (mapR free_page_bytes _) as [pages|e]; [|by eexists].
    cbn [mbind result_bind]. unfold header_serialize.
    cbn [magic page_size db_size set_db_size].
    rewrite (pack_le_fits 4 (magic (header sm))), (pack_le_fits 4 (page_size (header sm)))
      by done.
    cbn [mbind result_bind].
    assert (Hpk : pack_le 8 (Page.page_id p + 1) = Raise StructError).
    { unfold pack_le. rewrite Hid.
      destruct (Z.ltb_spec (2 ^ 64 - 1 + 1) (2 ^ (8 * Z.of_nat 8))) as [Hlt|_].
      - change (2 ^ (8 * Z.of_nat 8)) with (2 ^ 64) in Hlt. lia.
      - by rewrite andb_false_r. }
    rewrite Hpk. by eexists. }
  destruct Hext as [e ->]. by eexists.
Qed.

(** C9 fails as stated at the last page id: after [create_database] and
    [open], [write_page] of a page with [page_id] 2^64 - 1 raises. *)
Lemma write_page_last_page_id_raises :
  exists e,
    (sm ← created; write_page sm (Page.new (2 ^ 64 - 1) Page.DATA 0)) = Raise e.
Proof.
  assert (E : created = Ok created_sm).
  { assert (Hb : match created with Ok _ => true | Raise _ => false end = true)
      by (vm_compute; reflexivity).
    unfold created_sm. destruct created; [reflexivity|discriminate]. }
  destruct (write_page_overflow created_sm (Page.new (2 ^ 64 - 1) Page.DATA 0))
    as [e He].
  - split; [vm_compute; reflexivity|].
    split; [apply is_Some_alt; vm_compute; exact I|].
    vm_compute. repeat split; discriminate.
  - reflexivity.
  - exists e. rewrite E. exact He.
Qed.

End StorageClaims.


(** * The B+Tree on concrete runs *)

Module Scenario.
Import Simple.

(** A run of [insert] calls with integer keys on a tree whose values are
    strings. *)
Definition inserts (order : Z) (l : list (Z * string))
  : result (SimpleBPlusTree string) :=
  foldl (fun r kv => st ← r; insert st (KInt kv.1) kv.2) (Ok (new order)) l.

(** What is seen of the root: whether it is a leaf, how many keys and how
    many children it has, and the number of nodes allocated so far. *)
Definition root_view (st : SimpleBPlusTree string)
  : result (bool * nat * option nat * nat) :=
  n ← deref (heap st) (root st);
  Ok (is_leaf n, length (keys n), length <$> children n, length (heap st)).

Definition pairs : list (Z * string) :=
  [(10, "a"); (20, "b"); (30, "c"); (40, "d"); (50, "e")]%string.

(** C2. With order 4 and the five inserts of the scenario: the root is a
    leaf up to the third insert, the fourth insert splits it and leaves a
    root with one key and two children, the fifth splits nothing;
    [range_search(15, 45)] returns b, c, d; [search(25)] returns [None];
    [delete(30)] returns [True] and [search(30)] then returns [None]. *)
Theorem concrete_scenario :
  (st ← inserts 4 (take 3 pairs); root_view st) = Ok (true, 3%nat, None, 1%nat) /\
  (st ← inserts 4 (take 4 pairs); root_view st) = Ok (false, 1%nat, Some 2%nat, 3%nat) /\
  (st ← inserts 4 pairs; root_view st) = Ok (false, 1%nat, Some 2%nat, 3%nat) /\
  (st ← inserts 4 pairs; range_search st (KInt 15) (KInt 45))
    = Ok ["b"; "c"; "d"]%string /\
  (st ← inserts 4 pairs; search st (KInt 25)) = Ok None /\
  (st ← inserts 4 pairs; r ← delete st (KInt 30);
   s ← search r.1 (KInt 30); Ok (r.2, s)) = Ok (true, None).
Proof. repeat split; vm_compute; reflexivity. Qed.


(** With duplicates the scan is not in key order either: here the values
    g and h of the keys 6 and 7 come before the values b and a of key 5. *)
Lemma range_search_out_of_order :
  (st ← inserts 4 [(5, "a"); (5, "b"); (5, "c"); (5, "d");
                   (5, "e"); (5, "f"); (6, "g"); (7, "h")]%string;
   range_search st (KInt 0) (KInt 100))
  = Ok ["d"; "c"; "f"; "e"; "g"; "h"; "b"; "a"]%string.
Proof. vm_compute. reflexivity. Qed.


(** C5 fails as stated: after the key 5 is inserted twice the root leaf
    holds it twice, so its keys are not strictly increasing. *)
Lemma duplicate_keys_in_leaf :
  (st ← inserts 4 [(5, "a"); (5, "b")]%string;
   n ← deref (heap st) (root st); Ok (keys n))
  = Ok [be_bytes 8 5; be_bytes 8 5].
Proof. vm_compute. reflexivity. Qed.

End Scenario.


(** * The order of byte strings *)

Definition blt (a b : bytes) : Prop := bytes_ltb a b = true.
Definition ble (a b : bytes) : Prop := bytes_ltb b a = false.

Lemma bytes_ltb_irrefl a : bytes_ltb a a = false.
Proof.
  induction a as [|x a IH]; [done|]. cbn [bytes_ltb].
  by rewrite Z.ltb_irrefl.
Qed.

Lemma bytes_ltb_trans a b c :
  bytes_ltb a b = true -> bytes_ltb b c = true -> bytes_ltb a c = true.
Proof.
  revert b c. induction a as [|x a IH]; intros [|y b] [|z c]; cbn [bytes_ltb]; try done.
  destruct (Z.ltb_spec (Z_of_byte x) (Z_of_byte y)),
           (Z.ltb_spec (Z_of_byte y) (Z_of_byte x)),
           (Z.ltb_spec (Z_of_byte y) (Z_of_byte z)),
           (Z.ltb_spec (Z_of_byte z) (Z_of_byte y)),
           (Z.ltb_spec (Z_of_byte x) (Z_of_byte z)),
           (Z.ltb_spec (Z_of_byte z) (Z_of_byte x));
    try done; try lia.
  apply IH.
Qed.

Lemma bytes_ltb_total a b :
  bytes_ltb a b = false -> bytes_ltb b a = false -> a = b.
Proof.
  revert b. induction a as [|x a IH]; intros [|y b]; cbn [bytes_ltb]; try done.
  destruct (Z.ltb_spec (Z_of_byte x) (Z_of_byte y)),
           (Z.ltb_spec (Z_of_byte y) (Z_of_byte x)); try done; try lia.
  intros Ha Hb. f_equal; [apply Z_of_byte_inj; lia|by apply IH].
Qed.

Lemma bytes_ltb_asym a b : bytes_ltb a b = true -> bytes_ltb b a = false.
Proof.
  intros H. destruct (bytes_ltb b a) eqn:E; [|done].
  pose proof (bytes_ltb_trans a b a H E) as Haa.
  by rewrite bytes_ltb_irrefl in Haa.
Qed.

Lemma blt_irrefl a : ~ blt a a.
Proof. unfold blt. by rewrite bytes_ltb_irrefl. Qed.
Lemma blt_trans a b c : blt a b -> blt b c -> blt a c.
Proof. apply bytes_ltb_trans. Qed.
Lemma blt_ble a b : blt a b -> ble a b.
Proof. apply bytes_ltb_asym. Qed.
Lemma ble_refl a : ble a a.
Proof. apply bytes_ltb_irrefl. Qed.
Lemma ble_lt_trans a b c : ble a b -> blt b c -> blt a c.
Proof.
  unfold ble, blt. intros Hab Hbc.
  destruct (bytes_ltb a c) eqn:E; [done|].
  destruct (bytes_ltb a b) eqn:E2.
  - exact (eq_trans (eq_sym E) (bytes_ltb_trans a b c E2 Hbc)).
  - assert (a = b) as -> by (by apply bytes_ltb_total). congruence.
Qed.
Lemma blt_le_trans a b c : blt a b -> ble b c -> blt a c.
Proof.
  unfold ble, blt. intros Hab Hbc.
  destruct (bytes_ltb b c) eqn:E2.
  - by eapply bytes_ltb_trans.
  - assert (b = c) as <- by (by apply bytes_ltb_total). done.
Qed.
Lemma ble_trans a b c : ble a b -> ble b c -> ble a c.
Proof.
  intros Hab Hbc. unfold ble. destruct (bytes_ltb c a) eqn:E; [|done].
  pose proof (blt_le_trans c a b E Hab) as H. unfold ble, blt in *. congruence.
Qed.
Lemma not_blt_ble a b : ~ blt a b <-> ble b a.
Proof. unfold blt, ble. by destruct (bytes_ltb a b). Qed.
Lemma not_ble_blt a b : ~ ble a b <-> blt b a.
Proof. unfold blt, ble. by destruct (bytes_ltb b a). Qed.
Lemma ble_antisym a b : ble a b -> ble b a -> a = b.
Proof. unfold ble. intros. by apply bytes_ltb_total. Qed.
Lemma blt_ne a b : blt a b -> a <> b.
Proof. intros H ->. by apply blt_irrefl in H. Qed.
Lemma blt_ble_dec a b : {blt a b} + {ble b a}.
Proof. unfold blt, ble. destruct (bytes_ltb a b); [by left|by right]. Qed.

(** Bounds of a key range: [None] is no bound. *)
Definition above (lo : option bytes) (k : bytes) : Prop :=
  match lo with None => True | Some l => ble l k end.
Definition sabove (lo : option bytes) (k : bytes) : Prop :=
  match lo with None => True | Some l => blt l k end.
Definition below (k : bytes) (hi : option bytes) : Prop :=
  match hi with None => True | Some h => blt k h end.

Lemma sabove_above lo k : sabove lo k -> above lo k.
Proof. destruct lo; [apply blt_ble|done]. Qed.
Lemma above_lt lo k k' : above lo k -> blt k k' -> sabove lo k'.
Proof. destruct lo; [apply ble_lt_trans|done]. Qed.
Lemma above_le lo k k' : above lo k -> ble k k' -> above lo k'.
Proof. destruct lo; [apply ble_trans|done]. Qed.
Lemma sabove_lt lo k k' : sabove lo k -> blt k k' -> sabove lo k'.
Proof. destruct lo; [apply blt_trans|done]. Qed.
Lemma sabove_le lo k k' : sabove lo k -> ble k k' -> sabove lo k'.
Proof. destruct lo; [apply blt_le_trans|done]. Qed.
Lemma below_lt k k' hi : blt k k' -> below k' hi -> below k hi.
Proof. destruct hi; [apply blt_trans|done]. Qed.
Lemma below_le k k' hi : ble k k' -> below k' hi -> below k hi.
Proof. destruct hi; [apply ble_lt_trans|done]. Qed.

(** * Loops over lists *)

Lemma count_while_le {A} (p : A -> bool) l : (count_while p l <= length l)%nat.
Proof. induction l as [|x l IH]; simpl; [lia|]. destruct (p x); simpl; lia. Qed.

Lemma count_while_app {A} (p : A -> bool) l1 l2 :
  Forall (fun x => p x = true) l1 ->
  (l2 = [] \/ exists x, head l2 = Some x /\ p x = false) ->
  count_while p (l1 ++ l2) = length l1.
Proof.
  intros H1 H2. induction H1 as [|x l1 Hx _ IH]; simpl.
  - destruct H2 as [->|(x & Hx & Hp)]; [done|].
    destruct l2 as [|y l2]; [done|]. simpl in *. injection Hx as ->. by rewrite Hp.
  - by rewrite Hx, IH.
Qed.

Lemma count_while_split {A} (p : A -> bool) l :
  Forall (fun x => p x = true) (take (count_while p l) l) /\
  (drop (count_while p l) l = [] \/
   exists x, head (drop (count_while p l) l) = Some x /\ p x = false).
Proof.
  induction l as [|x l [IH1 IH2]]; simpl; [split; [constructor|by left]|].
  destruct (p x) eqn:E; simpl.
  - split; [by constructor|done].
  - split; [constructor|]. right. by exists x.
Qed.

Lemma length_insert_at {A} i (x : A) l : length (insert_at i x l) = S (length l).
Proof.
  unfold insert_at. rewrite length_app. simpl. rewrite length_take, length_drop. lia.
Qed.

Lemma insert_at_app {A} (x : A) l1 l2 : insert_at (length l1) x (l1 ++ l2) = l1 ++ x :: l2.
Proof. unfold insert_at. by rewrite take_app_length, drop_app_length. Qed.

Lemma find_index_Some {A} (p : A -> bool) l i :
  find_index p l = Some i ->
  exists l1 x l2, l = l1 ++ x :: l2 /\ length l1 = i /\ p x = true /\
                  Forall (fun y => p y = false) l1.
Proof.
  revert i. induction l as [|y l IH]; intros i; simpl; [done|].
  destruct (p y) eqn:E.
  - intros [= <-]. by exists [], y, l.
  - destruct (find_index p l) as [j|] eqn:Ej; [|done]. simpl. intros [= <-].
    destruct (IH j eq_refl) as (l1 & x & l2 & -> & <- & Hx & Hl1).
    exists (y :: l1), x, l2. repeat split; try done. by constructor.
Qed.

Lemma find_index_None {A} (p : A -> bool) l :
  find_index p l = None -> Forall (fun y => p y = false) l.
Proof.
  induction l as [|y l IH]; simpl; [constructor|].
  destruct (p y) eqn:E; [done|].
  destruct (find_index p l); [done|]. intros _. constructor; [done|by apply IH].
Qed.

Lemma NoDup_bounded_length (l : list nat) (n : nat) :
  NoDup l -> Forall (fun x => (x < n)%nat) l -> (length l <= n)%nat.
Proof.
  intros Hnd Hl.
  assert (Hsub : l ⊆ seq 0 n).
  { intros x Hx. apply elem_of_seq. rewrite Forall_forall in Hl. specialize (Hl x Hx). lia. }
  pose proof (submseteq_length l (seq 0 n)) as H.
  rewrite length_seq in H. apply H. by apply NoDup_submseteq.
Qed.


(** * The tree that a store represents *)

Module Rep.
Import Simple.

Section rep.
Context {V : Type} `{!EqDecision V}.

(** A tree of nodes, each with its address in the store: a leaf with its
    entries, an internal node with its keys and its children. *)
Inductive tree :=
  | TLeaf (a : nat) (es : list (bytes * V))
  | TNode (a : nat) (ks : list bytes) (cs : list tree).

Definition tid (t : tree) : nat :=
  match t with TLeaf a _ => a | TNode a _ _ => a end.

Fixpoint tree_ind' (P : tree -> Prop)
  (Hleaf : forall a es, P (TLeaf a es))
  (Hnode : forall a ks cs, Forall P cs -> P (TNode a ks cs)) (t : tree) : P t :=
  match t with
  | TLeaf a es => Hleaf a es
  | TNode a ks cs =>
      Hnode a ks cs
        ((fix go (l : list tree) : Forall P l :=
            match l with
            | [] => @List.Forall_nil _ P
            | c :: l' => @List.Forall_cons _ P c l' (tree_ind' P Hleaf Hnode c) (go l')
            end) cs)
  end.

(** The addresses of the nodes, the leaves with their entries in key
    order, the internal nodes with their keys, and all the entries. *)
Fixpoint nodes (t : tree) : list nat :=
  match t with
  | TLeaf a _ => [a]
  | TNode a _ cs => a :: concat (map nodes cs)
  end.

Fixpoint leaf_list (t : tree) : list (nat * list (bytes * V)) :=
  match t with
  | TLeaf a es => [(a, es)]
  | TNode _ _ cs => concat (map leaf_list cs)
  end.

Fixpoint inodes (t : tree) : list (nat * list bytes) :=
  match t with
  | TLeaf _ _ => []
  | TNode a ks cs => (a, ks) :: concat (map inodes cs)
  end.

Definition entries (t : tree) : list (bytes * V) := concat (leaf_list t).*2.

(** The node objects of a leaf and of an internal node. *)
Definition leaf_node (es : list (bytes * V)) (nx : option nat) : TreeNode V :=
  {| keys := es.*1; values := es.*2; children := None; next_leaf := nx;
     is_leaf := true |}.
Definition inner_node (ks : list bytes) (cs : list nat) : TreeNode V :=
  {| keys := ks; values := []; children := Some cs; next_leaf := None;
     is_leaf := false |}.

(** The store [h] holds the tree [t]. *)
Inductive shape (h : list (TreeNode V)) : tree -> Prop :=
  | shape_leaf a es nx :
      h !! a = Some (leaf_node es nx) -> shape h (TLeaf a es)
  | shape_node a ks cs :
      h !! a = Some (inner_node ks (tid <$> cs)) ->
      Forall (shape h) cs -> shape h (TNode a ks cs).

(** The leaves [ls] are linked in this order, the last one to [last]. *)
Fixpoint chain (h : list (TreeNode V)) (ls : list nat) (last : option nat) : Prop :=
  match ls with
  | [] => True
  | a :: ls' =>
      (exists n, h !! a = Some n /\
                 next_leaf n = match ls' with [] => last | b :: _ => Some b end)
      /\ chain h ls' last
  end.

(** ** Order and size *)

Section wfc.
Variable P : option bytes -> option bytes -> tree -> Prop.

(** The children [cs] of a node with keys [ks] and range from [lo] to
    [hi]: child [i] has the range from key [i-1] to key [i]. *)
Fixpoint wfc (lo hi : option bytes) (ks : list bytes) (cs : list tree)
  {struct cs} : Prop :=
  match cs with
  | [] => False
  | c :: cs' =>
      match ks with
      | [] => cs' = [] /\ P lo hi c
      | k :: ks' =>
          P lo (Some k) c /\ sabove lo k /\ below k hi /\ wfc (Some k) hi ks' cs'
      end
  end.
End wfc.

(** A well-formed tree of order [order] whose keys lie from [lo] to [hi]:
    at most [order - 1] keys in a node; the keys of a leaf are strictly
    increasing and at least [lo]; the keys of an internal node are
    strictly increasing and strictly above [lo]. *)
Fixpoint wf (order : Z) (lo hi : option bytes) (t : tree) : Prop :=
  match t with
  | TLeaf _ es =>
      Z.of_nat (length es) < order /\
      StronglySorted blt es.*1 /\
      Forall (fun k => above lo k /\ below k hi) es.*1
  | TNode _ ks cs =>
      Z.of_nat (length ks) < order /\ wfc (wf order) lo hi ks cs
  end.

(** ** Trees with a hole *)

(** One step of a path: a node with its keys before and after the hole
    and its children before and after the hole. *)
Record frame := {
  fid : nat;
  fks1 : list bytes;
  fks2 : list bytes;
  fbefore : list tree;
  fafter : list tree
}.

Definition fill (f : frame) (s : tree) : tree :=
  TNode (fid f) (fks1 f ++ fks2 f) (fbefore f ++ s :: fafter f).

(** The tree with [s] in the hole of the path [fs], innermost frame first. *)
Fixpoint plug (s : tree) (fs : list frame) : tree :=
  match fs with
  | [] => s
  | f :: fs' => plug (fill f s) fs'
  end.

Lemma plug_app s fs1 fs2 : plug s (fs1 ++ fs2) = plug (plug s fs1) fs2.
Proof. revert s. induction fs1 as [|f fs1 IH]; intros s; simpl; [done|apply IH]. Qed.

Lemma tid_plug s f fs : tid (plug s (fs ++ [f])) = fid f.
Proof. by rewrite plug_app. Qed.

(** The store holds the nodes of the path around a hole at address [hole]. *)
Fixpoint ctx_shape (h : list (TreeNode V)) (hole : nat) (fs : list frame) : Prop :=
  match fs with
  | [] => True
  | f :: fs' =>
      h !! fid f = Some (inner_node (fks1 f ++ fks2 f)
                           ((tid <$> fbefore f) ++ hole :: (tid <$> fafter f))) /\
      Forall (shape h) (fbefore f) /\ Forall (shape h) (fafter f) /\
      ctx_shape h (fid f) fs'
  end.

Lemma shape_plug h s fs :
  shape h (plug s fs) <-> shape h s /\ ctx_shape h (tid s) fs.
Proof.
  revert s. induction fs as [|f fs IH]; intros s; simpl; [tauto|].
  rewrite IH. split.
  - intros [Hf Hc]. inversion Hf as [|a ks cs Ha Hcs]; subst.
    rewrite fmap_app, fmap_cons in Ha.
    apply Forall_app in Hcs as [Hb Hs]. apply Forall_cons in Hs as [Hs Ha'].
    done.
  - intros (Hs & Hf & Hb & Ha & Hc). split; [|done].
    constructor; [by rewrite fmap_app, fmap_cons|].
    apply Forall_app. split; [done|]. by constructor.
Qed.

Lemma perm_move {A} (x : A) (B S A' C : list A) :
  x :: (B ++ S ++ A') ++ C ≡ₚ S ++ (x :: B ++ A') ++ C.
Proof.
  symmetry. simpl. rewrite <- Permutation_middle. constructor.
  rewrite <- !app_assoc. rewrite (app_assoc S B), (app_assoc B S).
  f_equiv. apply Permutation_app_comm.
Qed.

Definition frame_nodes (f : frame) : list nat :=
  fid f :: concat (map nodes (fbefore f)) ++ concat (map nodes (fafter f)).
Definition ctx_nodes (fs : list frame) : list nat := concat (map frame_nodes fs).

Lemma nodes_plug s fs : nodes (plug s fs) ≡ₚ nodes s ++ ctx_nodes fs.
Proof.
  revert s. induction fs as [|f fs IH]; intros s; simpl.
  - unfold ctx_nodes. simpl. by rewrite app_nil_r.
  - rewrite IH. unfold ctx_nodes. simpl. unfold frame_nodes at 2.
    rewrite map_app, concat_app. simpl. apply perm_move.
Qed.

Fixpoint ctx_lb (fs : list frame) : list (nat * list (bytes * V)) :=
  match fs with
  | [] => []
  | f :: fs' => ctx_lb fs' ++ concat (map leaf_list (fbefore f))
  end.
Fixpoint ctx_la (fs : list frame) : list (nat * list (bytes * V)) :=
  match fs with
  | [] => []
  | f :: fs' => concat (map leaf_list (fafter f)) ++ ctx_la fs'
  end.

Lemma leaf_list_plug s fs :
  leaf_list (plug s fs) = ctx_lb fs ++ leaf_list s ++ ctx_la fs.
Proof.
  revert s. induction fs as [|f fs IH]; intros s; simpl.
  - by rewrite app_nil_r.
  - rewrite IH. simpl. rewrite map_app, concat_app. simpl.
    by rewrite <- !app_assoc.
Qed.

Definition frame_inodes (f : frame) : list (nat * list bytes) :=
  (fid f, fks1 f ++ fks2 f)
  :: concat (map inodes (fbefore f)) ++ concat (map inodes (fafter f)).
Definition ctx_inodes (fs : list frame) : list (nat * list bytes) :=
  concat (map frame_inodes fs).

Lemma inodes_plug s fs : inodes (plug s fs) ≡ₚ inodes s ++ ctx_inodes fs.
Proof.
  revert s. induction fs as [|f fs IH]; intros s; simpl.
  - unfold ctx_inodes. simpl. by rewrite app_nil_r.
  - rewrite IH. unfold ctx_inodes. simpl. unfold frame_inodes at 2.
    rewrite map_app, concat_app. simpl. apply perm_move.
Qed.

End rep.

Arguments tree V : clear implicits.
Arguments frame V : clear implicits.

End Rep.


(** * Facts on well-formed trees *)

Module Wf.
Import Simple Rep.

Section wf.
Context {V : Type} `{!EqDecision V}.
Notation tree := (Rep.tree V).
Notation frame := (Rep.frame V).

(** The bounds of the hole between the keys [ks1] and [ks2] of a node
    with bounds [LO] and [HI]. *)
Definition hlo (LO : option bytes) (ks1 : list bytes) : option bytes :=
  match last ks1 with Some k => Some k | None => LO end.
Definition hhi (HI : option bytes) (ks2 : list bytes) : option bytes :=
  match head ks2 with Some k => Some k | None => HI end.

Lemma hlo_cons LO k ks1 : hlo LO (k :: ks1) = hlo (Some k) ks1.
Proof.
  unfold hlo. destruct ks1 as [|k' ks1]; [done|].
  change (last (k :: k' :: ks1)) with (last (k' :: ks1)).
  destruct (last (k' :: ks1)) eqn:E; [done|]. by apply last_None in E.
Qed.

Section wfc.
Variable P : option bytes -> option bytes -> tree -> Prop.

Lemma wfc_length lo hi ks cs : wfc P lo hi ks cs -> length cs = S (length ks).
Proof.
  revert lo ks. induction cs as [|c cs IH]; intros lo [|k ks]; simpl; try done.
  - by intros [-> _].
  - intros (_ & _ & _ & H). by rewrite (IH _ _ H).
Qed.

Lemma wfc_sorted lo hi ks cs :
  wfc P lo hi ks cs ->
  StronglySorted blt ks /\ Forall (fun k => sabove lo k /\ below k hi) ks.
Proof.
  revert lo ks. induction cs as [|c cs IH]; intros lo [|k ks]; simpl; try done.
  - intros _. split; constructor.
  - intros (_ & Hlo & Hhi & H). destruct (IH _ _ H) as [Hs Hb]. split.
    + constructor; [done|]. eapply Forall_impl; [exact Hb|]. by intros k' [? _].
    + constructor; [done|]. eapply Forall_impl; [exact Hb|].
      intros k' [Hk' ?]. split; [|done]. by eapply sabove_lt.
Qed.

(** Splitting the keys and children of a node at a key. *)
Lemma wfc_app lo hi ks1 k ks2 cs1 cs2 :
  length cs1 = S (length ks1) ->
  wfc P lo hi (ks1 ++ k :: ks2) (cs1 ++ cs2) <->
  wfc P lo (Some k) ks1 cs1 /\ sabove lo k /\ below k hi /\ wfc P (Some k) hi ks2 cs2.
Proof.
  revert lo ks1. induction cs1 as [|c cs1 IH]; intros lo [|k1 ks1] Hlen;
    simpl in Hlen; try lia.
  - destruct cs1; [|simpl in Hlen; lia]. simpl. naive_solver.
  - simpl. rewrite IH by lia. split.
    + intros (Hc & Hlo & Hhi & Hw1 & Hk & Hkhi & Hw2).
      repeat split; try done. by eapply sabove_lt.
    + intros ((Hc & Hlo & Hk1 & Hw1) & Hk & Hhi & Hw2).
      repeat split; try done. by eapply below_lt.
Qed.

(** The child in the hole has the bounds of the hole. *)
Lemma wfc_hole_get LO HI ks1 ks2 before c after :
  length before = length ks1 ->
  wfc P LO HI (ks1 ++ ks2) (before ++ c :: after) ->
  P (hlo LO ks1) (hhi HI ks2) c.
Proof.
  revert LO ks1. induction before as [|b before IH]; intros LO [|k1 ks1] Hlen;
    simpl in Hlen; try lia.
  - simpl. destruct ks2 as [|k2 ks2]; simpl; [by intros [_ ?]|by intros [? _]].
  - rewrite hlo_cons. simpl. intros (_ & _ & _ & H). apply IH; [lia|done].
Qed.

(** Another child with the bounds of the hole can take its place. *)
Lemma wfc_hole_set LO HI ks1 ks2 before c c' after :
  length before = length ks1 ->
  wfc P LO HI (ks1 ++ ks2) (before ++ c :: after) ->
  P (hlo LO ks1) (hhi HI ks2) c' ->
  wfc P LO HI (ks1 ++ ks2) (before ++ c' :: after).
Proof.
  revert LO ks1. induction before as [|b before IH]; intros LO [|k1 ks1] Hlen;
    simpl in Hlen; try lia.
  - simpl. destruct ks2 as [|k2 ks2]; simpl; naive_solver.
  - rewrite hlo_cons. simpl. intros (? & ? & ? & H) Hc'.
    repeat split; try done. apply IH; [lia|done..].
Qed.

(** Two children and a key between them can take the place of the child
    in the hole. *)
Lemma wfc_hole_split LO HI ks1 ks2 before c after l pk r :
  length before = length ks1 ->
  wfc P LO HI (ks1 ++ ks2) (before ++ c :: after) ->
  P (hlo LO ks1) (Some pk) l -> P (Some pk) (hhi HI ks2) r ->
  sabove (hlo LO ks1) pk -> below pk (hhi HI ks2) ->
  wfc P LO HI (ks1 ++ pk :: ks2) (before ++ l :: r :: after).
Proof.
  revert LO ks1. induction before as [|b before IH]; intros LO [|k1 ks1] Hlen;
    simpl in Hlen; try lia.
  - simpl. destruct ks2 as [|k2 ks2]; simpl.
    + intros [-> _] Hl Hr Hlo Hhi. done.
    + intros (Hc & HLO & Hk2 & Hw) Hl Hr Hlo Hhi.
      repeat split; try done. by eapply below_lt.
  - rewrite hlo_cons. simpl. intros (? & ? & ? & H) Hl Hr Hlo Hhi.
    repeat split; try done. apply (IH (Some k1)); (lia || done).
Qed.

(** The hole lies inside the bounds of its node. *)
Lemma wfc_hole_bounds LO HI ks1 ks2 before c after :
  length before = length ks1 ->
  wfc P LO HI (ks1 ++ ks2) (before ++ c :: after) ->
  (forall k, sabove (hlo LO ks1) k -> sabove LO k) /\
  (forall k, above (hlo LO ks1) k -> above LO k) /\
  (forall k, below k (hhi HI ks2) -> below k HI).
Proof.
  intros Hlen Hw. destruct (wfc_sorted _ _ _ _ Hw) as [Hs Hb].
  apply Forall_app in Hb as [Hb1 Hb2]. repeat split.
  - intros k. unfold hlo. destruct (last ks1) as [k1|] eqn:E; [|done].
    apply last_Some in E as [ks1' ->]. apply Forall_app in Hb1 as [_ Hb1].
    apply Forall_singleton in Hb1 as [H1 _]. intros Hk. by eapply sabove_lt.
  - intros k. unfold hlo. destruct (last ks1) as [k1|] eqn:E; [|done].
    apply last_Some in E as [ks1' ->]. apply Forall_app in Hb1 as [_ Hb1].
    apply Forall_singleton in Hb1 as [H1 _]. intros Hk.
    apply sabove_above. by eapply sabove_le.
  - intros k. unfold hhi. destruct ks2 as [|k2 ks2]; [done|]. simpl.
    apply Forall_cons in Hb2 as [[_ H2] _]. intros Hk. by eapply below_lt.
Qed.

End wfc.

Lemma wfc_impl (P Q : option bytes -> option bytes -> tree -> Prop) lo hi hi' ks cs :
  Forall (fun c => forall lo hi hi', (forall k, below k hi -> below k hi') ->
                                     P lo hi c -> Q lo hi' c) cs ->
  (forall k, below k hi -> below k hi') ->
  wfc P lo hi ks cs -> wfc Q lo hi' ks cs.
Proof.
  intros HF Hhi. revert lo ks.
  induction HF as [|c cs Hc _ IH]; intros lo [|k ks]; simpl; try done.
  - intros [-> H]. split; [done|]. by eapply Hc.
  - intros (H1 & H2 & H3 & H4). repeat split; try done.
    + by eapply Hc.
    + by apply Hhi.
    + by apply IH.
Qed.

(** The upper bound of a well-formed tree can be raised. *)
Lemma wf_weaken_hi order lo hi hi' (t : tree) :
  (forall k, below k hi -> below k hi') -> wf order lo hi t -> wf order lo hi' t.
Proof.
  revert lo hi hi'. induction t as [a es|a ks cs IH] using tree_ind';
    intros lo hi hi' Hhi; simpl.
  - intros (? & ? & Hb). repeat split; try done.
    eapply Forall_impl; [exact Hb|]. intros k [? ?]. split; [done|by apply Hhi].
  - intros [? Hw]. split; [done|].
    eapply wfc_impl; [|exact Hhi|exact Hw].
    eapply Forall_impl; [exact IH|]. intros c Hc lo' hi1 hi2 H12. by apply Hc.
Qed.

(** ** Paths *)

(** The path [fs] around a hole with bounds [lo] and [hi], in a
    well-formed tree: each frame is a well-formed node once its hole is
    filled, here with an empty leaf. *)
Fixpoint ctx_wf (order : Z) (lo hi : option bytes) (fs : list frame) : Prop :=
  match fs with
  | [] => lo = None /\ hi = None
  | f :: fs' =>
      exists LO HI,
        lo = hlo LO (fks1 f) /\ hi = hhi HI (fks2 f) /\
        length (fbefore f) = length (fks1 f) /\
        wf order LO HI (fill f (TLeaf O [])) /\
        ctx_wf order LO HI fs'
  end.

Lemma wf_empty_leaf order lo hi a :
  0 < order -> wf order lo hi (TLeaf a [] : tree).
Proof. intros. simpl. repeat split; [lia|constructor..]. Qed.

Lemma wf_plug_1 order s fs :
  0 < order ->
  Forall (fun f => length (fbefore f) = length (fks1 f)) fs ->
  wf order None None (plug s fs) ->
  exists lo hi, wf order lo hi s /\ ctx_wf order lo hi fs.
Proof.
  intros Ho. revert s. induction fs as [|f fs IH]; intros s Hlen; simpl.
  - intros H. by exists None, None.
  - apply Forall_cons in Hlen as [Hf Hlen].
    intros H. destruct (IH _ Hlen H) as (LO & HI & Hfill & Hctx).
    destruct Hfill as [Hsz Hw].
    exists (hlo LO (fks1 f)), (hhi HI (fks2 f)). split.
    + eapply wfc_hole_get; [exact Hf|exact Hw].
    + exists LO, HI. repeat split; try done.
      eapply wfc_hole_set; [exact Hf|exact Hw|]. by apply wf_empty_leaf.
Qed.

Lemma wf_plug_2 order s fs lo hi :
  wf order lo hi s -> ctx_wf order lo hi fs -> wf order None None (plug s fs).
Proof.
  revert s lo hi. induction fs as [|f fs IH]; intros s lo hi Hs; simpl.
  - by intros [-> ->].
  - intros (LO & HI & -> & -> & Hlen & [Hsz Hw] & Hctx).
    eapply IH; [|exact Hctx]. split; [done|].
    eapply wfc_hole_set; [exact Hlen|exact Hw|done].
Qed.

End wf.
End Wf.


(** * Descending a tree *)

Module Descent.
Import Simple Rep Wf.

Section descent.
Context {V : Type} `{!EqDecision V}.
Notation tree := (Rep.tree V).
Notation frame := (Rep.frame V).

Lemma elem_of_concat {A} (x : A) (ls : list (list A)) :
  x ∈ concat ls <-> exists l, l ∈ ls /\ x ∈ l.
Proof.
  rewrite list_elem_of_In, in_concat. split.
  - intros (l & Hl & Hx). exists l. by rewrite !list_elem_of_In.
  - intros (l & Hl & Hx). exists l. by rewrite <- !list_elem_of_In.
Qed.

Lemma elem_of_concat_map {A B} (f : A -> list B) (x : B) (l : list A) :
  x ∈ concat (map f l) <-> exists y, y ∈ l /\ x ∈ f y.
Proof.
  rewrite elem_of_concat. split.
  - intros (l' & Hl' & Hx). change (map f l) with (f <$> l) in Hl'.
    apply list_elem_of_fmap in Hl' as (y & -> & Hy). by exists y.
  - intros (y & Hy & Hx). exists (f y). split; [|done].
    change (map f l) with (f <$> l). apply list_elem_of_fmap. by exists y.
Qed.

(** ** What the store holds *)

Lemma tid_in_nodes (t : tree) : tid t ∈ nodes t.
Proof. destruct t; simpl; left. Qed.

Lemma shape_lookup (h : list (TreeNode V)) t a :
  shape h t -> a ∈ nodes t -> is_Some (h !! a).
Proof.
  induction t as [b es|b ks cs IH] using tree_ind'; intros Hs Ha;
    inversion Hs as [? ? nx Hb|? ? ? Hb Hcs]; subst; simpl in Ha.
  - apply list_elem_of_singleton in Ha as ->. by eexists.
  - apply elem_of_cons in Ha as [->|Ha]; [by eexists|].
    apply elem_of_concat_map in Ha as (c & Hc & Ha).
    rewrite Forall_forall in IH, Hcs. by apply (IH c Hc); [apply Hcs|].
Qed.

Lemma shape_bound (h : list (TreeNode V)) t :
  shape h t -> Forall (fun a => (a < length h)%nat) (nodes t).
Proof.
  intros Hs. apply Forall_forall. intros a Ha.
  apply lookup_lt_is_Some. by eapply shape_lookup.
Qed.

(** A store that agrees with [h] on the nodes of [t] holds [t] too. *)
Lemma shape_agree (h h' : list (TreeNode V)) t :
  (forall a, a ∈ nodes t -> h' !! a = h !! a) -> shape h t -> shape h' t.
Proof.
  induction t as [b es|b ks cs IH] using tree_ind'; intros Hag Hs;
    inversion Hs as [? ? nx Hb|? ? ? Hb Hcs]; subst.
  - econstructor. rewrite Hag; [done|left].
  - constructor; [rewrite Hag; [done|left]|].
    rewrite Forall_forall in IH, Hcs. apply Forall_forall. intros c Hc.
    apply IH; [done| |by apply Hcs].
    intros a Ha. apply Hag. simpl. right. apply elem_of_concat_map. by exists c.
Qed.

Lemma shape_agree_list (h h' : list (TreeNode V)) ts :
  (forall a, a ∈ concat (map nodes ts) -> h' !! a = h !! a) ->
  Forall (shape h) ts -> Forall (shape h') ts.
Proof.
  intros Hag Hs. rewrite Forall_forall in Hs. apply Forall_forall. intros c Hc.
  eapply shape_agree; [|by apply Hs].
  intros a Ha. apply Hag. apply elem_of_concat_map. by exists c.
Qed.

Lemma ctx_nodes_cons (f : frame) fs :
  ctx_nodes (f :: fs) = frame_nodes f ++ ctx_nodes fs.
Proof. reflexivity. Qed.

Lemma ctx_shape_agree (h h' : list (TreeNode V)) hole fs :
  (forall a, a ∈ ctx_nodes fs -> h' !! a = h !! a) ->
  ctx_shape h hole fs -> ctx_shape h' hole fs.
Proof.
  revert hole. induction fs as [|f fs IH]; intros hole Hag; simpl; [done|].
  intros (Hf & Hb & Ha & Hc).
  assert (Hsub : forall a, a ∈ frame_nodes f -> h' !! a = h !! a).
  { intros a Ha'. apply Hag. rewrite ctx_nodes_cons. apply elem_of_app. by left. }
  repeat split.
  - rewrite Hsub; [done|left].
  - eapply shape_agree_list; [|exact Hb]. intros a Ha'. apply Hsub.
    unfold frame_nodes. right. apply elem_of_app. by left.
  - eapply shape_agree_list; [|exact Ha]. intros a Ha'. apply Hsub.
    unfold frame_nodes. right. apply elem_of_app. by right.
  - apply IH; [|done]. intros a Ha'. apply Hag. rewrite ctx_nodes_cons.
    apply elem_of_app. by right.
Qed.

Lemma ctx_shape_bound (h : list (TreeNode V)) hole fs :
  ctx_shape h hole fs -> Forall (fun a => (a < length h)%nat) (ctx_nodes fs).
Proof.
  revert hole. induction fs as [|f fs IH]; intros hole; simpl; [constructor|].
  intros (Hf & Hb & Ha & Hc). rewrite ctx_nodes_cons. apply Forall_app. split.
  - unfold frame_nodes. constructor; [by eapply lookup_lt_Some|].
    apply Forall_app. split; apply Forall_forall; intros a Hin;
      apply elem_of_concat_map in Hin as (c & Hc' & Hin).
    + rewrite Forall_forall in Hb. pose proof (shape_bound _ _ (Hb c Hc')) as Hbd.
      rewrite Forall_forall in Hbd. by apply Hbd.
    + rewrite Forall_forall in Ha. pose proof (shape_bound _ _ (Ha c Hc')) as Hbd.
      rewrite Forall_forall in Hbd. by apply Hbd.
  - by eapply IH.
Qed.

Lemma fid_in_ctx_nodes (f : frame) fs : f ∈ fs -> fid f ∈ ctx_nodes fs.
Proof.
  intros Hf. unfold ctx_nodes. apply elem_of_concat_map. exists f.
  split; [done|left].
Qed.

(** ** Routing *)

(** The path [fs] is the one that [_find_leaf] follows for the key [k]. *)
Definition routes (k : bytes) (fs : list frame) : Prop :=
  Forall (fun f =>
    count_while (fun k' => negb (bytes_ltb k k')) (fks1 f ++ fks2 f)
      = length (fks1 f) /\
    length (fbefore f) = length (fks1 f)) fs.

Lemma routes_lengths k fs :
  routes k fs -> Forall (fun f => length (fbefore f) = length (fks1 f)) fs.
Proof. intros H. eapply Forall_impl; [exact H|]. by intros f [_ ?]. Qed.

Lemma find_leaf_plug (h : list (TreeNode V)) a es fs k fuel :
  shape h (plug (TLeaf a es) fs) -> routes k fs -> (length fs < fuel)%nat ->
  _find_leaf fuel h (tid (plug (TLeaf a es) fs)) k = Ok a.
Proof.
  revert fuel. induction fs as [|f fs IH] using rev_ind; intros fuel Hs Hr Hf.
  - destruct fuel as [|fuel]; [simpl in Hf; lia|]. simpl in *.
    inversion Hs as [? ? nx Ha|]; subst. unfold deref. rewrite Ha. done.
  - rewrite length_app in Hf. simpl in Hf.
    destruct fuel as [|fuel]; [lia|].
    apply Forall_app in Hr as [Hr Hrf]. apply Forall_singleton in Hrf as [Hcnt Hlen].
    rewrite plug_app in *. simpl plug in *.
    inversion Hs as [|? ? ? Hn Hcs]; subst.
    cbn [_find_leaf tid fill]. unfold deref. rewrite Hn.
    cbn [mbind result_bind is_leaf inner_node keys children].
    rewrite Hcnt. unfold index.
    rewrite fmap_app, fmap_cons.
    rewrite list_lookup_middle by (by rewrite length_fmap).
    cbn [mbind result_bind].
    apply IH; [|done|lia].
    apply Forall_app in Hcs as [_ Hcs]. by apply Forall_cons in Hcs as [? _].
Qed.

(** Every well-formed tree has a path for every key. *)
Lemma decompose order lo hi (t : tree) k :
  wf order lo hi t ->
  exists a es fs, t = plug (TLeaf a es) fs /\ routes k fs.
Proof.
  revert lo hi. induction t as [a es|a ks cs IH] using tree_ind'; intros lo hi Hw.
  - exists a, es, []. split; [done|constructor].
  - destruct Hw as [_ Hw]. pose proof (wfc_length _ _ _ _ _ Hw) as Hlen.
    set (p := fun k' => negb (bytes_ltb k k')).
    set (i := count_while p ks).
    pose proof (count_while_le p ks) as Hi. fold i in Hi.
    destruct (lookup_lt_is_Some_2 cs i) as [c Hc]; [lia|].
    pose proof (take_drop_middle cs i c Hc) as Hcs.
    pose proof (take_drop i ks) as Hks.
    assert (Hlt : length (take i cs) = length (take i ks)).
    { rewrite !length_take. lia. }
    rewrite <- Hcs, <- Hks in Hw.
    pose proof (wfc_hole_get _ _ _ _ _ _ _ _ Hlt Hw) as Hwc.
    rewrite Forall_forall in IH.
    destruct (IH c (list_elem_of_lookup_2 _ _ _ Hc) _ _ Hwc)
      as (b & es & fs & -> & Hr).
    exists b, es,
      (fs ++ [{| fid := a; fks1 := take i ks; fks2 := drop i ks;
                 fbefore := take i cs; fafter := drop (S i) cs |}]).
    split.
    + rewrite plug_app. simpl. unfold fill. simpl. by rewrite Hks, Hcs.
    + apply Forall_app. split; [done|]. apply Forall_singleton. simpl.
      split; [|done]. rewrite Hks. fold p. fold i. rewrite length_take. lia.
Qed.

(** The key that is routed to a hole lies in the bounds of the hole. *)
Lemma routes_bounds order lo hi (fs : list frame) k :
  ctx_wf order lo hi fs -> routes k fs -> above lo k /\ below k hi.
Proof.
  revert lo hi. induction fs as [|f fs IH]; intros lo hi; simpl.
  - by intros [-> ->].
  - intros (LO & HI & -> & -> & Hlen & _ & Hctx) Hr.
    apply Forall_cons in Hr as [[Hcnt _] Hr].
    destruct (IH _ _ Hctx Hr) as [HLO HHI].
    pose proof (count_while_split (fun k' => negb (bytes_ltb k k'))
                  (fks1 f ++ fks2 f)) as [H1 H2].
    rewrite Hcnt, take_app_length in H1. rewrite Hcnt, drop_app_length in H2.
    split.
    + unfold hlo. destruct (last (fks1 f)) as [k1|] eqn:E; [|done].
      apply last_Some in E as [ks' E]. rewrite E in H1.
      rewrite Forall_app, Forall_singleton in H1. destruct H1 as [_ H1].
      simpl. unfold ble. by destruct (bytes_ltb k k1).
    + unfold hhi. destruct (fks2 f) as [|k2 ks2]; [done|]. simpl.
      destruct H2 as [?|(x & [= <-] & Hx)]; [done|].
      cbv beta in Hx. unfold blt. by destruct (bytes_ltb k k2).
Qed.

End descent.
End Descent.


(** * The keys of a well-formed tree *)

Module Keys.
Import Simple Rep Wf Descent.

Section keys.
Context {V : Type} `{!EqDecision V}.
Notation tree := (Rep.tree V).
Notation frame := (Rep.frame V).

(** All the keys of the internal nodes. *)
Definition seps (t : tree) : list bytes := concat (inodes t).*2.

Lemma fmap_concat {A B} (f : A -> B) (ls : list (list A)) :
  f <$> concat ls = concat (map (fmap f) ls).
Proof.
  induction ls as [|l ls IH]; [done|]. simpl. by rewrite fmap_app, IH.
Qed.

Lemma concat_snd_concat {A B C} (g : A -> list (B * list C)) (l : list A) :
  concat (concat (map g l)).*2 = concat (map (fun x => concat (g x).*2) l).
Proof.
  induction l as [|x l IH]; [done|].
  cbn [map concat]. by rewrite fmap_app, concat_app, IH.
Qed.

Lemma entries_node a ks (cs : list tree) :
  entries (TNode a ks cs) = concat (map entries cs).
Proof. unfold entries. cbn [leaf_list]. apply concat_snd_concat. Qed.

Lemma seps_node a ks (cs : list tree) :
  seps (TNode a ks cs) = ks ++ concat (map seps cs).
Proof.
  unfold seps. cbn [inodes]. rewrite fmap_cons. cbn [concat snd].
  f_equal. apply concat_snd_concat.
Qed.

Lemma StronglySorted_blt_NoDup (l : list bytes) : StronglySorted blt l -> NoDup l.
Proof.
  induction 1 as [|x l _ IH Hx]; constructor; [|done].
  intros Hin. rewrite Forall_forall in Hx. by apply (blt_irrefl x), Hx.
Qed.

(** The entries of a well-formed tree are in strictly increasing key
    order, inside the bounds of the tree. *)
Lemma wf_entries order lo hi (t : tree) :
  wf order lo hi t ->
  StronglySorted blt (entries t).*1 /\
  Forall (fun k => above lo k /\ below k hi) (entries t).*1.
Proof.
  revert lo hi. induction t as [a es|a ks cs IH] using tree_ind'; intros lo hi.
  - simpl. unfold entries. simpl. rewrite app_nil_r. tauto.
  - intros [_ Hw]. rewrite entries_node. revert lo ks Hw.
    induction IH as [|c cs Hc _ IHcs]; intros lo [|k ks]; simpl; try done.
    + intros [-> Hw]. simpl. rewrite app_nil_r. by apply Hc.
    + intros (Hwc & Hlo & Hhi & Hw). rewrite fmap_app.
      destruct (Hc _ _ Hwc) as [Hs1 Hb1]. destruct (IHcs _ _ Hw) as [Hs2 Hb2].
      rewrite Forall_forall in Hb1, Hb2. split.
      * apply StronglySorted_app. split; [|done].
        intros x1 x2 H1 H2. destruct (Hb1 _ H1) as [_ H1'].
        destruct (Hb2 _ H2) as [H2' _]. simpl in *. by eapply blt_le_trans.
      * apply Forall_app. split; apply Forall_forall; intros x Hx.
        -- destruct (Hb1 _ Hx) as [? H1']. split; [done|].
           simpl in H1'. by eapply below_lt.
        -- destruct (Hb2 _ Hx) as [H2' ?]. split; [|done].
           simpl in H2'. apply sabove_above. by eapply sabove_le.
Qed.

(** The keys of the internal nodes are pairwise different, strictly
    inside the bounds of the tree. *)
Lemma wf_seps order lo hi (t : tree) :
  wf order lo hi t ->
  NoDup (seps t) /\ Forall (fun k => sabove lo k /\ below k hi) (seps t).
Proof.
  revert lo hi. induction t as [a es|a ks cs IH] using tree_ind'; intros lo hi.
  - intros _. unfold seps. simpl. split; constructor.
  - intros [_ Hw]. rewrite seps_node. revert lo ks Hw.
    induction IH as [|c cs Hc _ IHcs]; intros lo [|k ks]; simpl; try done.
    + intros [-> Hw]. simpl. rewrite app_nil_r. by apply Hc.
    + intros (Hwc & Hlo & Hhi & Hw).
      destruct (Hc _ _ Hwc) as [Hn1 Hb1]. destruct (IHcs _ _ Hw) as [Hn2 Hb2].
      assert (Hp : k :: ks ++ seps c ++ concat (map seps cs)
                   ≡ₚ seps c ++ k :: ks ++ concat (map seps cs)).
      { rewrite <- Permutation_middle. constructor.
        rewrite !app_assoc. f_equiv. apply Permutation_app_comm. }
      rewrite Hp. rewrite Forall_forall in Hb1, Hb2. split.
      * apply NoDup_app. split; [done|]. split.
        -- intros x Hx Hx'. destruct (Hb1 _ Hx) as [_ Hxk]. simpl in Hxk.
           apply elem_of_cons in Hx' as [->|Hx']; [by apply blt_irrefl in Hxk|].
           destruct (Hb2 _ Hx') as [Hkx _]. simpl in Hkx.
           by apply (blt_irrefl x), (blt_trans x k x).
        -- apply NoDup_cons. split; [|done]. intros Hk.
           destruct (Hb2 _ Hk) as [Hkk _]. by apply blt_irrefl in Hkk.
      * apply Forall_app. split; [|apply Forall_cons; split; [done|]];
          apply Forall_forall; intros x Hx.
        -- destruct (Hb1 _ Hx) as [? Hxk]. split; [done|]. by eapply below_lt.
        -- destruct (Hb2 _ Hx) as [Hkx ?]. split; [|done]. by eapply sabove_lt.
Qed.

(** Two lists at different places of a list of lists whose concatenation
    has no duplicate differ, unless they are empty. *)
Lemma concat_NoDup_differ {A} (ls : list (list A)) i j a b :
  NoDup (concat ls) -> ls !! i = Some a -> ls !! j = Some b -> i <> j ->
  a <> [] -> a <> b.
Proof.
  revert i j. induction ls as [|l ls IH]; intros i j Hnd Hi Hj Hij Ha; [done|].
  simpl in Hnd. apply NoDup_app in Hnd as (Hl & Hdis & Hls).
  destruct i as [|i], j as [|j]; simpl in *; try done.
  - injection Hi as ->. intros ->. destruct b as [|x b]; [done|].
    apply (Hdis x); [left|]. apply elem_of_concat. exists (x :: b).
    split; [by eapply list_elem_of_lookup_2|left].
  - injection Hj as ->. intros ->. destruct b as [|x b]; [done|].
    apply (Hdis x); [left|]. apply elem_of_concat. exists (x :: b).
    split; [by eapply list_elem_of_lookup_2|left].
  - eapply IH; [done|exact Hi|exact Hj|lia|done].
Qed.

(** ** The nodes of a tree in the store *)

Lemma leaf_list_nodes (t : tree) a es : (a, es) ∈ leaf_list t -> a ∈ nodes t.
Proof.
  induction t as [b es'|b ks cs IH] using tree_ind'; simpl.
  - intros [= -> ->]%list_elem_of_singleton. left.
  - intros (c & Hc & Ha)%elem_of_concat_map. right.
    apply elem_of_concat_map. exists c. split; [done|].
    rewrite Forall_forall in IH. by apply IH.
Qed.

Lemma inodes_nodes (t : tree) a ks : (a, ks) ∈ inodes t -> a ∈ nodes t.
Proof.
  induction t as [b es'|b ks' cs IH] using tree_ind'; simpl.
  - by intros ?%elem_of_nil.
  - intros [[= -> ->]|(c & Hc & Ha)%elem_of_concat_map]%elem_of_cons; [left|].
    right. apply elem_of_concat_map. exists c. split; [done|].
    rewrite Forall_forall in IH. by apply IH.
Qed.

(** Every node of a tree in the store is one of its leaves or one of its
    internal nodes, with the content that the tree gives it. *)
Lemma node_at (h : list (TreeNode V)) (t : tree) a :
  shape h t -> a ∈ nodes t ->
  (exists es nx, (a, es) ∈ leaf_list t /\ h !! a = Some (leaf_node es nx)) \/
  (exists ks cids, (a, ks) ∈ inodes t /\ h !! a = Some (inner_node ks cids)).
Proof.
  induction t as [b es|b ks cs IH] using tree_ind'; intros Hs Ha;
    inversion Hs as [? ? nx Hb|? ? ? Hb Hcs]; subst; simpl in Ha.
  - apply list_elem_of_singleton in Ha as ->. left. exists es, nx.
    split; [left|done].
  - apply elem_of_cons in Ha as [->|Ha].
    { right. exists ks, (tid <$> cs). split; [left|done]. }
    apply elem_of_concat_map in Ha as (c & Hc & Ha).
    rewrite Forall_forall in IH, Hcs.
    destruct (IH c Hc (Hcs c Hc) Ha) as [(es & nx & Hin & Hh)|(ks' & cids & Hin & Hh)].
    + left. exists es, nx. split; [|done]. simpl.
      apply elem_of_concat_map. by exists c.
    + right. exists ks', cids. split; [|done]. simpl. right.
      apply elem_of_concat_map. by exists c.
Qed.

Lemma NoDup_nodes_leaves (t : tree) : NoDup (nodes t) -> NoDup (leaf_list t).*1.
Proof.
  induction t as [b es|b ks cs IH] using tree_ind'; simpl.
  - intros _. apply NoDup_singleton.
  - intros [_ Hnd]%NoDup_cons. clear b ks.
    induction IH as [|c cs Hc _ IHcs]; simpl in *; [constructor|].
    apply NoDup_app in Hnd as (Hn1 & Hdis & Hn2).
    rewrite fmap_app. apply NoDup_app. split; [by apply Hc|]. split; [|by apply IHcs].
    intros x (p1 & -> & H1)%list_elem_of_fmap (p2 & E & H2)%list_elem_of_fmap.
    destruct p1 as [a1 e1], p2 as [a2 e2]. simpl in E. subst a2.
    apply (Hdis a1); [by eapply leaf_list_nodes|].
    apply elem_of_concat_map in H2 as (c' & Hc' & H2).
    apply elem_of_concat_map. exists c'. split; [done|]. by eapply leaf_list_nodes.
Qed.

Lemma NoDup_nodes_inodes (t : tree) : NoDup (nodes t) -> NoDup (inodes t).*1.
Proof.
  induction t as [b es|b ks cs IH] using tree_ind'; simpl.
  - intros _. constructor.
  - intros [Hb Hnd]%NoDup_cons. apply NoDup_cons. split.
    + intros (p & E & Hp)%list_elem_of_fmap. destruct p as [a' ks']. simpl in E.
      subst a'. apply Hb.
      apply elem_of_concat_map in Hp as (c & Hc & Hp).
      apply elem_of_concat_map. exists c. split; [done|]. by eapply inodes_nodes.
    + clear b ks Hb.
      induction IH as [|c cs Hc _ IHcs]; simpl in *; [constructor|].
      apply NoDup_app in Hnd as (Hn1 & Hdis & Hn2).
      rewrite fmap_app. apply NoDup_app. split; [by apply Hc|]. split; [|by apply IHcs].
      intros x (p1 & -> & H1)%list_elem_of_fmap (p2 & E & H2)%list_elem_of_fmap.
      destruct p1 as [a1 e1], p2 as [a2 e2]. simpl in E. subst a2.
      apply (Hdis a1); [by eapply inodes_nodes|].
      apply elem_of_concat_map in H2 as (c' & Hc' & H2).
      apply elem_of_concat_map. exists c'. split; [done|]. by eapply inodes_nodes.
Qed.

End keys.
End Keys.


(** * Finding the parent of a node *)

Module Parent.
Import Simple Rep Wf Descent Keys.

Section parent.
Context {V : Type} `{!EqDecision V}.
Notation tree := (Rep.tree V).
Notation frame := (Rep.frame V).

(** Nodes that differ in their keys or in their values are not equal, and
    the comparison stops there. *)
Lemma TreeNode_eq_differ (h : list (TreeNode V)) x b nx nb fuel :
  h !! x = Some nx -> h !! b = Some nb ->
  keys nx <> keys nb \/ values nx <> values nb ->
  TreeNode_eq (S fuel) h x b = Ok false.
Proof.
  intros Hx Hb Hd. cbn [TreeNode_eq]. unfold deref. rewrite Hx, Hb.
  cbn [mbind result_bind].
  destruct (decide (keys nx = keys nb)) as [Ek|Ek].
  - rewrite (bool_decide_eq_true_2 _ Ek). cbn [negb].
    destruct Hd as [?|Hv]; [done|]. by rewrite (bool_decide_eq_false_2 _ Hv).
  - by rewrite (bool_decide_eq_false_2 _ Ek).
Qed.

Lemma entries_keys_concat (t : tree) :
  (entries t).*1 = concat ((fun p => p.2.*1) <$> leaf_list t).
Proof.
  unfold entries. induction (leaf_list t) as [|p l IH]; [done|].
  rewrite !fmap_cons. cbn [concat]. by rewrite fmap_app, IH.
Qed.

(** In a well-formed tree held by the store, a node with at least one key
    is equal to no other node: [==] returns [False] without comparing
    children or links. *)
Lemma node_eq_is_identity (h : list (TreeNode V)) order (T : tree) b :
  shape h T -> NoDup (nodes T) -> wf order None None T ->
  b ∈ nodes T -> (forall nb, h !! b = Some nb -> keys nb <> []) ->
  forall x, x ∈ nodes T -> x <> b -> TreeNode_eq (depth h) h x b = Ok false.
Proof.
  intros Hs Hnd Hw Hb Hkb x Hx Hxb. unfold depth.
  destruct (wf_entries _ _ _ _ Hw) as [Hes _].
  apply StronglySorted_blt_NoDup in Hes. rewrite entries_keys_concat in Hes.
  destruct (wf_seps _ _ _ _ Hw) as [Hsp _]. unfold seps in Hsp.
  pose proof (NoDup_nodes_leaves T Hnd) as Hnl.
  pose proof (NoDup_nodes_inodes T Hnd) as Hni.
  destruct (node_at h T b Hs Hb) as [(eb & nxb & Hinb & Hhb)|(kb & cb & Hinb & Hhb)];
  destruct (node_at h T x Hs Hx) as [(ex & nxx & Hinx & Hhx)|(kx & cx & Hinx & Hhx)];
    specialize (Hkb _ Hhb); cbn [leaf_node inner_node keys] in Hkb;
    eapply TreeNode_eq_differ; try eassumption;
    cbn [leaf_node inner_node keys values].
  - left. apply list_elem_of_lookup in Hinb as [j Hj], Hinx as [i Hi].
    intros E. symmetry in E. revert E.
    eapply (concat_NoDup_differ _ j i); [exact Hes| | | |done].
    + by rewrite list_lookup_fmap, Hj.
    + by rewrite list_lookup_fmap, Hi.
    + intros ->. apply Hxb. congruence.
  - right. destruct eb; [done|]. done.
  - destruct ex as [|e ex]; [left; by destruct kb|]. by right.
  - left. apply list_elem_of_lookup in Hinb as [j Hj], Hinx as [i Hi].
    intros E. symmetry in E. revert E.
    eapply (concat_NoDup_differ _ j i); [exact Hsp| | | |done].
    + by rewrite list_lookup_fmap, Hj.
    + by rewrite list_lookup_fmap, Hi.
    + intros ->. apply Hxb. congruence.
Qed.

Lemma contains_spec (h : list (TreeNode V)) cs b :
  (forall x, x ∈ cs -> x <> b -> TreeNode_eq (depth h) h x b = Ok false) ->
  contains h cs b = Ok (bool_decide (b ∈ cs)).
Proof.
  induction cs as [|c cs IH]; intros H; cbn [contains].
  - reflexivity.
  - destruct (decide (c = b)) as [->|Hcb].
    + rewrite bool_decide_eq_true_2 by done. cbn [mbind result_bind].
      by rewrite bool_decide_eq_true_2 by left.
    + rewrite (bool_decide_eq_false_2 _ Hcb).
      rewrite (H c) by (done || left). cbn [mbind result_bind].
      rewrite IH by (intros x Hx; apply H; by right).
      f_equal. apply bool_decide_ext. rewrite elem_of_cons. naive_solver.
Qed.

(** The first result of [f] on the elements of a list. *)
Section first_some.
Context {A B : Type} (f : A -> option B).
Fixpoint first_some (l : list A) : option B :=
  match l with
  | [] => None
  | x :: l' => match f x with Some y => Some y | None => first_some l' end
  end.

Lemma first_some_middle l1 x l2 y :
  (forall z, z ∈ l1 -> f z = None) -> f x = Some y ->
  first_some (l1 ++ x :: l2) = Some y.
Proof.
  intros H1 Hx. induction l1 as [|z l1 IH]; simpl; [by rewrite Hx|].
  rewrite H1 by left. apply IH. intros z' Hz'. apply H1. by right.
Qed.
End first_some.

(** The parent that the depth-first search of [_find_parent] returns. *)
Fixpoint parent_of (b : nat) (t : tree) : option nat :=
  match t with
  | TLeaf _ _ => None
  | TNode a _ cs =>
      if bool_decide (b ∈ tid <$> cs) then Some a
      else first_some (parent_of b) cs
  end.

Lemma length_nodes_pos (t : tree) : (0 < length (nodes t))%nat.
Proof. destruct t; simpl; lia. Qed.

Lemma find_parent_spec (h : list (TreeNode V)) (t : tree) b fuel :
  shape h t ->
  (forall x, x ∈ nodes t -> x <> b -> TreeNode_eq (depth h) h x b = Ok false) ->
  (length (nodes t) <= fuel)%nat ->
  _find_parent fuel h (tid t) b = Ok (parent_of b t).
Proof.
  revert fuel. induction t as [a es|a ks cs IH] using tree_ind';
    intros fuel Hs Heq Hf;
    (destruct fuel as [|fuel]; [simpl in Hf; lia|]);
    inversion Hs as [? ? nx Ha|? ? ? Ha Hcs]; subst;
    cbn [_find_parent tid]; unfold deref; rewrite Ha;
    cbn [mbind result_bind is_leaf leaf_node inner_node children]; [done|].
  rewrite contains_spec.
  2:{ intros x Hx. apply Heq. simpl. right.
      apply list_elem_of_fmap in Hx as (c & -> & Hc).
      apply elem_of_concat_map. exists c. split; [done|apply tid_in_nodes]. }
  cbn [mbind result_bind parent_of]. destruct (bool_decide _); [done|].
  simpl in Hf. assert (Hf' : (length (concat (map nodes cs)) <= fuel)%nat) by lia.
  assert (Heq' : forall x, x ∈ concat (map nodes cs) -> x <> b ->
                   TreeNode_eq (depth h) h x b = Ok false).
  { intros x Hx. apply Heq. by right. }
  clear Heq Hf Ha Hs.
  induction IH as [|c cs Hc _ IHcs]; [done|].
  apply Forall_cons in Hcs as [Hsc Hcs]. simpl in Hf', Heq'.
  rewrite length_app in Hf'.
  rewrite fmap_cons. cbn -[_find_parent parent_of depth]. rewrite Hc; [|done| |lia].
  2:{ intros x Hx. apply Heq'. apply elem_of_app. by left. }
  cbn [mbind result_bind]. destruct (parent_of b c); [done|].
  apply IHcs; [done|lia|]. intros x Hx. apply Heq'. apply elem_of_app. by right.
Qed.

Lemma parent_of_Some b (t : tree) p :
  parent_of b t = Some p -> b ∈ concat (map nodes (match t with
                                                   | TLeaf _ _ => []
                                                   | TNode _ _ cs => cs end)).
Proof.
  revert p. induction t as [a es|a ks cs IH] using tree_ind'; intros p; [done|].
  cbn [parent_of]. case_bool_decide as Hb.
  - intros _. apply list_elem_of_fmap in Hb as (c & -> & Hc).
    apply elem_of_concat_map. exists c. split; [done|apply tid_in_nodes].
  - clear Hb. induction IH as [|c cs Hc _ IHcs]; [done|].
    cbn [first_some]. destruct (parent_of b c) as [q|] eqn:E.
    + intros _. cbn [map concat]. apply elem_of_app. left.
      specialize (Hc q eq_refl). destruct c as [|c1 c2 c3]; [by apply elem_of_nil in Hc|].
      simpl. by right.
    + intros H. cbn [map concat]. apply elem_of_app. right. by apply IHcs.
Qed.

Lemma parent_of_None_outside b (t : tree) : b ∉ nodes t -> parent_of b t = None.
Proof.
  intros Hb. destruct (parent_of b t) as [p|] eqn:E; [|done].
  apply parent_of_Some in E. destruct t as [|a ks cs]; [by apply elem_of_nil in E|].
  exfalso. apply Hb. simpl. by right.
Qed.

Lemma parent_of_root (t : tree) : NoDup (nodes t) -> parent_of (tid t) t = None.
Proof.
  intros Hnd. destruct (parent_of (tid t) t) as [p|] eqn:E; [|done].
  apply parent_of_Some in E. destruct t as [|a ks cs]; [by apply elem_of_nil in E|].
  simpl in *. by apply NoDup_cons in Hnd as [? _].
Qed.

(** In a tree without shared nodes, the search finds the innermost frame
    of the path to a subtree, and nothing for the root. *)
Lemma parent_of_plug (l : tree) (fs : list frame) :
  NoDup (nodes (plug l fs)) -> parent_of (tid l) (plug l fs) = fid <$> head fs.
Proof.
  induction fs as [|f fs IH] using rev_ind; intros Hnd.
  - simpl. by apply parent_of_root.
  - rewrite plug_app in *. cbn [plug] in *. unfold fill in *.
    cbn [nodes] in Hnd. apply NoDup_cons in Hnd as [Hf Hnd].
    rewrite map_app, concat_app in Hnd. cbn [map concat] in Hnd.
    apply NoDup_app in Hnd as (Hb & Hdis1 & Hnd).
    apply NoDup_app in Hnd as (Hp & Hdis2 & Ha).
    assert (Hl : tid l ∈ nodes (plug l fs)).
    { rewrite nodes_plug. apply elem_of_app. left. apply tid_in_nodes. }
    cbn [parent_of].
    destruct fs as [|g fs _] using rev_ind.
    + simpl. rewrite bool_decide_eq_true_2; [done|].
      rewrite fmap_app, fmap_cons. apply elem_of_app. right. left.
    + rewrite bool_decide_eq_false_2.
      2:{ rewrite fmap_app, fmap_cons. intros [Hin|Hin]%elem_of_app.
          - apply list_elem_of_fmap in Hin as (c & E & Hc).
            apply (Hdis1 (tid l)); [|apply elem_of_app; by left].
            apply elem_of_concat_map. exists c. split; [done|].
            rewrite E. apply tid_in_nodes.
          - apply elem_of_cons in Hin as [E|Hin].
            + rewrite plug_app in E, Hp. cbn [plug fill tid] in E.
              cbn [plug fill nodes] in Hp.
              apply NoDup_cons in Hp as [Hp _]. apply Hp. rewrite <- E.
              rewrite map_app, concat_app. cbn [map concat].
              apply elem_of_app. right. apply elem_of_app. left.
              rewrite nodes_plug. apply elem_of_app. left. apply tid_in_nodes.
            + apply list_elem_of_fmap in Hin as (c & E & Hc).
              apply (Hdis2 (tid l)); [done|].
              apply elem_of_concat_map. exists c. split; [done|].
              rewrite E. apply tid_in_nodes. }
      assert (Hhd : head ((fs ++ [g]) ++ [f]) = head (fs ++ [g])).
      { by destruct fs. }
      rewrite Hhd.
      assert (Hsome : exists q, fid <$> head (fs ++ [g]) = Some q).
      { destruct fs; simpl; eauto. }
      destruct Hsome as [q Hq]. rewrite Hq.
      assert (Hbef : forall c, c ∈ fbefore f -> parent_of (tid l) c = None).
      { intros c Hc. apply parent_of_None_outside. intros Hin.
        apply (Hdis1 (tid l)); [|apply elem_of_app; by left].
        apply elem_of_concat_map. by exists c. }
      apply first_some_middle; [done|]. by rewrite IH.
Qed.

End parent.
End Parent.


(** * Splits *)

Module Split.
Import Simple Rep Wf Descent Keys Parent.

Section split.
Context {V : Type} `{!EqDecision V}.
Notation tree := (Rep.tree V).
Notation frame := (Rep.frame V).
Notation state := (SimpleBPlusTree V).

(** A node with at least one key. *)
Definition key_bearing (t : tree) : Prop :=
  match t with TLeaf _ es => es <> [] | TNode _ ks _ => ks <> [] end.

(** The state in the middle of a split: the node [l] has been cut, the
    new node [r] holds its upper part and is not attached yet, and the
    key [pk] is to be inserted in the parent, the innermost frame of [fs]. *)
Record Mid (st : state) (l r : tree) (pk : bytes) (fs : list frame)
  (lo hi : option bytes) : Prop := {
  mid_order : 2 <= order st;
  mid_l : shape (heap st) l;
  mid_r : shape (heap st) r;
  mid_ctx : ctx_shape (heap st) (tid l) fs;
  mid_root : root st = tid (plug l fs);
  mid_nodup : NoDup (nodes l ++ nodes r ++ ctx_nodes fs);
  mid_wfl : wf (order st) lo (Some pk) l;
  mid_wfr : wf (order st) (Some pk) hi r;
  mid_lo : sabove lo pk;
  mid_hi : below pk hi;
  mid_cwf : ctx_wf (order st) lo hi fs;
  mid_keys : key_bearing l
}.

(** The state [st'] reached from [st] holds the well-formed tree [t'] with
    the leaves [ll]; only the nodes [touched] and new nodes were written. *)
Record Built (st st' : state) (t' : tree) (ll : list (nat * list (bytes * V)))
  (touched : list nat) : Prop := {
  b_shape : shape (heap st') t';
  b_root : root st' = tid t';
  b_nodup : NoDup (nodes t');
  b_wf : wf (order st') None None t';
  b_leaves : leaf_list t' = ll;
  b_order : order st' = order st;
  b_map : key_to_value st' = key_to_value st;
  b_keep : forall a, (a < length (heap st))%nat -> a ∉ touched ->
                     heap st' !! a = heap st !! a
}.

Lemma tid_plug_same (s s' : tree) fs : tid s = tid s' -> tid (plug s fs) = tid (plug s' fs).
Proof.
  revert s s'. induction fs as [|f fs IH]; intros s s' E; simpl; [done|].
  by apply IH.
Qed.

Lemma insert_at_succ {A} (x y : A) l1 l2 :
  insert_at (S (length l1)) y (l1 ++ x :: l2) = l1 ++ x :: y :: l2.
Proof.
  replace (S (length l1)) with (length (l1 ++ [x]))
    by (rewrite length_app; simpl; lia).
  rewrite (cons_middle x l1 l2), app_assoc, insert_at_app.
  by rewrite <- app_assoc.
Qed.

Lemma fmap_insert_at {A B} (f : A -> B) i x l :
  f <$> insert_at i x l = insert_at i (f x) (f <$> l).
Proof. unfold insert_at. by rewrite fmap_app, fmap_cons, fmap_take, fmap_drop. Qed.

Lemma sorted_le_last (l : list bytes) k x :
  StronglySorted blt (l ++ [k]) -> x ∈ l ++ [k] -> ble x k.
Proof.
  intros Hs [Hx|Hx]%elem_of_app.
  - apply blt_ble. eapply StronglySorted_app_1_elem_of; [exact Hs|done|left].
  - apply list_elem_of_singleton in Hx as ->. apply ble_refl.
Qed.

(** The place of the promoted key among the keys of the parent is the
    place of the hole. *)
Lemma promote_position (P : option bytes -> option bytes -> tree -> Prop)
  LO HI ks1 ks2 cs pk :
  wfc P LO HI (ks1 ++ ks2) cs ->
  sabove (hlo LO ks1) pk -> below pk (hhi HI ks2) ->
  count_while (fun k' => bytes_ltb k' pk) (ks1 ++ ks2) = length ks1.
Proof.
  intros Hw Hlo Hhi. destruct (wfc_sorted _ _ _ _ _ Hw) as [Hs _].
  apply count_while_app.
  - apply StronglySorted_app_1_l in Hs.
    unfold hlo in Hlo. destruct (last ks1) as [k1|] eqn:E.
    + apply last_Some in E as [ks1' ->]. apply Forall_forall. intros x Hx.
      simpl in Hlo. eapply ble_lt_trans; [|exact Hlo]. by eapply sorted_le_last.
    + apply last_None in E as ->. constructor.
  - destruct ks2 as [|k2 ks2]; [by left|]. right. exists k2. split; [done|].
    simpl in Hhi. by apply bytes_ltb_asym.
Qed.

(** ** The leaf chain *)

Definition hd_or (l : list nat) (last : option nat) : option nat :=
  match l with [] => last | b :: _ => Some b end.

Lemma chain_unfold (h : list (TreeNode V)) a ls last :
  chain h (a :: ls) last <->
  (exists n, h !! a = Some n /\ next_leaf n = hd_or ls last) /\ chain h ls last.
Proof. reflexivity. Qed.

Lemma chain_app (h : list (TreeNode V)) l1 l2 last :
  chain h (l1 ++ l2) last <-> chain h l1 (hd_or l2 last) /\ chain h l2 last.
Proof.
  induction l1 as [|a l1 IH]; [simpl; tauto|].
  rewrite <- app_comm_cons, !chain_unfold, IH.
  destruct l1; simpl; tauto.
Qed.

(** A store that keeps the links of the leaves keeps the chain. *)
Lemma chain_agree (h h' : list (TreeNode V)) ls last :
  (forall a n, a ∈ ls -> h !! a = Some n ->
               exists n', h' !! a = Some n' /\ next_leaf n' = next_leaf n) ->
  chain h ls last -> chain h' ls last.
Proof.
  induction ls as [|a ls IH]; intros Hag; [done|].
  rewrite !chain_unfold. intros [(n & Hn & Hnx) Hc]. split.
  - destruct (Hag a n) as (n' & Hn' & E); [left|done|]. exists n'. by rewrite E.
  - apply IH; [|done]. intros b nb Hb. apply Hag. by right.
Qed.

Lemma chain_bound (h : list (TreeNode V)) ls last :
  chain h ls last -> Forall (fun a => (a < length h)%nat) ls.
Proof.
  induction ls as [|a ls IH]; [constructor|].
  rewrite chain_unfold. intros [(n & Hn & _) Hc]. constructor; [|by apply IH].
  by eapply lookup_lt_Some.
Qed.

End split.
End Split.


Module Attach.
Import Simple Rep Wf Descent Keys Parent Split.

Section attach.
Context {V : Type} `{!EqDecision V}.
Notation tree := (Rep.tree V).
Notation frame := (Rep.frame V).
Notation state := (SimpleBPlusTree V).
Implicit Types (st : state) (l r t : tree) (f : frame) (fs : list frame).
Implicit Types (pk : bytes) (lo hi : option bytes).

(** The end of [_split_leaf] and of [_split_internal]: the parent of the
    cut node is looked up, and the promoted key goes into it or into a
    new root. *)
Definition attach
  (rec : state -> nat -> bytes -> nat -> nat -> result state)
  (st : state) (pk : bytes) (left right : nat) : result state :=
  parent ← _find_parent (depth (heap st)) (heap st) (root st) left;
  match parent with
  | None => Ok (make_root st pk left right)
  | Some p => rec st p pk left right
  end.

Lemma NoDup_app_drop_middle {A} (l1 l2 l3 : list A) :
  NoDup (l1 ++ l2 ++ l3) -> NoDup (l1 ++ l3).
Proof.
  rewrite !NoDup_app. intros (H1 & Hd & H2 & _ & H3).
  repeat split; try done. intros x Hx Hx'. apply (Hd x Hx).
  apply elem_of_app. by right.
Qed.

Lemma mid_tree_shape st l r pk fs lo hi :
  Mid st l r pk fs lo hi -> shape (heap st) (plug l fs).
Proof. intros M. apply shape_plug. split; [apply M|apply M]. Qed.

Lemma mid_tree_nodup st l r pk fs lo hi :
  Mid st l r pk fs lo hi -> NoDup (nodes (plug l fs)).
Proof.
  intros M. rewrite nodes_plug. eapply NoDup_app_drop_middle. apply M.
Qed.

Lemma mid_tree_wf st l r pk fs lo hi :
  Mid st l r pk fs lo hi -> wf (order st) None None (plug l fs).
Proof.
  intros M. eapply wf_plug_2; [|apply M].
  eapply wf_weaken_hi; [|apply M]. intros k Hk. simpl in Hk.
  eapply below_lt; [exact Hk|apply M].
Qed.

Lemma mid_keys_heap st (l : tree) nb :
  shape (heap st) l -> key_bearing l -> heap st !! tid l = Some nb -> keys nb <> [].
Proof.
  intros Hs Hk Hb. inversion Hs as [a es nx Ha|a ks cs Ha Hcs]; subst; simpl in *;
    rewrite Ha in Hb; injection Hb as <-; simpl; [|done].
  by destruct es.
Qed.

(** In the middle of a split, [_find_parent] returns the innermost frame
    of the path, or [None] when the cut node is the root. *)
Lemma mid_find_parent st l r pk fs lo hi :
  Mid st l r pk fs lo hi ->
  _find_parent (depth (heap st)) (heap st) (root st) (tid l) = Ok (fid <$> head fs).
Proof.
  intros M. pose proof (mid_tree_shape _ _ _ _ _ _ _ M) as Hs.
  pose proof (mid_tree_nodup _ _ _ _ _ _ _ M) as Hnd.
  pose proof (mid_tree_wf _ _ _ _ _ _ _ M) as Hw.
  rewrite (mid_root _ _ _ _ _ _ _ M).
  rewrite (find_parent_spec (heap st) (plug l fs) (tid l) (depth (heap st)) Hs).
  - by rewrite parent_of_plug.
  - assert (Hl : tid l ∈ nodes (plug l fs)).
    { rewrite nodes_plug. apply elem_of_app. left. apply tid_in_nodes. }
    intros x Hx Hne.
    eapply node_eq_is_identity; [exact Hs|exact Hnd|exact Hw|exact Hl| |exact Hx|exact Hne].
    intros nb Hb. eapply mid_keys_heap; [apply M|apply M|exact Hb].
  - unfold depth. apply Nat.le_le_succ_r.
    apply NoDup_bounded_length; [done|by apply shape_bound].
Qed.

Lemma shape_app (h : list (TreeNode V)) n (t : tree) : shape h t -> shape (h ++ [n]) t.
Proof.
  intros Hs. eapply shape_agree; [|exact Hs].
  intros a Ha. apply lookup_app_l. apply lookup_lt_is_Some. by eapply shape_lookup.
Qed.

(** The cut node was the root: a new root is made. *)
Lemma mid_make_root st l r pk lo hi :
  Mid st l r pk [] lo hi ->
  Built st (make_root st pk (tid l) (tid r))
    (TNode (length (heap st)) [pk] [l; r]) (leaf_list l ++ leaf_list r) [].
Proof.
  intros M. destruct M as [Ho Hl Hr _ Hroot Hnd Hwl Hwr Hlo Hhi [-> ->] _].
  unfold ctx_nodes in Hnd. simpl in Hnd. rewrite app_nil_r in Hnd.
  pose proof (shape_bound _ _ Hl) as Hbl. pose proof (shape_bound _ _ Hr) as Hbr.
  split.
  - simpl. constructor.
    + rewrite lookup_app_r by lia. rewrite Nat.sub_diag. reflexivity.
    + repeat constructor; by apply shape_app.
  - reflexivity.
  - simpl. rewrite app_nil_r. apply NoDup_cons. split; [|done].
    intros [Hin|Hin]%elem_of_app.
    + rewrite Forall_forall in Hbl. specialize (Hbl _ Hin). lia.
    + rewrite Forall_forall in Hbr. specialize (Hbr _ Hin). lia.
  - simpl. split; [lia|]. repeat split; done.
  - simpl. by rewrite app_nil_r.
  - reflexivity.
  - reflexivity.
  - intros a Ha _. simpl. by apply lookup_app_l.
Qed.

(** ** Inserting into the parent *)

(** The parent with the promoted key and the new child in place. *)
Definition grown (f : frame) (l r : tree) (pk : bytes) : tree :=
  TNode (fid f) (fks1 f ++ pk :: fks2 f) (fbefore f ++ l :: r :: fafter f).

Definition grown_heap (h : list (TreeNode V)) (f : frame) (l r : tree) (pk : bytes)
  : list (TreeNode V) :=
  <[fid f := inner_node (fks1 f ++ pk :: fks2 f)
               (tid <$> fbefore f ++ l :: r :: fafter f)]> h.

(** What [_insert_into_internal] does first. *)
Lemma insert_into_internal_unfold st l r pk f fs lo hi fuel :
  Mid st l r pk (f :: fs) lo hi ->
  _insert_into_internal (S fuel) st (fid f) pk (tid l) (tid r)
  = let st1 := set_heap st (grown_heap (heap st) f l r pk) in
    if order st <=? Z.of_nat (length (fks1 f ++ pk :: fks2 f))
    then _split_internal_with (_insert_into_internal fuel) st1 (fid f)
    else Ok st1.
Proof.
  intros M. destruct (mid_ctx _ _ _ _ _ _ _ M) as (Hf & _).
  destruct (mid_cwf _ _ _ _ _ _ _ M) as (LO & HI & -> & -> & Hlen & [_ Hw] & _).
  cbn [_insert_into_internal]. unfold deref. rewrite Hf.
  cbn [mbind result_bind inner_node keys children].
  rewrite (promote_position _ _ _ _ _ _ _ Hw (mid_lo _ _ _ _ _ _ _ M)
             (mid_hi _ _ _ _ _ _ _ M)).
  rewrite insert_at_app.
  rewrite <- (length_fmap tid (fbefore f)) in Hlen. rewrite <- Hlen.
  rewrite insert_at_succ.
  unfold grown_heap. rewrite !fmap_app, !fmap_cons. reflexivity.
Qed.

Lemma mid_frame_fresh st l r pk f fs lo hi :
  Mid st l r pk (f :: fs) lo hi ->
  (fid f ∉ nodes l) /\ (fid f ∉ nodes r) /\
  (fid f ∉ concat (map nodes (fbefore f))) /\
  (fid f ∉ concat (map nodes (fafter f))) /\ (fid f ∉ ctx_nodes fs) /\
  (fid f < length (heap st))%nat.
Proof.
  intros M. pose proof (mid_nodup _ _ _ _ _ _ _ M) as Hnd.
  rewrite ctx_nodes_cons in Hnd. unfold frame_nodes in Hnd.
  rewrite !app_assoc in Hnd. rewrite <- !app_assoc in Hnd.
  apply NoDup_app in Hnd as (_ & Hd1 & Hnd).
  apply NoDup_app in Hnd as (_ & Hd2 & Hnd).
  simpl in Hnd. apply NoDup_cons in Hnd as [Hf _].
  rewrite !elem_of_app in Hf.
  destruct (mid_ctx _ _ _ _ _ _ _ M) as (Hh & _).
  repeat split; try tauto.
  - intros Hin. apply (Hd1 _ Hin). apply elem_of_app. right. left.
  - intros Hin. apply (Hd2 _ Hin). left.
  - by eapply lookup_lt_Some.
Qed.

(** The store after the write into the parent holds the grown parent. *)
Lemma grown_shape st l r pk f fs lo hi :
  Mid st l r pk (f :: fs) lo hi ->
  shape (grown_heap (heap st) f l r pk) (grown f l r pk) /\
  ctx_shape (grown_heap (heap st) f l r pk) (fid f) fs.
Proof.
  intros M. destruct (mid_frame_fresh _ _ _ _ _ _ _ _ M) as (F1 & F2 & F3 & F4 & F5 & F6).
  destruct (mid_ctx _ _ _ _ _ _ _ M) as (Hh & Hb & Ha & Hc).
  assert (Hag : forall a, a <> fid f ->
            grown_heap (heap st) f l r pk !! a = heap st !! a).
  { intros a Hne. unfold grown_heap. by apply list_lookup_insert_ne. }
  split.
  - constructor.
    + unfold grown_heap. by apply list_lookup_insert_eq.
    + apply Forall_app. split.
      { eapply shape_agree_list; [|exact Hb]. intros a Hin. apply Hag. by intros ->. }
      constructor.
      { eapply shape_agree; [|apply M]. intros a Hin. apply Hag. by intros ->. }
      constructor.
      { eapply shape_agree; [|apply M]. intros a Hin. apply Hag. by intros ->. }
      eapply shape_agree_list; [|exact Ha]. intros a Hin. apply Hag. by intros ->.
  - eapply ctx_shape_agree; [|exact Hc]. intros a Hin. apply Hag. by intros ->.
Qed.

Lemma grown_nodes (f : frame) (l r : tree) pk fs :
  nodes (grown f l r pk) ++ ctx_nodes fs ≡ₚ nodes l ++ nodes r ++ ctx_nodes (f :: fs).
Proof.
  rewrite ctx_nodes_cons. unfold grown, frame_nodes. cbn [nodes].
  rewrite map_app, concat_app. cbn [map concat]. solve_Permutation.
Qed.

Lemma grown_leaves (f : frame) (l r : tree) pk fs :
  leaf_list (plug (grown f l r pk) fs)
  = ctx_lb (f :: fs) ++ leaf_list l ++ leaf_list r ++ ctx_la (f :: fs).
Proof.
  rewrite leaf_list_plug. unfold grown. cbn [leaf_list ctx_lb ctx_la].
  rewrite map_app, concat_app. cbn [map concat]. by rewrite <- !app_assoc.
Qed.

Lemma grown_wfc st l r pk f fs lo hi :
  Mid st l r pk (f :: fs) lo hi ->
  exists LO HI,
    wfc (wf (order st)) LO HI (fks1 f ++ pk :: fks2 f)
      (fbefore f ++ l :: r :: fafter f) /\
    ctx_wf (order st) LO HI fs /\
    Z.of_nat (length (fks1 f ++ fks2 f)) < order st.
Proof.
  intros M.
  pose proof (mid_wfl _ _ _ _ _ _ _ M) as Hwl.
  pose proof (mid_wfr _ _ _ _ _ _ _ M) as Hwr.
  pose proof (mid_lo _ _ _ _ _ _ _ M) as Hlo.
  pose proof (mid_hi _ _ _ _ _ _ _ M) as Hhi.
  destruct (mid_cwf _ _ _ _ _ _ _ M) as (LO & HI & -> & -> & Hlen & [Hsz Hw] & Hc).
  exists LO, HI. split; [|done].
  eapply wfc_hole_split; [exact Hlen|exact Hw|done..].
Qed.

(** The parent has room: the insertion is over. *)
Lemma mid_no_split st l r pk f fs lo hi :
  Mid st l r pk (f :: fs) lo hi ->
  Z.of_nat (length (fks1 f ++ pk :: fks2 f)) < order st ->
  Built st (set_heap st (grown_heap (heap st) f l r pk))
    (plug (grown f l r pk) fs)
    (ctx_lb (f :: fs) ++ leaf_list l ++ leaf_list r ++ ctx_la (f :: fs))
    (fid <$> f :: fs).
Proof.
  intros M Hsz. destruct (grown_shape _ _ _ _ _ _ _ _ M) as [Hg Hc].
  destruct (grown_wfc _ _ _ _ _ _ _ _ M) as (LO & HI & Hw & Hcw & _).
  split.
  - apply shape_plug. by split.
  - cbn [root set_heap]. rewrite (mid_root _ _ _ _ _ _ _ M). cbn [plug].
    by apply tid_plug_same.
  - rewrite nodes_plug, grown_nodes. apply M.
  - cbn [order set_heap]. eapply wf_plug_2; [|exact Hcw]. split; done.
  - apply grown_leaves.
  - reflexivity.
  - reflexivity.
  - intros a Ha Hnt. cbn [heap set_heap]. unfold grown_heap.
    apply list_lookup_insert_ne. intros <-. apply Hnt. left.
Qed.

End attach.
End Attach.


Module Cascade.
Import Simple Rep Wf Descent Keys Parent Split Attach.

Section cascade.
Context {V : Type} `{!EqDecision V}.
Notation tree := (Rep.tree V).
Notation frame := (Rep.frame V).
Notation state := (SimpleBPlusTree V).
Implicit Types (st : state) (l r t : tree) (f : frame) (fs : list frame).
Implicit Types (pk : bytes) (lo hi : option bytes).

(** The two halves of the grown parent, and the store after the cut. *)
Definition cut_mid (f : frame) pk : nat := (length (fks1 f ++ pk :: fks2 f) / 2)%nat.
Definition cut_left (f : frame) l r pk : tree :=
  TNode (fid f) (take (cut_mid f pk) (fks1 f ++ pk :: fks2 f))
    (take (S (cut_mid f pk)) (fbefore f ++ l :: r :: fafter f)).
Definition cut_right (a : nat) (f : frame) l r pk : tree :=
  TNode a (drop (S (cut_mid f pk)) (fks1 f ++ pk :: fks2 f))
    (drop (S (cut_mid f pk)) (fbefore f ++ l :: r :: fafter f)).
Definition cut_heap (h : list (TreeNode V)) (f : frame) l r pk : list (TreeNode V) :=
  <[fid f := inner_node (take (cut_mid f pk) (fks1 f ++ pk :: fks2 f))
               (tid <$> take (S (cut_mid f pk)) (fbefore f ++ l :: r :: fafter f))]>
    (grown_heap h f l r pk
     ++ [inner_node (drop (S (cut_mid f pk)) (fks1 f ++ pk :: fks2 f))
           (tid <$> drop (S (cut_mid f pk)) (fbefore f ++ l :: r :: fafter f))]).

Lemma length_grown_heap (h : list (TreeNode V)) f l r pk :
  length (grown_heap h f l r pk) = length h.
Proof. unfold grown_heap. apply length_insert. Qed.

Lemma length_cut_heap (h : list (TreeNode V)) f l r pk :
  length (cut_heap h f l r pk) = S (length h).
Proof.
  unfold cut_heap. rewrite length_insert, length_app, length_grown_heap. simpl. lia.
Qed.

Lemma grown_heap_lookup (h : list (TreeNode V)) f l r pk :
  (fid f < length h)%nat ->
  grown_heap h f l r pk !! fid f
  = Some (inner_node (fks1 f ++ pk :: fks2 f)
            (tid <$> fbefore f ++ l :: r :: fafter f)).
Proof. intros H. unfold grown_heap. by apply list_lookup_insert_eq. Qed.

(** Sizes at a split of the parent: it has exactly [order] keys. *)
Lemma cut_sizes st l r pk f fs lo hi :
  Mid st l r pk (f :: fs) lo hi ->
  order st <= Z.of_nat (length (fks1 f ++ pk :: fks2 f)) ->
  Z.of_nat (length (fks1 f ++ pk :: fks2 f)) = order st /\
  (1 <= cut_mid f pk)%nat /\
  (cut_mid f pk < length (fks1 f ++ pk :: fks2 f))%nat.
Proof.
  intros M Hge. destruct (grown_wfc _ _ _ _ _ _ _ _ M) as (LO & HI & _ & _ & Hsz).
  pose proof (mid_order _ _ _ _ _ _ _ M) as Ho.
  rewrite length_app in *. cbn [length] in *.
  assert (Hlen : Z.of_nat (length (fks1 f) + S (length (fks2 f))) = order st) by lia.
  split; [done|]. unfold cut_mid. rewrite length_app. cbn [length].
  set (n := (length (fks1 f) + S (length (fks2 f)))%nat) in *.
  assert (2 <= n)%nat by lia.
  split.
  - apply (Nat.div_le_lower_bound n 2 1); lia.
  - apply Nat.div_lt; lia.
Qed.

(** What [_split_internal] does first. *)
Lemma split_internal_unfold st l r pk f fs lo hi rec :
  Mid st l r pk (f :: fs) lo hi ->
  order st <= Z.of_nat (length (fks1 f ++ pk :: fks2 f)) ->
  exists pk',
    (fks1 f ++ pk :: fks2 f) !! cut_mid f pk = Some pk' /\
    _split_internal_with rec (set_heap st (grown_heap (heap st) f l r pk)) (fid f)
    = attach rec (set_heap st (cut_heap (heap st) f l r pk)) pk' (fid f)
        (length (heap st)).
Proof.
  intros M Hge. destruct (cut_sizes _ _ _ _ _ _ _ _ M Hge) as (_ & _ & Hmid).
  destruct (lookup_lt_is_Some_2 _ _ Hmid) as [pk' Hpk].
  exists pk'. split; [done|].
  destruct (mid_frame_fresh _ _ _ _ _ _ _ _ M) as (_ & _ & _ & _ & _ & Hlt).
  unfold _split_internal_with. cbn [heap set_heap]. unfold deref.
  rewrite grown_heap_lookup by done.
  cbn [mbind result_bind inner_node keys children].
  fold (cut_mid f pk). unfold index. rewrite Hpk. cbn [mbind result_bind].
  rewrite length_grown_heap.
  unfold attach, cut_heap. cbn [heap set_heap root].
  unfold TreeNode_new, set_children, set_keys, inner_node.
  cbn [keys values children next_leaf is_leaf negb].
  by rewrite fmap_take, fmap_drop.
Qed.

(** After the cut of the parent, the split goes on one level up. *)
Lemma mid_split st l r pk f fs lo hi pk' :
  Mid st l r pk (f :: fs) lo hi ->
  order st <= Z.of_nat (length (fks1 f ++ pk :: fks2 f)) ->
  (fks1 f ++ pk :: fks2 f) !! cut_mid f pk = Some pk' ->
  exists LO HI,
    Mid (set_heap st (cut_heap (heap st) f l r pk))
      (cut_left f l r pk) (cut_right (length (heap st)) f l r pk) pk' fs LO HI.
Proof.
  intros M Hge Hpk.
  destruct (cut_sizes _ _ _ _ _ _ _ _ M Hge) as (Hlen & Hmid1 & Hmid).
  destruct (mid_frame_fresh _ _ _ _ _ _ _ _ M) as (F1 & F2 & F3 & F4 & F5 & F6).
  destruct (grown_shape _ _ _ _ _ _ _ _ M) as [Hg Hc].
  destruct (grown_wfc _ _ _ _ _ _ _ _ M) as (LO & HI & Hw & Hcw & Hsz).
  pose proof (mid_order _ _ _ _ _ _ _ M) as Ho.
  pose proof (wfc_length _ _ _ _ _ Hw) as Hcl.
  set (ks' := fks1 f ++ pk :: fks2 f) in *.
  set (cs' := fbefore f ++ l :: r :: fafter f) in *.
  set (m := cut_mid f pk) in *.
  set (h := heap st) in *.
  set (h1 := grown_heap h f l r pk) in *.
  assert (Hh1 : length h1 = length h) by apply length_grown_heap.
  inversion Hg as [|? ? ? _ Hcs]; subst.
  assert (Hnew : forall a, a ∈ concat (map nodes cs') -> a <> fid f /\ (a < length h)%nat).
  { intros a Ha. split.
    - intros ->. unfold cs' in Ha. rewrite map_app, concat_app in Ha.
      cbn [map concat] in Ha. rewrite !elem_of_app in Ha. tauto.
    - apply elem_of_concat_map in Ha as (c & Hc' & Ha).
      rewrite Forall_forall in Hcs. pose proof (shape_bound _ _ (Hcs c Hc')) as Hb.
      rewrite Forall_forall in Hb. rewrite <- Hh1. by apply Hb. }
  assert (Hag : forall a, a <> fid f -> (a < length h)%nat ->
            cut_heap h f l r pk !! a = h1 !! a).
  { intros a Hne Hlt. unfold cut_heap. rewrite list_lookup_insert_ne by done.
    fold h1. apply lookup_app_l. lia. }
  assert (Hcs2 : Forall (shape (cut_heap h f l r pk)) cs').
  { eapply shape_agree_list; [|exact Hcs]. intros a Ha.
    destruct (Hnew a Ha). by apply Hag. }
  assert (Hks : ks' = take m ks' ++ pk' :: drop (S m) ks').
  { symmetry. by apply take_drop_middle. }
  assert (Hcss : cs' = take (S m) cs' ++ drop (S m) cs') by (by rewrite take_drop).
  assert (Hlt : length (take (S m) cs') = S (length (take m ks'))).
  { rewrite !length_take. lia. }
  rewrite Hks, Hcss in Hw. apply wfc_app in Hw as (Hwl & Hlo & Hhi & Hwr); [|done].
  exists LO, HI. split.
  - done.
  - cbn [heap set_heap]. constructor.
    + unfold cut_heap. apply list_lookup_insert_eq.
      rewrite length_app. fold h1. lia.
    + rewrite Hcss in Hcs2. by apply Forall_app in Hcs2 as [? _].
  - cbn [heap set_heap]. constructor.
    + unfold cut_heap. rewrite list_lookup_insert_ne by lia.
      fold h1. rewrite lookup_app_r by lia. rewrite Hh1, Nat.sub_diag. reflexivity.
    + rewrite Hcss in Hcs2. by apply Forall_app in Hcs2 as [_ ?].
  - cbn [heap set_heap tid cut_left].
    eapply ctx_shape_agree; [|exact Hc]. intros a Ha.
    apply Hag; [by intros ->|].
    pose proof (ctx_shape_bound _ _ _ Hc) as Hb. rewrite Forall_forall in Hb.
    rewrite <- Hh1. by apply Hb.
  - cbn [root set_heap]. rewrite (mid_root _ _ _ _ _ _ _ M). cbn [plug].
    by apply tid_plug_same.
  - assert (Hp : nodes (cut_left f l r pk) ++ nodes (cut_right (length h) f l r pk)
                 ++ ctx_nodes fs
                 ≡ₚ length h :: nodes (grown f l r pk) ++ ctx_nodes fs).
    { unfold cut_left, cut_right, grown. fold ks' cs' m. cbn [nodes].
      rewrite Hcss at 3. rewrite map_app, concat_app. solve_Permutation. }
    rewrite Hp. apply NoDup_cons. split.
    + intros Hin. pose proof (shape_bound _ _ Hg) as Hb1.
      pose proof (ctx_shape_bound _ _ _ Hc) as Hb2.
      rewrite Forall_forall in Hb1, Hb2.
      apply elem_of_app in Hin as [Hin|Hin];
        [specialize (Hb1 _ Hin)|specialize (Hb2 _ Hin)]; lia.
    + rewrite grown_nodes. apply M.
  - cbn [order set_heap cut_left]. fold ks' cs' m. split; [|done].
    rewrite length_take. subst ks' m. lia.
  - cbn [order set_heap cut_right]. fold ks' cs' m. split; [|done].
    rewrite length_drop. subst ks' m. lia.
  - done.
  - done.
  - done.
  - cbn [key_bearing cut_left]. fold ks' m. intros E.
    apply (f_equal length) in E. rewrite length_take in E. simpl in E. lia.
Qed.

End cascade.
End Cascade.


Module Promote.
Import Simple Rep Wf Descent Keys Parent Split Attach Cascade.

Section promote.
Context {V : Type} `{!EqDecision V}.
Notation tree := (Rep.tree V).
Notation frame := (Rep.frame V).
Notation state := (SimpleBPlusTree V).
Implicit Types (st : state) (l r t : tree) (f : frame) (fs : list frame).
Implicit Types (pk : bytes) (lo hi : option bytes).

Lemma cut_keep (h : list (TreeNode V)) f l r pk a :
  (a < length h)%nat -> a <> fid f -> cut_heap h f l r pk !! a = h !! a.
Proof.
  intros Hlt Hne. unfold cut_heap. rewrite list_lookup_insert_ne by done.
  rewrite lookup_app_l by (rewrite length_grown_heap; lia).
  unfold grown_heap. by apply list_lookup_insert_ne.
Qed.

Lemma cut_leaves f l r pk a :
  leaf_list (cut_left f l r pk) ++ leaf_list (cut_right a f l r pk)
  = concat (map leaf_list (fbefore f ++ l :: r :: fafter f)).
Proof.
  unfold cut_left, cut_right. cbn [leaf_list].
  by rewrite <- concat_app, <- map_app, take_drop.
Qed.

(** The promotion of a key terminates and leaves a well-formed tree with
    the same leaves, the new node [r] right after [l]. *)
Lemma attach_spec fs : forall fuel st l r pk lo hi,
  (length fs <= fuel)%nat ->
  Mid st l r pk fs lo hi ->
  exists st' t',
    attach (_insert_into_internal fuel) st pk (tid l) (tid r) = Ok st' /\
    Built st st' t' (ctx_lb fs ++ leaf_list l ++ leaf_list r ++ ctx_la fs)
      (fid <$> fs).
Proof.
  induction fs as [|f fs IH]; intros fuel st l r pk lo hi Hfuel M.
  - exists (make_root st pk (tid l) (tid r)), (TNode (length (heap st)) [pk] [l; r]).
    unfold attach. rewrite (mid_find_parent _ _ _ _ _ _ _ M). cbn.
    split; [done|]. rewrite app_nil_r. by eapply mid_make_root.
  - destruct fuel as [|fuel]; [simpl in Hfuel; lia|]. simpl in Hfuel.
    unfold attach. rewrite (mid_find_parent _ _ _ _ _ _ _ M).
    cbn [head fmap option_fmap option_map mbind result_bind].
    rewrite (insert_into_internal_unfold _ _ _ _ _ _ _ _ _ M). cbv zeta.
    destruct (Z.leb_spec (order st) (Z.of_nat (length (fks1 f ++ pk :: fks2 f))))
      as [Hge|Hlt].
    + destruct (split_internal_unfold _ _ _ _ _ _ _ _ (_insert_into_internal fuel) M Hge)
        as (pk' & Hpk & ->).
      destruct (mid_split _ _ _ _ _ _ _ _ _ M Hge Hpk) as (LO & HI & M').
      destruct (IH fuel _ _ _ _ _ _ ltac:(lia) M') as (st' & t' & Hrun & B).
      exists st', t'. split; [exact Hrun|].
      destruct B as [B1 B2 B3 B4 B5 B6 B7 B8]. split; try done.
      * rewrite B5, (app_assoc (leaf_list (cut_left _ _ _ _))), cut_leaves.
        cbn [ctx_lb ctx_la]. rewrite map_app, concat_app. cbn [map concat].
        by rewrite <- !app_assoc.
      * intros a Ha Hnt. cbn [heap set_heap] in B8.
        rewrite fmap_cons in Hnt. apply not_elem_of_cons in Hnt as [Hne Hnt].
        rewrite B8; [|rewrite length_cut_heap; lia|done].
        by apply cut_keep.
    + eexists _, _. split; [reflexivity|]. eapply mid_no_split; [exact M|done].
Qed.

End promote.
End Promote.


(** * The invariant of the tree *)

Module Invariant.
Import Simple Rep Wf Descent Keys Parent Split Attach Cascade Promote.

Section invariant.
Context {V : Type} `{!EqDecision V}.
Notation tree := (Rep.tree V).
Notation frame := (Rep.frame V).
Notation state := (SimpleBPlusTree V).
Implicit Types (st : state) (l r t : tree) (f : frame) (fs : list frame).
Implicit Types (pk k : bytes) (lo hi : option bytes) (es : list (bytes * V)).

(** The state [st] holds the well-formed tree [t]: the nodes reachable
    from the root are those of [t], no node is shared, the leaves are
    linked in key order, and the dictionary [key_to_value] has exactly
    the entries of the leaves. *)
Record Inv (st : state) (t : tree) : Prop := {
  inv_order : 2 <= order st;
  inv_shape : shape (heap st) t;
  inv_root : root st = tid t;
  inv_nodup : NoDup (nodes t);
  inv_chain : chain (heap st) (leaf_list t).*1 None;
  inv_wf : wf (order st) None None t;
  inv_map : forall k v, key_to_value st !! k = Some v <-> (k, v) ∈ entries t
}.

Lemma new_Inv (order : Z) :
  2 <= order -> Inv (new order) (TLeaf O [] : tree).
Proof.
  intros Ho. split; try done.
  - by econstructor.
  - apply NoDup_singleton.
  - simpl. split; [|done]. by eexists.
  - simpl. repeat split; [lia|constructor..].
  - intros k v. simpl. rewrite lookup_empty. split; [done|].
    unfold entries. simpl. by intros ?%elem_of_nil.
Qed.

(** ** Sorted insertion into a leaf *)

Definition ins_entry (k : bytes) (v : V) (es : list (bytes * V)) : list (bytes * V) :=
  insert_at (count_while (fun k' => bytes_ltb k' k) es.*1) (k, v) es.

Lemma length_ins_entry k v es : length (ins_entry k v es) = S (length es).
Proof. apply length_insert_at. Qed.

Lemma elem_of_insert_at {A} i (x y : A) (xs : list A) :
  y ∈ insert_at i x xs <-> y = x \/ y ∈ xs.
Proof.
  unfold insert_at. rewrite elem_of_app, elem_of_cons.
  rewrite <- (take_drop i xs) at 3. rewrite elem_of_app. tauto.
Qed.

Lemma elem_of_ins_entry k v es x : x ∈ ins_entry k v es <-> x = (k, v) \/ x ∈ es.
Proof. apply elem_of_insert_at. Qed.

Lemma ins_entry_keys k v es :
  (ins_entry k v es).*1 = insert_at (count_while (fun k' => bytes_ltb k' k) es.*1) k es.*1.
Proof. unfold ins_entry. by rewrite fmap_insert_at. Qed.

Lemma ins_entry_values k v es :
  (ins_entry k v es).*2 = insert_at (count_while (fun k' => bytes_ltb k' k) es.*1) v es.*2.
Proof. unfold ins_entry. by rewrite fmap_insert_at. Qed.

Lemma insert_sorted (ks : list bytes) k :
  StronglySorted blt ks -> k ∉ ks ->
  StronglySorted blt (insert_at (count_while (fun k' => bytes_ltb k' k) ks) k ks).
Proof.
  intros Hs Hk. set (i := count_while _ ks).
  destruct (count_while_split (fun k' => bytes_ltb k' k) ks) as [H1 H2]. fold i in H1, H2.
  rewrite <- (take_drop i ks) in Hs, Hk.
  apply StronglySorted_app in Hs as (Hcross & Hs1 & Hs2).
  assert (Hgt : Forall (blt k) (drop i ks)).
  { destruct H2 as [E|(x & Hx & Hp)]; [rewrite E; constructor|].
    destruct (drop i ks) as [|y l] eqn:E; [done|]. injection Hx as ->.
    assert (Hkx : blt k x).
    { destruct (blt_ble_dec k x) as [?|Hle]; [done|].
      exfalso. apply Hk. apply elem_of_app. right.
      assert (x = k) as -> by (apply ble_antisym; [done|]; unfold ble; by rewrite Hp).
      left. }
    constructor; [done|]. apply StronglySorted_cons in Hs2 as [Hx _].
    eapply Forall_impl; [exact Hx|]. intros z Hz. by eapply blt_trans. }
  unfold insert_at. apply StronglySorted_app. split; [|split; [done|]].
  - intros x1 x2 Hx1 [->|Hx2]%elem_of_cons.
    + rewrite Forall_forall in H1. by apply H1.
    + by apply Hcross.
  - by apply StronglySorted_cons.
Qed.

(** ** Paths and their leaves *)

Lemma length_ctx_nodes fs : (length fs <= length (ctx_nodes fs))%nat.
Proof.
  induction fs as [|f fs IH]; [done|]. rewrite ctx_nodes_cons, length_app.
  unfold frame_nodes. simpl. lia.
Qed.

Lemma ctx_leaves_nodes fs a :
  a ∈ (ctx_lb fs ++ ctx_la fs).*1 -> a ∈ ctx_nodes fs.
Proof.
  induction fs as [|f fs IH]; simpl; [by intros ?%elem_of_nil|].
  rewrite ctx_nodes_cons. unfold frame_nodes.
  rewrite !fmap_app, !elem_of_app, elem_of_cons, !elem_of_app.
  rewrite fmap_app, elem_of_app in IH.
  intros [[H|H]|[H|H]].
  - right. apply IH. by left.
  - left. right. left. apply list_elem_of_fmap in H as ([b es] & -> & H).
    apply elem_of_concat_map in H as (c & Hc & H).
    apply elem_of_concat_map. exists c. split; [done|]. by eapply leaf_list_nodes.
  - left. right. right. apply list_elem_of_fmap in H as ([b es] & -> & H).
    apply elem_of_concat_map in H as (c & Hc & H).
    apply elem_of_concat_map. exists c. split; [done|]. by eapply leaf_list_nodes.
  - right. apply IH. by right.
Qed.

(** The leaves beside a path are not nodes of the path. *)
Lemma ctx_leaves_not_fid fs a :
  NoDup (ctx_nodes fs) -> a ∈ (ctx_lb fs ++ ctx_la fs).*1 -> a ∉ fid <$> fs.
Proof.
  induction fs as [|f fs IH]; intros Hnd Ha; [by intros ?%elem_of_nil|].
  rewrite ctx_nodes_cons in Hnd. apply NoDup_app in Hnd as (Hf & Hdis & Hnd).
  unfold frame_nodes in Hf, Hdis. apply NoDup_cons in Hf as [Hfid Hf].
  rewrite fmap_cons. apply not_elem_of_cons.
  simpl in Ha. rewrite !fmap_app, !elem_of_app in Ha.
  assert (Hside : forall b, b ∈ (concat (map leaf_list (fbefore f))).*1 \/
                            b ∈ (concat (map leaf_list (fafter f))).*1 ->
            b ∈ concat (map nodes (fbefore f)) ++ concat (map nodes (fafter f))).
  { intros b [H|H]; apply list_elem_of_fmap in H as ([b' es] & -> & H);
      apply elem_of_concat_map in H as (c & Hc & H); apply elem_of_app;
      [left|right]; apply elem_of_concat_map; exists c;
      (split; [done|]); by eapply leaf_list_nodes. }
  assert (Hin : a ∈ (ctx_lb fs ++ ctx_la fs).*1 \/
                a ∈ concat (map nodes (fbefore f)) ++ concat (map nodes (fafter f))).
  { rewrite fmap_app, elem_of_app. destruct Ha as [[H|H]|[H|H]]; auto. }
  destruct Hin as [Hin|Hin].
  - split; [|by apply IH]. intros ->.
    apply (Hdis (fid f)); [left|]. by apply ctx_leaves_nodes.
  - split; [by intros ->|]. intros (g & -> & Hg)%list_elem_of_fmap.
    apply (Hdis (fid g)); [by right|]. by apply fid_in_ctx_nodes.
Qed.

Lemma entries_plug (s : tree) fs :
  entries (plug s fs) = concat (ctx_lb fs).*2 ++ entries s ++ concat (ctx_la fs).*2.
Proof. unfold entries. by rewrite leaf_list_plug, !fmap_app, !concat_app. Qed.

End invariant.
End Invariant.


(** * A leaf and the path to it *)

Module Leaf.
Import Simple Rep Wf Descent Keys Parent Split Attach Cascade Promote Invariant.

Section leaf.
Context {V : Type} `{!EqDecision V}.
Notation tree := (Rep.tree V).
Notation frame := (Rep.frame V).
Notation state := (SimpleBPlusTree V).
Implicit Types (st : state) (l r t : tree) (f : frame) (fs : list frame).
Implicit Types (pk k : bytes) (lo hi : option bytes) (es : list (bytes * V)).

(** The state holds a tree whose leaf at address [a], at the end of the
    path [fs], has the entries [es] and the link [nx]; the leaf may be
    over-full. *)
Record Held (st : state) (a : nat) (es : list (bytes * V)) (nx : option nat)
  (fs : list frame) (lo hi : option bytes) : Prop := {
  h_order : 2 <= order st;
  h_leaf : heap st !! a = Some (leaf_node es nx);
  h_ctx : ctx_shape (heap st) a fs;
  h_root : root st = tid (plug (TLeaf a es) fs);
  h_nodup : NoDup (a :: ctx_nodes fs);
  h_chain : chain (heap st) ((ctx_lb fs).*1 ++ a :: (ctx_la fs).*1) None;
  h_sorted : StronglySorted blt es.*1;
  h_bounds : Forall (fun k => above lo k /\ below k hi) es.*1;
  h_cwf : ctx_wf (order st) lo hi fs;
  h_map : forall k v,
    key_to_value st !! k = Some v <->
    (k, v) ∈ concat (ctx_lb fs).*2 ++ es ++ concat (ctx_la fs).*2
}.

Lemma leaf_list_plug_fst a es fs :
  (leaf_list (plug (TLeaf a es) fs)).*1 = (ctx_lb fs).*1 ++ a :: (ctx_la fs).*1.
Proof. by rewrite leaf_list_plug, !fmap_app. Qed.

Lemma entries_plug_leaf a es fs :
  entries (plug (TLeaf a es) fs)
  = concat (ctx_lb fs).*2 ++ es ++ concat (ctx_la fs).*2.
Proof. rewrite entries_plug. unfold entries at 1. simpl. by rewrite app_nil_r. Qed.

(** The invariant gives, for every key, the leaf the key is routed to. *)
Lemma Inv_Held st t k :
  Inv st t ->
  exists a es nx fs lo hi,
    t = plug (TLeaf a es) fs /\ routes k fs /\ Held st a es nx fs lo hi /\
    Z.of_nat (length es) < order st /\ above lo k /\ below k hi.
Proof.
  intros [Ho Hs Hr Hnd Hc Hw Hm].
  destruct (decompose _ _ _ t k Hw) as (a & es & fs & -> & Hrt).
  assert (Hpos : 0 < order st) by lia.
  destruct (wf_plug_1 (order st) _ _ Hpos (routes_lengths _ _ Hrt) Hw)
    as (lo & hi & (Hsz & Hso & Hb) & Hcw).
  destruct (routes_bounds _ _ _ _ _ Hcw Hrt) as [Hlo Hhi].
  apply shape_plug in Hs as [Hl Hctx]. inversion Hl as [? ? nx Ha|]; subst.
  exists a, es, nx, fs, lo, hi. repeat split; try done.
  - by rewrite nodes_plug in Hnd.
  - by rewrite leaf_list_plug_fst in Hc.
  - intros ?. apply Hm in H. by rewrite entries_plug_leaf in H.
  - intros ?. apply Hm. by rewrite entries_plug_leaf.
Qed.

Lemma Held_Inv st a es nx fs lo hi :
  Held st a es nx fs lo hi -> Z.of_nat (length es) < order st ->
  Inv st (plug (TLeaf a es) fs).
Proof.
  intros [Ho Ha Hctx Hr Hnd Hc Hso Hb Hcw Hm] Hsz. split; try done.
  - apply shape_plug. split; [by econstructor|done].
  - by rewrite nodes_plug.
  - by rewrite leaf_list_plug_fst.
  - eapply wf_plug_2; [|exact Hcw]. simpl. done.
  - intros k v. by rewrite entries_plug_leaf.
Qed.

Lemma Held_path_length st a es nx fs lo hi :
  Held st a es nx fs lo hi -> (length fs < length (heap st))%nat.
Proof.
  intros H. pose proof (h_nodup _ _ _ _ _ _ _ H) as Hnd.
  assert (Hb : Forall (fun x => (x < length (heap st))%nat) (a :: ctx_nodes fs)).
  { constructor.
    - eapply lookup_lt_Some. apply H.
    - eapply ctx_shape_bound. apply H. }
  pose proof (NoDup_bounded_length _ _ Hnd Hb) as Hlen. simpl in Hlen.
  pose proof (length_ctx_nodes fs). lia.
Qed.

Lemma Held_find_leaf st a es nx fs lo hi k :
  Held st a es nx fs lo hi -> routes k fs ->
  _find_leaf (depth (heap st)) (heap st) (root st) k = Ok a.
Proof.
  intros H Hrt. rewrite (h_root _ _ _ _ _ _ _ H).
  apply find_leaf_plug; [|done|].
  - apply shape_plug. split; [econstructor; apply H|apply H].
  - unfold depth. pose proof (Held_path_length _ _ _ _ _ _ _ H). lia.
Qed.

(** Writing other entries into the leaf, in key order and inside the
    bounds of the leaf, with the dictionary updated accordingly. *)
Lemma Held_update st a es nx fs lo hi es' m' :
  Held st a es nx fs lo hi ->
  StronglySorted blt es'.*1 ->
  Forall (fun k => above lo k /\ below k hi) es'.*1 ->
  (forall k v, m' !! k = Some v <->
               (k, v) ∈ concat (ctx_lb fs).*2 ++ es' ++ concat (ctx_la fs).*2) ->
  Held (set_heap (set_map st m') (<[a := leaf_node es' nx]> (heap st)))
    a es' nx fs lo hi.
Proof.
  intros [Ho Ha Hctx Hr Hnd Hc Hso Hb Hcw Hm] Hso' Hb' Hm'.
  apply NoDup_cons in Hnd as [Hafs Hnd'].
  assert (Hlt : (a < length (heap st))%nat) by (by eapply lookup_lt_Some).
  split; cbn [heap set_heap set_map order root key_to_value]; try done.
  - by apply list_lookup_insert_eq.
  - eapply ctx_shape_agree; [|exact Hctx]. intros b Hb0.
    apply list_lookup_insert_ne. by intros ->.
  - rewrite Hr. by apply tid_plug_same.
  - by apply NoDup_cons.
  - eapply chain_agree; [|exact Hc]. intros b n Hb0 Hn.
    destruct (decide (b = a)) as [->|Hne].
    + rewrite list_lookup_insert_eq by done. eexists. split; [done|].
      rewrite Ha in Hn. by injection Hn as <-.
    + rewrite list_lookup_insert_ne by done. by exists n.
Qed.

End leaf.
End Leaf.


(** * Splitting a leaf *)

Module LeafSplit.
Import Simple Rep Wf Descent Keys Parent Split Attach Cascade Promote Invariant Leaf.

Section leaf_split.
Context {V : Type} `{!EqDecision V}.
Notation tree := (Rep.tree V).
Notation frame := (Rep.frame V).
Notation state := (SimpleBPlusTree V).
Implicit Types (st : state) (l r t : tree) (f : frame) (fs : list frame).
Implicit Types (pk k : bytes) (lo hi : option bytes) (es : list (bytes * V)).

(** The store after [_split_leaf] cut the leaf at [a]. *)
Definition leaf_cut_heap (h : list (TreeNode V)) (a : nat) es (nx : option nat)
  : list (TreeNode V) :=
  <[a := leaf_node (take (length es / 2) es) (Some (length h))]>
    (h ++ [leaf_node (drop (length es / 2) es) nx]).

Lemma length_leaf_cut_heap (h : list (TreeNode V)) a es nx :
  length (leaf_cut_heap h a es nx) = S (length h).
Proof. unfold leaf_cut_heap. rewrite length_insert, length_app. simpl. lia. Qed.

Lemma leaf_cut_sizes st a es nx fs lo hi :
  Held st a es nx fs lo hi -> Z.of_nat (length es) = order st ->
  (1 <= length es / 2)%nat /\ (length es / 2 < length es)%nat.
Proof.
  intros H Hlen. pose proof (h_order _ _ _ _ _ _ _ H).
  assert (2 <= length es)%nat by lia. split.
  - apply (Nat.div_le_lower_bound (length es) 2 1); lia.
  - apply Nat.div_lt; lia.
Qed.

(** What [_split_leaf] does first. *)
Lemma split_leaf_unfold st a es nx fs lo hi :
  Held st a es nx fs lo hi -> Z.of_nat (length es) = order st ->
  exists pk,
    es.*1 !! (length es / 2)%nat = Some pk /\
    _split_leaf st a
    = attach (_insert_into_internal (depth (leaf_cut_heap (heap st) a es nx)))
        (set_heap st (leaf_cut_heap (heap st) a es nx)) pk a (length (heap st)).
Proof.
  intros H Hlen. destruct (leaf_cut_sizes _ _ _ _ _ _ _ H Hlen) as [_ Hmid].
  destruct (lookup_lt_is_Some_2 es.*1 (length es / 2)) as [pk Hpk];
    [by rewrite length_fmap|].
  exists pk. split; [done|].
  unfold _split_leaf. unfold deref. rewrite (h_leaf _ _ _ _ _ _ _ H).
  cbn [mbind result_bind leaf_node keys values next_leaf].
  rewrite length_fmap. unfold index. rewrite Hpk. cbn [mbind result_bind].
  unfold attach, leaf_cut_heap. cbn [heap set_heap root].
  unfold TreeNode_new, set_next_leaf, set_values, set_keys, leaf_node.
  cbn [keys values children next_leaf is_leaf negb].
  by rewrite !fmap_take, !fmap_drop.
Qed.

Lemma sorted_cut (ks : list bytes) i pk :
  StronglySorted blt ks -> ks !! i = Some pk ->
  Forall (fun k' => blt k' pk) (take i ks) /\ Forall (ble pk) (drop i ks).
Proof.
  intros Hs Hi. rewrite <- (take_drop_middle ks i pk Hi) in Hs.
  rewrite (drop_S _ _ _ Hi).
  apply StronglySorted_app in Hs as (Hcross & _ & Hs2).
  apply StronglySorted_cons in Hs2 as [Hgt _]. split.
  - apply Forall_forall. intros x Hx. apply Hcross; [done|left].
  - constructor; [apply ble_refl|]. eapply Forall_impl; [exact Hgt|].
    intros x. apply blt_ble.
Qed.

(** After the cut of an over-full leaf the state is in the middle of a
    split, and the new leaf is linked after the cut one. *)
Lemma Held_split st a es nx fs lo hi pk :
  Held st a es nx fs lo hi -> Z.of_nat (length es) = order st ->
  es.*1 !! (length es / 2)%nat = Some pk ->
  Mid (set_heap st (leaf_cut_heap (heap st) a es nx))
    (TLeaf a (take (length es / 2) es))
    (TLeaf (length (heap st)) (drop (length es / 2) es)) pk fs lo hi /\
  chain (leaf_cut_heap (heap st) a es nx)
    ((ctx_lb fs).*1 ++ a :: length (heap st) :: (ctx_la fs).*1) None.
Proof.
  intros H Hlen Hpk. destruct (leaf_cut_sizes _ _ _ _ _ _ _ H Hlen) as [Hm1 Hm2].
  destruct H as [Ho Ha Hctx Hr Hnd Hc Hso Hb Hcw Hm].
  set (m := (length es / 2)%nat) in *. set (h := heap st) in *.
  assert (Hlt : (a < length h)%nat) by (by eapply lookup_lt_Some).
  apply NoDup_cons in Hnd as [Hafs Hnd'].
  pose proof (ctx_shape_bound _ _ _ Hctx) as Hbd. rewrite Forall_forall in Hbd.
  assert (Hag : forall b, b <> a -> (b < length h)%nat ->
            leaf_cut_heap h a es nx !! b = h !! b).
  { intros b Hne Hb0. unfold leaf_cut_heap. rewrite list_lookup_insert_ne by done.
    by apply lookup_app_l. }
  destruct (sorted_cut _ _ _ Hso Hpk) as [Hlow Hup].
  rewrite <- (take_drop m es.*1) in Hso, Hb.
  apply StronglySorted_app in Hso as (_ & Hso1 & Hso2).
  apply Forall_app in Hb as [Hb1 Hb2].
  assert (Hpkb : above lo pk /\ below pk hi).
  { rewrite Forall_forall in Hb2. apply Hb2.
    rewrite (drop_S _ _ _ Hpk). left. }
  split; [split|].
  - done.
  - cbn [heap set_heap]. econstructor. unfold leaf_cut_heap.
    apply list_lookup_insert_eq. rewrite length_app. lia.
  - cbn [heap set_heap]. econstructor. unfold leaf_cut_heap.
    rewrite list_lookup_insert_ne by lia. rewrite lookup_app_r by lia.
    fold h. rewrite Nat.sub_diag. reflexivity.
  - cbn [heap set_heap tid]. eapply ctx_shape_agree; [|exact Hctx].
    intros b Hb0. apply Hag; [by intros ->|by apply Hbd].
  - cbn [root set_heap]. rewrite Hr. by apply tid_plug_same.
  - cbn [nodes]. simpl. apply NoDup_cons. split.
    + intros [->|Hin]%elem_of_cons; [lia|done].
    + apply NoDup_cons. split; [|done]. intros Hin. specialize (Hbd _ Hin). lia.
  - cbn [order set_heap wf]. rewrite fmap_take. repeat split.
    + rewrite length_take. lia.
    + done.
    + rewrite Forall_forall in Hb1, Hlow. apply Forall_forall. intros x Hx.
      split; [by apply Hb1|]. simpl. by apply Hlow.
  - cbn [order set_heap wf]. rewrite fmap_drop. repeat split.
    + rewrite length_drop. lia.
    + done.
    + rewrite Forall_forall in Hb2, Hup. apply Forall_forall. intros x Hx.
      split; [simpl; by apply Hup|by apply Hb2].
  - destruct (lookup_lt_is_Some_2 es.*1 0) as [k0 Hk0]; [rewrite length_fmap; lia|].
    assert (Hin : k0 ∈ take m es.*1).
    { apply list_elem_of_lookup. exists O. rewrite lookup_take_lt by lia. done. }
    rewrite Forall_forall in Hb1, Hlow.
    destruct (Hb1 _ Hin) as [Hlo0 _]. eapply above_lt; [exact Hlo0|by apply Hlow].
  - apply Hpkb.
  - done.
  - simpl. intros E. apply (f_equal length) in E. rewrite length_take in E.
    simpl in E. lia.
  - apply chain_app in Hc as [Hc1 Hc2].
    apply chain_unfold in Hc2 as [(n & Hn & Hnx) Hc2]. fold h in Hn.
    rewrite Ha in Hn. injection Hn as <-. cbn [leaf_node next_leaf] in Hnx.
    assert (Hside : forall b, b ∈ (ctx_lb fs).*1 \/ b ∈ (ctx_la fs).*1 ->
              b <> a /\ (b < length h)%nat).
    { intros b Hb0. assert (Hin : b ∈ ctx_nodes fs).
      { apply ctx_leaves_nodes. rewrite fmap_app, elem_of_app. tauto. }
      split; [by intros ->|by apply Hbd]. }
    apply chain_app. split; [|apply chain_unfold; split; [|apply chain_unfold; split]].
    + eapply chain_agree; [|exact Hc1]. intros b n Hb0 Hn.
      destruct (Hside b) as [? ?]; [by left|]. exists n. by rewrite Hag.
    + eexists. split; [unfold leaf_cut_heap; apply list_lookup_insert_eq;
                       rewrite length_app; lia|]. reflexivity.
    + eexists. split.
      * unfold leaf_cut_heap. rewrite list_lookup_insert_ne by lia.
        rewrite lookup_app_r by lia. fold h. rewrite Nat.sub_diag. reflexivity.
      * exact Hnx.
    + eapply chain_agree; [|exact Hc2]. intros b n Hb0 Hn.
      destruct (Hside b) as [? ?]; [by right|]. exists n. by rewrite Hag.
Qed.

End leaf_split.
End LeafSplit.


(** * insert *)

Module Insertion.
Import Simple Rep Wf Descent Keys Parent Split Attach Cascade Promote Invariant Leaf
  LeafSplit.

Section insert.
Context {V : Type} `{!EqDecision V}.
Notation tree := (Rep.tree V).
Notation frame := (Rep.frame V).
Notation state := (SimpleBPlusTree V).
Implicit Types (st : state) (l r t : tree) (f : frame) (fs : list frame).
Implicit Types (pk k : bytes) (lo hi : option bytes) (es : list (bytes * V)).

Lemma insert_at_perm {A} i (x : A) (xs : list A) : insert_at i x xs ≡ₚ x :: xs.
Proof. unfold insert_at. by rewrite <- Permutation_middle, take_drop. Qed.

Lemma insert_into_leaf_held st a es nx fs lo hi k v :
  Held st a es nx fs lo hi ->
  _insert_into_leaf (heap st) a k v
  = Ok (<[a := leaf_node (ins_entry k v es) nx]> (heap st)).
Proof.
  intros H. unfold _insert_into_leaf, deref. rewrite (h_leaf _ _ _ _ _ _ _ H).
  cbn [mbind result_bind]. unfold set_values, set_keys, leaf_node.
  cbn [keys values children next_leaf is_leaf].
  by rewrite <- (ins_entry_keys k v), <- (ins_entry_values k v).
Qed.

(** [insert] of a key that is not in the tree returns, keeps the
    invariant, and adds the entry. *)
Lemma insert_bytes_spec st t k v :
  Inv st t -> k ∉ (entries t).*1 ->
  exists st' t',
    insert_bytes st k v = Ok st' /\ Inv st' t' /\ order st' = order st /\
    entries t' ≡ₚ (k, v) :: entries t.
Proof.
  intros HI Hk.
  destruct (Inv_Held st t k HI) as (a & es & nx & fs & lo & hi & -> & Hrt & H & Hsz & Hlo & Hhi).
  rewrite entries_plug_leaf in Hk. rewrite !fmap_app, !elem_of_app in Hk.
  set (es' := ins_entry k v es). set (m' := <[k := v]> (key_to_value st)).
  assert (Hso' : StronglySorted blt es'.*1).
  { unfold es'. rewrite ins_entry_keys. apply insert_sorted; [apply H|tauto]. }
  assert (Hb' : Forall (fun k0 => above lo k0 /\ below k0 hi) es'.*1).
  { unfold es'. rewrite ins_entry_keys. apply Forall_forall.
    intros x [->|Hx]%elem_of_insert_at; [done|].
    pose proof (h_bounds _ _ _ _ _ _ _ H) as Hb. rewrite Forall_forall in Hb.
    by apply Hb. }
  assert (Hm' : forall k0 v0, m' !! k0 = Some v0 <->
            (k0, v0) ∈ concat (ctx_lb fs).*2 ++ es' ++ concat (ctx_la fs).*2).
  { intros k0 v0. unfold m', es'. rewrite !elem_of_app, elem_of_ins_entry.
    destruct (decide (k0 = k)) as [->|Hne].
    - rewrite lookup_insert_eq. split.
      + intros [= ->]. auto.
      + intros [Hin|[[Heq|Hin]|Hin]]; [exfalso|congruence|exfalso..]; apply Hk;
          [left|right; left|right; right]; apply list_elem_of_fmap; by exists (k, v0).
    - rewrite lookup_insert_ne by done. rewrite (h_map _ _ _ _ _ _ _ H).
      rewrite !elem_of_app. split; [tauto|].
      intros [?|[[?|?]|?]]; try tauto. congruence. }
  pose proof (Held_update _ _ _ _ _ _ _ es' m' H Hso' Hb' Hm') as H1.
  assert (Hperm : concat (ctx_lb fs).*2 ++ es' ++ concat (ctx_la fs).*2
                  ≡ₚ (k, v) :: concat (ctx_lb fs).*2 ++ es ++ concat (ctx_la fs).*2).
  { unfold es', ins_entry. rewrite insert_at_perm. symmetry. apply Permutation_middle. }
  assert (Hlt : (a < length (heap st))%nat).
  { eapply lookup_lt_Some. apply H. }
  unfold insert_bytes. cbn [heap root set_map].
  rewrite (Held_find_leaf _ _ _ _ _ _ _ _ H Hrt). cbn [mbind result_bind].
  rewrite (insert_into_leaf_held _ _ _ _ _ _ _ k v H). cbn [mbind result_bind].
  fold es' m'. unfold deref. rewrite list_lookup_insert_eq by done.
  cbn [mbind result_bind leaf_node keys order set_heap set_map].
  rewrite length_fmap.
  set (st1 := set_heap (set_map st m') (<[a := leaf_node es' nx]> (heap st))) in *.
  assert (Hlen : length es' = S (length es)) by apply length_ins_entry.
  destruct (Z.leb_spec (order st) (Z.of_nat (length es'))) as [Hge|Hlt'].
  - assert (Hfull : Z.of_nat (length es') = order st1) by (cbn; lia).
    destruct (split_leaf_unfold _ _ _ _ _ _ _ H1 Hfull) as (pk & Hpk & ->).
    destruct (Held_split _ _ _ _ _ _ _ pk H1 Hfull Hpk) as [M Hc].
    set (h2 := leaf_cut_heap (heap st1) a es' nx) in *.
    assert (Hfuel : (length fs <= depth h2)%nat).
    { pose proof (Held_path_length _ _ _ _ _ _ _ H1). unfold depth, h2.
      rewrite length_leaf_cut_heap. lia. }
    destruct (attach_spec fs _ _ _ _ _ _ _ Hfuel M) as (st' & t' & Hrun & B).
    cbn [tid] in Hrun. exists st', t'. split; [exact Hrun|].
    destruct B as [Bs Br Bn Bw Bl Bo Bm Bk].
    cbn [order set_heap heap key_to_value leaf_list] in *.
    pose proof (h_nodup _ _ _ _ _ _ _ H1) as Hnd.
    apply NoDup_cons in Hnd as [Hafs Hnd].
    pose proof (ctx_shape_bound _ _ _ (h_ctx _ _ _ _ _ _ _ H1)) as Hbd.
    rewrite Forall_forall in Hbd.
    assert (Hfid : forall b, b ∈ fid <$> fs -> b ∈ ctx_nodes fs).
    { intros b (g & -> & Hg)%list_elem_of_fmap. by apply fid_in_ctx_nodes. }
    split; [split|split].
    + rewrite Bo. apply H.
    + done.
    + done.
    + done.
    + rewrite Bl. rewrite !fmap_app. cbn [fmap list_fmap].
      eapply chain_agree; [|exact Hc]. intros b n Hb0 Hn.
      exists n. split; [|done]. rewrite <- Hn. apply Bk.
      * eapply lookup_lt_Some. exact Hn.
      * apply elem_of_app in Hb0 as [Hb0|Hb0].
        { apply ctx_leaves_not_fid; [done|]. rewrite fmap_app, elem_of_app. by left. }
        apply elem_of_cons in Hb0 as [->|Hb0]; [by intros ?%Hfid|].
        apply elem_of_cons in Hb0 as [->|Hb0].
        { intros Hin%Hfid%Hbd. cbn [fst] in Hin. lia. }
        apply ctx_leaves_not_fid; [done|]. rewrite fmap_app, elem_of_app. by right.
    + done.
    + intros k0 v0. rewrite Bm. cbn [st1 key_to_value set_heap set_map].
      rewrite Hm'. unfold entries. rewrite Bl.
      rewrite !fmap_app, !concat_app. cbn [fmap list_fmap concat].
      rewrite !app_nil_r. cbn [snd]. rewrite (app_assoc (take _ _)), take_drop. done.
    + rewrite Bo. done.
    + rewrite (entries_plug_leaf a es fs). unfold entries. rewrite Bl.
      rewrite !fmap_app, !concat_app. cbn [fmap list_fmap concat].
      rewrite !app_nil_r. cbn [snd]. rewrite (app_assoc (take _ _)), take_drop.
      exact Hperm.
  - exists st1, (plug (TLeaf a es') fs). split; [done|]. split; [|split].
    + apply (Held_Inv _ _ _ _ _ _ _ H1). cbn. lia.
    + done.
    + rewrite !entries_plug_leaf. exact Hperm.
Qed.

End insert.
End Insertion.


(** * search and delete *)

Module Lookup.
Import Simple Rep Wf Descent Keys Parent Split Attach Cascade Promote Invariant Leaf.

Section lookup.
Context {V : Type} `{!EqDecision V}.
Notation tree := (Rep.tree V).
Notation frame := (Rep.frame V).
Notation state := (SimpleBPlusTree V).
Implicit Types (st : state) (l r t : tree) (f : frame) (fs : list frame).
Implicit Types (pk k : bytes) (lo hi : option bytes) (es : list (bytes * V)).

(** The keys of the leaves before the leaf that [k] is routed to are
    below [k], those of the leaves after it are above [k]. *)
Lemma routed_key_splits st a es nx fs lo hi k :
  Held st a es nx fs lo hi -> above lo k -> below k hi ->
  Forall (fun x => blt x k) (concat (ctx_lb fs).*2).*1 /\
  Forall (blt k) (concat (ctx_la fs).*2).*1.
Proof.
  intros H Hlo Hhi.
  destruct (concat (ctx_lb fs).*2 ++ concat (ctx_la fs).*2) as [|[k0 v0] rest] eqn:E.
  { apply app_eq_nil in E as [-> ->]. split; constructor. }
  clear E.
  assert (Hw : wf (order st) lo hi (TLeaf a [(k, v0)] : tree)).
  { pose proof (h_order _ _ _ _ _ _ _ H). simpl. repeat split; try done.
    - lia.
    - repeat constructor.
    - by repeat constructor. }
  pose proof (wf_plug_2 _ _ _ _ _ Hw (h_cwf _ _ _ _ _ _ _ H)) as Hw'.
  apply wf_entries in Hw' as [Hs _]. rewrite entries_plug_leaf in Hs.
  rewrite !fmap_app in Hs. cbn [fmap list_fmap fst app] in Hs.
  apply StronglySorted_app in Hs as (Hcross & _ & Hs).
  apply StronglySorted_cons in Hs as [Hgt _]. split; [|done].
  apply Forall_forall. intros x Hx. apply Hcross; [done|left].
Qed.

Lemma routed_key_only_in_leaf st a es nx fs lo hi k :
  Held st a es nx fs lo hi -> above lo k -> below k hi ->
  (k ∉ (concat (ctx_lb fs).*2).*1) /\ (k ∉ (concat (ctx_la fs).*2).*1).
Proof.
  intros H Hlo Hhi.
  destruct (routed_key_splits _ _ _ _ _ _ _ k H Hlo Hhi) as [H1 H2].
  rewrite Forall_forall in H1, H2.
  split; intros Hin; [apply H1 in Hin|apply H2 in Hin];
    unfold blt in Hin; by rewrite bytes_ltb_irrefl in Hin.
Qed.

Lemma key_in_pairs {A B} (k : A) (l : list (A * B)) :
  k ∈ l.*1 <-> exists v, (k, v) ∈ l.
Proof.
  rewrite list_elem_of_fmap. split.
  - intros ([k' v] & -> & Hin). by exists v.
  - intros (v & Hin). by exists (k, v).
Qed.

(** In a leaf with sorted keys, the first match of [k] is its only entry. *)
Lemma find_key_Some es k i :
  StronglySorted blt es.*1 ->
  find_index (fun k' => bool_decide (k' = k)) es.*1 = Some i ->
  exists es1 v es2,
    es = es1 ++ (k, v) :: es2 /\ length es1 = i /\
    (k ∉ es1.*1) /\ (k ∉ es2.*1).
Proof.
  intros Hs Hf. apply find_index_Some in Hf as (l1 & x & l2 & E & Hl & Hx & _).
  apply bool_decide_eq_true in Hx as ->.
  assert (Hi : es.*1 !! i = Some k).
  { rewrite E, <- Hl. by apply list_lookup_middle. }
  rewrite list_lookup_fmap in Hi.
  destruct (es !! i) as [[k' v]|] eqn:Ei; [|done]. injection Hi as ->.
  exists (take i es), v, (drop (S i) es).
  pose proof (take_drop_middle _ _ _ Ei) as Hes.
  assert (Hlen : length (take i es) = i).
  { apply length_take_le. apply lookup_lt_Some in Ei. lia. }
  split; [done|]. split; [done|].
  rewrite <- Hes in Hs. rewrite fmap_app in Hs. cbn [fmap list_fmap fst] in Hs.
  apply StronglySorted_app in Hs as (Hcross & _ & Hs2).
  apply StronglySorted_cons in Hs2 as [Hgt _]. rewrite Forall_forall in Hgt.
  split; intros Hin.
  - assert (Hb : blt k k) by (apply Hcross; [done|left]).
    unfold blt in Hb. by rewrite bytes_ltb_irrefl in Hb.
  - apply Hgt in Hin. unfold blt in Hin. by rewrite bytes_ltb_irrefl in Hin.
Qed.

Lemma find_key_None es k :
  find_index (fun k' => bool_decide (k' = k)) es.*1 = None -> k ∉ es.*1.
Proof.
  intros Hf%find_index_None Hin. rewrite Forall_forall in Hf.
  apply Hf in Hin. by apply bool_decide_eq_false in Hin.
Qed.

(** [search] returns what the dictionary of the tree holds for the key. *)
Lemma search_bytes_spec st t k :
  Inv st t -> search_bytes st k = Ok (key_to_value st !! k).
Proof.
  intros HI.
  destruct (Inv_Held st t k HI)
    as (a & es & nx & fs & lo & hi & -> & Hrt & H & Hsz & Hlo & Hhi).
  destruct (routed_key_only_in_leaf _ _ _ _ _ _ _ k H Hlo Hhi) as [Hb Ha].
  unfold search_bytes. rewrite (Held_find_leaf _ _ _ _ _ _ _ _ H Hrt).
  cbn [mbind result_bind]. unfold deref. rewrite (h_leaf _ _ _ _ _ _ _ H).
  cbn [mbind result_bind leaf_node keys values].
  destruct (find_index _ es.*1) as [i|] eqn:Hf.
  - destruct (find_key_Some _ _ _ (h_sorted _ _ _ _ _ _ _ H) Hf)
      as (es1 & v & es2 & -> & Hl & _ & _).
    unfold index. rewrite fmap_app. cbn [fmap list_fmap snd].
    rewrite <- Hl, <- (length_fmap snd es1), list_lookup_middle by done.
    cbn [mbind result_bind]. f_equal. symmetry.
    apply (h_map _ _ _ _ _ _ _ H). rewrite !elem_of_app, elem_of_cons. auto.
  - apply find_key_None in Hf. f_equal. symmetry.
    destruct (key_to_value st !! k) as [v|] eqn:E; [|done]. exfalso.
    apply (h_map _ _ _ _ _ _ _ H) in E. rewrite !elem_of_app in E.
    destruct E as [E|[E|E]]; [apply Hb|apply Hf|apply Ha];
      apply key_in_pairs; by exists v.
Qed.

(** [delete] of a key that the dictionary does not hold changes nothing. *)
Lemma delete_bytes_absent st k :
  key_to_value st !! k = None -> delete_bytes st k = Ok (st, false).
Proof.
  intros E. unfold delete_bytes. rewrite E.
  rewrite bool_decide_eq_false_2; [done|]. by intros [? ?].
Qed.

(** [delete] of a key of the tree returns [True], keeps the invariant
    and removes the entry of the key from the leaf and the dictionary. *)
Lemma delete_bytes_present st t k v :
  Inv st t -> key_to_value st !! k = Some v ->
  exists st' t',
    delete_bytes st k = Ok (st', true) /\ Inv st' t' /\ order st' = order st /\
    key_to_value st' = base.delete k (key_to_value st) /\
    (forall e, e ∈ entries t' <-> e ∈ entries t /\ e.1 <> k).
Proof.
  intros HI E.
  destruct (Inv_Held st t k HI)
    as (a & es & nx & fs & lo & hi & -> & Hrt & H & Hsz & Hlo & Hhi).
  destruct (routed_key_only_in_leaf _ _ _ _ _ _ _ k H Hlo Hhi) as [Hb Ha].
  assert (Hin : (k, v) ∈ es).
  { apply (h_map _ _ _ _ _ _ _ H) in E. rewrite !elem_of_app in E.
    destruct E as [E|[E|E]]; [exfalso; apply Hb|done|exfalso; apply Ha];
      apply key_in_pairs; by exists v. }
  destruct (find_index (fun k' => bool_decide (k' = k)) es.*1) as [i|] eqn:Hf;
    [|apply find_key_None in Hf; exfalso; apply Hf, key_in_pairs; by exists v].
  destruct (find_key_Some _ _ _ (h_sorted _ _ _ _ _ _ _ H) Hf)
    as (es1 & v1 & es2 & Hes & Hl & Hk1 & Hk2).
  set (es' := es1 ++ es2). set (m' := base.delete k (key_to_value st)).
  assert (Hmem : forall e, e ∈ es' <-> e ∈ es /\ e.1 <> k).
  { intros [k0 v0]. unfold es'. rewrite Hes, !elem_of_app, elem_of_cons. cbn [fst].
    split.
    - intros [Hi|Hi]; (split; [auto|]); intros ->;
        [apply Hk1|apply Hk2]; apply key_in_pairs; by exists v0.
    - intros [[?|[?|?]] Hne]; auto. congruence. }
  pose proof (h_sorted _ _ _ _ _ _ _ H) as Hso.
  pose proof (h_bounds _ _ _ _ _ _ _ H) as Hbd.
  rewrite Hes, fmap_app in Hso, Hbd. cbn [fmap list_fmap fst] in Hso, Hbd.
  assert (Hso' : StronglySorted blt es'.*1).
  { unfold es'. rewrite fmap_app.
    apply StronglySorted_app in Hso as (Hcross & Hs1 & Hs2).
    apply StronglySorted_cons in Hs2 as [_ Hs2].
    apply StronglySorted_app. split; [|done].
    intros x1 x2 Hx1 Hx2. apply Hcross; [done|by right]. }
  assert (Hb' : Forall (fun k0 => above lo k0 /\ below k0 hi) es'.*1).
  { unfold es'. rewrite fmap_app. apply Forall_app in Hbd as [Hb1 Hb2].
    apply Forall_cons in Hb2 as [_ Hb2]. by apply Forall_app. }
  assert (Hm' : forall k0 v0, m' !! k0 = Some v0 <->
            (k0, v0) ∈ concat (ctx_lb fs).*2 ++ es' ++ concat (ctx_la fs).*2).
  { intros k0 v0. unfold m'. rewrite !elem_of_app, Hmem. cbn [fst].
    destruct (decide (k0 = k)) as [->|Hne].
    - rewrite lookup_delete_eq. split; [done|].
      intros [Hi|[[_ ?]|Hi]]; [exfalso; apply Hb|done|exfalso; apply Ha];
        apply key_in_pairs; by exists v0.
    - rewrite lookup_delete_ne by done. rewrite (h_map _ _ _ _ _ _ _ H).
      rewrite !elem_of_app. tauto. }
  pose proof (Held_update _ _ _ _ _ _ _ es' m' H Hso' Hb' Hm') as H1.
  exists (set_heap (set_map st m') (<[a := leaf_node es' nx]> (heap st))),
    (plug (TLeaf a es') fs).
  split; [|split; [|split; [|split]]].
  - unfold delete_bytes. rewrite E.
    rewrite bool_decide_eq_true_2 by (by eexists).
    cbn [heap root set_map]. rewrite (Held_find_leaf _ _ _ _ _ _ _ _ H Hrt).
    cbn [mbind result_bind]. unfold deref. rewrite (h_leaf _ _ _ _ _ _ _ H).
    cbn [mbind result_bind leaf_node keys values]. rewrite Hf.
    assert (Hlt : (i < length es)%nat).
    { rewrite Hes, length_app. simpl. lia. }
    rewrite length_fmap.
    destruct (Nat.leb_spec (length es) i) as [?|_]; [lia|].
    do 3 f_equal. unfold set_values, set_keys, leaf_node, es'.
    cbn [keys values children next_leaf is_leaf].
    rewrite Hes, !fmap_app. cbn [fmap list_fmap fst snd].
    rewrite <- Hl at 1. rewrite <- (length_fmap fst es1), delete_middle.
    rewrite <- Hl. rewrite <- (length_fmap snd es1), delete_middle.
    done.
  - apply (Held_Inv _ _ _ _ _ _ _ H1). cbn [order set_heap set_map].
    unfold es'. rewrite Hes in Hsz. rewrite length_app in *. simpl in Hsz. lia.
  - done.
  - done.
  - intros e. rewrite !entries_plug_leaf, !elem_of_app, Hmem.
    split; [|tauto].
    intros [Hi|[?|Hi]]; [|tauto|]; (split; [auto|]); destruct e as [k0 v0];
      cbn [fst]; intros ->; [apply Hb|apply Ha]; apply key_in_pairs; by exists v0.
Qed.

End lookup.
End Lookup.


(** * range_search *)

Module Range.
Import Simple Rep Wf Descent Keys Parent Split Attach Cascade Promote Invariant Leaf
  Lookup.

Section range.
Context {V : Type} `{!EqDecision V}.
Notation tree := (Rep.tree V).
Notation frame := (Rep.frame V).
Notation state := (SimpleBPlusTree V).
Implicit Types (st : state) (l r t : tree) (f : frame) (fs : list frame).
Implicit Types (pk k : bytes) (lo hi : option bytes) (es : list (bytes * V)).

(** The test of [range_search]: [start_bytes <= k < end_bytes]. *)
Definition in_range (sb eb : bytes) (e : bytes * V) : bool :=
  bytes_leb sb e.1 && bytes_ltb e.1 eb.

(** The scan of a list of entries: the values taken, and whether the
    scan met a key that is not below [eb]. *)
Fixpoint scan_entries (sb eb : bytes) (es : list (bytes * V)) : list V * bool :=
  match es with
  | [] => ([], false)
  | e :: es' =>
      if in_range sb eb e
      then (e.2 :: (scan_entries sb eb es').1, (scan_entries sb eb es').2)
      else if negb (bytes_ltb e.1 eb) then ([], true)
      else scan_entries sb eb es'
  end.

Lemma scan_leaf_spec sb eb es : forall pre res,
  scan_leaf es.*1 (pre ++ es.*2) (length pre) sb eb res
  = Ok (res ++ (scan_entries sb eb es).1, (scan_entries sb eb es).2).
Proof.
  induction es as [|[k v] es IH]; intros pre res.
  - simpl. by rewrite app_nil_r.
  - cbn [fmap list_fmap fst snd scan_leaf scan_entries]. unfold in_range. cbn [fst snd].
    assert (Hnext : forall res',
      scan_leaf es.*1 (pre ++ v :: es.*2) (S (length pre)) sb eb res'
      = Ok (res' ++ (scan_entries sb eb es).1, (scan_entries sb eb es).2)).
    { intros res'. rewrite (cons_middle v pre), app_assoc.
      replace (S (length pre)) with (length (pre ++ [v]))
        by (rewrite length_app; simpl; lia).
      apply IH. }
    destruct (bytes_leb sb k && bytes_ltb k eb) eqn:Hr.
    + unfold index. rewrite list_lookup_middle by done. cbn [mbind result_bind].
      rewrite Hnext. cbn [fst snd]. by rewrite <- app_assoc.
    + destruct (negb (bytes_ltb k eb)); [by rewrite app_nil_r|]. apply Hnext.
Qed.

Lemma scan_entries_app sb eb es1 es2 :
  scan_entries sb eb (es1 ++ es2)
  = if (scan_entries sb eb es1).2 then scan_entries sb eb es1
    else ((scan_entries sb eb es1).1 ++ (scan_entries sb eb es2).1,
          (scan_entries sb eb es2).2).
Proof.
  induction es1 as [|e es1 IH].
  - simpl. by destruct (scan_entries sb eb es2).
  - cbn [app scan_entries]. destruct (in_range sb eb e).
    + rewrite IH. by destruct (scan_entries sb eb es1) as [r1 [|]].
    + destruct (negb (bytes_ltb e.1 eb)); [done|]. apply IH.
Qed.

Lemma filter_none {A} (p : A -> bool) (xs : list A) :
  (forall x, x ∈ xs -> p x = false) -> List.filter p xs = [].
Proof.
  induction xs as [|x xs IH]; intros Hp; [done|]. cbn [List.filter].
  rewrite (Hp x) by left. apply IH. intros y Hy. apply Hp. by right.
Qed.

(** Over entries in key order the scan takes exactly the values of the
    keys in the range. *)
Lemma scan_entries_sorted sb eb es :
  StronglySorted blt es.*1 ->
  (scan_entries sb eb es).1 = (List.filter (in_range sb eb) es).*2.
Proof.
  induction es as [|[k v] es IH]; intros Hs; [done|].
  cbn [fmap list_fmap fst] in Hs. apply StronglySorted_cons in Hs as [Hgt Hs].
  cbn [scan_entries List.filter]. destruct (in_range sb eb (k, v)) eqn:Hr.
  - cbn [fst snd fmap list_fmap]. by rewrite IH.
  - cbn [fst]. destruct (bytes_ltb k eb) eqn:Hk; cbn [negb]; [by apply IH|].
    cbn [fst]. symmetry.
    assert (Hnone : List.filter (in_range sb eb) es = []); [|by rewrite Hnone].
    apply filter_none. intros [k' v'] Hin.
    unfold in_range. cbn [fst]. apply andb_false_iff. right.
    rewrite Forall_forall in Hgt.
    assert (Hkk : blt k k') by (apply Hgt, key_in_pairs; by exists v').
    destruct (bytes_ltb k' eb) eqn:Hk'; [|done].
    rewrite (bytes_ltb_trans _ _ _ Hkk Hk') in Hk. done.
Qed.

(** The loop over the chain of leaves scans their entries in turn. *)
Lemma scan_chain_spec (h : list (TreeNode V)) sb eb
  (lvs : list (nat * list (bytes * V))) : forall fuel res,
  (length lvs <= fuel)%nat ->
  Forall (fun p => exists nx, h !! p.1 = Some (leaf_node p.2 nx)) lvs ->
  chain h lvs.*1 None ->
  scan_chain fuel h (head lvs.*1) sb eb res
  = Ok (res ++ (scan_entries sb eb (concat lvs.*2)).1).
Proof.
  induction lvs as [|[a es] lvs IH]; intros fuel res Hfuel Hl Hc.
  - destruct fuel; simpl; by rewrite app_nil_r.
  - destruct fuel as [|fuel]; [simpl in Hfuel; lia|].
    apply Forall_cons in Hl as [(nx & Ha) Hl]. cbn [fst snd] in Ha.
    cbn [fmap list_fmap fst] in Hc. apply chain_unfold in Hc as [(n & Hn & Hnx) Hc].
    rewrite Ha in Hn. injection Hn as <-. cbn [leaf_node next_leaf] in Hnx.
    cbn [fmap list_fmap fst snd head scan_chain concat]. unfold deref. rewrite Ha.
    cbn [mbind result_bind leaf_node keys values next_leaf].
    pose proof (scan_leaf_spec sb eb es [] res) as Hsl. cbn [app length] in Hsl.
    rewrite Hsl. cbn [mbind result_bind fst snd].
    rewrite scan_entries_app.
    destruct ((scan_entries sb eb es).2); [done|]. cbn [fst].
    rewrite Hnx. replace (hd_or lvs.*1 None) with (head lvs.*1)
      by (by destruct lvs).
    rewrite IH; [by rewrite app_assoc|simpl in Hfuel; lia|done|done].
Qed.

Lemma shape_leaves (h : list (TreeNode V)) t :
  shape h t ->
  Forall (fun p => exists nx, h !! p.1 = Some (leaf_node p.2 nx)) (leaf_list t).
Proof.
  induction t as [a es|a ks cs IH] using tree_ind'; intros Hs;
    inversion Hs as [? ? nx Ha|? ? ? Ha Hcs]; subst.
  - repeat constructor. by exists nx.
  - cbn [leaf_list]. apply Forall_forall. intros p (c & Hc & Hp)%elem_of_concat_map.
    rewrite Forall_forall in IH, Hcs.
    specialize (IH c Hc (Hcs c Hc)). rewrite Forall_forall in IH. by apply IH.
Qed.

(** [range_search] returns the values of the entries whose keys are in
    the range, in the order of the keys. *)
Lemma range_search_bytes_spec st t sb eb :
  Inv st t ->
  range_search_bytes st sb eb = Ok (List.filter (in_range sb eb) (entries t)).*2.
Proof.
  intros HI.
  destruct (Inv_Held st t sb HI)
    as (a & es & nx & fs & lo & hi & -> & Hrt & H & Hsz & Hlo & Hhi).
  destruct (routed_key_splits _ _ _ _ _ _ _ sb H Hlo Hhi) as [Hb _].
  unfold range_search_bytes. rewrite (Held_find_leaf _ _ _ _ _ _ _ _ H Hrt).
  cbn [mbind result_bind].
  pose proof (shape_leaves _ _ (inv_shape _ _ HI)) as Hl.
  pose proof (inv_chain _ _ HI) as Hc.
  pose proof (NoDup_nodes_leaves _ (inv_nodup _ _ HI)) as Hnd.
  pose proof (wf_entries _ _ _ _ (inv_wf _ _ HI)) as [Hso _].
  rewrite entries_plug_leaf in *. rewrite leaf_list_plug in Hl. cbn [leaf_list] in Hl.
  rewrite leaf_list_plug_fst in Hc, Hnd.
  apply Forall_app in Hl as [_ Hl]. apply chain_app in Hc as [_ Hc].
  apply NoDup_app in Hnd as (_ & _ & Hnd).
  change (a :: (ctx_la fs).*1) with (((a, es) :: ctx_la fs).*1) in Hc, Hnd.
  change (Some a) with (head ((a, es) :: ctx_la fs).*1).
  rewrite (scan_chain_spec (heap st) sb eb ((a, es) :: ctx_la fs)); [|
    | exact Hl | exact Hc].
  - cbn [app fmap list_fmap snd concat]. f_equal.
    rewrite fmap_app in Hso. apply StronglySorted_app in Hso as (_ & _ & Hso).
    rewrite scan_entries_sorted by done.
    assert (Hnone : List.filter (in_range sb eb) (concat (ctx_lb fs).*2) = []);
      [|by rewrite !List.filter_app, Hnone].
    apply filter_none. intros [k' v'] Hin.
    unfold in_range, bytes_leb. cbn [fst]. rewrite Forall_forall in Hb.
    assert (Hk : blt k' sb) by (apply Hb, key_in_pairs; by exists v').
    unfold blt in Hk. by rewrite Hk.
  - pose proof (chain_bound _ _ _ Hc) as Hbd.
    pose proof (NoDup_bounded_length _ _ Hnd Hbd) as Hlen.
    rewrite length_fmap in Hlen. unfold depth. lia.
Qed.

End range.
End Range.


(** * The structure of the nodes in the store *)

Module Structure.
Import Simple Rep Wf Descent Keys Parent Split Invariant.

Section structure.
Context {V : Type} `{!EqDecision V}.
Notation tree := (Rep.tree V).
Notation state := (SimpleBPlusTree V).
Implicit Types (st : state) (t : tree) (h : list (TreeNode V)).

(** The node at [b] is reached from the node at [a] through [children]. *)
Inductive reach (h : list (TreeNode V)) : nat -> nat -> Prop :=
  | reach_here a : reach h a a
  | reach_child a n cs c b :
      h !! a = Some n -> children n = Some cs -> c ∈ cs -> reach h c b ->
      reach h a b.

(** The leaf at [b] is the leftmost one below the node at [a]. *)
Inductive leftmost (h : list (TreeNode V)) : nat -> nat -> Prop :=
  | leftmost_leaf a n :
      h !! a = Some n -> is_leaf n = true -> leftmost h a a
  | leftmost_child a n c cs b :
      h !! a = Some n -> is_leaf n = false -> children n = Some (c :: cs) ->
      leftmost h c b -> leftmost h a b.

(** The invariants of one node of a tree of order [order]. *)
Definition node_ok (order : Z) (n : TreeNode V) : Prop :=
  StronglySorted blt (keys n) /\
  Z.of_nat (length (keys n)) <= order - 1 /\
  (is_leaf n = true -> length (values n) = length (keys n)) /\
  (is_leaf n = false ->
   exists cs, children n = Some cs /\ length cs = S (length (keys n))).

(** The keys of the leaves at the addresses [ls], in this order. *)
Definition leaf_keys (h : list (TreeNode V)) (ls : list nat) : list bytes :=
  concat (map (fun a => match h !! a with Some n => keys n | None => [] end) ls).

(** The invariants of the nodes of a tree. *)
Record well_formed (st : state) : Prop := {
  wf_nodes : forall a, reach (heap st) (root st) a ->
             exists n, heap st !! a = Some n /\ node_ok (order st) n;
  wf_leaves : exists ls a0,
    leftmost (heap st) (root st) a0 /\ head ls = Some a0 /\
    chain (heap st) ls None /\
    (forall a n, reach (heap st) (root st) a -> heap st !! a = Some n ->
                 is_leaf n = true -> a ∈ ls) /\
    StronglySorted blt (leaf_keys (heap st) ls)
}.

Lemma reach_nodes h a b :
  reach h a b -> forall t, shape h t -> tid t = a -> b ∈ nodes t.
Proof.
  induction 1 as [a|a n cs c b Ha Hcs Hc _ IH]; intros t Hs Ht.
  - subst. apply tid_in_nodes.
  - inversion Hs as [a' es nx Ha'|a' ks cs' Ha' Hcs']; subst; cbn [tid] in Ha.
    + rewrite Ha' in Ha. injection Ha as <-. done.
    + rewrite Ha' in Ha. injection Ha as <-. cbn [inner_node children] in Hcs.
      injection Hcs as <-. apply list_elem_of_fmap in Hc as (c' & -> & Hc').
      cbn [nodes]. right. apply elem_of_concat_map. exists c'. split; [done|].
      rewrite Forall_forall in Hcs'. by apply IH; [apply Hcs'|].
Qed.

Lemma wfc_each (P : option bytes -> option bytes -> tree -> Prop) cs :
  forall lo hi ks c, wfc P lo hi ks cs -> c ∈ cs -> exists lo' hi', P lo' hi' c.
Proof.
  induction cs as [|c0 cs IH]; intros lo hi ks c Hw Hc; [done|].
  destruct ks as [|k ks]; cbn [wfc] in Hw.
  - destruct Hw as [-> Hp]. apply list_elem_of_singleton in Hc as ->. eauto.
  - destruct Hw as (Hp & _ & _ & Hw). apply elem_of_cons in Hc as [->|Hc]; eauto.
Qed.

Lemma node_props h order t :
  forall lo hi, shape h t -> wf order lo hi t ->
  forall a, a ∈ nodes t -> exists n, h !! a = Some n /\ node_ok order n.
Proof.
  induction t as [a es|a ks cs IH] using tree_ind'; intros lo hi Hs Hw b Hb;
    inversion Hs as [? ? nx Ha|? ? ? Ha Hcs]; subst.
  - cbn [nodes] in Hb. apply list_elem_of_singleton in Hb as ->.
    destruct Hw as (Hsz & Hso & _). eexists. split; [exact Ha|].
    unfold node_ok. cbn [leaf_node keys values is_leaf children].
    rewrite !length_fmap. split; [done|]. split; [lia|]. split; [done|]. done.
  - destruct Hw as [Hsz Hw]. cbn [nodes] in Hb.
    apply elem_of_cons in Hb as [->|Hb].
    + eexists. split; [exact Ha|].
      unfold node_ok. cbn [inner_node keys values is_leaf children].
      destruct (wfc_sorted _ _ _ _ _ Hw) as [Hso _].
      repeat split; try done; [lia|]. intros _. eexists. split; [done|].
      rewrite length_fmap. by eapply wfc_length.
    + apply elem_of_concat_map in Hb as (c & Hc & Hb).
      destruct (wfc_each _ _ _ _ _ _ Hw Hc) as (lo' & hi' & Hwc).
      rewrite Forall_forall in IH, Hcs.
      exact (IH c Hc _ _ (Hcs c Hc) Hwc b Hb).
Qed.

Lemma leftmost_head h order t :
  forall lo hi, shape h t -> wf order lo hi t ->
  exists a0, leftmost h (tid t) a0 /\ head (leaf_list t).*1 = Some a0.
Proof.
  induction t as [a es|a ks cs IH] using tree_ind'; intros lo hi Hs Hw;
    inversion Hs as [? ? nx Ha|? ? ? Ha Hcs]; subst.
  - exists a. split; [|done]. by econstructor.
  - destruct Hw as [_ Hw]. destruct cs as [|c cs]; [done|].
    destruct (wfc_each _ _ _ _ _ c Hw) as (lo' & hi' & Hwc); [left|].
    apply Forall_cons in IH as [IHc _]. apply Forall_cons in Hcs as [Hc _].
    destruct (IHc _ _ Hc Hwc) as (a0 & Hl & Hh).
    exists a0. split.
    + cbn [tid]. eapply leftmost_child; [exact Ha|done|done|done].
    + cbn [leaf_list map concat]. rewrite fmap_app.
      destruct ((leaf_list c).*1) as [|x xs]; [done|]. done.
Qed.

Lemma leaf_keys_entries h t :
  shape h t -> leaf_keys h (leaf_list t).*1 = (entries t).*1.
Proof.
  intros Hs. apply Range.shape_leaves in Hs.
  rewrite entries_keys_concat. unfold leaf_keys. f_equal.
  induction Hs as [|[a es] ls (nx & Ha) _ IH]; [done|].
  cbn [fmap list_fmap map fst snd] in *. by rewrite Ha, IH.
Qed.

(** The invariant of the tree gives the invariants of the nodes. *)
Lemma Inv_well_formed st t : Inv st t -> well_formed st.
Proof.
  intros [Ho Hs Hr Hnd Hc Hw Hm]. split.
  - intros a Ha. eapply node_props; [exact Hs|exact Hw|].
    eapply reach_nodes; [exact Ha|exact Hs|done].
  - destruct (leftmost_head _ _ _ _ _ Hs Hw) as (a0 & Hl & Hh).
    exists (leaf_list t).*1, a0. rewrite Hr. repeat split; try done.
    + intros a n Ha Hn Hleaf.
      pose proof (reach_nodes _ _ _ Ha t Hs eq_refl) as Hin.
      destruct (node_at _ _ _ Hs Hin) as [(es & nx & Hl' & Hn')|(ks & cids & _ & Hn')].
      * apply list_elem_of_fmap. by exists (a, es).
      * rewrite Hn' in Hn. injection Hn as <-. done.
    + rewrite leaf_keys_entries by done. by apply wf_entries in Hw as [? _].
Qed.

End structure.
End Structure.


(** * Runs of operations on the tree *)

Module Ops.
Import Simple Rep Wf Keys Invariant Insertion Lookup Range Structure.

Section ops.
Context {V : Type} `{!EqDecision V}.
Notation tree := (Rep.tree V).
Notation state := (SimpleBPlusTree V).
Implicit Types (st : state) (t : tree).

(** A call of a client: [tree.insert(key, value)] or [tree.delete(key)]. *)
Inductive op :=
  | Insert (key : pykey) (value : V)
  | Delete (key : pykey).

Definition apply_op (st : state) (o : op) : result state :=
  match o with
  | Insert key value => insert st key value
  | Delete key => r ← delete st key; Ok r.1
  end.

(** The calls of [ops] one after the other, each one returning. *)
Fixpoint run (st : state) (ops : list op) : result state :=
  match ops with
  | [] => Ok st
  | o :: ops' => st' ← apply_op st o; run st' ops'
  end.

Definition insert_ops (pairs : list (pykey * V)) : list op :=
  (fun p => Insert p.1 p.2) <$> pairs.

(** Every key of [ops] can be serialized, and no key is inserted while an
    entry with the same serialized key is in the tree; [present] are the
    serialized keys in the tree before [ops]. *)
Fixpoint fresh_inserts (present : list bytes) (ops : list op) : bool :=
  match ops with
  | [] => true
  | Insert key _ :: ops' =>
      match _serialize_key key with
      | Ok kb =>
          negb (bool_decide (kb ∈ present)) && fresh_inserts (kb :: present) ops'
      | Raise _ => false
      end
  | Delete key :: ops' =>
      match _serialize_key key with
      | Ok kb =>
          fresh_inserts (List.filter (fun x => negb (bool_decide (x = kb))) present) ops'
      | Raise _ => false
      end
  end.

Lemma key_absent st t k :
  Inv st t -> key_to_value st !! k = None <-> k ∉ (entries t).*1.
Proof.
  intros HI. split.
  - intros E (v & Hin)%key_in_pairs. apply (inv_map _ _ HI) in Hin. congruence.
  - intros Hk. destruct (key_to_value st !! k) as [v|] eqn:E; [|done].
    exfalso. apply Hk, key_in_pairs. exists v. by apply (inv_map _ _ HI).
Qed.

(** A run with fresh inserts returns and keeps the invariant. *)
Lemma run_Inv ops : forall st t present,
  Inv st t -> (forall k, k ∈ present <-> k ∈ (entries t).*1) ->
  fresh_inserts present ops = true ->
  exists st' t', run st ops = Ok st' /\ Inv st' t' /\ order st' = order st.
Proof.
  induction ops as [|[key v|key] ops IH]; intros st t present HI Hp Hf.
  - by exists st, t.
  - cbn [fresh_inserts] in Hf. cbn [run apply_op]. unfold insert.
    destruct (_serialize_key key) as [kb|] eqn:Hser; [|done].
    apply andb_true_iff in Hf as [Hnew Hf].
    apply negb_true_iff, bool_decide_eq_false in Hnew.
    cbn [mbind result_bind].
    destruct (insert_bytes_spec st t kb v HI) as (st1 & t1 & -> & HI1 & Ho & Hperm).
    { by rewrite <- Hp. }
    cbn [mbind result_bind].
    destruct (IH st1 t1 (kb :: present) HI1) as (st' & t' & Hrun & HI' & Ho'); [|done|].
    { intros k. rewrite Hperm. cbn [fmap list_fmap fst].
      rewrite !elem_of_cons. by rewrite Hp. }
    exists st', t'. split; [done|]. split; [done|]. congruence.
  - cbn [fresh_inserts] in Hf. cbn [run apply_op]. unfold delete.
    destruct (_serialize_key key) as [kb|] eqn:Hser; [|done].
    cbn [mbind result_bind].
    assert (Hfil : forall k, k ∈ List.filter (fun x => negb (bool_decide (x = kb))) present
                   <-> k ∈ present /\ k <> kb).
    { intros k. rewrite !list_elem_of_In, List.filter_In, negb_true_iff.
      by rewrite bool_decide_eq_false. }
    destruct (key_to_value st !! kb) as [v|] eqn:E.
    + destruct (delete_bytes_present st t kb v HI E)
        as (st1 & t1 & -> & HI1 & Ho & _ & Hmem).
      cbn [mbind result_bind fst].
      destruct (IH st1 t1 (List.filter (fun x => negb (bool_decide (x = kb))) present)
                  HI1) as (st' & t' & Hrun & HI' & Ho'); [|done|].
      { intros k. rewrite Hfil, Hp, !key_in_pairs. split.
        - intros [[v0 Hin] Hne]. exists v0. by apply Hmem.
        - intros [v0 Hin]. apply Hmem in Hin as [Hin Hne]. eauto. }
      exists st', t'. split; [done|]. split; [done|]. congruence.
    + rewrite (delete_bytes_absent _ _ E). cbn [mbind result_bind fst].
      apply (IH st t (List.filter (fun x => negb (bool_decide (x = kb))) present) HI);
        [|done].
      intros k. rewrite Hfil, Hp. split; [tauto|]. intros Hin. split; [done|].
      intros ->. by apply (key_absent st t kb HI) in E.
Qed.

(** A run of inserts with distinct serialized keys adds their entries. *)
Lemma run_inserts pairs : forall kbs st t,
  Inv st t -> mapR _serialize_key pairs.*1 = Ok kbs -> NoDup kbs ->
  (forall k, k ∈ kbs -> k ∉ (entries t).*1) ->
  exists st' t',
    run st (insert_ops pairs) = Ok st' /\ Inv st' t' /\
    entries t' ≡ₚ entries t ++ zip kbs pairs.*2.
Proof.
  induction pairs as [|[key v] pairs IH]; intros kbs st t HI Hser Hnd Hnew.
  - injection Hser as <-. exists st, t. by rewrite app_nil_r.
  - cbn [fmap list_fmap fst snd mapR] in *.
    destruct (_serialize_key key) as [kb|] eqn:Hk; [|done].
    cbn [mbind result_bind] in Hser.
    destruct (mapR _serialize_key pairs.*1) as [kbs'|] eqn:Hks; [|done].
    cbn [mbind result_bind] in Hser. injection Hser as <-.
    apply NoDup_cons in Hnd as [Hkb Hnd].
    cbn [insert_ops fmap list_fmap run apply_op fst snd]. unfold insert. rewrite Hk.
    cbn [mbind result_bind].
    destruct (insert_bytes_spec st t kb v HI) as (st1 & t1 & -> & HI1 & Ho & Hperm).
    { apply Hnew. left. }
    cbn [mbind result_bind].
    destruct (IH kbs' st1 t1 HI1 eq_refl Hnd) as (st' & t' & Hrun & HI' & Hperm').
    { intros k Hin. rewrite Hperm. cbn [fmap list_fmap fst].
      apply not_elem_of_cons. split; [by intros ->|]. apply Hnew. by right. }
    exists st', t'. split; [exact Hrun|]. split; [done|].
    rewrite Hperm', Hperm. cbn [zip zip_with]. by rewrite <- Permutation_middle.
Qed.




(** C5, as amended. Every state that a tree of order at least 2 reaches
    by insert and delete calls in which no key is inserted while an entry
    with that key is in the tree satisfies: the keys of each node that is
    reached from the root are strictly increasing in byte order; each
    node holds at most order - 1 keys; a leaf has as many values as keys;
    an internal node has one child more than keys; from the leftmost
    leaf, the next-leaf links go through every leaf, and the keys of the
    leaves in this order are strictly increasing. *)
Theorem node_invariants_distinct_keys (order : Z) (ops : list op) :
  2 <= order -> fresh_inserts [] ops = true ->
  exists st, run (new order) ops = Ok st /\ Simple.order st = order /\ well_formed st.
Proof.
  intros Ho Hf.
  destruct (run_Inv ops (new order) (TLeaf O []) [] (new_Inv order Ho))
    as (st & t & Hrun & HI & Hord); [done|done|].
  exists st. split; [done|]. split; [done|]. by apply Inv_well_formed with t.
Qed.

End ops.

Arguments op V : clear implicits.

(** ** The amended claims on a run with integer keys *)

Definition demo_pairs : list (pykey * string) :=
  [(KInt 10, "a"); (KInt 20, "b"); (KInt 30, "c"); (KInt 40, "d");
   (KInt 50, "e")]%string.

Definition demo_keys : list bytes := be_bytes 8 <$> [10; 20; 30; 40; 50].

Definition demo_ops : list (op string) :=
  insert_ops demo_pairs
  ++ [Delete (KInt 30); Insert (KInt 30) "f"%string; Delete (KInt 60);
      Insert (KInt 25) "g"%string; Insert (KInt 35) "h"%string].



Lemma node_invariants_distinct_keys_witness :
  exists st : SimpleBPlusTree string,
    run (new 4) demo_ops = Ok st /\ Simple.order st = 4 /\ well_formed st.
Proof.
  apply (node_invariants_distinct_keys 4 demo_ops).
  - lia.
  - vm_compute. reflexivity.
Defined.

End Ops.


(** * The data region of a page *)

Module PageData.
Import Page PageFacts PageClaims StorageFacts.

(** The data region has the size that [Page.__init__] gives it. *)
Definition sized (p : Page) : Prop := Z.of_nat (length (data p)) = DATA_SIZE.

Lemma slice_inside {A} (l : list A) (a n : Z) :
  0 <= a -> 0 <= n -> a + n <= Z.of_nat (length l) ->
  slice l a (a + n) = take (Z.to_nat n) (drop (Z.to_nat a) l).
Proof.
  intros Ha Hn Hl. unfold slice, slice_index.
  destruct (Z.ltb_spec a 0), (Z.ltb_spec (a + n) 0); try lia.
  rewrite !Z.min_l by lia. do 2 f_equal. lia.
Qed.

Lemma slice_assign_inside {A} (l b : list A) (a : Z) :
  0 <= a -> a + Z.of_nat (length b) <= Z.of_nat (length l) ->
  slice_assign l a (a + Z.of_nat (length b)) b
  = take (Z.to_nat a) l ++ b ++ drop (Z.to_nat a + length b) l.
Proof.
  intros Ha Hl. unfold slice_assign, slice_index.
  destruct (Z.ltb_spec a 0), (Z.ltb_spec (a + Z.of_nat (length b)) 0); try lia.
  rewrite !Z.min_l by lia. rewrite Z.max_r by lia. do 3 f_equal. lia.
Qed.

Lemma length_patch {A} (l b : list A) (a : nat) :
  (a + length b <= length l)%nat ->
  length (take a l ++ b ++ drop (a + length b) l) = length l.
Proof. intros H. rewrite !length_app, length_take, length_drop. lia. Qed.

Lemma lookup_patch_outside {A} (l b : list A) (a i : nat) :
  (a + length b <= length l)%nat ->
  (i < a \/ a + length b <= i)%nat ->
  (take a l ++ b ++ drop (a + length b) l) !! i = l !! i.
Proof.
  intros Hl [Hi|Hi].
  - rewrite lookup_app_l by (rewrite length_take; lia). by apply lookup_take_lt.
  - rewrite lookup_app_r by (rewrite length_take; lia).
    rewrite length_take, Nat.min_l by lia.
    rewrite lookup_app_r by lia. rewrite lookup_drop. f_equal. lia.
Qed.

Lemma read_patch {A} (l b : list A) (a : nat) :
  (a + length b <= length l)%nat ->
  take (length b) (drop a (take a l ++ b ++ drop (a + length b) l)) = b.
Proof.
  intros Hl. rewrite drop_app_length' by (rewrite length_take; lia).
  by rewrite take_app_length.
Qed.

Lemma read_patch_outside {A} (l b : list A) (a a2 n2 : nat) :
  (a + length b <= length l)%nat ->
  (a2 + n2 <= a \/ a + length b <= a2)%nat ->
  take n2 (drop a2 (take a l ++ b ++ drop (a + length b) l))
  = take n2 (drop a2 l).
Proof.
  intros Hl Hd. apply list_eq. intros i.
  destruct (decide (i < n2)%nat) as [Hi|Hi].
  - rewrite !lookup_take_lt, !lookup_drop by done.
    apply lookup_patch_outside; [done|lia].
  - by rewrite !lookup_take_ge by lia.
Qed.

Definition patch (l b : bytes) (a : nat) : bytes :=
  take a l ++ b ++ drop (a + length b) l.

Lemma write_data_inside (p : Page) (offset : Z) (d : bytes) :
  sized p -> 29 <= offset -> offset + Z.of_nat (length d) <= 4096 ->
  write_data p offset d
  = Ok (set_data p (patch (data p) d (Z.to_nat (offset - 29)))).
Proof.
  unfold sized. change DATA_SIZE with 4067. intros Hs Ho Hl.
  unfold write_data. change HEADER_SIZE with 29. change PAGE_SIZE with 4096.
  destruct (Z.ltb_spec offset 29), (Z.ltb_spec 4096 (offset + Z.of_nat (length d)));
    try lia. cbn [orb]. by rewrite slice_assign_inside by lia.
Qed.

Lemma read_data_inside (p : Page) (offset size : Z) :
  sized p -> 29 <= offset -> 0 <= size -> offset + size <= 4096 ->
  read_data p offset size
  = Ok (take (Z.to_nat size) (drop (Z.to_nat (offset - 29)) (data p))).
Proof.
  unfold sized. change DATA_SIZE with 4067. intros Hs Ho Hn Hl.
  unfold read_data. change HEADER_SIZE with 29. change PAGE_SIZE with 4096.
  destruct (Z.ltb_spec offset 29), (Z.ltb_spec 4096 (offset + size)); try lia.
  cbn [orb]. by rewrite slice_inside by lia.
Qed.

Lemma sized_patch (p : Page) (d : bytes) (a : nat) :
  sized p -> (a + length d <= length (data p))%nat ->
  sized (set_data p (patch (data p) d a)).
Proof.
  unfold sized. intros Hs Hl. cbn [set_data data]. unfold patch.
  by rewrite length_patch.
Qed.

(** X1. [deserialize] undoes [serialize]: a page whose attributes fit the
    header fields is serialized to 4096 bytes, and deserializing them,
    with any page id argument, gives back the page id, type, table id,
    free-space bounds, LSN and data of the page, the checksum that
    [serialize] stored, and a clean page. *)
Theorem serialize_deserialize_round_trip (p : Page) (arg : Z) :
  valid p ->
  exists b p' q,
    serialize p = Ok (b, p') /\ length b = 4096%nat /\
    deserialize arg b = Ok q /\
    page_id q = page_id p /\ page_type q = page_type p /\
    table_id q = table_id p /\
    free_space_start q = free_space_start p /\
    free_space_end q = free_space_end p /\
    lsn q = lsn p /\ data q = data p /\
    checksum q = checksum p' /\ dirty q = false.
Proof.
  intros Hv. pose proof (serialize_valid p Hv) as Hs. cbv zeta in Hs.
  set (c := _calculate_checksum (header_bytes p (checksum p) ++ data p)) in *.
  pose proof (_calculate_checksum_range (header_bytes p (checksum p) ++ data p)) as Hc.
  fold c in Hc.
  eexists _, _, _. split; [exact Hs|]. split.
  { eapply serialize_length; [exact Hv|exact Hs]. }
  split; [by apply deserialize_serialize|]. by repeat split.
Qed.

Lemma serialize_deserialize_round_trip_witness :
  exists b p' q,
    serialize (new 7 INDEX 3) = Ok (b, p') /\ length b = 4096%nat /\
    deserialize 0 b = Ok q /\
    page_id q = page_id (new 7 INDEX 3) /\ page_type q = page_type (new 7 INDEX 3) /\
    table_id q = table_id (new 7 INDEX 3) /\
    free_space_start q = free_space_start (new 7 INDEX 3) /\
    free_space_end q = free_space_end (new 7 INDEX 3) /\
    lsn q = lsn (new 7 INDEX 3) /\ data q = data (new 7 INDEX 3) /\
    checksum q = checksum p' /\ dirty q = false.
Proof.
  apply (serialize_deserialize_round_trip (new 7 INDEX 3) 0).
  apply new_valid; lia.
Defined.

(** X2. [read_data] after [write_data]: on a page with its 4067 data
    bytes, writing [d] at an offset with [29 <= offset] and
    [offset + len(d) <= 4096] succeeds, marks the page dirty, keeps the
    size of the data region and the other attributes, and reading
    [len(d)] bytes at the same offset returns [d]; reading any region
    that does not overlap the written one returns what it returned
    before. *)
Theorem read_data_after_write_data (p : Page) (offset : Z) (d : bytes) :
  sized p -> 29 <= offset -> offset + Z.of_nat (length d) <= 4096 ->
  exists p',
    write_data p offset d = Ok p' /\ sized p' /\ dirty p' = true /\
    page_id p' = page_id p /\ free_space_start p' = free_space_start p /\
    free_space_end p' = free_space_end p /\
    read_data p' offset (Z.of_nat (length d)) = Ok d /\
    forall offset2 size2,
      0 <= size2 ->
      offset2 + size2 <= offset \/ offset + Z.of_nat (length d) <= offset2 ->
      read_data p' offset2 size2 = read_data p offset2 size2.
Proof.
  intros Hs Ho Hl. pose proof Hs as Hs0. unfold sized in Hs0.
  change DATA_SIZE with 4067 in Hs0.
  assert (Hfit : (Z.to_nat (offset - 29) + length d <= length (data p))%nat) by lia.
  pose proof (sized_patch p d _ Hs Hfit) as Hs'.
  eexists. split; [by apply write_data_inside|].
  split; [done|split; [done|split; [done|split; [done|split; [done|split]]]]].
  - rewrite read_data_inside by (done || lia). cbn [set_data data].
    rewrite Nat2Z.id. f_equal. by apply read_patch.
  - intros offset2 size2 Hn Hd. unfold read_data.
    change HEADER_SIZE with 29. change PAGE_SIZE with 4096.
    destruct (Z.ltb_spec offset2 29), (Z.ltb_spec 4096 (offset2 + size2));
      cbn [orb]; try done. f_equal.
    unfold sized in Hs'. change DATA_SIZE with 4067 in Hs'.
    rewrite !slice_inside by lia. cbn [set_data data].
    apply read_patch_outside; [done|lia].
Qed.

Lemma read_data_after_write_data_witness :
  exists p',
    write_data (new 1 DATA 0) 100 [x54; x65; x73; x74] = Ok p' /\ sized p' /\
    dirty p' = true /\
    page_id p' = page_id (new 1 DATA 0) /\
    free_space_start p' = free_space_start (new 1 DATA 0) /\
    free_space_end p' = free_space_end (new 1 DATA 0) /\
    read_data p' 100 (Z.of_nat (length [x54; x65; x73; x74]))
    = Ok [x54; x65; x73; x74] /\
    forall offset2 size2,
      0 <= size2 ->
      offset2 + size2 <= 100
      \/ 100 + Z.of_nat (length [x54; x65; x73; x74]) <= offset2 ->
      read_data p' offset2 size2 = read_data (new 1 DATA 0) offset2 size2.
Proof.
  apply (read_data_after_write_data (new 1 DATA 0) 100 [x54; x65; x73; x74]).
  - reflexivity.
  - lia.
  - simpl. lia.
Defined.

(** X3. The bounds of [read_data]: it raises [ValueError] exactly when
    the offset is inside the header or the region ends after the page;
    otherwise, for a size that is not negative, it returns exactly
    [size] bytes. *)
Theorem read_data_bounds (p : Page) (offset size : Z) :
  sized p -> 0 <= size ->
  (offset < 29 \/ 4096 < offset + size -> read_data p offset size = Raise ValueError) /\
  (29 <= offset -> offset + size <= 4096 ->
   exists b, read_data p offset size = Ok b /\ Z.of_nat (length b) = size).
Proof.
  unfold sized. change DATA_SIZE with 4067. intros Hs Hn.
  unfold read_data. change HEADER_SIZE with 29. change PAGE_SIZE with 4096.
  destruct (Z.ltb_spec offset 29), (Z.ltb_spec 4096 (offset + size)); cbn [orb];
    (split; [intros; try done; lia|intros; try lia]).
  eexists. split; [done|]. rewrite slice_inside by lia.
  rewrite length_take, length_drop. lia.
Qed.

Lemma read_data_bounds_witness :
  (10 < 29 \/ 4096 < 10 + 5 -> read_data (new 1 DATA 0) 10 5 = Raise ValueError) /\
  (29 <= 10 -> 10 + 5 <= 4096 ->
   exists b, read_data (new 1 DATA 0) 10 5 = Ok b /\ Z.of_nat (length b) = 5).
Proof.
  apply (read_data_bounds (new 1 DATA 0) 10 5).
  - reflexivity.
  - lia.
Defined.

(** X4. A negative size is not rejected by [read_data]: the end of the
    slice is then counted from the end of the data region. For
    [-4067 <= size < 0] and an offset in the page with
    [offset + size < 29] the call returns [4067 + size] bytes, starting
    at the offset. *)
Theorem read_data_negative_size (p : Page) (offset size : Z) :
  sized p -> 29 <= offset <= 4096 -> -4067 <= size < 0 -> offset + size < 29 ->
  exists b,
    read_data p offset size = Ok b /\
    b = take (Z.to_nat (4067 + size)) (drop (Z.to_nat (offset - 29)) (data p)) /\
    Z.of_nat (length b) = 4067 + size.
Proof.
  unfold sized. change DATA_SIZE with 4067. intros Hs Ho Hn Hb.
  unfold read_data. change HEADER_SIZE with 29. change PAGE_SIZE with 4096.
  destruct (Z.ltb_spec offset 29), (Z.ltb_spec 4096 (offset + size)); try lia.
  cbn [orb]. eexists. split; [done|].
  unfold slice, slice_index. rewrite Hs.
  destruct (Z.ltb_spec (offset - 29) 0), (Z.ltb_spec (offset - 29 + size) 0); try lia.
  assert (Hmin : Z.min (offset - 29) 4067 = offset - 29) by lia.
  assert (Hmax : Z.max 0 (4067 + (offset - 29 + size)) = 4067 + (offset - 29 + size))
    by lia.
  rewrite Hmin, Hmax.
  replace (4067 + (offset - 29 + size) - (offset - 29)) with (4067 + size) by lia.
  split; [done|]. rewrite length_take, length_drop. lia.
Qed.

Lemma read_data_negative_size_witness :
  exists b,
    read_data (new 1 DATA 0) 29 (-1) = Ok b /\
    b = take (Z.to_nat (4067 + -1)) (drop (Z.to_nat (29 - 29)) (data (new 1 DATA 0))) /\
    Z.of_nat (length b) = 4067 + -1.
Proof.
  apply (read_data_negative_size (new 1 DATA 0) 29 (-1)).
  - reflexivity.
  - lia.
  - lia.
  - lia.
Defined.

(** The free-space bounds of a page lie in the data region. *)
Definition free_space_ok (p : Page) : Prop :=
  29 <= free_space_start p /\ free_space_start p <= free_space_end p /\
  free_space_end p <= 4096.

Lemma allocate_space_Some p size off p' :
  allocate_space p size = (Some off, p') ->
  off = free_space_start p /\ free_space_start p + size <= free_space_end p /\
  p' = advance p size.
Proof.
  unfold allocate_space.
  destruct (Z.leb_spec (free_space_start p + size) (free_space_end p)); [|done].
  intros [= <- <-]. done.
Qed.

(** X5. Space that [allocate_space] hands out can be written and
    survives the disk format: on a page whose attributes fit the header
    and whose free-space bounds lie in the data region, if
    [allocate_space(len(d))] returns an offset, then [write_data] of [d]
    at this offset succeeds, the page serializes, and [read_data] at the
    offset on the deserialized page returns [d]. *)
Theorem allocate_write_serialize_read (p : Page) (d : bytes) (arg off : Z) (p1 : Page) :
  valid p -> free_space_ok p ->
  allocate_space p (Z.of_nat (length d)) = (Some off, p1) ->
  exists p2 b p3 q,
    write_data p1 off d = Ok p2 /\ serialize p2 = Ok (b, p3) /\
    deserialize arg b = Ok q /\
    read_data q off (Z.of_nat (length d)) = Ok d /\
    free_space_start q = off + Z.of_nat (length d).
Proof.
  intros Hv (Hf1 & Hf2 & Hf3) Ha.
  apply allocate_space_Some in Ha as (-> & Hroom & ->).
  set (n := Z.of_nat (length d)) in *.
  assert (Hs1 : sized (advance p n)) by apply Hv.
  pose proof Hs1 as Hs0. unfold sized in Hs0. change DATA_SIZE with 4067 in Hs0.
  cbn [advance data] in Hs0.
  assert (Hfit : (Z.to_nat (free_space_start p - 29) + length d
                  <= length (data (advance p n)))%nat) by (cbn [advance data]; lia).
  pose proof (sized_patch (advance p n) d _ Hs1 Hfit) as Hs2.
  set (p2 := set_data (advance p n)
               (patch (data (advance p n)) d (Z.to_nat (free_space_start p - 29)))) in *.
  assert (Hv2 : valid p2).
  { destruct Hv as (? & ? & ? & ? & ? & ? & ?). unfold valid.
    split; [done|]. split; [done|]. split; [cbn; lia|]. split; [done|].
    split; [done|]. split; [done|]. exact Hs2. }
  pose proof (serialize_valid p2 Hv2) as Hser. cbv zeta in Hser.
  set (c := _calculate_checksum (header_bytes p2 (checksum p2) ++ data p2)) in *.
  pose proof (_calculate_checksum_range (header_bytes p2 (checksum p2) ++ data p2)) as Hc.
  fold c in Hc.
  eexists p2, _, _, _. split; [apply write_data_inside; [done|lia|cbn; lia]|].
  split; [exact Hser|]. split; [by apply deserialize_serialize|]. split; [|done].
  rewrite read_data_inside; [|exact Hs2|lia|lia|lia].
  cbn [data]. unfold n. rewrite Nat2Z.id. f_equal. unfold p2. cbn [set_data data].
  by apply read_patch.
Qed.

Lemma allocate_write_serialize_read_witness :
  exists p2 b p3 q,
    write_data (advance (new 1 DATA 0) 9) 29
      [x54; x65; x73; x74; x20; x64; x61; x74; x61] = Ok p2 /\
    serialize p2 = Ok (b, p3) /\
    deserialize 1 b = Ok q /\
    read_data q 29 (Z.of_nat (length [x54; x65; x73; x74; x20; x64; x61; x74; x61]))
    = Ok [x54; x65; x73; x74; x20; x64; x61; x74; x61] /\
    free_space_start q
    = 29 + Z.of_nat (length [x54; x65; x73; x74; x20; x64; x61; x74; x61]).
Proof.
  apply (allocate_write_serialize_read (new 1 DATA 0)
           [x54; x65; x73; x74; x20; x64; x61; x74; x61] 1 29
           (advance (new 1 DATA 0) 9)).
  - apply new_valid; lia.
  - cbv [free_space_ok new free_space_start free_space_end HEADER_SIZE PAGE_SIZE]. lia.
  - reflexivity.
Defined.

(** The calls [allocate_space(s)] for the sizes [s] of a list, in turn:
    the offsets returned and the page afterwards. *)
Fixpoint allocate_all (p : Page) (sizes : list Z) : list (option Z) * Page :=
  match sizes with
  | [] => ([], p)
  | s :: sizes' =>
      let r := allocate_space p s in
      let rs := allocate_all r.2 sizes' in
      (r.1 :: rs.1, rs.2)
  end.

Lemma allocate_all_bounds sizes : forall p,
  Forall (fun s => 0 <= s) sizes -> free_space_start p <= free_space_end p ->
  free_space_start p <= free_space_start (allocate_all p sizes).2 /\
  free_space_start (allocate_all p sizes).2 <= free_space_end p /\
  free_space_end (allocate_all p sizes).2 = free_space_end p /\
  forall j oj sj,
    (allocate_all p sizes).1 !! j = Some (Some oj) -> sizes !! j = Some sj ->
    free_space_start p <= oj /\ oj + sj <= free_space_start (allocate_all p sizes).2.
Proof.
  induction sizes as [|s sizes IH]; intros p Hs Hp.
  - cbn. split; [lia|]. split; [lia|]. split; [done|].
    intros j oj sj Hj. by rewrite lookup_nil in Hj.
  - apply Forall_cons in Hs as [Hs0 Hs]. cbn [allocate_all fst snd].
    unfold allocate_space.
    destruct (Z.leb_spec (free_space_start p + s) (free_space_end p)) as [Hroom|Hfull];
      cbn [fst snd].
    + destruct (IH (advance p s) Hs) as (H1 & H2 & H3 & H4); [cbn; lia|].
      fold (advance p s).
      cbn [advance free_space_start free_space_end] in H1, H2, H3.
      split; [lia|]. split; [lia|]. split; [done|].
      intros j oj sj Hj Hsj. destruct j as [|j]; cbn [lookup list_lookup] in Hj, Hsj.
      * injection Hj as <-. injection Hsj as <-. lia.
      * destruct (H4 j oj sj Hj Hsj) as [H5 H6].
        cbn [advance free_space_start] in H5. lia.
    + destruct (IH p Hs Hp) as (H1 & H2 & H3 & H4).
      split; [lia|]. split; [lia|]. split; [done|].
      intros j oj sj Hj Hsj. destruct j as [|j]; cbn [lookup list_lookup] in Hj, Hsj;
        [done|]. by apply (H4 j oj sj).
Qed.

(** X6. Successive allocations do not overlap: for calls of
    [allocate_space] with sizes that are not negative on a page with
    [free_space_start <= free_space_end], every offset returned lies
    between the two bounds of the free space at the start, together with
    its size, and the region of a later successful call starts at or
    after the end of the region of every earlier one. *)
Theorem allocations_do_not_overlap (p : Page) (sizes : list Z) (i j : nat)
  (oi oj si sj : Z) :
  Forall (fun s => 0 <= s) sizes -> free_space_start p <= free_space_end p ->
  (i < j)%nat ->
  (allocate_all p sizes).1 !! i = Some (Some oi) -> sizes !! i = Some si ->
  (allocate_all p sizes).1 !! j = Some (Some oj) -> sizes !! j = Some sj ->
  free_space_start p <= oi /\ oi + si <= oj /\ oj + sj <= free_space_end p.
Proof.
  revert p i j. induction sizes as [|s sizes IH]; intros p i j Hs Hp Hij Hi Hsi Hj Hsj.
  - by rewrite lookup_nil in Hsi.
  - pose proof Hs as Hs'. apply Forall_cons in Hs' as [Hs0 Hs1].
    destruct j as [|j]; [lia|]. cbn [allocate_all fst snd lookup list_lookup] in Hi, Hj, Hsj.
    cbn [lookup list_lookup] in Hsj.
    assert (Hstep : free_space_start p <= free_space_start (allocate_space p s).2 /\
                    free_space_start (allocate_space p s).2 <= free_space_end p /\
                    free_space_end (allocate_space p s).2 = free_space_end p /\
                    ((allocate_space p s).1 = None \/
                     (allocate_space p s).1 = Some (free_space_start p) /\
                     free_space_start (allocate_space p s).2 = free_space_start p + s)).
    { unfold allocate_space.
      destruct (Z.leb_spec (free_space_start p + s) (free_space_end p));
        cbn [fst snd free_space_start free_space_end];
        (split; [lia|split; [lia|split; [done|]]]); [right|left]; done. }
    destruct Hstep as (H1 & H2 & H3 & H4).
    destruct i as [|i].
    + cbn [lookup list_lookup] in Hi, Hsi. injection Hsi as <-. injection Hi as Hi.
      destruct H4 as [H4|[H4 H5]]; [congruence|].
      rewrite H4 in Hi. injection Hi as <-.
      destruct (allocate_all_bounds sizes (allocate_space p s).2 Hs1) as (B1 & B2 & B3 & B4);
        [lia|].
      destruct (B4 j oj sj Hj Hsj). lia.
    + cbn [lookup list_lookup] in Hi, Hsi.
      destruct (IH (allocate_space p s).2 i j Hs1 ltac:(lia) ltac:(lia) Hi Hsi Hj Hsj)
        as (R1 & R2 & R3). lia.
Qed.

Lemma allocations_do_not_overlap_witness :
  free_space_start (new 1 DATA 0) <= 29 /\ 29 + 100 <= 129 /\
  129 + 50 <= free_space_end (new 1 DATA 0).
Proof.
  apply (allocations_do_not_overlap (new 1 DATA 0) [100; 5000; 50] 0 2 29 129 100 50).
  - repeat constructor; lia.
  - cbv [new free_space_start free_space_end HEADER_SIZE PAGE_SIZE]. lia.
  - lia.
  - reflexivity.
  - reflexivity.
  - reflexivity.
  - reflexivity.
Defined.

(** X7. [allocate_space] does not reject a negative size: on a page
    whose attributes fit the header, a call with a size below
    [-free_space_start] returns the current start of the free space and
    leaves the page with a negative [free_space_start], so that
    [serialize] then raises [struct.error]. *)
Theorem allocate_negative_breaks_serialize (p : Page) (size : Z) :
  valid p -> free_space_start p <= free_space_end p ->
  free_space_start p + size < 0 ->
  (allocate_space p size).1 = Some (free_space_start p) /\
  free_space_start (allocate_space p size).2 < 0 /\
  serialize (allocate_space p size).2 = Raise StructError.
Proof.
  intros Hv Hle Hneg. unfold allocate_space.
  destruct Hv as (H1 & H2 & H3 & H4 & H5 & H6 & H7).
  destruct (Z.leb_spec (free_space_start p + size) (free_space_end p)); [|lia].
  cbn [fst snd free_space_start]. split; [done|]. split; [done|].
  unfold serialize, pack_header. cbn [page_id page_type table_id free_space_start].
  rewrite (pack_le_fits 8 (page_id p)) by done. cbn [mbind result_bind].
  rewrite (pack_le_fits 1) by apply PageType_value_range. cbn [mbind result_bind].
  rewrite (pack_le_fits 4 (table_id p)) by done. cbn [mbind result_bind].
  assert (Hraise : pack_le 2 (free_space_start p + size) = Raise StructError).
  { unfold pack_le. by destruct (Z.leb_spec 0 (free_space_start p + size)); [lia|]. }
  by rewrite Hraise.
Qed.

Lemma allocate_negative_breaks_serialize_witness :
  (allocate_space (new 1 DATA 0) (-30)).1 = Some (free_space_start (new 1 DATA 0)) /\
  free_space_start (allocate_space (new 1 DATA 0) (-30)).2 < 0 /\
  serialize (allocate_space (new 1 DATA 0) (-30)).2 = Raise StructError.
Proof.
  apply (allocate_negative_breaks_serialize (new 1 DATA 0) (-30)).
  - apply new_valid; lia.
  - cbv [new free_space_start free_space_end HEADER_SIZE PAGE_SIZE]. lia.
  - cbv [new free_space_start free_space_end HEADER_SIZE PAGE_SIZE]. lia.
Defined.

End PageData.


(** * The database file *)

Module FileFacts.
Import Storage PageFacts StorageFacts StorageClaims.

(** ** Files *)

Lemma length_file_write (content b : bytes) (off : nat) :
  length (file_write content off b) = (length content `max` (off + length b))%nat.
Proof.
  unfold file_write.
  rewrite !length_app, length_take, length_replicate, length_drop. lia.
Qed.

Lemma lookup_file_write_outside (content b : bytes) (off i : nat) :
  (off <= length content)%nat -> (i < off \/ off + length b <= i)%nat ->
  file_write content off b !! i = content !! i.
Proof.
  intros Hoff Hi. unfold file_write.
  replace (off - length content)%nat with O by lia. cbn [replicate app].
  destruct Hi as [Hi|Hi].
  - rewrite lookup_app_l by (rewrite length_take; lia). by apply lookup_take_lt.
  - rewrite lookup_app_r by (rewrite length_take; lia).
    rewrite length_take, Nat.min_l by lia.
    rewrite lookup_app_r by lia. rewrite lookup_drop. f_equal. lia.
Qed.

Lemma file_read_write_outside (content b : bytes) (off off2 n : nat) :
  (off <= length content)%nat -> (off2 + n <= off \/ off + length b <= off2)%nat ->
  file_read (file_write content off b) off2 n = file_read content off2 n.
Proof.
  intros Hoff Hd. unfold file_read. apply list_eq. intros i.
  destruct (decide (i < n)%nat) as [Hi|Hi].
  - rewrite !lookup_take_lt, !lookup_drop by done.
    apply lookup_file_write_outside; [done|lia].
  - by rewrite !lookup_take_ge by lia.
Qed.

Lemma concat_chunk (m : nat) (ls : list bytes) : forall k x,
  Forall (fun y => length y = m) ls -> ls !! k = Some x ->
  take m (drop (k * m) (concat ls)) = x.
Proof.
  induction ls as [|y ls IH]; intros k x Hl Hk; [by rewrite lookup_nil in Hk|].
  apply Forall_cons in Hl as [Hy Hl]. destruct k as [|k]; cbn [concat].
  - injection Hk as ->. rewrite Nat.mul_0_l, drop_0. subst m. by rewrite take_app_length.
  - cbn [lookup list_lookup] in Hk.
    replace (S k * m)%nat with (length y + k * m)%nat by lia.
    rewrite drop_app_add'; [|done]. by apply IH.
Qed.

Lemma length_concat_chunks (m : nat) (ls : list bytes) :
  Forall (fun y => length y = m) ls -> length (concat ls) = (length ls * m)%nat.
Proof.
  induction 1 as [|y ls Hy _ IH]; [done|]. cbn [concat length].
  rewrite length_app, IH. lia.
Qed.

Lemma mapR_lookup {A B} (f : A -> result B) (l : list A) : forall ys,
  mapR f l = Ok ys ->
  length ys = length l /\
  forall k x, l !! k = Some x -> exists y, ys !! k = Some y /\ f x = Ok y.
Proof.
  induction l as [|x0 l IH]; intros ys Hm.
  - injection Hm as <-. split; [done|]. intros k x Hk. by rewrite lookup_nil in Hk.
  - cbn [mapR] in Hm. destruct (f x0) as [y0|] eqn:Hx0; [|done].
    cbn [mbind result_bind] in Hm.
    destruct (mapR f l) as [ys'|] eqn:Hl; [|done].
    cbn [mbind result_bind] in Hm. injection Hm as <-.
    destruct (IH ys' eq_refl) as [Hlen Hall]. split; [cbn; lia|].
    intros [|k] x Hk; cbn [lookup list_lookup] in *.
    + injection Hk as <-. by exists y0.
    + by apply Hall.
Qed.

Lemma length_zrange lo hi : length (zrange lo hi) = Z.to_nat (hi - lo).
Proof. unfold zrange. by rewrite length_map, length_seq. Qed.

Lemma lookup_zrange lo hi (k : nat) :
  (k < Z.to_nat (hi - lo))%nat -> zrange lo hi !! k = Some (lo + Z.of_nat k).
Proof.
  intros Hk. unfold zrange. change map with (@fmap list _). rewrite list_lookup_fmap.
  by rewrite lookup_seq_lt.
Qed.

(** ** The header *)

Definition header_bytes44 (h : DatabaseHeader) : bytes :=
  le_bytes 4 (magic h) ++ le_bytes 4 (page_size h) ++ le_bytes 8 (db_size h)
  ++ le_bytes 8 (catalog_root h) ++ le_bytes 8 (free_list_head h)
  ++ le_bytes 8 (last_transaction_id h) ++ le_bytes 4 (checksum h).

Lemma length_header_bytes44 h : length (header_bytes44 h) = 44%nat.
Proof. unfold header_bytes44. by rewrite !length_app, !length_le_bytes. Qed.

Lemma header_serialize_eq h :
  header_fits h -> header_serialize h = Ok (header_bytes44 h ++ replicate 4052 x00).
Proof.
  intros (H1 & H2 & H3 & H4 & H5 & H6 & H7). unfold header_serialize.
  rewrite (pack_le_fits 4 (magic h)), (pack_le_fits 4 (page_size h)),
    (pack_le_fits 8 (db_size h)), (pack_le_fits 8 (catalog_root h)),
    (pack_le_fits 8 (free_list_head h)), (pack_le_fits 8 (last_transaction_id h)),
    (pack_le_fits 4 (checksum h)) by done.
  cbn [mbind result_bind]. unfold ljust. fold (header_bytes44 h).
  rewrite length_header_bytes44. done.
Qed.

Lemma header_fields h (rest : bytes) :
  header_fits h ->
  let d := take 44 (header_bytes44 h ++ rest) in
  Page.field d 0 4 = magic h /\ Page.field d 4 4 = page_size h /\
  Page.field d 8 8 = db_size h /\ Page.field d 16 8 = catalog_root h /\
  Page.field d 24 8 = free_list_head h /\ Page.field d 32 8 = last_transaction_id h /\
  Page.field d 40 4 = checksum h.
Proof.
  intros (H1 & H2 & H3 & H4 & H5 & H6 & H7) d. unfold d.
  rewrite (take_app_length' (header_bytes44 h) rest 44 (length_header_bytes44 h)).
  unfold header_bytes44.
  rewrite (field_app0 (le_bytes 4 _) _ 4) by (by rewrite ?length_le_bytes).
  rewrite (field_app (le_bytes 4 _) (le_bytes 4 _) _ 4 4) by (by rewrite ?length_le_bytes).
  rewrite !(app_assoc (le_bytes 4 (magic h))).
  rewrite (field_app (_ ++ _) (le_bytes 8 _) _ 8 8)
    by (by rewrite ?length_app, ?length_le_bytes).
  rewrite !(app_assoc (_ ++ le_bytes 4 (page_size h))).
  rewrite (field_app (_ ++ _) (le_bytes 8 _) _ 16 8)
    by (by rewrite ?length_app, ?length_le_bytes).
  rewrite !(app_assoc (_ ++ le_bytes 8 (db_size h))).
  rewrite (field_app (_ ++ _) (le_bytes 8 _) _ 24 8)
    by (by rewrite ?length_app, ?length_le_bytes).
  rewrite !(app_assoc (_ ++ le_bytes 8 (catalog_root h))).
  rewrite (field_app (_ ++ _) (le_bytes 8 _) _ 32 8)
    by (by rewrite ?length_app, ?length_le_bytes).
  rewrite !(app_assoc (_ ++ le_bytes 8 (free_list_head h))).
  rewrite <- (app_nil_r (le_bytes 4 (checksum h))).
  rewrite (field_app (_ ++ _) (le_bytes 4 _) [] 40 4)
    by (by rewrite ?length_app, ?length_le_bytes).
  rewrite !le_value_le_bytes by done. done.
Qed.

Lemma header_deserialize_bytes h (rest : bytes) :
  header_fits h ->
  header_deserialize (header_bytes44 h ++ rest)
  = if magic h =? MAGIC_NUMBER then Ok h else Raise ValueError.
Proof.
  intros Hf. unfold header_deserialize.
  assert (Hlen : (44 <= length (header_bytes44 h ++ rest))%nat).
  { rewrite length_app, length_header_bytes44. lia. }
  destruct (Nat.ltb_spec (length (header_bytes44 h ++ rest)) 44); [lia|].
  destruct (header_fields h rest Hf) as (-> & -> & -> & -> & -> & -> & ->).
  destruct (magic h =? MAGIC_NUMBER); [|done]. cbn [negb]. by destruct h.
Qed.

End FileFacts.


(** * A database file and its manager *)

Module Consistency.
Import Storage PageFacts StorageFacts StorageClaims FileFacts.

(** The content of the file of the manager, and the bytes of its page [i]. *)
Definition content_of (sm : StorageManager) : bytes := default [] (disk sm).
Definition page_at (sm : StorageManager) (i : Z) : bytes :=
  file_read (content_of sm) (Z.to_nat (i * 4096)) 4096.

(** The manager holds its file open; the file has exactly the pages that
    the header counts and begins with the header of the manager. *)
Record consistent (sm : StorageManager) : Prop := {
  c_open : is_open sm = true;
  c_disk : is_Some (disk sm);
  c_fits : header_fits (header sm);
  c_magic : magic (header sm) = MAGIC_NUMBER;
  c_page_size : page_size (header sm) = Page.PAGE_SIZE;
  c_pages : 1 <= db_size (header sm);
  c_length : Z.of_nat (length (content_of sm)) = db_size (header sm) * 4096;
  c_head : take 44 (content_of sm) = header_bytes44 (header sm)
}.

Lemma consistent_opened sm : consistent sm -> opened sm.
Proof. intros H. split; [apply H|]. split; apply H. Qed.

Lemma disk_content sm : is_Some (disk sm) -> disk sm = Some (content_of sm).
Proof. intros [c Hc]. unfold content_of. by rewrite Hc. Qed.

Lemma created_consistent : consistent created_sm.
Proof.
  split.
  - vm_compute. reflexivity.
  - apply is_Some_alt. vm_compute. exact I.
  - vm_compute. repeat split; discriminate.
  - vm_compute. reflexivity.
  - vm_compute. reflexivity.
  - vm_compute. discriminate.
  - vm_compute. reflexivity.
  - vm_compute. reflexivity.
Qed.

Lemma header_of_file sm :
  consistent sm ->
  header_deserialize (file_read (content_of sm) 0 (Z.to_nat HEADER_SIZE))
  = Ok (header sm).
Proof.
  intros H. unfold file_read. rewrite drop_0.
  change (Z.to_nat HEADER_SIZE) with 4096%nat.
  rewrite <- (take_drop 44 (take 4096 (content_of sm))).
  rewrite take_take. change (44 `min` 4096)%nat with 44%nat.
  rewrite (c_head _ H). rewrite header_deserialize_bytes by apply H.
  rewrite (c_magic _ H). done.
Qed.

(** Closing and opening again gives the manager back. *)
Lemma reopen sm : consistent sm -> open (close sm) = Ok sm.
Proof.
  intros H. unfold open. cbn [close disk]. rewrite (disk_content sm (c_disk _ H)).
  rewrite (header_of_file sm H). cbn [mbind result_bind].
  rewrite (c_page_size _ H). rewrite Z.eqb_refl. cbn [negb].
  rewrite <- (disk_content sm (c_disk _ H)). destruct sm as [d h o].
  cbn [Storage.disk Storage.header]. f_equal. f_equal.
  symmetry. apply (c_open _ H).
Qed.

Lemma length_page_at sm i :
  consistent sm -> 0 <= i < db_size (header sm) -> length (page_at sm i) = 4096%nat.
Proof.
  intros H Hi. pose proof (c_length _ H) as Hl. unfold page_at, file_read.
  rewrite length_take, length_drop. lia.
Qed.

Lemma read_page_consistent sm i :
  consistent sm -> 0 <= i < db_size (header sm) ->
  read_page sm i = Page.deserialize i (page_at sm i).
Proof.
  intros H Hi. unfold read_page. rewrite (c_open _ H). cbn [negb].
  destruct (Z.leb_spec (db_size (header sm)) i); [lia|].
  change Page.PAGE_SIZE with 4096.
  destruct (Z.ltb_spec (i * 4096) 0); [lia|].
  rewrite (disk_content sm (c_disk _ H)).
  change (Z.to_nat 4096) with 4096%nat. fold (page_at sm i).
  rewrite (length_page_at sm i H Hi). done.
Qed.

Lemma file_write_append (content b : bytes) (off : nat) :
  off = length content -> file_write content off b = content ++ b.
Proof.
  intros ->. unfold file_write. rewrite take_ge, Nat.sub_diag by lia.
  rewrite drop_ge by lia. cbn [replicate app]. by rewrite app_nil_r.
Qed.

Lemma file_write_0 (content b : bytes) :
  file_write content 0 b = b ++ drop (length b) content.
Proof. unfold file_write. by rewrite take_0, Nat.sub_0_l. Qed.

Lemma file_read_app_l (content b : bytes) (off n : nat) :
  (off + n <= length content)%nat ->
  file_read (content ++ b) off n = file_read content off n.
Proof.
  intros H. unfold file_read. apply list_eq. intros i.
  destruct (decide (i < n)%nat).
  - rewrite !lookup_take_lt, !lookup_drop by done. apply lookup_app_l. lia.
  - by rewrite !lookup_take_ge by lia.
Qed.

Lemma file_read_app_r (content b : bytes) (off n : nat) :
  (length content <= off)%nat ->
  file_read (content ++ b) off n = file_read b (off - length content) n.
Proof.
  intros H. unfold file_read. f_equal.
  replace off with (length content + (off - length content))%nat at 1 by lia.
  by rewrite drop_app_add'.
Qed.

Lemma free_page_bytes_length i b :
  0 <= i < 2 ^ 64 -> free_page_bytes i = Ok b -> length b = 4096%nat.
Proof.
  intros Hi. unfold free_page_bytes.
  pose proof (serialize_valid _ (new_valid i Page.FREE 0 Hi ltac:(lia))) as Hs.
  cbv zeta in Hs. rewrite Hs. cbn [mbind result_bind fst]. intros [= <-].
  eapply serialize_length; [|exact Hs]. apply new_valid; lia.
Qed.

(** [_extend_file] to a larger size. *)
Lemma extend_spec sm n :
  consistent sm -> db_size (header sm) < n < 2 ^ 64 ->
  exists sm1,
    _extend_file sm n = Ok sm1 /\ consistent sm1 /\ db_size (header sm1) = n /\
    (forall i, 1 <= i < db_size (header sm) -> page_at sm1 i = page_at sm i) /\
    (forall i, db_size (header sm) <= i < n ->
               free_page_bytes i = Ok (page_at sm1 i)).
Proof.
  intros H Hn. pose proof (c_fits _ H) as Hf. pose proof Hf as (_ & _ & Hdb & _).
  pose proof (c_length _ H) as Hlen. pose proof (c_pages _ H) as Hpos.
  set (old := db_size (header sm)) in *.
  unfold _extend_file. fold old. destruct (Z.leb_spec n old); [lia|].
  rewrite (c_open _ H). cbn [negb]. change Page.PAGE_SIZE with 4096.
  destruct (Z.ltb_spec (old * 4096) 0); [lia|].
  rewrite (disk_content sm (c_disk _ H)).
  destruct (mapR_Ok free_page_bytes (zrange old n)) as [pages Hpages].
  { intros x Hx%elem_of_zrange. apply free_page_bytes_Ok. lia. }
  rewrite Hpages. cbn [mbind result_bind].
  assert (Hf' : header_fits (set_db_size (header sm) n)).
  { apply header_fits_set_db_size; [done|lia]. }
  rewrite (header_serialize_eq _ Hf'). cbn [mbind result_bind].
  destruct (mapR_lookup _ _ _ Hpages) as [Hplen Hpk].
  rewrite length_zrange in Hplen.
  assert (Hall : Forall (fun y => length y = 4096%nat) pages).
  { apply Forall_forall. intros y Hy. apply list_elem_of_lookup in Hy as [k Hk].
    assert (Hklt : (k < Z.to_nat (n - old))%nat).
    { rewrite <- Hplen. by eapply lookup_lt_Some. }
    destruct (Hpk k _ (lookup_zrange old n k Hklt)) as (y' & Hy' & Hfy).
    rewrite Hk in Hy'. injection Hy' as <-.
    eapply free_page_bytes_length; [|exact Hfy]. lia. }
  pose proof (length_concat_chunks 4096 pages Hall) as Hclen.
  rewrite (file_write_append (content_of sm)) by lia.
  set (hb := header_bytes44 (set_db_size (header sm) n) ++ replicate 4052 x00).
  assert (Hhb : length hb = 4096%nat).
  { unfold hb. rewrite length_app, length_header_bytes44, length_replicate. done. }
  set (content1 := content_of sm ++ concat pages).
  assert (Hlen1 : length content1 = (length (content_of sm) + length pages * 4096)%nat).
  { unfold content1. rewrite length_app. lia. }
  eexists. split; [reflexivity|].
  assert (Hpage : forall o i, 1 <= i ->
    page_at {| disk := Some (file_write content1 0 hb);
               header := set_db_size (header sm) n; is_open := o |} i
    = file_read content1 (Z.to_nat (i * 4096)) 4096).
  { intros o i Hi. unfold page_at, content_of. cbn [disk default from_option id].
    apply file_read_write_outside; lia. }
  split; [split|split; [done|split]].
  - cbn [is_open]. first [done | apply H].
  - by eexists.
  - done.
  - cbn [header set_db_size magic]. apply H.
  - cbn [header set_db_size page_size]. apply H.
  - cbn [header set_db_size db_size]. lia.
  - unfold content_of. cbn [disk default from_option id header set_db_size db_size].
    rewrite length_file_write. lia.
  - unfold content_of. cbn [disk default from_option id header].
    rewrite file_write_0. rewrite (take_app_le hb) by lia. unfold hb.
    by rewrite (take_app_length' (header_bytes44 (set_db_size (header sm) n))
                  (replicate 4052 x00) 44
                  (length_header_bytes44 (set_db_size (header sm) n))).
  - intros i Hi. rewrite Hpage by lia. unfold page_at, content1.
    apply file_read_app_l. lia.
  - intros i Hi. rewrite Hpage by lia. unfold content1.
    rewrite file_read_app_r by lia. unfold file_read.
    assert (Hk : (Z.to_nat (i - old) < Z.to_nat (n - old))%nat) by lia.
    destruct (Hpk _ _ (lookup_zrange old n _ Hk)) as (y & Hy & Hfy).
    replace (old + Z.of_nat (Z.to_nat (i - old))) with i in Hfy by lia.
    rewrite Hfy. f_equal. symmetry.
    replace (Z.to_nat (i * 4096) - length (content_of sm))%nat
      with (Z.to_nat (i - old) * 4096)%nat by lia.
    by apply concat_chunk.
Qed.

(** The page that [write_page] leaves in the hands of the caller. *)
Definition written (p : Page.Page) (c : Z) : Page.Page :=
  {| Page.page_id := Page.page_id p; Page.page_type := Page.page_type p;
     Page.table_id := Page.table_id p;
     Page.free_space_start := Page.free_space_start p;
     Page.free_space_end := Page.free_space_end p;
     Page.lsn := Page.lsn p; Page.checksum := c;
     Page.data := Page.data p; Page.dirty := false |}.

(** The bytes that [serialize] makes of a page. *)
Definition image (p : Page.Page) : bytes :=
  header_bytes p (Page._calculate_checksum
                    (header_bytes p (Page.checksum p) ++ Page.data p))
  ++ Page.data p.

Lemma length_image p : Page.valid p -> length (image p) = 4096%nat.
Proof.
  intros Hp. eapply serialize_length; [exact Hp|]. apply (serialize_valid p Hp).
Qed.

(** Writing into a file that already has the page. *)
Lemma write_inside sm p :
  consistent sm -> Page.valid p -> 1 <= Page.page_id p < db_size (header sm) ->
  exists sm',
    write_page sm p
    = Ok (sm', written p (Page._calculate_checksum
                            (header_bytes p (Page.checksum p) ++ Page.data p))) /\
    consistent sm' /\ header sm' = header sm /\
    page_at sm' (Page.page_id p) = image p /\
    (forall i, 0 <= i -> i <> Page.page_id p -> page_at sm' i = page_at sm i).
Proof.
  intros H Hp Hid. pose proof (c_length _ H) as Hlen.
  pose proof (length_image p Hp) as Hb.
  unfold write_page. rewrite (c_open _ H). cbn [negb].
  destruct (Z.leb_spec (db_size (header sm)) (Page.page_id p)); [lia|].
  cbn [mbind result_bind]. change Page.PAGE_SIZE with 4096.
  destruct (Z.ltb_spec (Page.page_id p * 4096) 0); [lia|].
  rewrite (disk_content sm (c_disk _ H)).
  pose proof (serialize_valid p Hp) as Hs. cbv zeta in Hs. rewrite Hs.
  cbn [mbind result_bind fst snd]. fold (image p).
  eexists. split; [reflexivity|].
  assert (Hoff : (Z.to_nat (Page.page_id p * 4096) <= length (content_of sm))%nat) by lia.
  split; [split|split; [done|split]].
  - cbn [is_open]. first [done | apply H].
  - by eexists.
  - apply H.
  - apply H.
  - apply H.
  - apply H.
  - unfold content_of at 1. cbn [disk default from_option id header]. rewrite length_file_write. lia.
  - unfold content_of at 1. cbn [disk default from_option id header]. rewrite <- (c_head _ H).
    change (take 44 ?l) with (file_read l 0 44).
    apply file_read_write_outside; [done|lia].
  - unfold page_at, content_of at 1. cbn [disk default from_option id].
    pose proof (file_read_write (content_of sm) (image p)
                  (Z.to_nat (Page.page_id p * 4096))) as Hrw.
    by rewrite Hb in Hrw.
  - intros i Hi Hne. unfold page_at, content_of at 1. cbn [disk default from_option id].
    apply file_read_write_outside; [done|]. rewrite Hb. lia.
Qed.

(** [write_page] of a page with a page id of at least 1. *)
Lemma write_spec sm p :
  consistent sm -> Page.valid p -> 1 <= Page.page_id p -> Page.page_id p + 1 < 2 ^ 64 ->
  exists sm',
    write_page sm p
    = Ok (sm', written p (Page._calculate_checksum
                            (header_bytes p (Page.checksum p) ++ Page.data p))) /\
    consistent sm' /\
    db_size (header sm') = Z.max (db_size (header sm)) (Page.page_id p + 1) /\
    page_at sm' (Page.page_id p) = image p /\
    (forall i, 1 <= i < db_size (header sm) -> i <> Page.page_id p ->
               page_at sm' i = page_at sm i) /\
    (forall i, db_size (header sm) <= i < Page.page_id p ->
               free_page_bytes i = Ok (page_at sm' i)).
Proof.
  intros H Hp Hid Hmax. pose proof (c_pages _ H) as Hpos.
  destruct (Z.lt_ge_cases (Page.page_id p) (db_size (header sm))) as [Hin|Hout].
  - destruct (write_inside sm p H Hp ltac:(lia)) as (sm' & Hw & Hc & Hh & Hat & Hoth).
    exists sm'. split; [done|]. split; [done|]. rewrite Hh.
    split; [lia|]. split; [done|]. split.
    + intros i Hi Hne. apply Hoth; lia.
    + intros i Hi. lia.
  - destruct (extend_spec sm (Page.page_id p + 1) H ltac:(lia))
      as (sm1 & Hext & Hc1 & Hdb1 & Hold & Hnew).
    destruct (write_inside sm1 p Hc1 Hp ltac:(lia)) as (sm' & Hw & Hc & Hh & Hat & Hoth).
    exists sm'. split.
    { rewrite <- Hw. unfold write_page. rewrite (c_open _ H), (c_open _ Hc1).
      cbn [negb]. destruct (Z.leb_spec (db_size (header sm)) (Page.page_id p)); [|lia].
      rewrite Hext. cbn [mbind result_bind].
      destruct (Z.leb_spec (db_size (header sm1)) (Page.page_id p)); [lia|]. done. }
    split; [done|]. rewrite Hh, Hdb1. split; [lia|]. split; [done|]. split.
    + intros i Hi Hne. rewrite Hoth by lia. by apply Hold.
    + intros i Hi. rewrite Hoth by lia. apply Hnew. lia.
Qed.

Lemma deserialize_image p (arg : Z) :
  Page.valid p ->
  Page.deserialize arg (image p)
  = Ok (written p (Page._calculate_checksum
                     (header_bytes p (Page.checksum p) ++ Page.data p))).
Proof.
  intros Hp. unfold image. rewrite deserialize_serialize; [done|done|].
  apply _calculate_checksum_range.
Qed.

Lemma free_page_bytes_eq i :
  0 <= i < 2 ^ 64 -> free_page_bytes i = Ok (image (Page.new i Page.FREE 0)).
Proof.
  intros Hi. unfold free_page_bytes, image.
  pose proof (serialize_valid _ (new_valid i Page.FREE 0 Hi ltac:(lia))) as Hs.
  cbv zeta in Hs. rewrite Hs. reflexivity.
Qed.

Lemma deserialize_free_page i b (arg : Z) :
  0 <= i < 2 ^ 64 -> free_page_bytes i = Ok b ->
  exists c, Page.deserialize arg b = Ok (written (Page.new i Page.FREE 0) c).
Proof.
  intros Hi Hb. rewrite (free_page_bytes_eq i Hi) in Hb.
  assert (Hbe : b = image (Page.new i Page.FREE 0)) by congruence.
  rewrite Hbe. eexists. apply deserialize_image. apply new_valid; lia.
Qed.

End Consistency.


(** * Properties of the storage manager *)

Module StorageExtras.
Import Storage PageFacts StorageFacts StorageClaims FileFacts Consistency.

(** X8. The header format round trip: a header whose attributes fit
    their fields is serialized to 4096 bytes; [deserialize] of these
    bytes gives the header back when its magic number is the one of the
    format and raises [ValueError] otherwise. *)
Theorem header_round_trip (h : DatabaseHeader) :
  header_fits h ->
  exists b,
    header_serialize h = Ok b /\ length b = 4096%nat /\
    header_deserialize b
    = if magic h =? MAGIC_NUMBER then Ok h else Raise ValueError.
Proof.
  intros Hf. eexists. split; [by apply header_serialize_eq|]. split.
  - rewrite length_app, length_header_bytes44, length_replicate. done.
  - by apply header_deserialize_bytes.
Qed.

Lemma header_round_trip_witness :
  exists b,
    header_serialize (set_db_size new_header 10) = Ok b /\ length b = 4096%nat /\
    header_deserialize b
    = if magic (set_db_size new_header 10) =? MAGIC_NUMBER
      then Ok (set_db_size new_header 10) else Raise ValueError.
Proof.
  apply (header_round_trip (set_db_size new_header 10)).
  vm_compute. repeat split; discriminate.
Defined.

(** ** A new database *)

Lemma created_Ok : created = Ok created_sm.
Proof.
  unfold created_sm. destruct created as [sm|e] eqn:E; [done|].
  assert (Hb : match created with Ok _ => true | Raise _ => false end = true)
    by (vm_compute; reflexivity).
  by rewrite E in Hb.
Qed.

(** What is seen of a free page with the id [i]. *)
Definition is_free_page (i : Z) (q : Page.Page) : bool :=
  (Page.page_id q =? i) && (Page.PageType_value (Page.page_type q) =? 0)
  && (Page.table_id q =? 0) && (Page.free_space_start q =? 29)
  && (Page.free_space_end q =? 4096)
  && bool_decide (Page.data q = replicate 4067 x00).

Definition reads_free_page (sm : StorageManager) (i : Z) : bool :=
  match read_page sm i with Ok q => is_free_page i q | Raise _ => false end.

Lemma reads_free_page_sound sm i :
  reads_free_page sm i = true ->
  exists q, read_page sm i = Ok q /\ Page.page_id q = i /\
            Page.page_type q = Page.FREE /\ Page.table_id q = 0 /\
            Page.free_space_start q = 29 /\ Page.free_space_end q = 4096 /\
            Page.data q = replicate 4067 x00.
Proof.
  unfold reads_free_page. destruct (read_page sm i) as [q|]; [|done].
  unfold is_free_page. rewrite !andb_true_iff, !Z.eqb_eq, bool_decide_eq_true.
  intros (((((H1 & H2) & H3) & H4) & H5) & H6). exists q.
  repeat split; try done. by destruct (Page.page_type q).
Qed.

Lemma created_pages_free i : 1 <= i < 10 -> reads_free_page created_sm i = true.
Proof.
  intros Hi.
  assert (Hc : i = 1 \/ i = 2 \/ i = 3 \/ i = 4 \/ i = 5 \/ i = 6 \/ i = 7 \/ i = 8
               \/ i = 9) by lia.
  destruct Hc as [->|[->|[->|[->|[->|[->|[->|[->| ->]]]]]]]]; vm_compute; reflexivity.
Qed.

Lemma create_database_new d overwrite :
  d = None \/ overwrite = true ->
  create_database (Storage.new d) overwrite = create_database (Storage.new None) false.
Proof.
  intros H. unfold create_database. cbn [Storage.new disk header is_open].
  destruct H as [->| ->]; [done|]. by rewrite andb_false_r.
Qed.

(** X9. [create_database] on a manager that was just made: when there is
    a file at the path and [overwrite] is false it raises
    [FileExistsError]; otherwise, whatever was at the path, it writes a
    file of 10 pages and leaves the manager closed, [open] then
    succeeds with [db_size] 10, every page from 1 to 9 reads as a free
    page with its own page id, table id 0, the whole data region free
    and zeroed, and page 10 is out of bounds. *)
Theorem create_database_fresh (d : option bytes) (overwrite : bool) :
  (is_Some d -> overwrite = false ->
   create_database (Storage.new d) overwrite = Raise FileExistsError) /\
  (d = None \/ overwrite = true ->
   exists sm0 sm,
     create_database (Storage.new d) overwrite = Ok sm0 /\
     is_open sm0 = false /\
     Z.of_nat (length (content_of sm0)) = 10 * 4096 /\
     open sm0 = Ok sm /\ db_size (header sm) = 10 /\
     read_page sm 10 = Raise ValueError /\
     forall i, 1 <= i < 10 ->
       exists q, read_page sm i = Ok q /\ Page.page_id q = i /\
                 Page.page_type q = Page.FREE /\ Page.table_id q = 0 /\
                 Page.free_space_start q = 29 /\ Page.free_space_end q = 4096 /\
                 Page.data q = replicate 4067 x00).
Proof.
  split.
  - intros Hd ->. unfold create_database. cbn [Storage.new disk].
    by rewrite bool_decide_eq_true_2.
  - intros H. rewrite (create_database_new d overwrite H).
    pose proof created_Ok as Hc. unfold created in Hc.
    destruct (create_database (Storage.new None) false) as [sm0|] eqn:E.
    2:{ cbn [mbind result_bind] in Hc. exfalso. clear E. congruence. }
    cbn [mbind result_bind] in Hc.
    assert (Hb : match create_database (Storage.new None) false with
                 | Ok s => negb (is_open s)
                           && (Z.of_nat (length (content_of s)) =? 10 * 4096)
                 | Raise _ => false
                 end = true) by (vm_compute; reflexivity).
    rewrite E in Hb. clear E. apply andb_true_iff in Hb as [Ho Hl].
    apply negb_true_iff in Ho. apply Z.eqb_eq in Hl.
    exists sm0, created_sm. split; [reflexivity|].
    split; [exact Ho|]. split; [exact Hl|]. split; [exact Hc|]. clear Hc.
    split; [vm_compute; reflexivity|]. split; [vm_compute; reflexivity|].
    intros i Hi. apply reads_free_page_sound. by apply created_pages_free.
Qed.

Lemma create_database_fresh_witness :
  create_database (Storage.new (Some [])) false = Raise FileExistsError.
Proof.
  apply (proj1 (create_database_fresh (Some []) false)).
  - exact (ex_intro _ [] eq_refl).
  - reflexivity.
Defined.

(** ** Writing pages *)

(** X10. [write_page] leaves the other pages alone: on a consistent
    manager, writing a page whose attributes fit the header, with a page
    id from 1 to 2^64 - 2, succeeds, hands the page back clean, and
    [read_page] of every other page from 1 up to the old [db_size]
    returns what it returned before. *)
Theorem write_page_keeps_other_pages (sm : StorageManager) (p : Page.Page) :
  consistent sm -> Page.valid p ->
  1 <= Page.page_id p -> Page.page_id p + 1 < 2 ^ 64 ->
  exists sm' p',
    write_page sm p = Ok (sm', p') /\ Page.dirty p' = false /\
    forall i, 1 <= i < db_size (header sm) -> i <> Page.page_id p ->
              read_page sm' i = read_page sm i.
Proof.
  intros H Hp Hid Hmax.
  destruct (write_spec sm p H Hp Hid Hmax) as (sm' & Hw & Hc & Hdb & _ & Hoth & _).
  eexists _, _. split; [exact Hw|]. split; [done|].
  intros i Hi Hne. rewrite !read_page_consistent by (done || lia).
  by rewrite Hoth.
Qed.

Lemma write_page_keeps_other_pages_witness :
  exists sm' p',
    write_page created_sm (Page.new 3 Page.DATA 7) = Ok (sm', p') /\
    Page.dirty p' = false /\
    forall i, 1 <= i < db_size (header created_sm) ->
              i <> Page.page_id (Page.new 3 Page.DATA 7) ->
              read_page sm' i = read_page created_sm i.
Proof.
  apply (write_page_keeps_other_pages created_sm (Page.new 3 Page.DATA 7)).
  - exact created_consistent.
  - apply new_valid; lia.
  - vm_compute. discriminate.
  - vm_compute. reflexivity.
Defined.

(** X11. Overwriting a page: on a consistent manager, [write_page] of a
    page with [1 <= page_id < db_size] keeps [db_size], and [read_page]
    of this page id then returns the page id, type, table id, free-space
    bounds, LSN and data that were written. *)
Theorem write_page_overwrite_round_trip (sm : StorageManager) (p : Page.Page) :
  consistent sm -> Page.valid p -> 1 <= Page.page_id p < db_size (header sm) ->
  exists sm' p' q,
    write_page sm p = Ok (sm', p') /\
    db_size (header sm') = db_size (header sm) /\
    read_page sm' (Page.page_id p) = Ok q /\
    Page.page_id q = Page.page_id p /\ Page.page_type q = Page.page_type p /\
    Page.table_id q = Page.table_id p /\
    Page.free_space_start q = Page.free_space_start p /\
    Page.free_space_end q = Page.free_space_end p /\
    Page.lsn q = Page.lsn p /\ Page.data q = Page.data p /\
    Page.checksum q = Page.checksum p'.
Proof.
  intros H Hp Hid.
  destruct (write_inside sm p H Hp Hid) as (sm' & Hw & Hc & Hh & Hat & _).
  eexists _, _, _. split; [exact Hw|]. split; [by rewrite Hh|].
  rewrite read_page_consistent by (rewrite ?Hh; done || lia).
  rewrite Hat. split; [by apply deserialize_image|]. by repeat split.
Qed.

Lemma write_page_overwrite_round_trip_witness :
  exists sm' p' q,
    write_page created_sm (Page.new 3 Page.DATA 7) = Ok (sm', p') /\
    db_size (header sm') = db_size (header created_sm) /\
    read_page sm' (Page.page_id (Page.new 3 Page.DATA 7)) = Ok q /\
    Page.page_id q = Page.page_id (Page.new 3 Page.DATA 7) /\
    Page.page_type q = Page.page_type (Page.new 3 Page.DATA 7) /\
    Page.table_id q = Page.table_id (Page.new 3 Page.DATA 7) /\
    Page.free_space_start q = Page.free_space_start (Page.new 3 Page.DATA 7) /\
    Page.free_space_end q = Page.free_space_end (Page.new 3 Page.DATA 7) /\
    Page.lsn q = Page.lsn (Page.new 3 Page.DATA 7) /\
    Page.data q = Page.data (Page.new 3 Page.DATA 7) /\
    Page.checksum q = Page.checksum p'.
Proof.
  apply (write_page_overwrite_round_trip created_sm (Page.new 3 Page.DATA 7)).
  - exact created_consistent.
  - apply new_valid; lia.
  - vm_compute. split; [discriminate|reflexivity].
Defined.

(** X12. Writing past the end fills the gap with free pages: on a
    consistent manager, after [write_page] of a page whose id is at
    least [db_size], every page id from the old [db_size] up to the
    written one reads as a free page with its own page id and a zeroed
    data region. *)
Theorem write_page_gap_pages_free (sm : StorageManager) (p : Page.Page) :
  consistent sm -> Page.valid p ->
  db_size (header sm) <= Page.page_id p -> Page.page_id p + 1 < 2 ^ 64 ->
  exists sm' p',
    write_page sm p = Ok (sm', p') /\
    forall i, db_size (header sm) <= i < Page.page_id p ->
      exists q, read_page sm' i = Ok q /\ Page.page_id q = i /\
                Page.page_type q = Page.FREE /\ Page.table_id q = 0 /\
                Page.free_space_start q = 29 /\ Page.free_space_end q = 4096 /\
                Page.data q = replicate 4067 x00.
Proof.
  intros H Hp Hid Hmax. pose proof (c_pages _ H) as Hpos.
  destruct (write_spec sm p H Hp ltac:(lia) Hmax) as (sm' & Hw & Hc & Hdb & _ & _ & Hgap).
  eexists _, _. split; [exact Hw|]. intros i Hi.
  rewrite read_page_consistent by (done || lia).
  destruct (deserialize_free_page i _ i ltac:(lia) (Hgap i Hi)) as [c ->].
  eexists. split; [done|]. by repeat split.
Qed.

Lemma write_page_gap_pages_free_witness :
  exists sm' p',
    write_page created_sm (Page.new 12 Page.DATA 7) = Ok (sm', p') /\
    forall i, db_size (header created_sm) <= i < Page.page_id (Page.new 12 Page.DATA 7) ->
      exists q, read_page sm' i = Ok q /\ Page.page_id q = i /\
                Page.page_type q = Page.FREE /\ Page.table_id q = 0 /\
                Page.free_space_start q = 29 /\ Page.free_space_end q = 4096 /\
                Page.data q = replicate 4067 x00.
Proof.
  apply (write_page_gap_pages_free created_sm (Page.new 12 Page.DATA 7)).
  - exact created_consistent.
  - apply new_valid; lia.
  - vm_compute. discriminate.
  - vm_compute. reflexivity.
Defined.

(** X13. What [write_page] wrote is there after the file is closed and
    opened again: on a consistent manager, after [write_page] of a page
    with a page id from 1 to 2^64 - 2, [close] and [open] give the same
    manager back, with the same [db_size] and the same pages. *)
Theorem write_page_survives_reopen (sm : StorageManager) (p : Page.Page) :
  consistent sm -> Page.valid p ->
  1 <= Page.page_id p -> Page.page_id p + 1 < 2 ^ 64 ->
  exists sm' p',
    write_page sm p = Ok (sm', p') /\ open (close sm') = Ok sm' /\
    db_size (header sm') = Z.max (db_size (header sm)) (Page.page_id p + 1).
Proof.
  intros H Hp Hid Hmax.
  destruct (write_spec sm p H Hp Hid Hmax) as (sm' & Hw & Hc & Hdb & _).
  eexists _, _. split; [exact Hw|]. split; [by apply reopen|done].
Qed.

Lemma write_page_survives_reopen_witness :
  exists sm' p',
    write_page created_sm (Page.new 12 Page.DATA 7) = Ok (sm', p') /\
    open (close sm') = Ok sm' /\
    db_size (header sm')
    = Z.max (db_size (header created_sm)) (Page.page_id (Page.new 12 Page.DATA 7) + 1).
Proof.
  apply (write_page_survives_reopen created_sm (Page.new 12 Page.DATA 7)).
  - exact created_consistent.
  - apply new_valid; lia.
  - vm_compute. discriminate.
  - vm_compute. reflexivity.
Defined.

Lemma magic_of_page_zero (rest : bytes) :
  Page.field (take 44 (le_bytes 8 0 ++ rest)) 0 4 = 0.
Proof.
  unfold Page.field. rewrite drop_0, take_take.
  change (4 `min` 44)%nat with 4%nat.
  rewrite take_app_le by (rewrite length_le_bytes; lia). reflexivity.
Qed.

(** X14. The header page is not protected: on a consistent manager,
    [write_page] of a page with page id 0 succeeds and overwrites the
    header of the file, after which [open] raises [ValueError]: the
    database cannot be opened again. *)
Theorem write_page_zero_destroys_header (sm : StorageManager) (p : Page.Page) :
  consistent sm -> Page.valid p -> Page.page_id p = 0 ->
  exists sm' p',
    write_page sm p = Ok (sm', p') /\ open (close sm') = Raise ValueError.
Proof.
  intros H Hp Hid. pose proof (c_pages _ H) as Hpos.
  pose proof (length_image p Hp) as Hb.
  assert (Hhead : take 4096 (file_write (content_of sm) 0 (image p)) = image p).
  { rewrite file_write_0, take_app_le by lia. apply take_ge. lia. }
  assert (Hmagic : header_deserialize (image p) = Raise ValueError).
  { unfold header_deserialize. rewrite Hb. change (4096 <? 44)%nat with false.
    cbv iota. unfold image, header_bytes. rewrite Hid, <- !app_assoc.
    rewrite magic_of_page_zero. reflexivity. }
  pose proof (serialize_valid p Hp) as Hs. cbv zeta in Hs. fold (image p) in Hs.
  unfold write_page. rewrite (c_open _ H). cbn [negb].
  destruct (Z.leb_spec (db_size (header sm)) (Page.page_id p)); [lia|].
  cbn [mbind result_bind].
  destruct (Z.ltb_spec (Page.page_id p * Page.PAGE_SIZE) 0); [lia|].
  rewrite (disk_content sm (c_disk _ H)). rewrite Hs.
  cbn [mbind result_bind fst snd].
  eexists _, _. split; [reflexivity|].
  unfold open. cbn [close disk]. rewrite Hid. change (Z.to_nat (0 * Page.PAGE_SIZE)) with O.
  unfold file_read. rewrite drop_0. change (Z.to_nat HEADER_SIZE) with 4096%nat.
  rewrite Hhead, Hmagic. reflexivity.
Qed.

Lemma write_page_zero_destroys_header_witness :
  exists sm' p',
    write_page created_sm (Page.new 0 Page.DATA 0) = Ok (sm', p') /\
    open (close sm') = Raise ValueError.
Proof.
  apply (write_page_zero_destroys_header created_sm (Page.new 0 Page.DATA 0)).
  - exact created_consistent.
  - apply new_valid; lia.
  - reflexivity.
Defined.

(** X15. [allocate_page] appends a page: on a consistent manager with
    room for one more page it returns a clean page whose id is the old
    [db_size], of the type and table asked for; [db_size] grows by one,
    [read_page] of the new id returns a page of this type and table with
    a zeroed data region, the pages from 1 up to the old [db_size] read
    as before, and the manager is consistent again, so that the next
    call returns the next id. *)
Theorem allocate_page_appends (sm : StorageManager) (ty : Page.PageType) (tid : Z) :
  consistent sm -> db_size (header sm) + 1 < 2 ^ 64 -> 0 <= tid < 2 ^ 32 ->
  exists sm' p' q,
    allocate_page sm ty tid = Ok (sm', p') /\
    Page.page_id p' = db_size (header sm) /\ Page.page_type p' = ty /\
    Page.table_id p' = tid /\ Page.dirty p' = false /\
    db_size (header sm') = db_size (header sm) + 1 /\ consistent sm' /\
    read_page sm' (db_size (header sm)) = Ok q /\
    Page.page_id q = db_size (header sm) /\ Page.page_type q = ty /\
    Page.table_id q = tid /\ Page.data q = replicate 4067 x00 /\
    forall i, 1 <= i < db_size (header sm) -> read_page sm' i = read_page sm i.
Proof.
  intros H Hmax Htid. pose proof (c_pages _ H) as Hpos.
  set (n := db_size (header sm)) in *.
  destruct (extend_spec sm (n + 1) H ltac:(lia)) as (sm1 & Hext & Hc1 & Hdb1 & Hold & _).
  assert (Hv : Page.valid (Page.new n ty tid)) by (apply new_valid; lia).
  destruct (write_inside sm1 (Page.new n ty tid) Hc1 Hv)
    as (sm' & Hw & Hc & Hh & Hat & Hoth).
  { cbn [Page.new Page.page_id]. lia. }
  cbn [Page.new Page.page_id] in Hat, Hoth.
  eexists _, _, _. split.
  { unfold allocate_page. fold n. rewrite Hext. cbn [mbind result_bind]. exact Hw. }
  split; [done|]. split; [done|]. split; [done|]. split; [done|].
  split; [by rewrite Hh|]. split; [done|].
  rewrite read_page_consistent by (rewrite ?Hh, ?Hdb1; done || lia).
  rewrite Hat. split; [by apply deserialize_image|].
  split; [done|]. split; [done|]. split; [done|]. split; [done|].
  intros i Hi. rewrite !read_page_consistent by (rewrite ?Hh, ?Hdb1; done || lia).
  rewrite Hoth by lia. by rewrite Hold.
Qed.

Lemma allocate_page_appends_witness :
  exists sm' p' q,
    allocate_page created_sm Page.INDEX 5 = Ok (sm', p') /\
    Page.page_id p' = db_size (header created_sm) /\ Page.page_type p' = Page.INDEX /\
    Page.table_id p' = 5 /\ Page.dirty p' = false /\
    db_size (header sm') = db_size (header created_sm) + 1 /\ consistent sm' /\
    read_page sm' (db_size (header created_sm)) = Ok q /\
    Page.page_id q = db_size (header created_sm) /\ Page.page_type q = Page.INDEX /\
    Page.table_id q = 5 /\ Page.data q = replicate 4067 x00 /\
    forall i, 1 <= i < db_size (header created_sm) ->
              read_page sm' i = read_page created_sm i.
Proof.
  apply (allocate_page_appends created_sm Page.INDEX 5).
  - exact created_consistent.
  - vm_compute. reflexivity.
  - lia.
Defined.

End StorageExtras.


(** * The tree as a map *)

Module TreeExtras.
Import Simple Rep Wf Keys Invariant Insertion Lookup Range Structure Ops.

Section tree_extras.
Context {V : Type} `{!EqDecision V}.
Notation tree := (Rep.tree V).
Notation state := (SimpleBPlusTree V).
Implicit Types (st : state) (t : tree).

(** The dictionary that a run of calls describes: [insert] binds the
    serialized key to the value, [delete] removes the binding. *)
Fixpoint contents (m : gmap bytes V) (ops : list (op V)) : gmap bytes V :=
  match ops with
  | [] => m
  | Insert key value :: ops' =>
      match _serialize_key key with
      | Ok kb => contents (<[kb := value]> m) ops'
      | Raise _ => m
      end
  | Delete key :: ops' =>
      match _serialize_key key with
      | Ok kb => contents (base.delete kb m) ops'
      | Raise _ => m
      end
  end.

Lemma insert_bytes_map st t k v st' t' :
  Inv st t -> k ∉ (entries t).*1 -> Inv st' t' ->
  entries t' ≡ₚ (k, v) :: entries t ->
  key_to_value st' = <[k := v]> (key_to_value st).
Proof.
  intros HI Hk HI' Hperm. apply map_eq. intros k0. apply option_eq. intros v0.
  rewrite (inv_map _ _ HI'), Hperm, elem_of_cons.
  destruct (decide (k0 = k)) as [->|Hne].
  - rewrite lookup_insert_eq. split.
    + intros [[= ->]|Hin]; [done|]. exfalso. apply Hk, key_in_pairs. by exists v0.
    + intros [= ->]. by left.
  - rewrite lookup_insert_ne by done. rewrite (inv_map _ _ HI). split.
    + intros [[= -> _]|Hin]; [done|done].
    + by right.
Qed.

(** A run with fresh inserts leaves the dictionary of the run. *)
Lemma run_contents ops : forall st t present,
  Inv st t -> (forall k, k ∈ present <-> k ∈ (entries t).*1) ->
  fresh_inserts present ops = true ->
  exists st' t',
    run st ops = Ok st' /\ Inv st' t' /\
    key_to_value st' = contents (key_to_value st) ops.
Proof.
  induction ops as [|[key v|key] ops IH]; intros st t present HI Hp Hf.
  - by exists st, t.
  - cbn [fresh_inserts] in Hf. cbn [run apply_op contents]. unfold insert.
    destruct (_serialize_key key) as [kb|] eqn:Hser; [|done].
    apply andb_true_iff in Hf as [Hnew Hf].
    apply negb_true_iff, bool_decide_eq_false in Hnew.
    cbn [mbind result_bind].
    assert (Hk : kb ∉ (entries t).*1) by (by rewrite <- Hp).
    destruct (insert_bytes_spec st t kb v HI Hk) as (st1 & t1 & -> & HI1 & Ho & Hperm).
    cbn [mbind result_bind].
    destruct (IH st1 t1 (kb :: present) HI1) as (st' & t' & Hrun & HI' & Hm); [|done|].
    { intros k. rewrite Hperm. cbn [fmap list_fmap fst].
      rewrite !elem_of_cons. by rewrite Hp. }
    exists st', t'. split; [done|]. split; [done|].
    by rewrite Hm, (insert_bytes_map st t kb v st1 t1).
  - cbn [fresh_inserts] in Hf. cbn [run apply_op contents]. unfold delete.
    destruct (_serialize_key key) as [kb|] eqn:Hser; [|done].
    cbn [mbind result_bind].
    assert (Hfil : forall k, k ∈ List.filter (fun x => negb (bool_decide (x = kb))) present
                   <-> k ∈ present /\ k <> kb).
    { intros k. rewrite !list_elem_of_In, List.filter_In, negb_true_iff.
      by rewrite bool_decide_eq_false. }
    destruct (key_to_value st !! kb) as [v|] eqn:E.
    + destruct (delete_bytes_present st t kb v HI E)
        as (st1 & t1 & -> & HI1 & Ho & Hm1 & Hmem).
      cbn [mbind result_bind fst].
      destruct (IH st1 t1 (List.filter (fun x => negb (bool_decide (x = kb))) present)
                  HI1) as (st' & t' & Hrun & HI' & Hm); [|done|].
      { intros k. rewrite Hfil, Hp, !key_in_pairs. split.
        - intros [[v0 Hin] Hne]. exists v0. by apply Hmem.
        - intros [v0 Hin]. apply Hmem in Hin as [Hin Hne]. eauto. }
      exists st', t'. split; [done|]. split; [done|]. by rewrite Hm, Hm1.
    + rewrite (delete_bytes_absent _ _ E). cbn [mbind result_bind fst].
      rewrite (delete_id (key_to_value st) kb E).
      apply (IH st t (List.filter (fun x => negb (bool_decide (x = kb))) present) HI);
        [|done].
      intros k. rewrite Hfil, Hp. split; [tauto|]. intros Hin. split; [done|].
      intros ->. by apply (key_absent st t kb HI) in E.
Qed.

(** X16. The tree is a map: after a run of insert and delete calls on
    a tree of order at least 2 in which no key is inserted while an
    entry with that key is in the tree, [search(key)] returns what a
    dictionary returns after the same calls: the value of the last
    insert of the key if that was not followed by a delete of it,
    and [None] otherwise. *)
Theorem search_follows_the_calls (order : Z) (ops : list (op V)) :
  2 <= order -> fresh_inserts [] ops = true ->
  exists st,
    run (new order) ops = Ok st /\
    forall key kb, _serialize_key key = Ok kb ->
                   search st key = Ok (contents ∅ ops !! kb).
Proof.
  intros Ho Hf.
  destruct (run_contents ops (new order) (TLeaf O []) [] (new_Inv order Ho))
    as (st & t & Hrun & HI & Hm); [done|done|].
  exists st. split; [done|]. intros key kb Hser.
  unfold search. rewrite Hser. cbn [mbind result_bind].
  rewrite (search_bytes_spec st t kb HI). by rewrite Hm.
Qed.

(** Over entries in key order, the entries of two adjacent ranges are
    those of their union. *)
Lemma in_range_adjacent (sa sb sc k : bytes) (v : V) :
  ble sa sb -> ble sb sc ->
  in_range sa sc (k, v) = in_range sa sb (k, v) || in_range sb sc (k, v) /\
  (in_range sa sb (k, v) = true -> in_range sb sc (k, v) = false) /\
  (in_range sb sc (k, v) = true -> ble sb k).
Proof.
  intros Hab Hbc. unfold in_range, bytes_leb. cbn [fst].
  destruct (bytes_ltb k sa) eqn:Hka, (bytes_ltb k sb) eqn:Hkb,
    (bytes_ltb k sc) eqn:Hkc; cbn [negb andb orb];
    try (split; [done|split; [done|intros _; exact Hkb]]);
    try (split; [done|split; [done|done]]);
    exfalso;
    first [ pose proof (blt_le_trans k sa sb Hka Hab) as H; unfold blt in H; congruence
          | pose proof (blt_le_trans k sb sc Hkb Hbc) as H; unfold blt in H; congruence ].
Qed.

Lemma filter_ranges_adjacent (sa sb sc : bytes) (es : list (bytes * V)) :
  StronglySorted blt es.*1 -> ble sa sb -> ble sb sc ->
  List.filter (in_range sa sc) es
  = List.filter (in_range sa sb) es ++ List.filter (in_range sb sc) es.
Proof.
  intros Hs Hab Hbc. induction es as [|[k v] es IH]; [done|].
  cbn [fmap list_fmap fst] in Hs. apply StronglySorted_cons in Hs as [Hgt Hs].
  specialize (IH Hs). cbn [List.filter].
  destruct (in_range_adjacent sa sb sc k v Hab Hbc) as (-> & Hex & Hle).
  destruct (in_range sa sb (k, v)) eqn:H1.
  - rewrite (Hex eq_refl). cbn [orb app]. by rewrite IH.
  - destruct (in_range sb sc (k, v)) eqn:H2; cbn [orb]; [|exact IH].
    assert (Hnone : List.filter (in_range sa sb) es = []).
    { apply filter_none. intros [k' v'] Hin. unfold in_range. cbn [fst].
      apply andb_false_iff. right. rewrite Forall_forall in Hgt.
      assert (Hkk : blt k k') by (apply Hgt, key_in_pairs; by exists v').
      destruct (bytes_ltb k' sb) eqn:Hk'; [|done]. exfalso.
      pose proof (blt_trans _ _ _ Hkk Hk') as H3.
      pose proof (Hle eq_refl) as H4. unfold ble in H4. unfold blt in H3. congruence. }
    rewrite IH, Hnone. done.
Qed.

Lemma filter_range_empty (sa sc : bytes) (es : list (bytes * V)) :
  ble sc sa -> List.filter (in_range sa sc) es = [].
Proof.
  intros Hca. apply filter_none. intros [k v] _. unfold in_range, bytes_leb. cbn [fst].
  destruct (bytes_ltb k sa) eqn:Hka; [done|]. cbn [negb andb].
  destruct (bytes_ltb k sc) eqn:Hkc; [|done]. exfalso.
  pose proof (blt_le_trans k sc sa Hkc Hca) as H. unfold blt in H. congruence.
Qed.

(** X17. Range scans compose: after a run of insert and delete calls on
    a tree of order at least 2 in which no key is inserted while an
    entry with that key is in the tree, for bounds whose serialized
    keys are in the order [a <= b <= c] the scan from [a] to [c] is the
    scan from [a] to [b] followed by the scan from [b] to [c]; and a scan
    whose end is not above its start is empty. *)
Theorem range_search_composes (order : Z) (ops : list (op V)) :
  2 <= order -> fresh_inserts [] ops = true ->
  exists st,
    run (new order) ops = Ok st /\
    (forall a b c sa sb sc,
       _serialize_key a = Ok sa -> _serialize_key b = Ok sb ->
       _serialize_key c = Ok sc -> ble sa sb -> ble sb sc ->
       exists r1 r2,
         range_search st a b = Ok r1 /\ range_search st b c = Ok r2 /\
         range_search st a c = Ok (r1 ++ r2)) /\
    (forall a c sa sc,
       _serialize_key a = Ok sa -> _serialize_key c = Ok sc -> ble sc sa ->
       range_search st a c = Ok []).
Proof.
  intros Ho Hf.
  destruct (run_Inv ops (new order) (TLeaf O []) [] (new_Inv order Ho))
    as (st & t & Hrun & HI & _); [done|done|].
  exists st. split; [done|].
  pose proof (inv_wf _ _ HI) as Hw. apply wf_entries in Hw as [Hso _].
  split.
  - intros a b c sa sb sc Ha Hb Hc Hab Hbc. eexists _, _.
    unfold range_search. rewrite Ha, Hb, Hc. cbn [mbind result_bind].
    rewrite !(range_search_bytes_spec st t) by done.
    split; [done|]. split; [done|].
    by rewrite (filter_ranges_adjacent sa sb sc), fmap_app.
  - intros a c sa sc Ha Hc Hca. unfold range_search. rewrite Ha, Hc.
    cbn [mbind result_bind]. rewrite (range_search_bytes_spec st t) by done.
    by rewrite filter_range_empty.
Qed.

End tree_extras.

Lemma search_follows_the_calls_witness :
  exists st : SimpleBPlusTree string,
    run (new 4) demo_ops = Ok st /\
    forall key kb, _serialize_key key = Ok kb ->
                   search st key = Ok (contents ∅ demo_ops !! kb).
Proof.
  apply (search_follows_the_calls 4 demo_ops).
  - lia.
  - vm_compute. reflexivity.
Defined.

Lemma range_search_composes_witness :
  exists st : SimpleBPlusTree string,
    run (new 4) demo_ops = Ok st /\
    (forall a b c sa sb sc,
       _serialize_key a = Ok sa -> _serialize_key b = Ok sb ->
       _serialize_key c = Ok sc -> ble sa sb -> ble sb sc ->
       exists r1 r2,
         range_search st a b = Ok r1 /\ range_search st b c = Ok r2 /\
         range_search st a c = Ok (r1 ++ r2)) /\
    (forall a c sa sc,
       _serialize_key a = Ok sa -> _serialize_key c = Ok sc -> ble sc sa ->
       range_search st a c = Ok []).
Proof.
  apply (range_search_composes 4 demo_ops).
  - lia.
  - vm_compute. reflexivity.
Defined.

End TreeExtras.


(** * The shape of the tree *)

Module TreeShape.
Import Simple Rep Wf Keys Invariant Insertion Lookup Range Structure Ops FileFacts.

Section tree_shape.
Context {V : Type} `{!EqDecision V}.
Notation tree := (Rep.tree V).
Notation state := (SimpleBPlusTree V).
Implicit Types (st : state) (t : tree).

(** ** A tree that is one leaf *)

Lemma single_leaf_insert st (es : list (bytes * V)) k v :
  heap st = [leaf_node es None] -> root st = O ->
  Z.of_nat (S (length es)) < order st ->
  exists st',
    insert_bytes st k v = Ok st' /\
    heap st' = [leaf_node (ins_entry k v es) None] /\ root st' = O /\
    order st' = order st.
Proof.
  intros Hh Hr Ho.
  assert (Hfind : _find_leaf (depth [leaf_node es None]) [leaf_node es None] O k = Ok O)
    by reflexivity.
  assert (Hleaf : _insert_into_leaf [leaf_node es None] O k v
                  = Ok [leaf_node (ins_entry k v es) None]).
  { unfold _insert_into_leaf, deref. cbn [lookup list_lookup mbind result_bind].
    unfold set_values, set_keys, leaf_node.
    cbn [keys values children next_leaf is_leaf insert list_insert].
    by rewrite <- (ins_entry_keys k v), <- (ins_entry_values k v). }
  unfold insert_bytes. cbn [heap root set_map]. rewrite Hh, Hr, Hfind.
  cbn [mbind result_bind]. rewrite Hleaf. cbn [mbind result_bind].
  unfold deref. cbn [lookup list_lookup mbind result_bind leaf_node keys].
  rewrite length_fmap, length_ins_entry. cbn [order set_heap set_map].
  destruct (Z.leb_spec (order st) (Z.of_nat (S (length es)))); [lia|].
  eexists. split; [reflexivity|]. done.
Qed.

Lemma run_single_leaf pairs : forall kbs st (es : list (bytes * V)),
  heap st = [leaf_node es None] -> root st = O ->
  mapR _serialize_key pairs.*1 = Ok kbs ->
  Z.of_nat (length es + length pairs) < order st ->
  exists st' es',
    run st (insert_ops pairs) = Ok st' /\
    heap st' = [leaf_node es' None] /\ root st' = O.
Proof.
  induction pairs as [|[key v] pairs IH]; intros kbs st es Hh Hr Hser Ho.
  - by exists st, es.
  - cbn [fmap list_fmap fst snd mapR] in Hser.
    destruct (_serialize_key key) as [kb|] eqn:Hk; [|done].
    cbn [mbind result_bind] in Hser.
    destruct (mapR _serialize_key pairs.*1) as [kbs'|] eqn:Hks; [|done].
    cbn [length] in Ho.
    destruct (single_leaf_insert st es kb v Hh Hr) as (st1 & Hins & Hh1 & Hr1 & Ho1);
      [lia|].
    cbn [insert_ops fmap list_fmap run apply_op fst snd]. unfold insert. rewrite Hk.
    cbn [mbind result_bind]. rewrite Hins. cbn [mbind result_bind].
    apply (IH kbs' st1 (ins_entry kb v es) Hh1 Hr1 eq_refl).
    rewrite length_ins_entry, Ho1. lia.
Qed.

Lemma fresh_inserts_distinct (pairs : list (pykey * V)) : forall present ks,
  mapR _serialize_key pairs.*1 = Ok ks -> NoDup (ks ++ present) ->
  fresh_inserts present (insert_ops pairs) = true.
Proof.
  induction pairs as [|[key v] ps IH]; intros present ks Hs Hn; [done|].
  cbn [fmap list_fmap fst snd mapR insert_ops fresh_inserts] in *.
  destruct (_serialize_key key) as [kb|]; [|done].
  cbn [mbind result_bind] in Hs.
  destruct (mapR _serialize_key ps.*1) as [ks'|] eqn:E; [|done].
  cbn [mbind result_bind] in Hs. injection Hs as <-.
  cbn [app] in Hn. apply NoDup_cons in Hn as [Hnot Hn].
  apply andb_true_iff. split.
  - apply negb_true_iff, bool_decide_eq_false. intros Hin. apply Hnot.
    apply elem_of_app. by right.
  - apply (IH (kb :: present) ks' eq_refl).
    apply NoDup_app. apply NoDup_app in Hn as (Hn1 & Hn2 & Hn3).
    split; [done|]. split.
    + intros x Hx [->|Hx']%elem_of_cons.
      * apply Hnot, elem_of_app. by left.
      * by apply (Hn2 x).
    + apply NoDup_cons. split; [|done]. intros Hin. apply Hnot.
      apply elem_of_app. by right.
Qed.

(** X18. The root splits when it reaches [order] keys: after the insert
    of pairs with pairwise distinct serialized keys into a new tree of
    order at least 2, the root is a leaf exactly when fewer than [order]
    pairs were inserted. *)
Theorem root_is_leaf_below_order (order : Z) (pairs : list (pykey * V))
  (kbs : list bytes) :
  2 <= order -> mapR _serialize_key pairs.*1 = Ok kbs -> NoDup kbs ->
  exists st n,
    run (new order) (insert_ops pairs) = Ok st /\
    heap st !! root st = Some n /\
    (is_leaf n = true <-> Z.of_nat (length pairs) < order).
Proof.
  intros Ho Hser Hnd.
  destruct (run_inserts pairs kbs (new order) (TLeaf O []) (new_Inv order Ho) Hser Hnd)
    as (st & t & Hrun & HI & Hperm).
  { intros k _ Hin. by apply elem_of_nil in Hin. }
  change (entries (TLeaf O [] : tree)) with (@nil (bytes * V)) in Hperm.
  cbn [app] in Hperm.
  assert (Hlen : length (entries t) = length pairs).
  { rewrite Hperm, length_zip_with, length_fmap.
    destruct (mapR_lookup _ _ _ Hser) as [Hl _]. rewrite length_fmap in Hl. lia. }
  destruct (Z.lt_ge_cases (Z.of_nat (length pairs)) order) as [Hlt|Hge].
  - destruct (run_single_leaf pairs kbs (new order) [] eq_refl eq_refl Hser)
      as (st' & es' & Hrun' & Hh' & Hr'); [cbn; lia|].
    rewrite Hrun in Hrun'. injection Hrun' as <-.
    exists st, (leaf_node es' None). split; [done|]. rewrite Hh', Hr'. done.
  - pose proof (inv_shape _ _ HI) as Hs. pose proof (inv_wf _ _ HI) as Hw.
    pose proof (inv_root _ _ HI) as Hr. pose proof (inv_order _ _ HI) as Hord.
    assert (Horder : Simple.order st = order).
    { destruct (run_Inv (insert_ops pairs) (new order) (TLeaf O []) [] (new_Inv order Ho))
        as (st2 & t2 & Hrun2 & _ & Ho2); [done| |].
      - apply (fresh_inserts_distinct pairs [] kbs Hser). by rewrite app_nil_r.
      - rewrite Hrun in Hrun2. injection Hrun2 as <-. exact Ho2. }
    destruct t as [a es|a ks cs].
    + exfalso. destruct Hw as (Hsz & _). unfold entries in Hlen.
      cbn [leaf_list fmap list_fmap snd concat] in Hlen. rewrite app_nil_r in Hlen.
      rewrite Horder in Hsz. lia.
    + inversion Hs as [|? ? ? Ha Hcs]; subst. cbn [tid] in Hr. rewrite <- Hr in Ha.
      eexists st, _. split; [done|]. split; [exact Ha|].
      cbn [inner_node is_leaf]. split; [done|lia].
Qed.

(** ** delete *)

Lemma find_leaf_is_leaf fuel : forall (h : list (TreeNode V)) a k l,
  _find_leaf fuel h a k = Ok l -> exists n, h !! l = Some n /\ is_leaf n = true.
Proof.
  induction fuel as [|fuel IH]; intros h a k l Hf; [done|].
  cbn [_find_leaf] in Hf. unfold deref in Hf.
  destruct (h !! a) as [n|] eqn:Ha; [|done]. cbn [mbind result_bind] in Hf.
  destruct (is_leaf n) eqn:Hl.
  - injection Hf as <-. by exists n.
  - destruct (children n) as [cs|]; [|done]. unfold index in Hf.
    destruct (cs !! _) as [c|]; [|done]. cbn [mbind result_bind] in Hf.
    by eapply IH.
Qed.

(** X19. [delete] never restructures the tree: whenever a call returns,
    the root, the order and the number of nodes are what they were,
    every node keeps its children, its link to the next leaf and its
    kind, and no internal node changes, so the separator keys of deleted
    keys stay in place and an emptied leaf stays linked. *)
Theorem delete_never_restructures st (key : pykey) st' (b : bool) :
  delete st key = Ok (st', b) ->
  root st' = root st /\ order st' = order st /\
  length (heap st') = length (heap st) /\
  forall a n, heap st !! a = Some n ->
    exists n', heap st' !! a = Some n' /\ children n' = children n /\
               next_leaf n' = next_leaf n /\ is_leaf n' = is_leaf n /\
               (is_leaf n = false -> n' = n).
Proof.
  unfold delete. destruct (_serialize_key key) as [kb|]; [|done].
  cbn [mbind result_bind]. unfold delete_bytes.
  destruct (bool_decide (is_Some (key_to_value st !! kb))).
  2:{ intros [= <- <-]. repeat split; try done. intros a n Ha. by exists n. }
  cbn [heap root set_map].
  destruct (_find_leaf _ _ _ _) as [l|] eqn:Hf; [|done].
  cbn [mbind result_bind]. unfold deref.
  destruct (heap st !! l) as [nl|] eqn:Hl; [|done]. cbn [mbind result_bind].
  destruct (find_leaf_is_leaf _ _ _ _ _ Hf) as (nl' & Hl' & Hleaf).
  rewrite Hl in Hl'. injection Hl' as <-.
  destruct (find_index _ _) as [i|].
  2:{ intros [= <- <-]. repeat split; try done. intros a n Ha. by exists n. }
  destruct (length (values nl) <=? i)%nat; [done|].
  intros [= <- <-]. cbn [root order heap set_heap set_map].
  split; [done|]. split; [done|]. split; [by rewrite length_insert|].
  intros a n Ha. destruct (decide (a = l)) as [->|Hne].
  - rewrite Hl in Ha. injection Ha as <-.
    rewrite list_lookup_insert_eq by (by eapply lookup_lt_Some).
    eexists. split; [done|]. unfold set_values, set_keys.
    cbn [children next_leaf is_leaf]. repeat split; try done. congruence.
  - rewrite list_lookup_insert_ne by done. by exists n.
Qed.

End tree_shape.

Lemma root_is_leaf_below_order_witness :
  exists (st : SimpleBPlusTree string) n,
    run (new 4) (insert_ops demo_pairs) = Ok st /\
    heap st !! root st = Some n /\
    (is_leaf n = true <-> Z.of_nat (length demo_pairs) < 4).
Proof.
  apply (root_is_leaf_below_order 4 demo_pairs demo_keys).
  - lia.
  - vm_compute. reflexivity.
  - apply (bool_decide_unpack (NoDup demo_keys)). vm_compute. exact I.
Defined.

(** The tree after the calls of [demo_ops], and after one more delete. *)
Definition demo_tree : SimpleBPlusTree string :=
  match run (new 4) demo_ops with Ok st => st | Raise _ => new 4 end.
Definition demo_tree_deleted : SimpleBPlusTree string :=
  match delete demo_tree (KInt 20) with Ok r => r.1 | Raise _ => demo_tree end.

Lemma delete_never_restructures_witness :
  root demo_tree_deleted = root demo_tree /\
  order demo_tree_deleted = order demo_tree /\
  length (heap demo_tree_deleted) = length (heap demo_tree) /\
  forall a n, heap demo_tree !! a = Some n ->
    exists n', heap demo_tree_deleted !! a = Some n' /\ children n' = children n /\
               next_leaf n' = next_leaf n /\ is_leaf n' = is_leaf n /\
               (is_leaf n = false -> n' = n).
Proof.
  apply (delete_never_restructures demo_tree (KInt 20) demo_tree_deleted true).
  vm_compute. reflexivity.
Defined.

(** ** Keys read back *)

(** X20. [_deserialize_key] reads every key of eight bytes as an
    integer: an integer key from 0 to 2^64 - 1 is read back as itself,
    and a string key whose UTF-8 encoding has eight bytes is read back
    as the big-endian integer of these bytes, not as the string. *)
Theorem deserialize_key_of_eight_bytes (decode_ignore : bytes -> pystr) :
  (forall k, 0 <= k < 2 ^ 64 ->
     exists kb, _serialize_key (KInt k) = Ok kb /\
                _deserialize_key decode_ignore kb = VInt k) /\
  (forall s kb, _serialize_key (KStr s) = Ok kb -> length kb = 8%nat ->
     _deserialize_key decode_ignore kb = VInt (be_value kb) /\
     0 <= be_value kb < 2 ^ 64).
Proof.
  split.
  - intros k Hk. exists (be_bytes 8 k). split.
    + cbn [_serialize_key]. by apply pack_be_fits.
    + unfold _deserialize_key. rewrite length_be_bytes. cbn [Nat.eqb].
      f_equal. rewrite <- be_value_reverse. unfold be_bytes.
      rewrite reverse_involutive, be_value_reverse. by apply le_value_le_bytes.
  - intros s kb _ Hlen. unfold _deserialize_key. rewrite Hlen. cbn [Nat.eqb].
    split.
    + f_equal. rewrite <- (reverse_involutive kb) at 2. by rewrite be_value_reverse.
    + pose proof (be_value_range kb) as Hr. rewrite Hlen in Hr.
      change (256 ^ Z.of_nat 8) with (2 ^ 64) in Hr. exact Hr.
Qed.

Lemma deserialize_key_of_eight_bytes_witness :
  (exists kb, _serialize_key (KInt 5) = Ok kb /\
              _deserialize_key (fun _ => []) kb = VInt 5) /\
  _deserialize_key (fun _ => []) [x61; x62; x63; x64; x65; x66; x67; x68]
  = VInt (be_value [x61; x62; x63; x64; x65; x66; x67; x68]).
Proof.
  split.
  - apply (proj1 (deserialize_key_of_eight_bytes (fun _ => [])) 5). lia.
  - apply (proj2 (deserialize_key_of_eight_bytes (fun _ => []))
             [97; 98; 99; 100; 101; 102; 103; 104]
             [x61; x62; x63; x64; x65; x66; x67; x68]).
    + vm_compute. reflexivity.
    + reflexivity.
Defined.

End TreeShape.


(** * The index manager *)

Module ManagerFacts.
Import IndexManager Rep Invariant Lookup Ops TreeExtras.

Section dict.
Context {A : Type}.
Implicit Types (d : list (pystr * A)) (k : pystr).

Lemma dict_get_None d k : dict_get d k = None <-> k ∉ d.*1.
Proof.
  induction d as [|[k' v] d IH]; cbn [dict_get fmap list_fmap fst].
  - split; [intros _ H; by apply elem_of_nil in H|done].
  - rewrite not_elem_of_cons. case_bool_decide as Hk.
    + split; [done|]. intros [Hne _]. by subst.
    + rewrite IH. split; [intros ?; split; [congruence|done]|tauto].
Qed.

Lemma dict_get_Some d k : is_Some (dict_get d k) <-> k ∈ d.*1.
Proof.
  destruct (dict_get d k) as [v|] eqn:E.
  - split; [intros _|by eexists].
    destruct (decide (k ∈ d.*1)) as [|Hn]; [done|].
    apply dict_get_None in Hn. congruence.
  - apply dict_get_None in E. split; [by intros [? ?]|done].
Qed.

Lemma dict_get_app d1 d2 k :
  dict_get (d1 ++ d2) k
  = match dict_get d1 k with Some v => Some v | None => dict_get d2 k end.
Proof.
  induction d1 as [|[k' v] d1 IH]; [done|]. cbn [app dict_get].
  by case_bool_decide.
Qed.

Lemma dict_get_replace d k v k' :
  dict_get ((fun p => if bool_decide (p.1 = k) then (k, v) else p) <$> d) k'
  = if bool_decide (k' = k) then (fun _ => v) <$> dict_get d k else dict_get d k'.
Proof.
  induction d as [|[k0 v0] d IH]; cbn [fmap list_fmap dict_get fst].
  - by case_bool_decide.
  - destruct (decide (k0 = k)) as [->|Hne].
    + rewrite (bool_decide_eq_true_2 (k = k)) by done. cbn [dict_get].
      destruct (decide (k' = k)) as [->|Hne'].
      * by rewrite !(bool_decide_eq_true_2 (k = k)) by done.
      * rewrite (bool_decide_eq_false_2 (k' = k)) by done.
        rewrite (bool_decide_eq_false_2 (k = k')) by done.
        rewrite IH. by rewrite (bool_decide_eq_false_2 (k' = k)) by done.
    + rewrite (bool_decide_eq_false_2 (k0 = k)) by done. cbn [dict_get].
      rewrite IH. destruct (decide (k' = k)) as [->|Hne'].
      * rewrite (bool_decide_eq_true_2 (k = k)) by done.
        by rewrite (bool_decide_eq_false_2 (k0 = k)) by done.
      * rewrite (bool_decide_eq_false_2 (k' = k)) by done. done.
Qed.

Lemma dict_get_set d k v k' :
  dict_get (dict_set d k v) k' = if bool_decide (k' = k) then Some v else dict_get d k'.
Proof.
  unfold dict_set. destruct (dict_get d k) as [x|] eqn:E.
  - rewrite dict_get_replace. case_bool_decide; [by rewrite E|done].
  - rewrite dict_get_app. cbn [dict_get].
    destruct (decide (k' = k)) as [->|Hne].
    + rewrite E. by rewrite !(bool_decide_eq_true_2 (k = k)) by done.
    + rewrite (bool_decide_eq_false_2 (k' = k)) by done.
      rewrite (bool_decide_eq_false_2 (k = k')) by done. by destruct (dict_get d k').
Qed.

Lemma names_dict_set d k v :
  (dict_set d k v).*1
  = match dict_get d k with Some _ => d.*1 | None => d.*1 ++ [k] end.
Proof.
  unfold dict_set. destruct (dict_get d k) as [x|].
  - rewrite <- list_fmap_compose. apply list_fmap_ext. intros i [k0 v0] _.
    cbn. by case_bool_decide.
  - by rewrite fmap_app.
Qed.

Lemma names_dict_del d k :
  (dict_del d k).*1 = List.filter (fun k' => negb (bool_decide (k' = k))) d.*1.
Proof.
  induction d as [|[k0 v0] d IH]; [done|]. cbn [dict_del List.filter fmap list_fmap fst].
  destruct (negb (bool_decide (k0 = k))); cbn [fmap list_fmap fst]; by rewrite <- IH.
Qed.

Lemma dict_get_del d k k' :
  dict_get (dict_del d k) k' = if bool_decide (k' = k) then None else dict_get d k'.
Proof.
  induction d as [|[k0 v0] d IH]; cbn [dict_del List.filter dict_get fst].
  - by case_bool_decide.
  - fold (dict_del d k). destruct (decide (k0 = k)) as [->|Hne].
    + rewrite (bool_decide_eq_true_2 (k = k)) by done. cbn [negb]. rewrite IH.
      destruct (decide (k' = k)) as [->|Hne'].
      * by rewrite !(bool_decide_eq_true_2 (k = k)) by done.
      * rewrite (bool_decide_eq_false_2 (k' = k)) by done.
        by rewrite (bool_decide_eq_false_2 (k = k')) by done.
    + rewrite (bool_decide_eq_false_2 (k0 = k)) by done. cbn [negb dict_get].
      rewrite IH. destruct (decide (k' = k)) as [->|Hne'].
      * rewrite (bool_decide_eq_true_2 (k = k)) by done.
        by rewrite (bool_decide_eq_false_2 (k0 = k)) by done.
      * by rewrite (bool_decide_eq_false_2 (k' = k)) by done.
Qed.

End dict.

Section manager.
Context {V : Type} `{!EqDecision V}.
Notation manager := (IndexManager V).
Implicit Types (im : manager) (name : pystr).

(** Every call on the index [name] raises [ValueError]. *)
Definition no_index (im : manager) (name : pystr) : Prop :=
  (forall key value, insert im name key value = Raise ValueError) /\
  (forall key, search im name key = Raise ValueError) /\
  (forall key, delete im name key = Raise ValueError) /\
  (forall a b, range_search im name a b = Raise ValueError) /\
  drop_index im name = Raise ValueError.

Lemma no_index_iff im name : dict_get (indexes im) name = None -> no_index im name.
Proof.
  intros E. unfold no_index, insert, search, delete, range_search, drop_index.
  rewrite E. done.
Qed.

(** X21. [create_index]: it raises [ValueError] exactly when the name
    is among [get_all_indexes]; before it is created, every call on the
    name raises [ValueError]; a successful call returns the name,
    whatever [is_unique] is, puts it at the end of [get_all_indexes],
    leaves the searches in the other indexes as they were, and the new
    index is empty. *)
Theorem create_index_adds_an_empty_index (im : manager) (name : pystr)
  (is_unique : bool) :
  (name ∈ get_all_indexes im -> create_index im name is_unique = Raise ValueError) /\
  (name ∉ get_all_indexes im ->
   no_index im name /\
   exists im',
     create_index im name is_unique = Ok (im', name) /\
     create_index im name (negb is_unique) = Ok (im', name) /\
     get_all_indexes im' = get_all_indexes im ++ [name] /\
     (forall other key, other <> name -> search im' other key = search im other key) /\
     (forall key kb, _serialize_key key = Ok kb -> search im' name key = Ok None) /\
     (forall a b sa sb, _serialize_key a = Ok sa -> _serialize_key b = Ok sb ->
                        range_search im' name a b = Ok [])).
Proof.
  split.
  - intros Hin. apply dict_get_Some in Hin as [t Ht]. unfold create_index.
    by rewrite Ht.
  - intros Hnot. apply dict_get_None in Hnot. split; [by apply no_index_iff|].
    unfold create_index. rewrite Hnot. eexists. split; [done|]. split; [done|].
    split; [|split; [|split]].
    + unfold get_all_indexes. cbn [indexes set_indexes]. rewrite names_dict_set.
      by rewrite Hnot.
    + intros other key Hne. unfold search. cbn [indexes set_indexes].
      rewrite dict_get_set. by rewrite (bool_decide_eq_false_2 (other = name)).
    + intros key kb Hser. unfold search. cbn [indexes set_indexes].
      rewrite dict_get_set. rewrite (bool_decide_eq_true_2 (name = name)) by done.
      unfold Simple.search. rewrite Hser. reflexivity.
    + intros a b sa sb Ha Hb. unfold range_search. cbn [indexes set_indexes].
      rewrite dict_get_set. rewrite (bool_decide_eq_true_2 (name = name)) by done.
      unfold Simple.range_search. rewrite Ha, Hb. reflexivity.
Qed.

(** X22. [drop_index]: it raises [ValueError] exactly when the name is
    not among [get_all_indexes]; a successful call removes the name and
    keeps the other names in their order and the searches in the other
    indexes as they were; afterwards every call on the name raises
    [ValueError]. *)
Theorem drop_index_removes_the_index (im : manager) (name : pystr) :
  (name ∉ get_all_indexes im -> drop_index im name = Raise ValueError) /\
  (name ∈ get_all_indexes im ->
   exists im',
     drop_index im name = Ok im' /\
     get_all_indexes im'
     = List.filter (fun k' => negb (bool_decide (k' = name))) (get_all_indexes im) /\
     (name ∉ get_all_indexes im') /\
     (forall other key, other <> name -> search im' other key = search im other key) /\
     no_index im' name).
Proof.
  split.
  - intros Hnot. apply dict_get_None in Hnot. unfold drop_index. by rewrite Hnot.
  - intros Hin. apply dict_get_Some in Hin as [t Ht]. unfold drop_index. rewrite Ht.
    eexists. split; [done|].
    assert (Hnames : get_all_indexes (set_indexes im (dict_del (indexes im) name))
                     = List.filter (fun k' => negb (bool_decide (k' = name)))
                         (get_all_indexes im)).
    { unfold get_all_indexes. cbn [indexes set_indexes]. apply names_dict_del. }
    split; [exact Hnames|]. split; [|split].
    + rewrite Hnames.
      rewrite list_elem_of_In, List.filter_In, negb_true_iff, bool_decide_eq_false. tauto.
    + intros other key Hne. unfold search. cbn [indexes set_indexes].
      rewrite dict_get_del. by rewrite (bool_decide_eq_false_2 (other = name)).
    + apply no_index_iff. cbn [indexes set_indexes]. rewrite dict_get_del.
      by rewrite (bool_decide_eq_true_2 (name = name)).
Qed.

(** A call [insert] or [delete] on the index [name]. *)
Definition apply_index_op (im : manager) (name : pystr) (o : op V) : result manager :=
  match o with
  | Insert key value => insert im name key value
  | Delete key => r ← delete im name key; Ok r.1
  end.

Fixpoint run_index (im : manager) (name : pystr) (ops : list (op V)) : result manager :=
  match ops with
  | [] => Ok im
  | o :: ops' => im' ← apply_index_op im name o; run_index im' name ops'
  end.

Lemma apply_index_op_tree im name o tree :
  dict_get (indexes im) name = Some tree ->
  apply_index_op im name o
  = tree' ← apply_op tree o; Ok (set_indexes im (dict_set (indexes im) name tree')).
Proof.
  intros Ht. destruct o as [key value|key]; cbn [apply_index_op apply_op].
  - unfold insert. by rewrite Ht.
  - unfold delete. rewrite Ht. by destruct (Simple.delete tree key) as [[t' b]|].
Qed.

Lemma run_index_tree ops : forall im name tree tree',
  dict_get (indexes im) name = Some tree -> run tree ops = Ok tree' ->
  exists im',
    run_index im name ops = Ok im' /\
    dict_get (indexes im') name = Some tree' /\
    get_all_indexes im' = get_all_indexes im /\
    forall other, other <> name ->
                  dict_get (indexes im') other = dict_get (indexes im) other.
Proof.
  induction ops as [|o ops IH]; intros im name tree tree' Ht Hrun.
  - injection Hrun as <-. by exists im.
  - cbn [run] in Hrun. destruct (apply_op tree o) as [t1|] eqn:Hop; [|done].
    cbn [mbind result_bind] in Hrun. cbn [run_index].
    rewrite (apply_index_op_tree im name o tree Ht), Hop. cbn [mbind result_bind].
    set (im1 := set_indexes im (dict_set (indexes im) name t1)).
    assert (Ht1 : dict_get (indexes im1) name = Some t1).
    { unfold im1. cbn [indexes set_indexes]. rewrite dict_get_set.
      by rewrite (bool_decide_eq_true_2 (name = name)). }
    destruct (IH im1 name t1 tree' Ht1 Hrun) as (im' & Hr & Hg & Hn & Ho).
    exists im'. split; [done|]. split; [done|]. split.
    + rewrite Hn. unfold get_all_indexes, im1. cbn [indexes set_indexes].
      rewrite names_dict_set. by rewrite Ht.
    + intros other Hne. rewrite (Ho other Hne). unfold im1.
      cbn [indexes set_indexes]. rewrite dict_get_set.
      by rewrite (bool_decide_eq_false_2 (other = name)).
Qed.

(** X23. Indexes do not interfere: whenever a run of [insert] and
    [delete] calls on one index returns, [get_all_indexes] is what it
    was, and [search] and [range_search] in every other index return
    what they returned before. *)
Theorem index_calls_keep_other_indexes (im : manager) (name : pystr)
  (ops : list (op V)) (im' : manager) :
  run_index im name ops = Ok im' ->
  get_all_indexes im' = get_all_indexes im /\
  forall other, other <> name ->
    (forall key, search im' other key = search im other key) /\
    (forall a b, range_search im' other a b = range_search im other a b).
Proof.
  intros Hrun.
  assert (H : get_all_indexes im' = get_all_indexes im /\
              forall other, other <> name ->
                dict_get (indexes im') other = dict_get (indexes im) other).
  { destruct (dict_get (indexes im) name) as [tree|] eqn:Ht.
    - destruct ops as [|o ops]; [by injection Hrun as <-|].
      assert (Htree : exists tree', run tree (o :: ops) = Ok tree').
      { clear -Hrun Ht. revert im tree Ht Hrun.
        induction (o :: ops) as [|o' ops' IH]; intros im tree Ht Hrun; [by eexists|].
        cbn [run_index] in Hrun. rewrite (apply_index_op_tree im name o' tree Ht) in Hrun.
        cbn [run]. destruct (apply_op tree o') as [t1|]; [|done].
        cbn [mbind result_bind] in Hrun |- *.
        eapply IH; [|exact Hrun]. cbn [indexes set_indexes]. rewrite dict_get_set.
        by rewrite (bool_decide_eq_true_2 (name = name)). }
      destruct Htree as [tree' Htree].
      destruct (run_index_tree (o :: ops) im name tree tree' Ht Htree)
        as (im2 & Hr & _ & Hn & Ho).
      rewrite Hrun in Hr. injection Hr as <-. done.
    - destruct ops as [|o ops]; [by injection Hrun as <-|]. exfalso.
      cbn [run_index] in Hrun.
      destruct o as [key value|key]; cbn [apply_index_op] in Hrun.
      + unfold insert in Hrun. by rewrite Ht in Hrun.
      + unfold delete in Hrun. by rewrite Ht in Hrun. }
  destruct H as [Hn Ho]. split; [done|]. intros other Hne. split.
  - intros key. unfold search. by rewrite (Ho other Hne).
  - intros a b. unfold range_search. by rewrite (Ho other Hne).
Qed.

(** X24. An index of the manager is a map: after [create_index] of a new
    name and a run of [insert] and [delete] calls on it in which no key
    is inserted while an entry with that key is in the index,
    [search] on the index returns what a dictionary returns after the
    same calls. *)
Theorem index_search_follows_the_calls (im : manager) (name : pystr)
  (is_unique : bool) (ops : list (op V)) :
  name ∉ get_all_indexes im -> fresh_inserts [] ops = true ->
  exists im1 im2,
    create_index im name is_unique = Ok (im1, name) /\
    run_index im1 name ops = Ok im2 /\
    forall key kb, _serialize_key key = Ok kb ->
                   search im2 name key = Ok (contents ∅ ops !! kb).
Proof.
  intros Hnot Hf. apply dict_get_None in Hnot.
  unfold create_index. rewrite Hnot.
  set (im1 := set_indexes im (dict_set (indexes im) name (Simple.new 4))).
  assert (Ht1 : dict_get (indexes im1) name = Some (Simple.new 4)).
  { unfold im1. cbn [indexes set_indexes]. rewrite dict_get_set.
    by rewrite (bool_decide_eq_true_2 (name = name)). }
  destruct (run_contents ops (Simple.new 4) (TLeaf O []) [] (new_Inv 4 ltac:(lia)))
    as (st & t & Hrun & HI & Hm); [done|done|].
  destruct (run_index_tree ops im1 name (Simple.new 4) st Ht1 Hrun)
    as (im2 & Hr & Hg & _).
  exists im1, im2. split; [done|]. split; [done|].
  intros key kb Hser. unfold search. rewrite Hg.
  unfold Simple.search. rewrite Hser. cbn [mbind result_bind].
  rewrite (search_bytes_spec st t kb HI). by rewrite Hm.
Qed.

End manager.

(** The name idx as a Python string. *)
Definition idx_name : pystr := [105; 100; 120].

(** The name oth as a Python string. *)
Definition oth_name : pystr := [111; 116; 104].

(** A manager with two indexes: idx, which is empty, and oth, which holds
    the entries of the demo run. *)
Definition two_indexes : IndexManager string :=
  set_indexes new
    (dict_set (dict_set [] idx_name (Simple.new 4)) oth_name TreeShape.demo_tree).

(** The same manager after the demo run on idx. *)
Definition two_indexes_after : IndexManager string :=
  set_indexes new (dict_set (indexes two_indexes) idx_name TreeShape.demo_tree).

Lemma index_calls_keep_other_indexes_witness :
  run_index two_indexes idx_name demo_ops = Ok two_indexes_after /\
  search two_indexes idx_name (KInt 10) = Ok None /\
  search two_indexes_after idx_name (KInt 10) = Ok (Some "a"%string) /\
  get_all_indexes two_indexes = [idx_name; oth_name] /\
  search two_indexes oth_name (KInt 10) = Ok (Some "a"%string) /\
  search two_indexes_after oth_name (KInt 10) = Ok (Some "a"%string) /\
  get_all_indexes two_indexes_after = get_all_indexes two_indexes /\
  forall other, other <> idx_name ->
    (forall key, search two_indexes_after other key = search two_indexes other key) /\
    (forall a b, range_search two_indexes_after other a b
                 = range_search two_indexes other a b).
Proof.
  split; [vm_compute; reflexivity|]. split; [vm_compute; reflexivity|].
  split; [vm_compute; reflexivity|]. split; [vm_compute; reflexivity|].
  split; [vm_compute; reflexivity|]. split; [vm_compute; reflexivity|].
  apply (index_calls_keep_other_indexes two_indexes idx_name demo_ops two_indexes_after).
  vm_compute. reflexivity.
Defined.

Lemma index_search_follows_the_calls_witness :
  exists im1 im2 : IndexManager string,
    create_index new idx_name false = Ok (im1, idx_name) /\
    run_index im1 idx_name demo_ops = Ok im2 /\
    forall key kb, _serialize_key key = Ok kb ->
                   search im2 idx_name key = Ok (contents ∅ demo_ops !! kb).
Proof.
  apply (index_search_follows_the_calls new idx_name false demo_ops).
  - intros H. by apply elem_of_nil in H.
  - vm_compute. reflexivity.
Defined.

Lemma create_index_adds_an_empty_index_witness :
  exists im' : IndexManager string,
    create_index new idx_name true = Ok (im', idx_name) /\
    get_all_indexes im' = get_all_indexes (@new string) ++ [idx_name].
Proof.
  destruct (proj2 (create_index_adds_an_empty_index (@new string) idx_name true))
    as (_ & im' & H1 & _ & H2 & _).
  - intros H. by apply elem_of_nil in H.
  - exists im'. split; [exact H1|exact H2].
Defined.

Lemma drop_index_removes_the_index_witness :
  exists im' : IndexManager string,
    drop_index (set_indexes new (dict_set [] idx_name (Simple.new 4))) idx_name
    = Ok im' /\
    idx_name ∉ get_all_indexes im'.
Proof.
  destruct (proj2 (drop_index_removes_the_index
                     (set_indexes (@new string) (dict_set [] idx_name (Simple.new 4)))
                     idx_name))
    as (im' & H1 & _ & H2 & _).
  - cbn. constructor.
  - exists im'. split; [exact H1|exact H2].
Defined.

End ManagerFacts.


(** * The tree of bplus_tree.py after its first split *)

Module FirstSplit.
Import BPlusTreeKeys BPlusTree.

#[local] Arguments bytes_ltb : simpl never.
#[local] Arguments insert_at : simpl never.
#[local] Arguments bytes_leb : simpl never.

(** A tree that is one leaf, with the default configuration. *)
Definition one_leaf (tid : Z) (ks : list bytes) (vs : list Z) (d : bool) : BPlusTree :=
  {| tree_id := tid; config := default_config; root_node_id := 0; next_node_id := 1;
     heap := [{| node_id := 0; node_type := LEAF; keys := ks; children := vs;
                 next_leaf := None; parent := None; dirty := d |}];
     node_cache := [(0, O)] |}.

(** The tree after the leaf with the keys [a], [b], [c] was split. *)
Definition split_tree (tid : Z) (a b c : bytes) (va vb vc : Z) : BPlusTree :=
  {| tree_id := tid; config := default_config; root_node_id := 2; next_node_id := 3;
     heap := [{| node_id := 0; node_type := LEAF; keys := [a]; children := [va];
                 next_leaf := Some (-1); parent := Some 2; dirty := true |};
              {| node_id := 1; node_type := LEAF; keys := [b; c]; children := [vb; vc];
                 next_leaf := None; parent := Some 2; dirty := true |};
              {| node_id := 2; node_type := INTERNAL; keys := [b]; children := [0; 1];
                 next_leaf := None; parent := None; dirty := false |}];
     node_cache := [(0, O); (1, 1%nat); (2, 2%nat)] |}.

Lemma new_one_leaf tid : new tid None = one_leaf tid [] [] false.
Proof. reflexivity. Qed.

(** An insert into the leaf that leaves it with fewer than three keys. *)
Lemma insert_one_leaf tid ks vs d key s v :
  _serialize_key default_config key = Ok s -> (length ks < 2)%nat ->
  insert (one_leaf tid ks vs d) key v
  = Ok (one_leaf tid (insert_at (count_while (fun k => bytes_ltb k s) ks) s ks)
          (insert_at (count_while (fun k => bytes_ltb k s) ks) v vs) true).
Proof.
  intros Hs Hl. unfold insert. cbn [config one_leaf]. rewrite Hs.
  cbn [mbind result_bind]. unfold _find_leaf_for_insert, _get_node. simpl.
  unfold is_full, max_keys. simpl. rewrite length_insert_at.
  destruct (Z.leb_spec (4 - 1) (Z.of_nat (S (length ks)))); [lia|]. reflexivity.
Qed.

(** The insert that gives the leaf its third key splits it. *)
Lemma insert_third tid ks vs d key s v a b c va vb vc :
  _serialize_key default_config key = Ok s ->
  insert_at (count_while (fun k => bytes_ltb k s) ks) s ks = [a; b; c] ->
  insert_at (count_while (fun k => bytes_ltb k s) ks) v vs = [va; vb; vc] ->
  insert (one_leaf tid ks vs d) key v = Ok (split_tree tid a b c va vb vc).
Proof.
  intros Hs Hk Hv. unfold insert. cbn [config one_leaf]. rewrite Hs.
  cbn [mbind result_bind]. unfold _find_leaf_for_insert, _get_node. simpl.
  rewrite Hk, Hv. reflexivity.
Qed.

Section three_keys.
Variables (a b c : bytes) (va vb vc : Z).
Hypothesis Hab : blt a b.
Hypothesis Hbc : blt b c.

Lemma cmp_ab : bytes_ltb a b = true. Proof. exact Hab. Qed.
Lemma cmp_bc : bytes_ltb b c = true. Proof. exact Hbc. Qed.
Lemma cmp_ac : bytes_ltb a c = true. Proof. exact (blt_trans _ _ _ Hab Hbc). Qed.
Lemma cmp_ba : bytes_ltb b a = false.
Proof.
  destruct (bytes_ltb b a) eqn:E; [|done].
  pose proof (bytes_ltb_trans _ _ _ cmp_ab E) as H. by rewrite bytes_ltb_irrefl in H.
Qed.
Lemma cmp_cb : bytes_ltb c b = false.
Proof.
  destruct (bytes_ltb c b) eqn:E; [|done].
  pose proof (bytes_ltb_trans _ _ _ cmp_bc E) as H. by rewrite bytes_ltb_irrefl in H.
Qed.
Lemma cmp_ca : bytes_ltb c a = false.
Proof.
  destruct (bytes_ltb c a) eqn:E; [|done].
  pose proof (bytes_ltb_trans _ _ _ cmp_ac E) as H. by rewrite bytes_ltb_irrefl in H.
Qed.

Lemma ne_ab : a <> b.
Proof. intros E. pose proof cmp_ab as H. rewrite E in H. by rewrite bytes_ltb_irrefl in H. Qed.
Lemma ne_bc : b <> c.
Proof. intros E. pose proof cmp_bc as H. rewrite E in H. by rewrite bytes_ltb_irrefl in H. Qed.
Lemma ne_ac : a <> c.
Proof. intros E. pose proof cmp_ac as H. rewrite E in H. by rewrite bytes_ltb_irrefl in H. Qed.

End three_keys.

Ltac compare a b c Hab Hbc :=
  rewrite ?(cmp_ab a b Hab), ?(cmp_bc b c Hbc), ?(cmp_ac a b c Hab Hbc),
    ?(cmp_ba a b Hab), ?(cmp_cb b c Hbc), ?(cmp_ca a b c Hab Hbc),
    ?bytes_ltb_irrefl.

(** The three inserts of the keys [a < b < c], in any order, leave the
    split tree. *)
Lemma three_inserts tid ka kb kc a b c va vb vc (pairs : list (pykey * Z)) :
  _serialize_key default_config ka = Ok a ->
  _serialize_key default_config kb = Ok b ->
  _serialize_key default_config kc = Ok c ->
  blt a b -> blt b c ->
  pairs ∈ permutations [(ka, va); (kb, vb); (kc, vc)] ->
  foldl (fun r p => t ← r; insert t p.1 p.2) (Ok (new tid None)) pairs
  = Ok (split_tree tid a b c va vb vc).
Proof.
  intros Ha Hb Hc Hab Hbc Hp. rewrite new_one_leaf.
  cbn in Hp. rewrite !elem_of_cons in Hp. rewrite elem_of_nil in Hp.
  destruct Hp as [->|[->|[->|[->|[->|[->|[]]]]]]]; cbn [foldl fst snd mbind result_bind].
  all: repeat (first
    [ erewrite insert_one_leaf; [|eassumption|cbn [length]; lia];
      cbn [mbind result_bind count_while];
      compare a b c Hab Hbc; unfold insert_at; cbn [take drop app length]
    | erewrite insert_third; [reflexivity|eassumption| |];
      cbn [count_while]; compare a b c Hab Hbc; reflexivity ]).
Qed.

(** The tree that the three inserts leave. *)
Definition inserted (tid : Z) (pairs : list (pykey * Z)) : result BPlusTree :=
  foldl (fun r p => t ← r; insert t p.1 p.2) (Ok (new tid None)) pairs.

(** Where the descent from the root of the split tree ends. *)
Lemma find_leaf_left tid a b c va vb vc s :
  ble s b ->
  _find_leaf_for_search (split_tree tid a b c va vb vc) s = Ok O.
Proof.
  intros Hs. unfold _find_leaf_for_search, _find_leaf_for_insert, _get_node. simpl.
  unfold get_child_for_key, find_key_position. simpl.
  case_bool_decide as E; [reflexivity|].
  destruct (bytes_ltb s b) eqn:E2; [reflexivity|].
  destruct E. symmetry. by apply bytes_ltb_total.
Qed.

Lemma find_leaf_right tid a b c va vb vc s :
  blt b s ->
  _find_leaf_for_search (split_tree tid a b c va vb vc) s = Ok 1%nat.
Proof.
  intros Hs. unfold _find_leaf_for_search, _find_leaf_for_insert, _get_node. simpl.
  unfold get_child_for_key, find_key_position. simpl.
  rewrite bool_decide_eq_false_2.
  2:{ intros ->. by apply (blt_irrefl s). }
  by rewrite (bytes_ltb_asym _ _ Hs).
Qed.

(** X25. After a default tree of bplus_tree.py got three keys whose
    byte strings are a < b < c, in any order of the inserts, the leaf was
    split once, and search returns the values of the smallest and of the
    largest key, but None for the middle key: the key promoted to the root
    is looked up in the left leaf, while the split put it into the right
    one. *)
Theorem search_misses_the_promoted_key tid ka kb kc a b c va vb vc pairs t :
  _serialize_key default_config ka = Ok a ->
  _serialize_key default_config kb = Ok b ->
  _serialize_key default_config kc = Ok c ->
  blt a b -> blt b c ->
  pairs ∈ permutations [(ka, va); (kb, vb); (kc, vc)] ->
  inserted tid pairs = Ok t ->
  search t ka = Ok (Some va) /\ search t kb = Ok None /\ search t kc = Ok (Some vc).
Proof.
  intros Ha Hb Hc Hab Hbc Hp Ht. unfold inserted in Ht.
  rewrite (three_inserts tid ka kb kc a b c va vb vc pairs Ha Hb Hc Hab Hbc Hp) in Ht.
  injection Ht as <-. unfold search. cbn [config split_tree]. rewrite Ha, Hb, Hc.
  cbn [mbind result_bind].
  rewrite (find_leaf_left tid a b c va vb vc a) by (by apply blt_ble).
  rewrite (find_leaf_left tid a b c va vb vc b) by apply ble_refl.
  rewrite (find_leaf_right tid a b c va vb vc c) by done.
  simpl. unfold find_key_position. simpl.
  rewrite (bool_decide_eq_true_2 (a = a)), (bool_decide_eq_true_2 (c = c)) by done.
  rewrite (bool_decide_eq_false_2 (a = b)) by (by apply ne_ab).
  rewrite (bool_decide_eq_false_2 (b = c)) by (by apply ne_bc).
  rewrite (cmp_ba a b Hab), (cmp_cb b c Hbc). done.
Qed.

Lemma search_misses_the_promoted_key_witness :
  exists t, inserted 7 [(KInt 2, 20); (KInt 3, 30); (KInt 1, 10)] = Ok t /\
    search t (KInt 1) = Ok (Some 10) /\ search t (KInt 2) = Ok None /\
    search t (KInt 3) = Ok (Some 30).
Proof.
  eexists. split; [vm_compute; reflexivity|].
  apply (search_misses_the_promoted_key 7 (KInt 1) (KInt 2) (KInt 3)
           (le_bytes 8 1) (le_bytes 8 2) (le_bytes 8 3) 10 20 30
           [(KInt 2, 20); (KInt 3, 30); (KInt 1, 10)]).
  - reflexivity.
  - reflexivity.
  - reflexivity.
  - reflexivity.
  - reflexivity.
  - cbn. repeat constructor.
  - vm_compute. reflexivity.
Defined.

(** X26. On the tree that three inserts with keys a < b < c leave, the
    iteration of range_search from a start key not above b to an end key
    above a raises ValueError: it yields the value of a, if a is in the
    range, and then follows the next_leaf of the left leaf, which the split
    set to the id -1 the new leaf had before it got its own. The values of
    b and c are never yielded. *)
Theorem range_search_fails_after_the_first_split
  tid ka kb kc a b c va vb vc pairs t start_key end_key s e :
  _serialize_key default_config ka = Ok a ->
  _serialize_key default_config kb = Ok b ->
  _serialize_key default_config kc = Ok c ->
  blt a b -> blt b c ->
  pairs ∈ permutations [(ka, va); (kb, vb); (kc, vc)] ->
  inserted tid pairs = Ok t ->
  _serialize_key default_config start_key = Ok s ->
  _serialize_key default_config end_key = Ok e ->
  ble s b -> blt a e ->
  range_search t start_key end_key
  = (if bytes_leb s a then [va] else [], Some ValueError).
Proof.
  intros Ha Hb Hc Hab Hbc Hp Ht Hs He Hsb Hae. unfold inserted in Ht.
  rewrite (three_inserts tid ka kb kc a b c va vb vc pairs Ha Hb Hc Hab Hbc Hp) in Ht.
  injection Ht as <-. unfold range_search. cbn [config split_tree]. rewrite Hs, He.
  rewrite (find_leaf_left tid a b c va vb vc s Hsb).
  simpl. rewrite Hae. by destruct (bytes_leb s a).
Qed.

Lemma range_search_fails_after_the_first_split_witness :
  exists t, inserted 7 [(KInt 2, 20); (KInt 3, 30); (KInt 1, 10)] = Ok t /\
    range_search t (KInt 0) (KInt 4) = ([10], Some ValueError).
Proof.
  eexists. split; [vm_compute; reflexivity|].
  apply (range_search_fails_after_the_first_split 7 (KInt 1) (KInt 2) (KInt 3)
           (le_bytes 8 1) (le_bytes 8 2) (le_bytes 8 3) 10 20 30
           [(KInt 2, 20); (KInt 3, 30); (KInt 1, 10)] _ (KInt 0) (KInt 4)
           (le_bytes 8 0) (le_bytes 8 4)).
  - reflexivity.
  - reflexivity.
  - reflexivity.
  - reflexivity.
  - reflexivity.
  - cbn. repeat constructor.
  - vm_compute. reflexivity.
  - reflexivity.
  - reflexivity.
  - reflexivity.
  - reflexivity.
Defined.

(** X27. On the same tree delete does not find the middle key either: it
    returns False and leaves every node as it was, so the key stays in the
    right leaf and in the root. *)
Theorem delete_misses_the_promoted_key tid ka kb kc a b c va vb vc pairs t :
  _serialize_key default_config ka = Ok a ->
  _serialize_key default_config kb = Ok b ->
  _serialize_key default_config kc = Ok c ->
  blt a b -> blt b c ->
  pairs ∈ permutations [(ka, va); (kb, vb); (kc, vc)] ->
  inserted tid pairs = Ok t ->
  delete t kb = Ok (t, false).
Proof.
  intros Ha Hb Hc Hab Hbc Hp Ht. unfold inserted in Ht.
  rewrite (three_inserts tid ka kb kc a b c va vb vc pairs Ha Hb Hc Hab Hbc Hp) in Ht.
  injection Ht as <-. unfold delete. cbn [config split_tree]. rewrite Hb.
  cbn [mbind result_bind].
  rewrite (find_leaf_left tid a b c va vb vc b) by apply ble_refl.
  simpl. unfold find_key_position. simpl.
  rewrite (bool_decide_eq_false_2 (a = b)) by (by apply ne_ab).
  rewrite (cmp_ba a b Hab). done.
Qed.

Lemma delete_misses_the_promoted_key_witness :
  exists t, inserted 7 [(KInt 2, 20); (KInt 3, 30); (KInt 1, 10)] = Ok t /\
    delete t (KInt 2) = Ok (t, false).
Proof.
  eexists. split; [vm_compute; reflexivity|].
  apply (delete_misses_the_promoted_key 7 (KInt 1) (KInt 2) (KInt 3)
           (le_bytes 8 1) (le_bytes 8 2) (le_bytes 8 3) 10 20 30
           [(KInt 2, 20); (KInt 3, 30); (KInt 1, 10)]).
  - reflexivity.
  - reflexivity.
  - reflexivity.
  - reflexivity.
  - reflexivity.
  - cbn. repeat constructor.
  - vm_compute. reflexivity.
Defined.

End FirstSplit.
